(** * Generalized-pruning DAG of libsbn: construction, indexing and schedules

    A shallow embedding of [src/gp_dag.cpp].  Containers keep their shape:
    [std::vector] is a list, [std::unordered_map] a [gmap],
    [std::unordered_set] a [gset].  Every fatal path of the source
    ([Failwith], a failed [Assert], [.at] on a missing key, an index past the
    end of a vector) is the [None] of the option monad.  Positions in vectors
    and the counters that number map entries are [nat]; the flat buffer
    indices computed by [GetPLVIndexStatic] are [size_t] arithmetic, written
    over [N] with the wrap-around at [2^64] spelled out.

    The module [beagle] at the end embeds the symbol coding of
    [src/beagle.cpp]. *)

From Stdlib Require Import NArith Lia.
From stdpp Require Import gmap list sets option numbers sorting strings.

#[local] Set Warnings "-clear-no-such-hyp".

Open Scope N_scope.
Open Scope nat_scope.

(** ** Bitsets and the subsplit algebra *)

Module Bitset.

(** Modelled from the spec: [Bitset(n)] of bitset.hpp, which is not among
    the sources; a fixed-length bit vector (section 4.1), here [n] cleared
    bits. *)
Definition zero (n : nat) : list bool := replicate n false.

(** Modelled from the spec: [Bitset::set(i)] of bitset.hpp; sets bit [i]. *)
Definition set (i : nat) (b : list bool) : list bool := <[i := true]> b.

(** Modelled from the spec: [operator+] of bitset.hpp; section 4.1,
    concatenation of two bit vectors. *)
Definition concat (a b : list bool) : list bool := a ++ b.

(** Modelled from the spec: [operator~] of bitset.hpp; the complement used
    in "rootsplit + complement(rootsplit)" (section 3). *)
Definition complement (a : list bool) : list bool := negb <$> a.

(** Modelled from the spec: [Bitset::SplitChunk(i)] of bitset.hpp; section
    4.1, "chunk(i) (extract clade i)" of a subsplit, which has two chunks. *)
Definition SplitChunk (i : nat) (b : list bool) : list bool :=
  let half := length b / 2 in
  match i with
  | 0 => take half b
  | _ => drop half b
  end.

(** Modelled from the spec: [Bitset::RotateSubsplit()] of bitset.hpp;
    section 4.1, "rotate (swap the two clade halves)". *)
Definition RotateSubsplit (b : list bool) : list bool :=
  concat (SplitChunk 1 b) (SplitChunk 0 b).

(** Modelled from the spec: [Bitset::Any()] of bitset.hpp; section 4.1,
    "isAny": some bit is set. *)
Definition Any (b : list bool) : bool := existsb id b.

(** Positions of the set bits, ascending, counted from [i]. *)
Fixpoint ones_from (i : nat) (b : list bool) : list nat :=
  match b with
  | [] => []
  | x :: b' => (if x then [i] else []) ++ ones_from (S i) b'
  end.

(** Modelled from the spec: [Bitset::SingletonOption()] of bitset.hpp;
    section 4.1, "singletonTaxon": the position of the only set bit, when
    there is exactly one. *)
Definition SingletonOption (b : list bool) : option nat :=
  match ones_from 0 b with
  | [i] => Some i
  | _ => None
  end.

End Bitset.

Abbreviation Bitset := (list bool).
Infix "+b" := Bitset.concat (at level 50, left associativity).
Notation "~b x" := (Bitset.complement x) (at level 35, right associativity).

(** ** Partial-likelihood-vector kinds and flat indices *)

(** The six buffer kinds of [PLVType].  [PLV_INVALID] stands for any value
    of the enumeration type that is none of the six enumerators; it is what
    reaches the [default:] branch of [GetPLVIndexStatic]. *)
Inductive PLVType : Type :=
| P | P_HAT | P_HAT_TILDE | R_HAT | R | R_TILDE
| PLV_INVALID (raw : N).

(** [size_t] is 64 bits wide. *)
Definition size_t_modulus : N := (2 ^ 64)%N.
Definition wrap (x : N) : N := (x mod size_t_modulus)%N.

Definition GetPLVIndexStatic (plv_type : PLVType) (node_count src_idx : N)
  : option N :=
  match plv_type with
  | P => Some src_idx
  | P_HAT => Some (wrap (node_count + src_idx))
  | P_HAT_TILDE => Some (wrap (wrap (2 * node_count) + src_idx))
  | R_HAT => Some (wrap (wrap (3 * node_count) + src_idx))
  | R => Some (wrap (wrap (4 * node_count) + src_idx))
  | R_TILDE => Some (wrap (wrap (5 * node_count) + src_idx))
  | PLV_INVALID _ => None
  end.

(** The multiplier the specification calls [kind_offset]. *)
Definition kind_offset (plv_type : PLVType) : option N :=
  match plv_type with
  | P => Some 0%N
  | P_HAT => Some 1%N
  | P_HAT_TILDE => Some 2%N
  | R_HAT => Some 3%N
  | R => Some 4%N
  | R_TILDE => Some 5%N
  | PLV_INVALID _ => None
  end.

Definition GetPLVIndex_of (node_count : nat) (plv_type : PLVType)
    (src_idx : nat) : option N :=
  GetPLVIndexStatic plv_type (N.of_nat node_count) (N.of_nat src_idx).

(** ** Operations handed to the engine *)

(** Modelled from the spec: the operation records of gp_operation.hpp, which
    is not among the sources; section 4.5 lists the instruction kinds and
    their operands.  [SetToStationaryDistribution] is built with and without
    a rootsplit index in gp_dag.cpp, hence the optional second field. *)
Inductive GPOperation : Type :=
| Zero (dest_idx : N)
| SetToStationaryDistribution (dest_idx : N) (root_gpcsp_idx : option nat)
| IncrementMarginalLikelihood (stationary_idx : N) (rootsplit_idx : nat)
    (p_idx : N)
| Multiply (dest_idx src1_idx src2_idx : N)
| Likelihood (dest_idx : nat) (parent_idx child_idx : N)
| EvolvePLVWeightedBySBNParameter (dest_idx : N) (gpcsp_idx : nat)
    (src_idx : N)
| OptimizeBranchLength (leafward_idx rootward_idx : N) (gpcsp_idx : nat)
| UpdateSBNProbabilities (start_idx stop_idx : nat).

#[global] Instance GPOperation_eq_dec : EqDecision GPOperation :=
  ltac:(solve_decision).

Abbreviation GPOperationVector := (list GPOperation).

(** ** DAG nodes *)

(** Modelled from the spec: the node class of gp_dag_node.hpp, which is not
    among the sources; section 3: identity is the integer id, and a node
    holds its subsplit and four adjacency lists (leafward/rootward, each
    sorted and rotated).  gp_dag.cpp reads the lists by position, so they
    are vectors in insertion order. *)
Record GPDAGNode : Type := MkGPDAGNode {
  id_ : nat;
  subsplit_ : Bitset;
  leafward_sorted : list nat;
  leafward_rotated : list nat;
  rootward_sorted : list nat;
  rootward_rotated : list nat
}.

Module Node.

Definition New (id : nat) (subsplit : Bitset) : GPDAGNode :=
  MkGPDAGNode id subsplit [] [] [] [].

Definition Id (n : GPDAGNode) : nat := id_ n.
Definition GetBitset (n : GPDAGNode) : Bitset := subsplit_ n.

(** [GetBitset(rotated)]: the subsplit, rotated on request. *)
Definition GetBitsetRot (n : GPDAGNode) (rotated : bool) : Bitset :=
  if rotated then Bitset.RotateSubsplit (subsplit_ n) else subsplit_ n.

Definition GetLeafwardSorted (n : GPDAGNode) := leafward_sorted n.
Definition GetLeafwardRotated (n : GPDAGNode) := leafward_rotated n.
Definition GetRootwardSorted (n : GPDAGNode) := rootward_sorted n.
Definition GetRootwardRotated (n : GPDAGNode) := rootward_rotated n.

Definition AddLeafwardSorted (x : nat) (n : GPDAGNode) : GPDAGNode :=
  MkGPDAGNode (id_ n) (subsplit_ n) (leafward_sorted n ++ [x])
    (leafward_rotated n) (rootward_sorted n) (rootward_rotated n).
Definition AddLeafwardRotated (x : nat) (n : GPDAGNode) : GPDAGNode :=
  MkGPDAGNode (id_ n) (subsplit_ n) (leafward_sorted n)
    (leafward_rotated n ++ [x]) (rootward_sorted n) (rootward_rotated n).
Definition AddRootwardSorted (x : nat) (n : GPDAGNode) : GPDAGNode :=
  MkGPDAGNode (id_ n) (subsplit_ n) (leafward_sorted n)
    (leafward_rotated n) (rootward_sorted n ++ [x]) (rootward_rotated n).
Definition AddRootwardRotated (x : nat) (n : GPDAGNode) : GPDAGNode :=
  MkGPDAGNode (id_ n) (subsplit_ n) (leafward_sorted n)
    (leafward_rotated n) (rootward_sorted n) (rootward_rotated n ++ [x]).

(** Leafward (resp. rootward) neighbours on the chosen side. *)
Definition Leafward (rotated : bool) (n : GPDAGNode) : list nat :=
  if rotated then leafward_rotated n else leafward_sorted n.
Definition Rootward (rotated : bool) (n : GPDAGNode) : list nat :=
  if rotated then rootward_rotated n else rootward_sorted n.

End Node.

(** ** The DAG and its index maps *)

Record GPDAG : Type := MkGPDAG {
  taxon_count_ : nat;
  rootsplit_and_pcsp_count_ : nat;
  rootsplits_ : list Bitset;
  parent_to_range_ : gmap Bitset (nat * nat);
  index_to_child_ : gmap nat Bitset;
  subsplit_to_index_ : gmap Bitset nat;
  dag_nodes_ : list GPDAGNode;
  gpcsp_indexer_ : gmap Bitset nat;
  subsplit_to_range_ : gmap Bitset (nat * nat)
}.

(** The default-constructed members a constructor starts from. *)
Definition empty_dag : GPDAG := MkGPDAG 0 0 [] ∅ ∅ ∅ [] ∅ ∅.

Definition with_nodes (nodes : list GPDAGNode) (d : GPDAG) : GPDAG :=
  MkGPDAG (taxon_count_ d) (rootsplit_and_pcsp_count_ d) (rootsplits_ d)
    (parent_to_range_ d) (index_to_child_ d) (subsplit_to_index_ d) nodes
    (gpcsp_indexer_ d) (subsplit_to_range_ d).

Definition with_subsplit_to_index (m : gmap Bitset nat) (d : GPDAG) : GPDAG :=
  MkGPDAG (taxon_count_ d) (rootsplit_and_pcsp_count_ d) (rootsplits_ d)
    (parent_to_range_ d) (index_to_child_ d) m (dag_nodes_ d)
    (gpcsp_indexer_ d) (subsplit_to_range_ d).

Definition with_indexer (m : gmap Bitset nat) (r : gmap Bitset (nat * nat))
    (d : GPDAG) : GPDAG :=
  MkGPDAG (taxon_count_ d) (rootsplit_and_pcsp_count_ d) (rootsplits_ d)
    (parent_to_range_ d) (index_to_child_ d) (subsplit_to_index_ d)
    (dag_nodes_ d) m r.

Definition NodeCount (d : GPDAG) : nat := length (dag_nodes_ d).
Definition RootsplitAndPCSPCount (d : GPDAG) : nat :=
  rootsplit_and_pcsp_count_ d.

Definition GetPLVIndex (d : GPDAG) (plv_type : PLVType) (src_idx : nat)
  : option N :=
  GetPLVIndex_of (length (dag_nodes_ d)) plv_type src_idx.

(** ** Helpers of the option monad *)

(** A loop whose body may abort: the state is threaded left to right. *)
Fixpoint foldM {A S : Type} (f : S → A → option S) (l : list A) (s : S)
  : option S :=
  match l with
  | [] => Some s
  | x :: l' => s' ← f s x; foldM f l' s'
  end.

(** Modelled from the spec: [SafeInsert] of sugar.hpp, which is not among
    the sources; its callers rely on the index maps being injective and
    built once (section 3), so an insertion under a key already present is
    fatal. *)
Definition SafeInsert `{Countable K} {V : Type} (m : gmap K V) (k : K) (v : V)
  : option (gmap K V) :=
  match m !! k with
  | Some _ => None
  | None => Some (<[k := v]> m)
  end.

(** Modelled from the spec: the [SafeInsert] overload of sugar.hpp for sets,
    fatal when the element is already present. *)
Definition SafeInsertSet `{Countable K} (s : gset K) (k : K)
  : option (gset K) :=
  if decide (k ∈ s) then None else Some ({[k]} ∪ s).

(** [a - b] on [size_t]: the difference modulo [2^64]. *)
Definition size_t_sub (a b : nat) : N :=
  wrap (N.of_nat a + (size_t_modulus - wrap (N.of_nat b))).

(** ** Input *)

(** Modelled from the spec: what the constructor reads of a
    [RootedTreeCollection] (generic_tree_collection.hpp and sbn_maps.cpp are
    not among the sources): the taxon count and the two counters harvested
    from the topologies, section 4.2 step 1, "(a) the set of distinct
    rootsplits and (b) per-parent multisets of distinct children".  Each
    counter is given as the sequence of its entries in iteration order. *)
Record RootedTreeCollection : Type := MkRootedTreeCollection {
  TaxonCount : nat;
  RootsplitCounterOf : list (Bitset * nat);
  PCSSCounterOf : list (Bitset * list (Bitset * nat))
}.

(** ** Construction *)

Section Construction.

(** [Bitset::ChildSubsplit(parent, child)] of bitset.hpp turns a harvested
    (parent, child clade) pair into the child's subsplit.  The sources do
    not contain it and the specification does not describe it; the
    construction is parametric in it. *)
Variable ChildSubsplit : Bitset → Bitset → Bitset.

Definition ProcessTrees_children (parent : Bitset)
    (st : gmap nat Bitset * nat) (child_iter : Bitset * nat)
  : option (gmap nat Bitset * nat) :=
  let '(itc, index) := st in
  itc' ← SafeInsert itc index (ChildSubsplit parent child_iter.1);
  Some (itc', S index).

Definition ProcessTrees_parent
    (st : gmap Bitset (nat * nat) * (gmap nat Bitset * nat))
    (entry : Bitset * list (Bitset * nat))
  : option (gmap Bitset (nat * nat) * (gmap nat Bitset * nat)) :=
  let '(ptr, (itc, index)) := st in
  let '(parent, child_counter) := entry in
  ptr' ← SafeInsert ptr parent (index, index + length child_counter);
  st' ← foldM (ProcessTrees_children parent) child_counter (itc, index);
  Some (ptr', st').

Definition ProcessTrees (tree_collection : RootedTreeCollection) (d : GPDAG)
  : option GPDAG :=
  let '(rootsplits, index) :=
    fold_left (λ '(rs, index) iter, (rs ++ [iter.1], S index))
      (RootsplitCounterOf tree_collection) (rootsplits_ d, 0) in
  '(ptr, (itc, index)) ←
    foldM ProcessTrees_parent (PCSSCounterOf tree_collection)
      (parent_to_range_ d, (index_to_child_ d, index));
  Some (MkGPDAG (TaxonCount tree_collection) index rootsplits ptr itc
          (subsplit_to_index_ d) (dag_nodes_ d) (gpcsp_indexer_ d)
          (subsplit_to_range_ d)).

Definition CreateAndInsertNode (subsplit : Bitset) (d : GPDAG)
  : option GPDAG :=
  let id := length (dag_nodes_ d) in
  m ← SafeInsert (subsplit_to_index_ d) subsplit id;
  Some (with_nodes (dag_nodes_ d ++ [Node.New id subsplit])
          (with_subsplit_to_index m d)).

Definition GetChildrenSubsplits (d : GPDAG) (subsplit : Bitset)
    (include_fake_subsplits : bool) : option (list Bitset) :=
  match parent_to_range_ d !! subsplit with
  | Some (start, stop) =>
      mapM (λ idx, index_to_child_ d !! idx) (seq start (stop - start))
  | None =>
      if include_fake_subsplits
         && Bitset.Any (Bitset.SplitChunk 0 subsplit)
         && bool_decide (is_Some (Bitset.SingletonOption
                                    (Bitset.SplitChunk 1 subsplit)))
      then
        let zero := Bitset.zero (length subsplit / 2) in
        Some [zero +b Bitset.SplitChunk 1 subsplit]
      else Some []
  end.

Definition ConnectNodes_child (d : GPDAG) (idx : nat) (rotated : bool)
    (node : GPDAGNode) (nodes : list GPDAGNode) (child_subsplit : Bitset)
  : option (list GPDAGNode) :=
  child_idx ← subsplit_to_index_ d !! child_subsplit;
  child_node ← nodes !! child_idx;
  if rotated then
    Some (alter (Node.AddRootwardRotated (Node.Id node)) child_idx
            (alter (Node.AddLeafwardRotated (Node.Id child_node)) idx nodes))
  else
    Some (alter (Node.AddRootwardSorted (Node.Id node)) child_idx
            (alter (Node.AddLeafwardSorted (Node.Id child_node)) idx nodes)).

Definition ConnectNodes (idx : nat) (rotated : bool) (d : GPDAG)
  : option GPDAG :=
  node ← dag_nodes_ d !! idx;
  let subsplit := Node.GetBitsetRot node rotated in
  children ← GetChildrenSubsplits d subsplit true;
  nodes ← foldM (ConnectNodes_child d idx rotated node) children
                (dag_nodes_ d);
  Some (with_nodes nodes d).

Definition BuildNodes_visit
    (rec : Bitset → GPDAG * gset Bitset → option (GPDAG * gset Bitset))
    (st : GPDAG * gset Bitset) (child_subsplit : Bitset)
  : option (GPDAG * gset Bitset) :=
  if decide (child_subsplit ∈ st.2) then Some st else rec child_subsplit st.

Fixpoint BuildNodesDepthFirst (fuel : nat) (subsplit : Bitset)
    (st : GPDAG * gset Bitset) : option (GPDAG * gset Bitset) :=
  match fuel with
  | 0 => None
  | S fuel' =>
      let st := (st.1, {[subsplit]} ∪ st.2) in
      children_subsplits ← GetChildrenSubsplits st.1 subsplit false;
      st ← foldM (BuildNodes_visit (BuildNodesDepthFirst fuel'))
                 children_subsplits st;
      children_subsplits ←
        GetChildrenSubsplits st.1 (Bitset.RotateSubsplit subsplit) false;
      st ← foldM (BuildNodes_visit (BuildNodesDepthFirst fuel'))
                 children_subsplits st;
      d ← CreateAndInsertNode subsplit st.1;
      Some (d, st.2)
  end.

Definition BuildNodes_fake (d : GPDAG) (taxon_idx : nat) : option GPDAG :=
  let zero := Bitset.zero (taxon_count_ d) in
  let fake := Bitset.set taxon_idx (Bitset.zero (taxon_count_ d)) in
  CreateAndInsertNode (zero +b fake) d.

Definition BuildNodes (fuel : nat) (d : GPDAG) : option GPDAG :=
  d ← foldM BuildNodes_fake (seq 0 (taxon_count_ d)) d;
  st ← foldM (λ st rootsplit,
                BuildNodesDepthFirst fuel (rootsplit +b ~b rootsplit) st)
             (rootsplits_ d) (d, ∅);
  Some st.1.

Definition BuildEdges (d : GPDAG) : option GPDAG :=
  foldM (λ d i, d ← ConnectNodes i false d; ConnectNodes i true d)
    (seq (taxon_count_ d) (length (dag_nodes_ d) - taxon_count_ d)) d.

(** [IterateOverRealNodes(f)], with the state [f] captures by reference
    threaded through. *)
Definition IterateOverRealNodes {S : Type} (d : GPDAG)
    (f : S → GPDAGNode → option S) (s : S) : option S :=
  if decide (taxon_count_ d < length (dag_nodes_ d)) then
    foldM f (drop (taxon_count_ d) (dag_nodes_ d)) s
  else None.

Definition BuildPCSPIndexer_child (d : GPDAG) (parent : Bitset)
    (st : gmap Bitset nat * nat) (child_idx : nat)
  : option (gmap Bitset nat * nat) :=
  let '(indexer, idx) := st in
  child ← dag_nodes_ d !! child_idx;
  indexer ← SafeInsert indexer (parent +b Node.GetBitset child) idx;
  Some (indexer, S idx).

Definition BuildPCSPIndexer_side (d : GPDAG) (parent : Bitset)
    (children : list nat)
    (st : gmap Bitset nat * gmap Bitset (nat * nat) * nat)
  : option (gmap Bitset nat * gmap Bitset (nat * nat) * nat) :=
  let '(indexer, ranges, idx) := st in
  let child_count := length children in
  if decide (0 < child_count) then
    ranges ← SafeInsert ranges parent (idx, idx + child_count);
    '(indexer, idx) ←
      foldM (BuildPCSPIndexer_child d parent) children (indexer, idx);
    Some (indexer, ranges, idx)
  else Some st.

Definition BuildPCSPIndexer_node (d : GPDAG)
    (st : gmap Bitset nat * gmap Bitset (nat * nat) * nat)
    (node : GPDAGNode)
  : option (gmap Bitset nat * gmap Bitset (nat * nat) * nat) :=
  st ← BuildPCSPIndexer_side d (Node.GetBitset node)
         (Node.GetLeafwardSorted node) st;
  BuildPCSPIndexer_side d (Bitset.RotateSubsplit (Node.GetBitset node))
    (Node.GetLeafwardRotated node) st.

Definition BuildPCSPIndexer_root (st : gmap Bitset nat * nat)
    (rootsplit : Bitset) : option (gmap Bitset nat * nat) :=
  let '(indexer, idx) := st in
  indexer ← SafeInsert indexer (rootsplit +b ~b rootsplit) idx;
  Some (indexer, S idx).

Definition BuildPCSPIndexer (d : GPDAG) : option GPDAG :=
  '(indexer, idx) ←
    foldM BuildPCSPIndexer_root (rootsplits_ d) (gpcsp_indexer_ d, 0);
  '(indexer, ranges, idx) ←
    IterateOverRealNodes d (BuildPCSPIndexer_node d)
      (indexer, subsplit_to_range_ d, idx);
  Some (with_indexer indexer ranges d).

(** The constructor [GPDAG(tree_collection)]. *)
Definition GPDAG_of (fuel : nat) (tree_collection : RootedTreeCollection)
  : option GPDAG :=
  d ← ProcessTrees tree_collection empty_dag;
  d ← BuildNodes fuel d;
  d ← BuildEdges d;
  BuildPCSPIndexer d.

End Construction.

(** ** Traversal orders *)

Definition DepthFirst_visit
    (rec : nat → list nat * gset nat → option (list nat * gset nat))
    (st : list nat * gset nat) (child_id : nat)
  : option (list nat * gset nat) :=
  if decide (child_id ∈ st.2) then Some st else rec child_id st.

(** The state is the pair (visit_order, visited_nodes), both passed by
    reference in the source. *)
Fixpoint RootwardDepthFirst (fuel : nat) (dag_nodes : list GPDAGNode)
    (id : nat) (st : list nat * gset nat) : option (list nat * gset nat) :=
  match fuel with
  | 0 => None
  | S fuel' =>
      visited ← SafeInsertSet st.2 id;
      let st := (st.1, visited) in
      node ← dag_nodes !! id;
      st ← foldM (DepthFirst_visit (RootwardDepthFirst fuel' dag_nodes))
                 (Node.GetRootwardSorted node) st;
      node ← dag_nodes !! id;
      st ← foldM (DepthFirst_visit (RootwardDepthFirst fuel' dag_nodes))
                 (Node.GetRootwardRotated node) st;
      Some (st.1 ++ [id], st.2)
  end.

Fixpoint LeafwardDepthFirst (fuel : nat) (dag_nodes : list GPDAGNode)
    (id : nat) (st : list nat * gset nat) : option (list nat * gset nat) :=
  match fuel with
  | 0 => None
  | S fuel' =>
      visited ← SafeInsertSet st.2 id;
      let st := (st.1, visited) in
      node ← dag_nodes !! id;
      st ← foldM (DepthFirst_visit (LeafwardDepthFirst fuel' dag_nodes))
                 (Node.GetLeafwardSorted node) st;
      node ← dag_nodes !! id;
      st ← foldM (DepthFirst_visit (LeafwardDepthFirst fuel' dag_nodes))
                 (Node.GetLeafwardRotated node) st;
      Some (st.1 ++ [id], st.2)
  end.

Definition LeafwardPassTraversal (fuel : nat) (d : GPDAG)
  : option (list nat) :=
  st ← foldM (λ st leaf_idx, RootwardDepthFirst fuel (dag_nodes_ d) leaf_idx st)
             (seq 0 (taxon_count_ d)) ([], ∅);
  Some st.1.

Definition RootwardPassTraversal (fuel : nat) (d : GPDAG)
  : option (list nat) :=
  st ← foldM (λ st rootsplit,
                root_idx ← subsplit_to_index_ d !! (rootsplit +b ~b rootsplit);
                LeafwardDepthFirst fuel (dag_nodes_ d) root_idx st)
             (rootsplits_ d) ([], ∅);
  Some st.1.

(** ** Parameter counts *)

(** [GeneralizedPCSPCount()]: the harvested count and one parameter for
    every rootward entry of a fake leaf. *)
Definition GeneralizedPCSPCount (d : GPDAG) : option nat :=
  fake_subsplit_parameter_count ←
    foldM (λ count taxon_idx,
             node ← dag_nodes_ d !! taxon_idx;
             Some (count + length (Node.GetRootwardRotated node)
                   + length (Node.GetRootwardSorted node)))
      (seq 0 (taxon_count_ d)) 0;
  Some (RootsplitAndPCSPCount d + fake_subsplit_parameter_count).

(** ** The uniform parameter vector *)

Section UniformQ.
(** The entries of the vector are doubles: [one] is [1.] and
    [one_over n] is [1. / n] for a [size_t] value [n]. *)
Context {double : Type} (one : double) (one_over : N → double).

(** [q.segment(start, n).array() = val] of Eigen: the [n] entries from
    [start] on become [val]; a segment that does not lie inside the vector
    is fatal. *)
Definition segment_assign (q : list double) (start : nat) (n : N)
    (val : double) : option (list double) :=
  if decide (start + N.to_nat n ≤ length q)
  then Some (list_inserts start (replicate (N.to_nat n) val) q)
  else None.

(** [BuildUniformQ()], with the entries of [subsplit_to_range_] visited in
    the order [ranges]: the iteration order of the unordered map is not
    fixed by the code. *)
Definition BuildUniformQ_in (ranges : list (Bitset * (nat * nat)))
    (d : GPDAG) : option (list double) :=
  count ← GeneralizedPCSPCount d;
  let rootsplit_count := N.of_nat (length (rootsplits_ d)) in
  q ← segment_assign (replicate count one) 0 rootsplit_count
         (one_over rootsplit_count);
  foldM (λ q entry,
           let range := entry.2 in
           let num_child_subsplits := size_t_sub range.2 range.1 in
           let val := one_over num_child_subsplits in
           segment_assign q range.1 num_child_subsplits val)
    ranges q.

Definition BuildUniformQ (d : GPDAG) : option (list double) :=
  BuildUniformQ_in (map_to_list (subsplit_to_range_ d)) d.
End UniformQ.

(** ** Operation-vector generators without recursion *)

Definition ComputeLikelihoods_sorted (d : GPDAG) (node : GPDAGNode)
    (operations : GPOperationVector) (child_idx : nat)
  : option GPOperationVector :=
  child_node ← dag_nodes_ d !! child_idx;
  gpcsp_idx ←
    gpcsp_indexer_ d !! (Node.GetBitset node +b Node.GetBitset child_node);
  r ← GetPLVIndex d R (Node.Id node);
  p ← GetPLVIndex d P (Node.Id child_node);
  Some (operations ++ [Likelihood gpcsp_idx r p]).

Definition ComputeLikelihoods_rotated (d : GPDAG) (node : GPDAGNode)
    (operations : GPOperationVector) (child_idx : nat)
  : option GPOperationVector :=
  child_node ← dag_nodes_ d !! child_idx;
  gpcsp_idx ←
    gpcsp_indexer_ d !! (Bitset.RotateSubsplit (Node.GetBitset node)
                         +b Node.GetBitset child_node);
  r ← GetPLVIndex d R_TILDE (Node.Id node);
  p ← GetPLVIndex d P (Node.Id child_node);
  Some (operations ++ [Likelihood gpcsp_idx r p]).

Definition MarginalLikelihood_step (d : GPDAG)
    (operations : GPOperationVector) (entry : nat * Bitset)
  : option GPOperationVector :=
  let '(rootsplit_idx, rootsplit) := entry in
  let root_subsplit := rootsplit +b ~b rootsplit in
  root_idx ← subsplit_to_index_ d !! root_subsplit;
  r_hat ← GetPLVIndex d R_HAT root_idx;
  p ← GetPLVIndex d P root_idx;
  Some (operations ++ [IncrementMarginalLikelihood r_hat rootsplit_idx p]).

(** The rootsplits paired with their positions: the loops over
    [rootsplit_idx] read [rootsplits_[rootsplit_idx]]. *)
Definition indexed_rootsplits (d : GPDAG) : list (nat * Bitset) :=
  imap (λ i r, (i, r)) (rootsplits_ d).

Definition MarginalLikelihood (d : GPDAG) : option GPOperationVector :=
  foldM (MarginalLikelihood_step d) (indexed_rootsplits d) [].

Definition ComputeLikelihoods (d : GPDAG) : option GPOperationVector :=
  operations ←
    IterateOverRealNodes d
      (λ operations node,
         operations ← foldM (ComputeLikelihoods_sorted d node)
                        (Node.GetLeafwardSorted node) operations;
         foldM (ComputeLikelihoods_rotated d node)
           (Node.GetLeafwardRotated node) operations)
      [];
  marginal_likelihood_operations ← MarginalLikelihood d;
  Some (operations ++ marginal_likelihood_operations).

Definition SetRhatToStationary_step (d : GPDAG)
    (operations : GPOperationVector) (entry : nat * Bitset)
  : option GPOperationVector :=
  let '(rootsplit_idx, rootsplit) := entry in
  root_idx ← subsplit_to_index_ d !! (rootsplit +b ~b rootsplit);
  r_hat ← GetPLVIndex d R_HAT root_idx;
  Some (operations ++ [SetToStationaryDistribution r_hat (Some rootsplit_idx)]).

Definition SetRhatToStationary (d : GPDAG) : option GPOperationVector :=
  foldM (SetRhatToStationary_step d) (indexed_rootsplits d) [].

Definition SetRootwardZero_step (d : GPDAG) (operations : GPOperationVector)
    (i : nat) : option GPOperationVector :=
  p ← GetPLVIndex d P i;
  p_hat ← GetPLVIndex d P_HAT i;
  p_hat_tilde ← GetPLVIndex d P_HAT_TILDE i;
  Some (operations ++ [Zero p; Zero p_hat; Zero p_hat_tilde]).

Definition SetRootwardZero (d : GPDAG) : option GPOperationVector :=
  let node_count := length (dag_nodes_ d) in
  foldM (SetRootwardZero_step d)
    (seq (taxon_count_ d) (node_count - taxon_count_ d)) [].

Definition SetLeafwardZero_step (d : GPDAG) (operations : GPOperationVector)
    (i : nat) : option GPOperationVector :=
  r_hat ← GetPLVIndex d R_HAT i;
  r ← GetPLVIndex d R i;
  r_tilde ← GetPLVIndex d R_TILDE i;
  Some (operations ++ [Zero r_hat; Zero r; Zero r_tilde]).

Definition SetLeafwardZero_root (d : GPDAG) (operations : GPOperationVector)
    (rootsplit : Bitset) : option GPOperationVector :=
  root_idx ← subsplit_to_index_ d !! (rootsplit +b ~b rootsplit);
  r_hat ← GetPLVIndex d R_HAT root_idx;
  Some (operations ++ [SetToStationaryDistribution r_hat None]).

Definition SetLeafwardZero (d : GPDAG) : option GPOperationVector :=
  let node_count := length (dag_nodes_ d) in
  operations ← foldM (SetLeafwardZero_step d) (seq 0 node_count) [];
  foldM (SetLeafwardZero_root d) (rootsplits_ d) operations.

Definition AddRootwardWeightedSumAccumulateOperations (d : GPDAG)
    (node : GPDAGNode) (rotated : bool) (operations : GPOperationVector)
  : option GPOperationVector :=
  let child_idxs :=
    if rotated then Node.GetLeafwardRotated node
    else Node.GetLeafwardSorted node in
  let plv_type := if rotated then P_HAT_TILDE else P_HAT in
  let parent_subsplit := Node.GetBitsetRot node rotated in
  foldM (λ operations child_idx,
           child_node ← dag_nodes_ d !! child_idx;
           let child_subsplit := Node.GetBitset child_node in
           let pcsp := parent_subsplit +b child_subsplit in
           gpcsp_idx ← gpcsp_indexer_ d !! pcsp;
           dest ← GetPLVIndex d plv_type (Node.Id node);
           src ← GetPLVIndex d P child_idx;
           Some (operations
                 ++ [EvolvePLVWeightedBySBNParameter dest gpcsp_idx src]))
    child_idxs operations.

Definition AddLeafwardWeightedSumAccumulateOperations (d : GPDAG)
    (node : GPDAGNode) (operations : GPOperationVector)
  : option GPOperationVector :=
  let subsplit := Node.GetBitset node in
  operations ←
    foldM (λ operations parent_idx,
             parent_node ← dag_nodes_ d !! parent_idx;
             let parent_subsplit := Node.GetBitset parent_node in
             gpcsp_idx ← gpcsp_indexer_ d !! (parent_subsplit +b subsplit);
             dest ← GetPLVIndex d R_HAT (Node.Id node);
             src ← GetPLVIndex d R (Node.Id parent_node);
             Some (operations
                   ++ [EvolvePLVWeightedBySBNParameter dest gpcsp_idx src]))
      (Node.GetRootwardSorted node) operations;
  foldM (λ operations parent_idx,
           parent_node ← dag_nodes_ d !! parent_idx;
           let parent_subsplit :=
             Bitset.RotateSubsplit (Node.GetBitset parent_node) in
           gpcsp_idx ← gpcsp_indexer_ d !! (parent_subsplit +b subsplit);
           dest ← GetPLVIndex d R_HAT (Node.Id node);
           src ← GetPLVIndex d R_TILDE (Node.Id parent_node);
           Some (operations
                 ++ [EvolvePLVWeightedBySBNParameter dest gpcsp_idx src]))
    (Node.GetRootwardRotated node) operations.

Definition OptimizeSBNParameters (d : GPDAG) (subsplit : Bitset)
    (operations : GPOperationVector) : GPOperationVector :=
  match subsplit_to_range_ d !! subsplit with
  | Some param_range =>
      if (1 <? size_t_sub param_range.2 param_range.1)%N then
        operations ++ [UpdateSBNProbabilities param_range.1 param_range.2]
      else operations
  | None => operations
  end.

Definition LeafwardPass_of (d : GPDAG) (visit_order : list nat)
  : option GPOperationVector :=
  foldM (λ operations node_idx,
           node ← dag_nodes_ d !! node_idx;
           operations ←
             AddLeafwardWeightedSumAccumulateOperations d node operations;
           r ← GetPLVIndex d R node_idx;
           r_hat ← GetPLVIndex d R_HAT node_idx;
           p_hat_tilde ← GetPLVIndex d P_HAT_TILDE node_idx;
           r_tilde ← GetPLVIndex d R_TILDE node_idx;
           p_hat ← GetPLVIndex d P_HAT node_idx;
           Some (operations ++ [Multiply r r_hat p_hat_tilde;
                                Multiply r_tilde r_hat p_hat]))
    visit_order [].

Definition LeafwardPass (fuel : nat) (d : GPDAG) : option GPOperationVector :=
  visit_order ← LeafwardPassTraversal fuel d;
  LeafwardPass_of d visit_order.

Definition UpdateRHat (d : GPDAG) (node_id : nat) (rotated : bool)
    (operations : GPOperationVector) : option GPOperationVector :=
  node ← dag_nodes_ d !! node_id;
  let src_plv_type := if rotated then R_TILDE else R in
  let parent_nodes :=
    if rotated then Node.GetRootwardRotated node
    else Node.GetRootwardSorted node in
  foldM (λ operations parent_id,
           parent_node ← dag_nodes_ d !! parent_id;
           let pcsp :=
             if rotated then Bitset.RotateSubsplit (Node.GetBitset parent_node)
             else Node.GetBitset parent_node in
           let pcsp := pcsp +b Node.GetBitset node in
           gpcsp_idx ← gpcsp_indexer_ d !! pcsp;
           dest ← GetPLVIndex d R_HAT node_id;
           src ← GetPLVIndex d src_plv_type parent_id;
           Some (operations
                 ++ [EvolvePLVWeightedBySBNParameter dest gpcsp_idx src]))
    parent_nodes operations.

Definition UpdatePHatComputeLikelihood (d : GPDAG)
    (node_id child_node_id : nat) (rotated : bool)
    (operations : GPOperationVector) : option GPOperationVector :=
  node ← dag_nodes_ d !! node_id;
  child_node ← dag_nodes_ d !! child_node_id;
  let pcsp :=
    if rotated then Bitset.RotateSubsplit (Node.GetBitset node)
    else Node.GetBitset node in
  let pcsp := pcsp +b Node.GetBitset child_node in
  gpcsp_idx ← gpcsp_indexer_ d !! pcsp;
  p_hat ← GetPLVIndex d (if rotated then P_HAT_TILDE else P_HAT) node_id;
  p_child ← GetPLVIndex d P child_node_id;
  r ← GetPLVIndex d (if rotated then R_TILDE else R) (Node.Id node);
  p_child' ← GetPLVIndex d P (Node.Id child_node);
  Some (operations ++ [EvolvePLVWeightedBySBNParameter p_hat gpcsp_idx p_child;
                       Likelihood gpcsp_idx r p_child']).

Definition OptimizeBranchLengthUpdatePHat (d : GPDAG)
    (node_id child_node_id : nat) (rotated : bool)
    (operations : GPOperationVector) : option GPOperationVector :=
  node ← dag_nodes_ d !! node_id;
  child_node ← dag_nodes_ d !! child_node_id;
  let pcsp :=
    if rotated then Bitset.RotateSubsplit (Node.GetBitset node)
    else Node.GetBitset node in
  let pcsp := pcsp +b Node.GetBitset child_node in
  gpcsp_idx ← gpcsp_indexer_ d !! pcsp;
  p_child ← GetPLVIndex d P child_node_id;
  r ← GetPLVIndex d (if rotated then R_TILDE else R) node_id;
  p_hat ← GetPLVIndex d (if rotated then P_HAT_TILDE else P_HAT) node_id;
  Some (operations ++ [OptimizeBranchLength p_child r gpcsp_idx;
                       EvolvePLVWeightedBySBNParameter p_hat gpcsp_idx p_child]).

(** [Multiply{GetPLVIndex(dest, i), GetPLVIndex(src1, i), GetPLVIndex(src2, i)}]
    appended to the operations. *)
Definition push_Multiply (d : GPDAG) (dest src1 src2 : PLVType) (i : nat)
    (operations : GPOperationVector) : option GPOperationVector :=
  a ← GetPLVIndex d dest i;
  b ← GetPLVIndex d src1 i;
  c ← GetPLVIndex d src2 i;
  Some (operations ++ [Multiply a b c]).

(** [Zero{GetPLVIndex(kind, i)}] appended to the operations. *)
Definition push_Zero (d : GPDAG) (kind : PLVType) (i : nat)
    (operations : GPOperationVector) : option GPOperationVector :=
  a ← GetPLVIndex d kind i;
  Some (operations ++ [Zero a]).

(** ** Schedulers *)

Section Generators.

(** [GPDAGNode::IsRoot] and [GPDAGNode::IsLeaf] belong to gp_dag_node.hpp,
    which is not among the sources; the generators are parametric in
    them. *)
Variable IsRoot : GPDAGNode → bool.
Variable IsLeaf : GPDAGNode → bool.

Definition RootwardPass_of (d : GPDAG) (visit_order : list nat)
  : option GPOperationVector :=
  foldM (λ operations node_idx,
           node ← dag_nodes_ d !! node_idx;
           if IsLeaf node then Some operations
           else
             operations ←
               AddRootwardWeightedSumAccumulateOperations d node false
                 operations;
             operations ←
               AddRootwardWeightedSumAccumulateOperations d node true
                 operations;
             p_hat ← GetPLVIndex d P_HAT node_idx;
             p_hat_tilde ← GetPLVIndex d P_HAT_TILDE node_idx;
             Some (operations
                   ++ [Multiply (N.of_nat node_idx) p_hat p_hat_tilde]))
    visit_order [].

Definition RootwardPass (fuel : nat) (d : GPDAG) : option GPOperationVector :=
  visit_order ← RootwardPassTraversal fuel d;
  RootwardPass_of d visit_order.

(** The block both schedulers emit for a node that is not a root: rebuild
    [R_HAT] from scratch, then [R] and [R_TILDE]. *)
Definition Schedule_rhat (d : GPDAG) (node : GPDAGNode) (node_id : nat)
    (operations : GPOperationVector) : option GPOperationVector :=
  if negb (IsRoot node) then
    operations ← push_Zero d R_HAT node_id operations;
    operations ← UpdateRHat d node_id false operations;
    operations ← UpdateRHat d node_id true operations;
    operations ← push_Multiply d R R_HAT P_HAT_TILDE node_id operations;
    push_Multiply d R_TILDE R_HAT P_HAT node_id operations
  else Some operations.

Definition Schedule_child
    (rec : nat → gset nat * GPOperationVector
           → option (gset nat * GPOperationVector))
    (update : nat → GPOperationVector → option GPOperationVector)
    (st : gset nat * GPOperationVector) (child_id : nat)
  : option (gset nat * GPOperationVector) :=
  st ← (if decide (child_id ∈ st.1) then Some st else rec child_id st);
  operations ← update child_id st.2;
  Some (st.1, operations).

(** The state is the pair (visited_nodes, operations), both passed by
    reference in the source. *)
Fixpoint ScheduleBranchLengthOptimization (fuel : nat) (d : GPDAG)
    (node_id : nat) (st : gset nat * GPOperationVector)
  : option (gset nat * GPOperationVector) :=
  match fuel with
  | 0 => None
  | S fuel' =>
      let visited_nodes := {[node_id]} ∪ st.1 in
      node ← dag_nodes_ d !! node_id;
      operations ← Schedule_rhat d node node_id st.2;
      if IsLeaf node then Some (visited_nodes, operations)
      else
        operations ← push_Zero d P_HAT node_id operations;
        node' ← dag_nodes_ d !! node_id;
        st ← foldM (Schedule_child
                      (ScheduleBranchLengthOptimization fuel' d)
                      (λ child_id,
                         OptimizeBranchLengthUpdatePHat d node_id child_id
                           false))
                   (Node.GetLeafwardSorted node') (visited_nodes, operations);
        operations ← push_Multiply d R_TILDE R_HAT P_HAT node_id st.2;
        operations ← push_Zero d P_HAT_TILDE node_id operations;
        node' ← dag_nodes_ d !! node_id;
        st ← foldM (Schedule_child
                      (ScheduleBranchLengthOptimization fuel' d)
                      (λ child_id,
                         OptimizeBranchLengthUpdatePHat d node_id child_id
                           true))
                   (Node.GetLeafwardRotated node') (st.1, operations);
        operations ← push_Multiply d R R_HAT P_HAT_TILDE node_id st.2;
        operations ← push_Multiply d P P_HAT P_HAT_TILDE node_id operations;
        Some (st.1, operations)
  end.

Fixpoint ScheduleSBNParametersOptimization (fuel : nat) (d : GPDAG)
    (node_id : nat) (st : gset nat * GPOperationVector)
  : option (gset nat * GPOperationVector) :=
  match fuel with
  | 0 => None
  | S fuel' =>
      let visited_nodes := {[node_id]} ∪ st.1 in
      node ← dag_nodes_ d !! node_id;
      operations ← Schedule_rhat d node node_id st.2;
      if IsLeaf node then Some (visited_nodes, operations)
      else
        operations ← push_Zero d P_HAT node_id operations;
        node' ← dag_nodes_ d !! node_id;
        st ← foldM (Schedule_child
                      (ScheduleSBNParametersOptimization fuel' d)
                      (λ child_id,
                         UpdatePHatComputeLikelihood d node_id child_id false))
                   (Node.GetLeafwardSorted node') (visited_nodes, operations);
        let operations :=
          OptimizeSBNParameters d (Node.GetBitset node) st.2 in
        operations ← push_Multiply d R_TILDE R_HAT P_HAT node_id operations;
        operations ← push_Zero d P_HAT_TILDE node_id operations;
        node' ← dag_nodes_ d !! node_id;
        st ← foldM (Schedule_child
                      (ScheduleSBNParametersOptimization fuel' d)
                      (λ child_id,
                         UpdatePHatComputeLikelihood d node_id child_id true))
                   (Node.GetLeafwardRotated node') (st.1, operations);
        let operations :=
          OptimizeSBNParameters d
            (Bitset.RotateSubsplit (Node.GetBitset node)) st.2 in
        operations ← push_Multiply d R R_HAT P_HAT_TILDE node_id operations;
        operations ← push_Multiply d P P_HAT P_HAT_TILDE node_id operations;
        Some (st.1, operations)
  end.

Definition BranchLengthOptimization (fuel : nat) (d : GPDAG)
  : option GPOperationVector :=
  st ← foldM (λ st rootsplit,
                root_idx ← subsplit_to_index_ d !! (rootsplit +b ~b rootsplit);
                ScheduleBranchLengthOptimization fuel d root_idx st)
             (rootsplits_ d) (∅, []);
  Some st.2.

Definition SBNParameterOptimization_step (fuel : nat) (d : GPDAG)
    (st : gset nat * GPOperationVector) (entry : nat * Bitset)
  : option (gset nat * GPOperationVector) :=
  let '(rootsplit_idx, rootsplit) := entry in
  root_idx ← subsplit_to_index_ d !! (rootsplit +b ~b rootsplit);
  st ← ScheduleSBNParametersOptimization fuel d root_idx st;
  node_id ← subsplit_to_index_ d !! (rootsplit +b ~b rootsplit);
  r_hat ← GetPLVIndex d R_HAT node_id;
  p ← GetPLVIndex d P node_id;
  Some (st.1, st.2 ++ [IncrementMarginalLikelihood r_hat rootsplit_idx p]).

Definition SBNParameterOptimization (fuel : nat) (d : GPDAG)
  : option GPOperationVector :=
  st ← foldM (SBNParameterOptimization_step fuel d) (indexed_rootsplits d)
             (∅, []);
  Some (st.2 ++ [UpdateSBNProbabilities 0 (length (rootsplits_ d))]).

End Generators.

(** ** Symbol coding of beagle.cpp *)

Module beagle.
Import Stdlib.Strings.Ascii.

(** [CharIntMap]: an unordered map from [char] to [int]. *)
Definition CharIntMap : Type := gmap Ascii.ascii Z.

(** [SymbolVector]: a vector of [int]. *)
Definition SymbolVector : Type := list Z.

(** [GetSymbolTable()]: the DNA table. *)
Definition GetSymbolTable : CharIntMap :=
  list_to_map [("A"%char, 0%Z); ("C"%char, 1%Z); ("G"%char, 2%Z);
               ("T"%char, 3%Z); ("a"%char, 0%Z); ("c"%char, 1%Z);
               ("g"%char, 2%Z); ("t"%char, 3%Z); ("-"%char, 4%Z)].

(** [SymbolVectorOf(str, symbol_table)]: the symbols of the characters of
    [str], in order; a character that is not in the table aborts. *)
Definition SymbolVectorOf (str : string) (symbol_table : CharIntMap)
  : option SymbolVector :=
  mapM (λ c, symbol_table !! c) (String.list_ascii_of_string str).

End beagle.

(** ** Vocabulary of the statements *)

(** The flat index [GetPLVIndex] returns for one of the six kinds. *)
Definition plv (d : GPDAG) (kind : PLVType) (i : nat) : N :=
  default 0%N (GetPLVIndex d kind i).

(** The node id recorded for the root subsplit of a rootsplit. *)
Definition root_index (d : GPDAG) (rootsplit : Bitset) : nat :=
  default 0 (subsplit_to_index_ d !! (rootsplit +b ~b rootsplit)).

(** A leafward edge of the finished DAG, sorted or rotated. *)
Definition leafward_edge (d : GPDAG) (parent child : nat) : Prop :=
  ∃ node, dag_nodes_ d !! parent = Some node
          ∧ (child ∈ leafward_sorted node ∨ child ∈ leafward_rotated node).

(** A rootward edge of the finished DAG, sorted or rotated. *)
Definition rootward_edge (d : GPDAG) (child parent : nat) : Prop :=
  ∃ node, dag_nodes_ d !! child = Some node
          ∧ (parent ∈ rootward_sorted node ∨ parent ∈ rootward_rotated node).

(** Reachability along one or more edges. *)
Inductive reachable (edge : nat → nat → Prop) : nat → nat → Prop :=
| reachable_step a b : edge a b → reachable edge a b
| reachable_more a b c : edge a b → reachable edge b c → reachable edge a c.

(** The fake subsplit of a taxon: an empty first clade and the singleton. *)
Definition fake_subsplit (taxon_count taxon_idx : nat) : Bitset :=
  Bitset.zero taxon_count
  +b Bitset.set taxon_idx (Bitset.zero taxon_count).

(** The harvest is well founded: some measure of subsplits, blind to
    rotation, drops from every harvested parent to each of its children.
    For counters harvested from trees the number of taxa of a subsplit is
    such a measure. *)
Definition harvest_ranked (ChildSubsplit : Bitset → Bitset → Bitset)
    (tc : RootedTreeCollection) (rank : Bitset → nat) : Prop :=
  (∀ s, rank (Bitset.RotateSubsplit s) = rank s)
  ∧ ∀ parent child_counter child,
      (parent, child_counter) ∈ PCSSCounterOf tc →
      child ∈ child_counter.*1 →
      rank (ChildSubsplit parent child) < rank parent.

(** Number of set bits. *)
Definition popcount (b : Bitset) : nat := length (filter (λ x, x = true) b).

(** ** Concrete collections *)

Module Examples.

(** The child clade followed by the rest of the parent's second chunk. *)
Definition ChildSubsplit (parent child : Bitset) : Bitset :=
  child +b zip_with (λ a b, a && negb b) (Bitset.SplitChunk 1 parent) child.

Definition IsRoot (n : GPDAGNode) : bool :=
  bool_decide (rootward_sorted n = [] ∧ rootward_rotated n = []).
Definition IsLeaf (n : GPDAGNode) : bool :=
  bool_decide (leafward_sorted n = [] ∧ leafward_rotated n = []).

(** Three taxa, the single topology ((0,1),2). *)
Definition one_tree : RootedTreeCollection :=
  MkRootedTreeCollection 3
    [([false; false; true], 1)]
    [([false; false; true; true; true; false], [([false; true; false], 1)])].

(** Three taxa, the topologies ((0,1),2) and ((0,2),1). *)
Definition two_trees : RootedTreeCollection :=
  MkRootedTreeCollection 3
    [([false; false; true], 1); ([false; true; false], 1)]
    [([false; false; true; true; true; false], [([false; true; false], 1)]);
     ([false; true; false; true; false; true], [([false; false; true], 1)])].

(** Four taxa, the topologies (((0,1),2),3) and (((0,2),1),3): one
    rootsplit whose root has two sorted children. *)
Definition shared_root : RootedTreeCollection :=
  MkRootedTreeCollection 4
    [([false; false; false; true], 2)]
    [([false; false; false; true; true; true; true; false],
      [([false; false; true; false], 1); ([false; true; false; false], 1)]);
     ([false; false; true; false; true; true; false; false],
      [([false; true; false; false], 1)]);
     ([false; true; false; false; true; false; true; false],
      [([false; false; true; false], 1)])].

Definition dag_of (tc : RootedTreeCollection) : GPDAG :=
  default empty_dag (GPDAG_of ChildSubsplit 16 tc).

End Examples.


(** [k] is the PCSP of a leafward edge of the DAG: the subsplit of a
    non-fake node, rotated for a rotated edge, followed by the subsplit of
    the child. *)
Definition is_edge_key (d : GPDAG) (k : Bitset) : Prop :=
  ∃ p n rot c cn,
    taxon_count_ d ≤ p ∧ dag_nodes_ d !! p = Some n
    ∧ c ∈ Node.Leafward rot n ∧ dag_nodes_ d !! c = Some cn
    ∧ k = Node.GetBitsetRot n rot +b subsplit_ cn.


(** ** Invariants of the construction *)

(** What the two harvest loops of [ProcessTrees] leave in the tables, as
    far as the children of a subsplit are concerned. *)
Definition tables_from (ChildSubsplit : Bitset → Bitset → Bitset)
    (tc : RootedTreeCollection)
    (ptr : gmap Bitset (nat * nat)) (itc : gmap nat Bitset) (index : nat)
  : Prop :=
  (∀ k, index ≤ k → itc !! k = None)
  ∧ ∀ s a b, ptr !! s = Some (a, b) →
      b ≤ index
      ∧ ∃ cc, (s, cc) ∈ PCSSCounterOf tc
              ∧ ∀ k c, a ≤ k < b → itc !! k = Some c →
                  ∃ child, child ∈ cc.*1 ∧ c = ChildSubsplit s child.

(** The subsplits of the nodes, by id. *)
Definition subsplits (d : GPDAG) : list Bitset := subsplit_ <$> dag_nodes_ d.

(** Every node sits at the position of its id, and [subsplit_to_index_] is
    the inverse of the node vector. *)
Definition store_ok (d : GPDAG) : Prop :=
  (∀ i n, dag_nodes_ d !! i = Some n → id_ n = i)
  ∧ ∀ s i, subsplit_to_index_ d !! s = Some i ↔ subsplits d !! i = Some s.

(** [d'] differs from [d] at most in its nodes and its subsplit index. *)
Definition same_tables (d d' : GPDAG) : Prop :=
  d' = with_nodes (dag_nodes_ d')
         (with_subsplit_to_index (subsplit_to_index_ d') d).

(** [c] is a harvested child of the subsplit [p] (fake subsplits left
    out), on the sorted or on the rotated side. *)
Definition table_child (d : GPDAG) (p c : Bitset) : Prop :=
  ∃ cs, GetChildrenSubsplits d p false = Some cs ∧ c ∈ cs.

Definition child_of (d : GPDAG) (p c : Bitset) : Prop :=
  table_child d p c ∨ table_child d (Bitset.RotateSubsplit p) c.

(** [c] is a child of the subsplit [p] for the edges, fake subsplits
    included. *)
Definition edge_child (d : GPDAG) (p c : Bitset) : Prop :=
  ∃ cs, GetChildrenSubsplits d p true = Some cs ∧ c ∈ cs.

(** The root subsplit of a rootsplit of the DAG. *)
Definition is_root_subsplit (d : GPDAG) (s : Bitset) : Prop :=
  ∃ r, r ∈ rootsplits_ d ∧ s = r +b ~b r.

(** All harvested subsplits have two chunks of [TaxonCount] bits. *)
Definition harvest_sized (ChildSubsplit : Bitset → Bitset → Bitset)
    (tc : RootedTreeCollection) : Prop :=
  (∀ r, r ∈ (RootsplitCounterOf tc).*1 → length r = TaxonCount tc)
  ∧ ∀ parent child_counter child,
      (parent, child_counter) ∈ PCSSCounterOf tc →
      child ∈ child_counter.*1 →
      length (ChildSubsplit parent child) = 2 * TaxonCount tc.

(** The same two conditions read off the tables of a DAG. *)
Definition tables_ranked (d : GPDAG) (rank : Bitset → nat) : Prop :=
  (∀ s, rank (Bitset.RotateSubsplit s) = rank s)
  ∧ ∀ p c, table_child d p c → rank c < rank p.

Definition tables_sized (d : GPDAG) : Prop :=
  (∀ r, r ∈ rootsplits_ d → length r = taxon_count_ d)
  ∧ ∀ p c, table_child d p c → length c = 2 * taxon_count_ d.

(** [s] is the subsplit of a node created after the fake leaves. *)
Definition real (d : GPDAG) (s : Bitset) : Prop :=
  ∃ i, taxon_count_ d ≤ i ∧ subsplits d !! i = Some s.

(** Invariant of the depth-first creation of nodes, between two calls:
    the nodes created so far are visited, each sits after all its harvested
    children, and every visited subsplit is a root subsplit or a harvested
    child of a visited one. *)
Definition dfs_inv (d : GPDAG) (vis : gset Bitset) : Prop :=
  store_ok d
  ∧ taxon_count_ d ≤ length (dag_nodes_ d)
  ∧ (∀ s, real d s → s ∈ vis)
  ∧ (∀ i s c, taxon_count_ d ≤ i → subsplits d !! i = Some s →
       child_of d s c →
       ∃ j, j < i ∧ taxon_count_ d ≤ j ∧ subsplits d !! j = Some c)
  ∧ (∀ s, s ∈ vis →
       is_root_subsplit d s ∨ ∃ p, p ∈ vis ∧ child_of d p s).

(** Visited, but its node is not created yet: the call is still running. *)
Definition pending (d : GPDAG) (vis : gset Bitset) (a : Bitset) : Prop :=
  a ∈ vis ∧ ¬ real d a.

(** What a completed call of [BuildNodesDepthFirst] on [s] guarantees. *)
Definition dfs_post (s : Bitset) (d : GPDAG) (vis : gset Bitset)
    (d' : GPDAG) (vis' : gset Bitset) : Prop :=
  dfs_inv d' vis' ∧ same_tables d d' ∧ vis ⊆ vis' ∧ s ∈ vis'
  ∧ (∃ new, dag_nodes_ d'
            = dag_nodes_ d ++ new
              ++ [Node.New (length (dag_nodes_ d ++ new)) s])
  ∧ (∀ a, pending d' vis' a → pending d vis a).

Definition dfs_spec (rank : Bitset → nat) (fuel : nat) : Prop :=
  ∀ s d vis d' vis',
    tables_ranked d rank → dfs_inv d vis →
    (is_root_subsplit d s ∨ ∃ p, p ∈ vis ∧ child_of d p s) →
    (∀ a, pending d vis a → rank s < rank a) →
    BuildNodesDepthFirst fuel s (d, vis) = Some (d', vis') →
    dfs_post s d vis d' vis'.

(** Invariant of the two child loops inside a call on [s] that started in
    the state [(d0, vis0)]. *)
Definition dfs_loop_inv (s : Bitset) (d0 : GPDAG) (vis0 : gset Bitset)
    (st : GPDAG * gset Bitset) : Prop :=
  dfs_inv st.1 st.2 ∧ same_tables d0 st.1 ∧ {[s]} ∪ vis0 ⊆ st.2
  ∧ (∃ new, dag_nodes_ st.1 = dag_nodes_ d0 ++ new)
  ∧ (∀ a, pending st.1 st.2 a → a = s ∨ pending d0 vis0 a).

(** Every node is as [CreateAndInsertNode] made it: no edges yet. *)
Definition all_fresh (d : GPDAG) : Prop :=
  ∀ i n, dag_nodes_ d !! i = Some n → n = Node.New i (subsplit_ n).

(** The first [taxon_count_] nodes are the fake leaves, in taxon order. *)
Definition fakes_first (d : GPDAG) : Prop :=
  taxon_count_ d ≤ length (dag_nodes_ d)
  ∧ ∀ i, i < taxon_count_ d →
      subsplits d !! i = Some (fake_subsplit (taxon_count_ d) i).

(** Each rootsplit has its root node among the non-fake ones, and the root
    nodes come in the order of [rootsplits_]. *)
Definition roots_indexed (d : GPDAG) : Prop :=
  ∀ r, r ∈ rootsplits_ d →
    subsplit_to_index_ d !! (r +b ~b r) = Some (root_index d r)
    ∧ taxon_count_ d ≤ root_index d r.

Definition roots_ordered (d : GPDAG) : Prop :=
  ∀ k1 k2 r1 r2, k1 < k2 →
    rootsplits_ d !! k1 = Some r1 → rootsplits_ d !! k2 = Some r2 →
    root_index d r1 < root_index d r2.

(** Post-order over the harvested children: a non-fake node comes after the
    nodes of all its harvested children. *)
Definition post_ordered (d : GPDAG) : Prop :=
  ∀ i s c, taxon_count_ d ≤ i → subsplits d !! i = Some s → child_of d s c →
    ∃ j, j < i ∧ taxon_count_ d ≤ j ∧ subsplits d !! j = Some c.

(** Every non-fake node is a root node or a harvested child of a non-fake
    node. *)
Definition all_descend (d : GPDAG) : Prop :=
  ∀ i s, taxon_count_ d ≤ i → subsplits d !! i = Some s →
    is_root_subsplit d s
    ∨ ∃ k p, taxon_count_ d ≤ k ∧ subsplits d !! k = Some p ∧ child_of d p s.

(** The state after [BuildNodes]. *)
Definition nodes_built (d : GPDAG) : Prop :=
  store_ok d ∧ fakes_first d ∧ roots_indexed d ∧ roots_ordered d
  ∧ post_ordered d ∧ all_descend d.

(** The edges of the DAG: a leafward entry sits on a non-fake node, has
    its rootward twin on the child, and joins a subsplit to one of its
    children; a rootward entry has its leafward twin; and every child of a
    non-fake node, fake subsplits included, has its edge. *)
Definition edges_sound (d : GPDAG) (nodes : list GPDAGNode) : Prop :=
  ∀ p n rot c, nodes !! p = Some n → c ∈ Node.Leafward rot n →
    taxon_count_ d ≤ p
    ∧ ∃ cn, nodes !! c = Some cn ∧ p ∈ Node.Rootward rot cn
            ∧ edge_child d (Node.GetBitsetRot n rot) (subsplit_ cn).

Definition edges_twinned (nodes : list GPDAGNode) : Prop :=
  ∀ c cn rot p, nodes !! c = Some cn → p ∈ Node.Rootward rot cn →
    ∃ n, nodes !! p = Some n ∧ c ∈ Node.Leafward rot n.

Definition edges_complete_at (d : GPDAG) (nodes : list GPDAGNode)
    (p : nat) (rot : bool) : Prop :=
  ∀ n s, nodes !! p = Some n → edge_child d (Node.GetBitsetRot n rot) s →
    ∃ c, subsplit_to_index_ d !! s = Some c ∧ c ∈ Node.Leafward rot n.

Definition edges_built (d : GPDAG) : Prop :=
  edges_sound d (dag_nodes_ d) ∧ edges_twinned (dag_nodes_ d)
  ∧ ∀ p rot, taxon_count_ d ≤ p → edges_complete_at d (dag_nodes_ d) p rot.

(** Adding edges never removes one and leaves ids and subsplits alone. *)
Definition grows (nodes nodes' : list GPDAGNode) : Prop :=
  length nodes' = length nodes
  ∧ ∀ i n, nodes !! i = Some n →
      ∃ n', nodes' !! i = Some n' ∧ id_ n' = id_ n
            ∧ subsplit_ n' = subsplit_ n
            ∧ ∀ rot, Node.Leafward rot n ⊆ Node.Leafward rot n'
                     ∧ Node.Rootward rot n ⊆ Node.Rootward rot n'.

(** One edge added on both of its ends. *)
Definition AddLeafward (rot : bool) (c : nat) (n : GPDAGNode) : GPDAGNode :=
  if rot then Node.AddLeafwardRotated c n else Node.AddLeafwardSorted c n.
Definition AddRootward (rot : bool) (p : nat) (n : GPDAGNode) : GPDAGNode :=
  if rot then Node.AddRootwardRotated p n else Node.AddRootwardSorted p n.
Definition add_edge (rot : bool) (p c : nat) (nodes : list GPDAGNode)
  : list GPDAGNode :=
  alter (AddRootward rot p) c (alter (AddLeafward rot c) p nodes).

(** ** The keys of the PCSP indexer *)

(** The PCSP keys of the edges of one side of a node, in child order. *)
Definition node_keys (d : GPDAG) (rot : bool) (n : GPDAGNode) : list Bitset :=
  omap (λ c, (λ cn, Node.GetBitsetRot n rot +b subsplit_ cn)
             <$> dag_nodes_ d !! c)
       (Node.Leafward rot n).

(** All edge keys: the non-fake nodes by ascending id, sorted side first. *)
Definition edge_keys (d : GPDAG) : list Bitset :=
  flat_map (λ n, node_keys d false n ++ node_keys d true n)
    (drop (taxon_count_ d) (dag_nodes_ d)).

Definition root_keys (d : GPDAG) : list Bitset :=
  (λ r, r +b ~b r) <$> rootsplits_ d.

Definition indexer_keys (d : GPDAG) : list Bitset :=
  root_keys d ++ edge_keys d.

(** [m] numbers the keys of [keys] by their positions, and nothing else. *)
Definition numbered {K : Type} `{Countable K} (m : gmap K nat)
    (keys : list K) : Prop :=
  ∀ k i, m !! k = Some i ↔ keys !! i = Some k.

(** The ranges recorded for the sides of the nodes of [ns]: a side with
    children has the block of its children's indices, in child order, and
    there are no other ranges. *)
Definition ranges_of (d : GPDAG) (ns : list GPDAGNode)
    (indexer : gmap Bitset nat) (ranges : gmap Bitset (nat * nat)) : Prop :=
  (∀ n rot, n ∈ ns → Node.Leafward rot n ≠ [] →
     ∃ a, ranges !! Node.GetBitsetRot n rot
          = Some (a, a + length (Node.Leafward rot n))
          ∧ ∀ j c cn, Node.Leafward rot n !! j = Some c →
              dag_nodes_ d !! c = Some cn →
              indexer !! (Node.GetBitsetRot n rot +b subsplit_ cn)
              = Some (a + j))
  ∧ ∀ s a b, ranges !! s = Some (a, b) →
      ∃ n rot, n ∈ ns ∧ s = Node.GetBitsetRot n rot
               ∧ Node.Leafward rot n ≠ []
               ∧ b = a + length (Node.Leafward rot n).

(** The state after [BuildPCSPIndexer]. *)
Definition indexer_built (d : GPDAG) : Prop :=
  numbered (gpcsp_indexer_ d) (indexer_keys d)
  ∧ ranges_of d (drop (taxon_count_ d) (dag_nodes_ d))
      (gpcsp_indexer_ d) (subsplit_to_range_ d)
  ∧ taxon_count_ d < length (dag_nodes_ d)
  ∧ ∀ p n rot c, dag_nodes_ d !! p = Some n → taxon_count_ d ≤ p →
      c ∈ Node.Leafward rot n → is_Some (dag_nodes_ d !! c).

(** Invariant of the loop of [BuildNodes] over the rootsplits. *)
Definition roots_loop_inv (df : GPDAG) (pre : list Bitset)
    (st : GPDAG * gset Bitset) : Prop :=
  dfs_inv st.1 st.2 ∧ same_tables df st.1
  ∧ (∀ a, ¬ pending st.1 st.2 a)
  ∧ (∃ new, dag_nodes_ st.1 = dag_nodes_ df ++ new)
  ∧ (∀ r, r ∈ pre →
       ∃ i, taxon_count_ df ≤ i ∧ subsplits st.1 !! i = Some (r +b ~b r))
  ∧ (∀ k1 k2 r1 r2 i1 i2, k1 < k2 →
       pre !! k1 = Some r1 → pre !! k2 = Some r2 →
       subsplits st.1 !! i1 = Some (r1 +b ~b r1) →
       subsplits st.1 !! i2 = Some (r2 +b ~b r2) → i1 < i2).

(** The same as [ranges_of], for a sequence of sides of nodes. *)
Definition ranges_of_sides (d : GPDAG) (sides : list (GPDAGNode * bool))
    (indexer : gmap Bitset nat) (ranges : gmap Bitset (nat * nat)) : Prop :=
  (∀ n rot, (n, rot) ∈ sides → Node.Leafward rot n ≠ [] →
     ∃ a, ranges !! Node.GetBitsetRot n rot
          = Some (a, a + length (Node.Leafward rot n))
          ∧ ∀ j c cn, Node.Leafward rot n !! j = Some c →
              dag_nodes_ d !! c = Some cn →
              indexer !! (Node.GetBitsetRot n rot +b subsplit_ cn)
              = Some (a + j))
  ∧ ∀ s a b, ranges !! s = Some (a, b) →
      ∃ n rot, (n, rot) ∈ sides ∧ s = Node.GetBitsetRot n rot
               ∧ Node.Leafward rot n ≠ []
               ∧ b = a + length (Node.Leafward rot n).

Definition side_keys (d : GPDAG) (sides : list (GPDAGNode * bool))
  : list Bitset :=
  flat_map (λ side, node_keys d side.2 side.1) sides.

Definition sides_of (ns : list GPDAGNode) : list (GPDAGNode * bool) :=
  flat_map (λ n, [(n, false); (n, true)]) ns.

(** Everything the construction establishes. *)
Definition dag_built (d : GPDAG) : Prop :=
  nodes_built d ∧ edges_built d ∧ indexer_built d.

(** ** Traversals and schedulers, once for both directions *)

(** [RootwardDepthFirst] and [LeafwardDepthFirst] differ in the two
    adjacency lists they follow. *)
Fixpoint DepthFirst (adj1 adj2 : GPDAGNode → list nat) (fuel : nat)
    (dag_nodes : list GPDAGNode) (id : nat) (st : list nat * gset nat)
  : option (list nat * gset nat) :=
  match fuel with
  | 0 => None
  | S fuel' =>
      visited ← SafeInsertSet st.2 id;
      let st := (st.1, visited) in
      node ← dag_nodes !! id;
      st ← foldM (DepthFirst_visit (DepthFirst adj1 adj2 fuel' dag_nodes))
                 (adj1 node) st;
      node ← dag_nodes !! id;
      st ← foldM (DepthFirst_visit (DepthFirst adj1 adj2 fuel' dag_nodes))
                 (adj2 node) st;
      Some (st.1 ++ [id], st.2)
  end.

(** Invariant of a depth-first traversal between calls: what is in the
    order is visited, once, and comes after all its neighbours. *)
Definition order_inv (adj1 adj2 : GPDAGNode → list nat)
    (nodes : list GPDAGNode) (st : list nat * gset nat) : Prop :=
  (∀ x, x ∈ st.1 → x ∈ st.2) ∧ NoDup st.1
  ∧ ∀ j x n y, st.1 !! j = Some x → nodes !! x = Some n →
      y ∈ adj1 n ++ adj2 n → ∃ i, i < j ∧ st.1 !! i = Some y.

(** What a completed traversal call on [id] guarantees. *)
Definition order_post (adj1 adj2 : GPDAGNode → list nat)
    (nodes : list GPDAGNode) (mu : nat → nat) (Q : nat → Prop) (id : nat)
    (st st' : list nat * gset nat) : Prop :=
  order_inv adj1 adj2 nodes st' ∧ st.2 ⊆ st'.2
  ∧ (∃ new, st'.1 = st.1 ++ new ++ [id])
  ∧ (∀ x, x ∈ st'.2 → x ∈ st.2 ∨ x = id ∨ (Q x ∧ mu x < mu id))
  ∧ (∀ x, x ∈ st'.1 → x ∈ st.1 ∨ x ∉ st.2)
  ∧ (∀ a, a ∈ st'.2 → a ∉ st'.1 → a ∈ st.2 ∧ a ∉ st.1).

(** Invariant of the child loops inside a traversal call on [id] that
    started in [st0]. *)
Definition order_loop_inv (adj1 adj2 : GPDAGNode → list nat)
    (nodes : list GPDAGNode) (mu : nat → nat) (Q : nat → Prop) (id : nat)
    (st0 st : list nat * gset nat) : Prop :=
  order_inv adj1 adj2 nodes st ∧ {[id]} ∪ st0.2 ⊆ st.2
  ∧ (∃ new, st.1 = st0.1 ++ new)
  ∧ (∀ x, x ∈ st.2 → x ∈ st0.2 ∨ x = id ∨ (Q x ∧ mu x < mu id))
  ∧ (∀ x, x ∈ st.1 → x ∈ st0.1 ∨ ((x ∉ st0.2) ∧ x ≠ id))
  ∧ (∀ a, a ∈ st.2 → a ∉ st.1 → a = id ∨ (a ∈ st0.2 ∧ a ∉ st0.1)).

(** A traversal call with enough fuel on an unvisited node completes and
    keeps the invariant, provided the calls still running are on nodes of
    larger measure. *)
Definition DepthFirst_ok (adj1 adj2 : GPDAGNode → list nat)
    (nodes : list GPDAGNode) (mu : nat → nat) (Q : nat → Prop) (fuel : nat)
  : Prop :=
  ∀ id st, mu id < fuel → is_Some (nodes !! id) → id ∉ st.2 →
    order_inv adj1 adj2 nodes st →
    (∀ a, a ∈ st.2 → a ∉ st.1 → mu id < mu a) →
    ∃ st', DepthFirst adj1 adj2 fuel nodes id st = Some st'
           ∧ order_post adj1 adj2 nodes mu Q id st st'.

(** The two schedulers differ in what they emit for a child
    ([update]) and after each child loop ([extra]). *)
Fixpoint Schedule_gen (IsRoot IsLeaf : GPDAGNode → bool)
    (update : nat → nat → bool → GPOperationVector → option GPOperationVector)
    (extra : Bitset → GPOperationVector → GPOperationVector)
    (fuel : nat) (d : GPDAG) (node_id : nat)
    (st : gset nat * GPOperationVector)
  : option (gset nat * GPOperationVector) :=
  match fuel with
  | 0 => None
  | S fuel' =>
      let visited_nodes := {[node_id]} ∪ st.1 in
      node ← dag_nodes_ d !! node_id;
      operations ← Schedule_rhat IsRoot d node node_id st.2;
      if IsLeaf node then Some (visited_nodes, operations)
      else
        operations ← push_Zero d P_HAT node_id operations;
        node' ← dag_nodes_ d !! node_id;
        st ← foldM (Schedule_child
                      (Schedule_gen IsRoot IsLeaf update extra fuel' d)
                      (λ child_id, update node_id child_id false))
                   (Node.GetLeafwardSorted node') (visited_nodes, operations);
        let operations := extra (Node.GetBitset node) st.2 in
        operations ← push_Multiply d R_TILDE R_HAT P_HAT node_id operations;
        operations ← push_Zero d P_HAT_TILDE node_id operations;
        node' ← dag_nodes_ d !! node_id;
        st ← foldM (Schedule_child
                      (Schedule_gen IsRoot IsLeaf update extra fuel' d)
                      (λ child_id, update node_id child_id true))
                   (Node.GetLeafwardRotated node') (st.1, operations);
        let operations :=
          extra (Bitset.RotateSubsplit (Node.GetBitset node)) st.2 in
        operations ← push_Multiply d R R_HAT P_HAT_TILDE node_id operations;
        operations ← push_Multiply d P P_HAT P_HAT_TILDE node_id operations;
        Some (st.1, operations)
  end.

Definition is_IML (op : GPOperation) : bool :=
  match op with IncrementMarginalLikelihood _ _ _ => true | _ => false end.

Definition is_Zero (op : GPOperation) : bool :=
  match op with Zero _ => true | _ => false end.

(** Operations that are neither a [Zero] nor an
    [IncrementMarginalLikelihood]. *)
Definition quiet (ops : GPOperationVector) : Prop :=
  Forall (λ op, is_Zero op = false ∧ is_IML op = false) ops.

(** [f] appends exactly [delta], whatever came before. *)
Definition emits (f : GPOperationVector → option GPOperationVector)
    (delta : GPOperationVector) : Prop :=
  ∀ ops, f ops = Some (ops ++ delta).

(** What [f] appends. *)
Definition emitted (f : GPOperationVector → option GPOperationVector)
  : GPOperationVector :=
  default [] (f []).

(** The node is scheduled past the leaf test. *)
Definition inner (IsLeaf : GPDAGNode → bool) (d : GPDAG) (m : nat) : bool :=
  match dag_nodes_ d !! m with
  | Some nd => negb (IsLeaf nd)
  | None => false
  end.

Definition last_or (x : GPOperation) (l : GPOperationVector) : GPOperation :=
  default x (last l).

(** The last operation of a child loop of node [m]: the last operation
    emitted for its last child, or the [Zero] that precedes the loop when
    there is no child. *)
Definition loop_last (U : nat → nat → bool → GPOperationVector) (d : GPDAG)
    (m : nat) (nd : GPDAGNode) (rot : bool) : GPOperation :=
  last_or (Zero (plv d (if rot then P_HAT_TILDE else P_HAT) m))
    (flat_map (λ c, U m c rot) (Node.Leafward rot nd)).

(** The operations around the end of a child loop of node [m]: the last
    operation of the loop, what [extra] emits, and the [Multiply] that
    follows. *)
Definition window (U : nat → nat → bool → GPOperationVector)
    (E : Bitset → GPOperationVector) (d : GPDAG)
    (m : nat) (nd : GPDAGNode) (rot : bool) : GPOperationVector :=
  [loop_last U d m nd rot] ++ E (Node.GetBitsetRot nd rot)
  ++ [Multiply (plv d (if rot then R else R_TILDE) m) (plv d R_HAT m)
        (plv d (if rot then P_HAT_TILDE else P_HAT) m)].

(** [w] occurs in [ops] as a block of consecutive operations. *)
Definition occurs_in (w ops : GPOperationVector) : Prop :=
  ∃ pre post, ops = pre ++ w ++ post.

(** Number of occurrences of an operation. *)
Definition occurrences (x : GPOperation) (ops : GPOperationVector) : nat :=
  length (filter (λ op, op = x) ops).

(** What a completed scheduler call on [n] guarantees about the nodes it
    visited and the operations [delta] it appended. *)
Definition sched_post (IsLeaf : GPDAGNode → bool)
    (U : nat → nat → bool → GPOperationVector)
    (E : Bitset → GPOperationVector) (d : GPDAG) (bound : nat)
    (vis vis' : gset nat) (delta : GPOperationVector) : Prop :=
  vis ⊆ vis'
  ∧ (∀ x, x ∈ vis' → x ∈ vis ∨ x < bound)
  ∧ (∀ x nd rot c, x ∈ vis' → x ∉ vis → dag_nodes_ d !! x = Some nd →
       IsLeaf nd = false → c ∈ Node.Leafward rot nd → c ∈ vis')
  ∧ (∀ m, m < length (dag_nodes_ d) →
       occurrences (Zero (plv d P_HAT m)) delta
       = if decide (m ∈ vis' ∧ (m ∉ vis) ∧ inner IsLeaf d m = true)
         then 1 else 0)
  ∧ (∀ m nd rot, m ∈ vis' → m ∉ vis → dag_nodes_ d !! m = Some nd →
       IsLeaf nd = false → occurs_in (window U E d m nd rot) delta)
  ∧ Forall (λ op, is_IML op = false) delta.

(** Operations among which there is no [Zero] of a [P_HAT] buffer of a
    node and no [IncrementMarginalLikelihood]. *)
Definition silent (d : GPDAG) (ops : GPOperationVector) : Prop :=
  (∀ m, m < length (dag_nodes_ d) →
     occurrences (Zero (plv d P_HAT m)) ops = 0)
  ∧ Forall (λ op, is_IML op = false) ops.

(** A scheduler call with enough fuel on an unvisited node completes,
    appends to the operations, and satisfies [sched_post]. *)
Definition sched_ok (IsRoot IsLeaf : GPDAGNode → bool)
    (update : nat → nat → bool → GPOperationVector → option GPOperationVector)
    (extra : Bitset → GPOperationVector → GPOperationVector)
    (d : GPDAG) (fuel : nat) : Prop :=
  ∀ n vis ops, n < fuel → n < length (dag_nodes_ d) → n ∉ vis →
    ∃ vis' delta,
      Schedule_gen IsRoot IsLeaf update extra fuel d n (vis, ops)
      = Some (vis', ops ++ delta)
      ∧ n ∈ vis'
      ∧ sched_post IsLeaf (λ n c rot, emitted (update n c rot))
          (λ s, extra s []) d (S n) vis vis' delta.

(** One round of the loop of a generator over the rootsplits: the
    scheduler on the root node, then [tail]. *)
Definition Schedule_root (IsRoot IsLeaf : GPDAGNode → bool)
    (update : nat → nat → bool → GPOperationVector → option GPOperationVector)
    (extra : Bitset → GPOperationVector → GPOperationVector)
    (tail : nat → nat → GPOperationVector) (fuel : nat) (d : GPDAG)
    (st : gset nat * GPOperationVector) (entry : nat * Bitset)
  : option (gset nat * GPOperationVector) :=
  root_idx ← subsplit_to_index_ d !! (entry.2 +b ~b entry.2);
  st ← Schedule_gen IsRoot IsLeaf update extra fuel d root_idx st;
  Some (st.1, st.2 ++ tail entry.1 root_idx).

(** The [IncrementMarginalLikelihood] operations among [ops]. *)
Definition IML_of (ops : GPOperationVector) : GPOperationVector :=
  filter (λ op, is_IML op = true) ops.

(** What the loop over the rootsplits has established when the nodes of
    [vis] are scheduled and [ops] emitted: the guarantees of [sched_post]
    from an empty start, with the [IncrementMarginalLikelihood]
    operations emitted so far listed in [imls]. *)
Definition top_post (IsLeaf : GPDAGNode → bool)
    (U : nat → nat → bool → GPOperationVector)
    (E : Bitset → GPOperationVector) (d : GPDAG)
    (imls : GPOperationVector) (vis : gset nat) (ops : GPOperationVector)
  : Prop :=
  (∀ x nd rot c, x ∈ vis → dag_nodes_ d !! x = Some nd →
     IsLeaf nd = false → c ∈ Node.Leafward rot nd → c ∈ vis)
  ∧ (∀ m, m < length (dag_nodes_ d) →
       occurrences (Zero (plv d P_HAT m)) ops
       = if decide (m ∈ vis ∧ inner IsLeaf d m = true) then 1 else 0)
  ∧ (∀ m nd rot, m ∈ vis → dag_nodes_ d !! m = Some nd →
       IsLeaf nd = false → occurs_in (window U E d m nd rot) ops)
  ∧ IML_of ops = imls.

(** The [IncrementMarginalLikelihood] operations of the rounds of
    [entries]. *)
Definition tails_IML (tail : nat → nat → GPOperationVector) (d : GPDAG)
    (entries : list (nat * Bitset)) : GPOperationVector :=
  flat_map (λ entry, IML_of (tail entry.1 (root_index d entry.2))) entries.

(** The PCSP index a [Likelihood] operation carries. *)
Definition Likelihood_index (op : GPOperation) : option nat :=
  match op with Likelihood i _ _ => Some i | _ => None end.

(** The [Likelihood] operations of the edges of one side of a node, in
    child order. *)
Definition side_likelihoods (d : GPDAG) (rot : bool) (n : GPDAGNode)
  : GPOperationVector :=
  flat_map (λ c,
              match dag_nodes_ d !! c with
              | Some cn =>
                  match gpcsp_indexer_ d
                          !! (Node.GetBitsetRot n rot +b subsplit_ cn) with
                  | Some i =>
                      [Likelihood i
                         (plv d (if rot then R_TILDE else R) (Node.Id n))
                         (plv d P (Node.Id cn))]
                  | None => []
                  end
              | None => []
              end)
    (Node.Leafward rot n).

(** ** What the two passes emit *)

(** The operation [LeafwardPass] emits for the rootward edge from node [n]
    to its parent [p]. *)
Definition LeafwardPass_evolve (d : GPDAG) (rot : bool) (n : GPDAGNode)
    (p : nat) : GPOperationVector :=
  match dag_nodes_ d !! p with
  | Some pn =>
      match gpcsp_indexer_ d
              !! (Node.GetBitsetRot pn rot +b Node.GetBitset n) with
      | Some i =>
          [EvolvePLVWeightedBySBNParameter (plv d R_HAT (Node.Id n)) i
             (plv d (if rot then R_TILDE else R) (Node.Id pn))]
      | None => []
      end
  | None => []
  end.

(** The operations [LeafwardPass] emits for the node [x]. *)
Definition LeafwardPass_block (d : GPDAG) (x : nat) : GPOperationVector :=
  match dag_nodes_ d !! x with
  | Some n =>
      (flat_map (LeafwardPass_evolve d false n) (Node.GetRootwardSorted n)
       ++ flat_map (LeafwardPass_evolve d true n) (Node.GetRootwardRotated n))
      ++ [Multiply (plv d R x) (plv d R_HAT x) (plv d P_HAT_TILDE x);
          Multiply (plv d R_TILDE x) (plv d R_HAT x) (plv d P_HAT x)]
  | None => []
  end.

(** The operation [RootwardPass] emits for the leafward edge from node
    [n] to its child [c]. *)
Definition RootwardPass_evolve (d : GPDAG) (rot : bool) (n : GPDAGNode)
    (c : nat) : GPOperationVector :=
  match dag_nodes_ d !! c with
  | Some cn =>
      match gpcsp_indexer_ d
              !! (Node.GetBitsetRot n rot +b Node.GetBitset cn) with
      | Some i =>
          [EvolvePLVWeightedBySBNParameter
             (plv d (if rot then P_HAT_TILDE else P_HAT) (Node.Id n)) i
             (plv d P c)]
      | None => []
      end
  | None => []
  end.

(** The operations [RootwardPass] emits for the node [x]. *)
Definition RootwardPass_block (IsLeaf : GPDAGNode → bool) (d : GPDAG)
    (x : nat) : GPOperationVector :=
  match dag_nodes_ d !! x with
  | Some n =>
      if IsLeaf n then []
      else
        (flat_map (RootwardPass_evolve d false n) (Node.GetLeafwardSorted n)
         ++ flat_map (RootwardPass_evolve d true n)
              (Node.GetLeafwardRotated n))
        ++ [Multiply (N.of_nat x) (plv d P_HAT x) (plv d P_HAT_TILDE x)]
  | None => []
  end.

(** ** Counting edges *)

(** The leafward edges of a node as triples (parent, rotated, child). *)
Definition node_edges (n : GPDAGNode) : list (nat * bool * nat) :=
  ((λ c, (Node.Id n, false, c)) <$> Node.GetLeafwardSorted n)
  ++ ((λ c, (Node.Id n, true, c)) <$> Node.GetLeafwardRotated n).

(** All leafward edges, in the order of [edge_keys]. *)
Definition real_edges (d : GPDAG) : list (nat * bool * nat) :=
  flat_map node_edges (drop (taxon_count_ d) (dag_nodes_ d)).

(** The PCSP of an edge. *)
Definition edge_key (d : GPDAG) (e : nat * bool * nat) : Bitset :=
  match dag_nodes_ d !! e.1.1, dag_nodes_ d !! e.2 with
  | Some n, Some cn => Node.GetBitsetRot n e.1.2 +b subsplit_ cn
  | _, _ => []
  end.

(** The rootward entries of a node as triples (child, rotated, parent). *)
Definition node_parents (n : GPDAGNode) : list (nat * bool * nat) :=
  ((λ p, (Node.Id n, false, p)) <$> Node.GetRootwardSorted n)
  ++ ((λ p, (Node.Id n, true, p)) <$> Node.GetRootwardRotated n).

(** The rootward entries of the fake leaves. *)
Definition fake_parents (d : GPDAG) : list (nat * bool * nat) :=
  flat_map node_parents (take (taxon_count_ d) (dag_nodes_ d)).

(** The harvested PCSPs: a parent followed by the subsplit of one of its
    children. *)
Definition harvested_pcsps (ChildSubsplit : Bitset → Bitset → Bitset)
    (tc : RootedTreeCollection) : list Bitset :=
  flat_map (λ entry,
              (λ child, entry.1 +b ChildSubsplit entry.1 child)
              <$> entry.2.*1)
    (PCSSCounterOf tc).

(** An edge seen from its child. *)
Definition flip_edge (e : nat * bool * nat) : nat * bool * nat :=
  (e.2, e.1.2, e.1.1).

(** The body of the loop of [BuildUniformQ] over [subsplit_to_range_]. *)
Definition fill_step {double : Type} (one_over : N → double)
    (q : list double) (entry : Bitset * (nat * nat)) : option (list double) :=
  segment_assign q entry.2.1 (size_t_sub entry.2.2 entry.2.1)
    (one_over (size_t_sub entry.2.2 entry.2.1)).

(** [i] lies in the range of [entry]. *)
Definition in_range (i : nat) (entry : Bitset * (nat * nat)) : Prop :=
  entry.2.1 ≤ i < entry.2.2.

(** * Properties *)

(** ** The flat buffer index *)

Lemma size_t_modulus_eq : size_t_modulus = 18446744073709551616%N.
Proof. reflexivity. Qed.

Ltac size_t_lia := rewrite ?size_t_modulus_eq in *; lia.

Lemma wrap_small (x : N) : (x < size_t_modulus)%N → wrap x = x.
Proof. intros. unfold wrap. by apply N.mod_small. Qed.

Lemma GetPLVIndexStatic_fits (ty : PLVType) (off node_count i : N) :
  kind_offset ty = Some off →
  (6 * node_count ≤ size_t_modulus)%N → (i < node_count)%N →
  GetPLVIndexStatic ty node_count i = Some (off * node_count + i)%N.
Proof.
  intros Hoff Hfit Hi.
  rewrite size_t_modulus_eq in Hfit.
  destruct ty; simplify_eq/=; f_equal;
    rewrite ?wrap_small; rewrite ?wrap_small; rewrite ?size_t_modulus_eq;
    lia.
Qed.

Lemma GetPLVIndexStatic_inj (node_count : N) (ty1 ty2 : PLVType)
    (i1 i2 k : N) :
  (6 * node_count ≤ size_t_modulus)%N →
  (i1 < node_count)%N → (i2 < node_count)%N →
  GetPLVIndexStatic ty1 node_count i1 = Some k →
  GetPLVIndexStatic ty2 node_count i2 = Some k →
  ty1 = ty2 ∧ i1 = i2.
Proof.
  intros Hfit H1 H2 E1 E2.
  destruct (kind_offset ty1) as [o1|] eqn:O1; [|by destruct ty1].
  destruct (kind_offset ty2) as [o2|] eqn:O2; [|by destruct ty2].
  rewrite (GetPLVIndexStatic_fits _ _ _ _ O1 Hfit H1) in E1.
  rewrite (GetPLVIndexStatic_fits _ _ _ _ O2 Hfit H2) in E2.
  destruct ty1, ty2; simplify_eq/=; split; (done || lia).
Qed.

(** C4, on 64-bit [size_t]: the products wrap, so at a node count of [2^63]
    the index of [P_HAT_TILDE] is not [2 * N + id], and the buffers [P] and
    [P_HAT_TILDE] of node 0 share index 0. *)
Lemma GetPLVIndexStatic_wraps :
  GetPLVIndexStatic P_HAT_TILDE (2 ^ 63) 0 ≠ Some (2 * 2 ^ 63 + 0)%N
  ∧ (0 < 2 ^ 63)%N
  ∧ GetPLVIndexStatic P_HAT_TILDE (2 ^ 63) 0 = GetPLVIndexStatic P (2 ^ 63) 0.
Proof. vm_compute. split; [discriminate | done]. Qed.

(** C4, amended: while [6 * N] fits in [size_t], the index of node [i < N]
    for each of the six kinds is [kind_offset * N + i]; two (kind, node)
    pairs with the same index are the same pair; any other kind is fatal. *)
Theorem GetPLVIndexStatic_layout (node_count : N)
    (Hfit : (6 * node_count ≤ size_t_modulus)%N) :
  (∀ ty off i, kind_offset ty = Some off → (i < node_count)%N →
     GetPLVIndexStatic ty node_count i = Some (off * node_count + i)%N)
  ∧ (∀ ty1 ty2 i1 i2 k, (i1 < node_count)%N → (i2 < node_count)%N →
       GetPLVIndexStatic ty1 node_count i1 = Some k →
       GetPLVIndexStatic ty2 node_count i2 = Some k →
       ty1 = ty2 ∧ i1 = i2)
  ∧ (∀ ty i, kind_offset ty = None →
       GetPLVIndexStatic ty node_count i = None).
Proof.
  split_and!.
  - intros. by apply GetPLVIndexStatic_fits.
  - intros ty1 ty2 i1 i2 k H1 H2 E1 E2.
    destruct (kind_offset ty1) as [o1|] eqn:O1; [|by destruct ty1].
    destruct (kind_offset ty2) as [o2|] eqn:O2; [|by destruct ty2].
    rewrite (GetPLVIndexStatic_fits _ _ _ _ O1 Hfit H1) in E1.
    rewrite (GetPLVIndexStatic_fits _ _ _ _ O2 Hfit H2) in E2.
    destruct ty1, ty2; simplify_eq/=; split; (done || lia).
  - intros ty i H. by destruct ty.
Qed.

Lemma GetPLVIndexStatic_layout_witness :
  (6 * 5 ≤ size_t_modulus)%N
  ∧ GetPLVIndexStatic R_HAT 5 4 = Some (3 * 5 + 4)%N.
Proof.
  assert (H : (6 * 5 ≤ size_t_modulus)%N) by (vm_compute; discriminate).
  split; [exact H |].
  apply (proj1 (GetPLVIndexStatic_layout 5 H) R_HAT 3%N 4%N);
    [reflexivity | reflexivity].
Defined.

(** ** Loops in the option monad *)

Section FoldM.
Context {A S : Type}.
Implicit Types (f : S → A → option S) (l : list A) (s : S).

Lemma foldM_app f l1 l2 s :
  foldM f (l1 ++ l2) s = foldM f l1 s ≫= foldM f l2.
Proof.
  revert s. induction l1 as [|x l1 IH]; intros s; simpl; [done |].
  destruct (f s x) as [s1|]; simpl; [apply IH | done].
Qed.

Lemma foldM_snoc f l x s :
  foldM f (l ++ [x]) s = foldM f l s ≫= λ s1, f s1 x.
Proof.
  rewrite foldM_app. destruct (foldM f l s) as [s1|]; simpl; [|done].
  by destruct (f s1 x).
Qed.

(** An invariant indexed by the part of the list already processed. *)
Lemma foldM_ind_prefix (Inv : list A → S → Prop) f l s s' :
  Inv [] s →
  (∀ pre x post s1 s2, l = pre ++ x :: post → Inv pre s1 →
     f s1 x = Some s2 → Inv (pre ++ [x]) s2) →
  foldM f l s = Some s' → Inv l s'.
Proof.
  intros H0 Hstep.
  assert (G : ∀ post pre s1, l = pre ++ post → Inv pre s1 →
              foldM f post s1 = Some s' → Inv l s').
  { induction post as [|x post IH]; intros pre s1 El Hi Hf; simpl in Hf.
    - simplify_eq. by rewrite app_nil_r.
    - destruct (f s1 x) as [s2|] eqn:E; simpl in Hf; [|done].
      apply (IH (pre ++ [x]) s2); [by rewrite <- app_assoc | | done].
      by eapply Hstep. }
  by apply (G l [] s).
Qed.

Lemma foldM_ind (Inv : S → Prop) f l s s' :
  Inv s →
  (∀ x s1 s2, x ∈ l → Inv s1 → f s1 x = Some s2 → Inv s2) →
  foldM f l s = Some s' → Inv s'.
Proof.
  intros H0 Hstep.
  apply (foldM_ind_prefix (λ _, Inv)); [done |].
  intros pre x post s1 s2 -> Hi Hf. eapply Hstep; [|done..].
  set_solver.
Qed.

(** The loop completes when every step does, under an invariant. *)
Lemma foldM_is_Some (Inv : S → Prop) f l s :
  Inv s →
  (∀ x s1, x ∈ l → Inv s1 → ∃ s2, f s1 x = Some s2 ∧ Inv s2) →
  ∃ s', foldM f l s = Some s' ∧ Inv s'.
Proof.
  revert s. induction l as [|x l IH]; intros s H0 Hstep; simpl; [eauto |].
  destruct (Hstep x s) as (s2 & -> & H2); [set_solver | done |]. simpl.
  apply IH; [done |]. intros y s1 Hy. apply Hstep. set_solver.
Qed.

Lemma foldM_ext f g l s :
  (∀ x s1, x ∈ l → f s1 x = g s1 x) → foldM f l s = foldM g l s.
Proof.
  revert s. induction l as [|x l IH]; intros s H; simpl; [done |].
  rewrite H; [|set_solver]. destruct (g s x); simpl; [|done].
  apply IH. intros. apply H. set_solver.
Qed.

End FoldM.

(** A loop that only appends to the operations. *)
Lemma foldM_emit {A B : Type} (f : list B → A → option (list B))
    (g : A → list B) (l : list A) (ops : list B) :
  (∀ ops x, x ∈ l → f ops x = Some (ops ++ g x)) →
  foldM f l ops = Some (ops ++ flat_map g l).
Proof.
  revert ops. induction l as [|x l IH]; intros ops H; simpl.
  - by rewrite app_nil_r.
  - rewrite H; [|set_solver]. simpl. rewrite IH; [|intros; apply H; set_solver].
    by rewrite <- app_assoc.
Qed.

(** ** Zero-initialisation *)

Lemma GetPLVIndex_plv (d : GPDAG) (kind : PLVType) (i : nat) :
  is_Some (kind_offset kind) → GetPLVIndex d kind i = Some (plv d kind i).
Proof. intros [o Ho]. unfold plv. by destruct kind. Qed.

Ltac plv_simpl :=
  rewrite ?GetPLVIndex_plv by (simpl; eauto); simpl.

(** C7, as stated, fails on the DAG of the single topology ((0,1),2): node 0
    belongs to the DAG, and [SetRootwardZero] has no [Zero] for its [P]
    buffer. *)
Lemma SetRootwardZero_skips_leaves :
  let d := Examples.dag_of Examples.one_tree in
  ∃ ops, SetRootwardZero d = Some ops
         ∧ 0 < NodeCount d
         ∧ Zero (plv d P 0) ∉ ops.
Proof.
  eexists. split_and!; [vm_compute; reflexivity | vm_compute; lia |].
  vm_compute. intros H. by repeat (apply elem_of_cons in H as [H|H]; [done |]);
    apply elem_of_nil in H.
Qed.

(** C7, amended: [SetRootwardZero] emits [Zero] for the buffers P, P_HAT and
    P_HAT_TILDE of the nodes with ids from the taxon count upward, the
    non-fake ones, and nothing else; [SetLeafwardZero] emits [Zero] for
    R_HAT, R and R_TILDE of every node and then one
    [SetToStationaryDistribution] on the R_HAT buffer of the root node of
    each rootsplit. *)
Theorem SetZero_operations (d : GPDAG)
    (Hroots : ∀ r, r ∈ rootsplits_ d →
                is_Some (subsplit_to_index_ d !! (r +b ~b r))) :
  SetRootwardZero d
  = Some (flat_map (λ i, [Zero (plv d P i); Zero (plv d P_HAT i);
                          Zero (plv d P_HAT_TILDE i)])
            (seq (taxon_count_ d) (NodeCount d - taxon_count_ d)))
  ∧ SetLeafwardZero d
    = Some (flat_map (λ i, [Zero (plv d R_HAT i); Zero (plv d R i);
                            Zero (plv d R_TILDE i)])
              (seq 0 (NodeCount d))
            ++ ((λ r, SetToStationaryDistribution
                        (plv d R_HAT (root_index d r)) None)
                <$> rootsplits_ d)).
Proof.
  split.
  - unfold SetRootwardZero. erewrite foldM_emit; [done |].
    intros ops i _. unfold SetRootwardZero_step. by plv_simpl.
  - unfold SetLeafwardZero. erewrite foldM_emit; simpl; cycle 1.
    { intros ops i _. unfold SetLeafwardZero_step. by plv_simpl. }
    erewrite (foldM_emit _ (λ r, [SetToStationaryDistribution
                                    (plv d R_HAT (root_index d r)) None]));
      cycle 1.
    { intros ops r Hr. unfold SetLeafwardZero_root, root_index.
      destruct (Hroots r Hr) as [i ->]. by plv_simpl. }
    by do 2 f_equal.
Qed.

Lemma SetZero_operations_witness :
  let d := Examples.dag_of Examples.one_tree in
  SetRootwardZero d = Some [Zero 3; Zero 8; Zero 13; Zero 4; Zero 9; Zero 14]%N
  ∧ ∃ ops, SetLeafwardZero d = Some ops
           ∧ SetToStationaryDistribution 19%N None ∈ ops.
Proof.
  intros d.
  assert (Hroots : ∀ r, r ∈ rootsplits_ d →
                     is_Some (subsplit_to_index_ d !! (r +b ~b r))).
  { intros r Hr. vm_compute in Hr. apply list_elem_of_singleton in Hr as ->.
    vm_compute. eauto. }
  destruct (SetZero_operations d Hroots) as [E1 E2]. split.
  - rewrite E1. vm_compute. reflexivity.
  - eexists. split; [exact E2 |]. apply list_elem_of_In. vm_compute. tauto.
Defined.

(** ** ProcessTrees *)

Section ProcessTrees.
Variable ChildSubsplit : Bitset → Bitset → Bitset.

Lemma SafeInsert_Some `{Countable K} {V : Type} (m m' : gmap K V) k v :
  SafeInsert m k v = Some m' → m !! k = None ∧ m' = <[k := v]> m.
Proof. unfold SafeInsert. destruct (m !! k); naive_solver. Qed.

Lemma mapM_lookup_elem {A B : Type} (f : A → option B) (l : list A)
    (k : list B) (y : B) :
  mapM f l = Some k → y ∈ k → ∃ x, x ∈ l ∧ f x = Some y.
Proof.
  intros Hm Hy. apply mapM_Some in Hm.
  apply list_elem_of_lookup in Hy as [i Hi].
  destruct (Forall2_lookup_r _ _ _ _ _ Hm Hi) as (x & Hx & Hfx).
  exists x. split; [by eapply list_elem_of_lookup_2 | done].
Qed.

Lemma ProcessTrees_children_spec parent cc itc index itc' index' :
  (∀ k, index ≤ k → itc !! k = None) →
  foldM (ProcessTrees_children ChildSubsplit parent) cc (itc, index)
  = Some (itc', index') →
  index' = index + length cc
  ∧ (∀ k, index' ≤ k → itc' !! k = None)
  ∧ (∀ k, k < index → itc' !! k = itc !! k)
  ∧ ∀ k c, index ≤ k < index' → itc' !! k = Some c →
      ∃ child, child ∈ cc.*1 ∧ c = ChildSubsplit parent child.
Proof.
  intros Hfree Hf.
  pose (Inv := λ (pre : list (Bitset * nat)) (st : gmap nat Bitset * nat),
          st.2 = index + length pre
          ∧ (∀ k, st.2 ≤ k → st.1 !! k = None)
          ∧ (∀ k, k < index → st.1 !! k = itc !! k)
          ∧ ∀ k c, index ≤ k < st.2 → st.1 !! k = Some c →
              ∃ child, child ∈ pre.*1 ∧ c = ChildSubsplit parent child).
  apply (foldM_ind_prefix Inv) in Hf; [exact Hf | |].
  - unfold Inv; simpl. split_and!; [lia | done | done | intros; lia].
  - clear Hf. intros pre x post [m i] [m2 i2] _ (E & Hn & Hold & Hnew) Hs.
    unfold ProcessTrees_children in Hs. simpl in *.
    destruct (SafeInsert m i _) as [m3|] eqn:Hins; simplify_eq/=.
    apply SafeInsert_Some in Hins as [_ ->].
    unfold Inv; simpl. rewrite length_app; simpl. split_and!.
    + lia.
    + intros k Hk. rewrite lookup_insert_ne by lia. apply Hn. lia.
    + intros k Hk. rewrite lookup_insert_ne by lia. by apply Hold.
    + intros k c Hk Hc. rewrite fmap_app. setoid_rewrite elem_of_app.
      destruct (decide (k = index + length pre)) as [->|Hne].
      * rewrite lookup_insert_eq in Hc. simplify_eq.
        exists x.1. split; [right; simpl; by apply list_elem_of_singleton | done].
      * rewrite lookup_insert_ne in Hc by lia.
        destruct (Hnew k c) as (ch & Hch & ->); [lia | done |]. eauto.
Qed.

Lemma ProcessTrees_parent_spec tc ptr itc index entry ptr' itc' index' :
  entry ∈ PCSSCounterOf tc →
  tables_from ChildSubsplit tc ptr itc index →
  ProcessTrees_parent ChildSubsplit (ptr, (itc, index)) entry
  = Some (ptr', (itc', index')) →
  tables_from ChildSubsplit tc ptr' itc' index'.
Proof.
  intros Hin [Hfree Hptr] Hs. destruct entry as [parent cc].
  unfold ProcessTrees_parent in Hs.
  destruct (SafeInsert ptr parent _) as [ptr1|] eqn:Hins; simplify_eq/=.
  apply SafeInsert_Some in Hins as [Hnone ->].
  destruct (foldM _ cc _) as [[itc1 index1]|] eqn:Hf; simplify_eq/=.
  apply ProcessTrees_children_spec in Hf
    as (-> & Hfree' & Hold & Hnew); [|done].
  split; [done |]. intros s a b Hs.
  destruct (decide (s = parent)) as [->|Hne].
  - rewrite lookup_insert_eq in Hs. simplify_eq. split; [lia |].
    exists cc. split; [done |]. intros k c Hk Hc. by apply (Hnew k).
  - rewrite lookup_insert_ne in Hs by done.
    destruct (Hptr s a b Hs) as (Hb & cc' & Hcc' & Hch).
    split; [lia |]. exists cc'. split; [done |].
    intros k c Hk Hc. apply (Hch k); [done |]. rewrite <- Hold; [done | lia].
Qed.

Lemma ProcessTrees_rootsplits (l : list (Bitset * nat)) (rs : list Bitset)
    (i : nat) :
  fold_left (λ '(rs, index) iter, (rs ++ [iter.1], S index)) l (rs, i)
  = (rs ++ l.*1, i + length l).
Proof.
  revert rs i. induction l as [|x l IH]; intros rs i; simpl.
  - by rewrite app_nil_r, Nat.add_0_r.
  - rewrite IH. f_equal; [by rewrite <- app_assoc | lia].
Qed.

(** The state [ProcessTrees] hands to [BuildNodes]. *)
Lemma ProcessTrees_spec tc d :
  ProcessTrees ChildSubsplit tc empty_dag = Some d →
  taxon_count_ d = TaxonCount tc
  ∧ rootsplits_ d = (RootsplitCounterOf tc).*1
  ∧ dag_nodes_ d = [] ∧ subsplit_to_index_ d = ∅
  ∧ gpcsp_indexer_ d = ∅ ∧ subsplit_to_range_ d = ∅
  ∧ ∀ s c, table_child d s c →
      ∃ cc child, (s, cc) ∈ PCSSCounterOf tc ∧ child ∈ cc.*1
                  ∧ c = ChildSubsplit s child.
Proof.
  unfold ProcessTrees. rewrite ProcessTrees_rootsplits. simpl.
  destruct (foldM _ _ _) as [[ptr [itc index]]|] eqn:Hf; simpl; [|done].
  intros [= <-]. simpl. split_and!; try done.
  assert (Ht : tables_from ChildSubsplit tc ptr itc index).
  { revert Hf.
    apply (foldM_ind
             (λ st, tables_from ChildSubsplit tc st.1 st.2.1 st.2.2)).
    - split; [done |]. intros s a b Hs. unfold empty_dag in Hs; simpl in Hs.
      by rewrite lookup_empty in Hs.
    - intros x [p1 [i1 n1]] [p2 [i2 n2]] Hx Hi Hs.
      by eapply ProcessTrees_parent_spec. }
  intros s c (cs & Hcs & Hc). unfold GetChildrenSubsplits in Hcs. simpl in Hcs.
  destruct (ptr !! s) as [[a b]|] eqn:Hs.
  - destruct (mapM_lookup_elem _ _ _ _ Hcs Hc) as (k & Hk & Hkc).
    apply elem_of_seq in Hk.
    destruct Ht as [_ Ht]. destruct (Ht s a b Hs) as (_ & cc & Hcc & Hch).
    destruct (Hch k c) as (child & ? & ?); [lia | done |]. eauto 6.
  - simpl in Hcs. simplify_eq. by apply elem_of_nil in Hc.
Qed.

(** A ranked and sized harvest gives ranked and sized tables. *)
Lemma ProcessTrees_tables tc d rank :
  ProcessTrees ChildSubsplit tc empty_dag = Some d →
  harvest_ranked ChildSubsplit tc rank →
  harvest_sized ChildSubsplit tc →
  tables_ranked d rank ∧ tables_sized d.
Proof.
  intros Hp [Hrot Hrank] [Hr Hsz].
  destruct (ProcessTrees_spec _ _ Hp) as (HT & Hrs & _ & _ & _ & _ & Hch).
  split; split.
  - done.
  - intros p c Hc. destruct (Hch p c Hc) as (cc & child & ? & ? & ->).
    by eapply Hrank.
  - intros r. rewrite Hrs, HT. apply Hr.
  - intros p c Hc. destruct (Hch p c Hc) as (cc & child & ? & ? & ->).
    rewrite HT. by eapply Hsz.
Qed.

End ProcessTrees.

(** ** BuildNodes *)

Lemma same_tables_refl d : same_tables d d.
Proof. by destruct d. Qed.

Lemma same_tables_trans d1 d2 d3 :
  same_tables d1 d2 → same_tables d2 d3 → same_tables d1 d3.
Proof. unfold same_tables. intros -> ->. by destruct d1. Qed.

Lemma same_tables_taxon d d' :
  same_tables d d' → taxon_count_ d' = taxon_count_ d.
Proof. by intros ->. Qed.

Lemma same_tables_rootsplits d d' :
  same_tables d d' → rootsplits_ d' = rootsplits_ d.
Proof. by intros ->. Qed.

Lemma same_tables_children d d' s b :
  same_tables d d' → GetChildrenSubsplits d' s b = GetChildrenSubsplits d s b.
Proof. by intros ->. Qed.

Lemma same_tables_table_child d d' p c :
  same_tables d d' → table_child d' p c ↔ table_child d p c.
Proof.
  intros H. unfold table_child.
  by setoid_rewrite (same_tables_children _ _ _ _ H).
Qed.

Lemma same_tables_child_of d d' p c :
  same_tables d d' → child_of d' p c ↔ child_of d p c.
Proof. intros H. unfold child_of. by rewrite !(same_tables_table_child _ _ _ _ H). Qed.

Lemma same_tables_edge_child d d' p c :
  same_tables d d' → edge_child d' p c ↔ edge_child d p c.
Proof.
  intros H. unfold edge_child.
  by setoid_rewrite (same_tables_children _ _ _ _ H).
Qed.

Lemma same_tables_root d d' s :
  same_tables d d' → is_root_subsplit d' s ↔ is_root_subsplit d s.
Proof. intros H. unfold is_root_subsplit. by rewrite (same_tables_rootsplits _ _ H). Qed.

Lemma same_tables_ranked d d' rank :
  same_tables d d' → tables_ranked d rank → tables_ranked d' rank.
Proof.
  intros H [H1 H2]. split; [done |]. intros p c Hc. apply H2.
  by apply (same_tables_table_child _ _ _ _ H).
Qed.

Lemma same_tables_sized d d' :
  same_tables d d' → tables_sized d → tables_sized d'.
Proof.
  intros H [H1 H2]. unfold tables_sized.
  rewrite (same_tables_taxon _ _ H). split.
  - intros r. rewrite (same_tables_rootsplits _ _ H). apply H1.
  - intros p c Hc. apply (H2 p). by apply (same_tables_table_child _ _ _ _ H).
Qed.

Lemma subsplits_app d d' new :
  dag_nodes_ d' = dag_nodes_ d ++ new →
  subsplits d' = subsplits d ++ (subsplit_ <$> new).
Proof. unfold subsplits. intros ->. by rewrite fmap_app. Qed.

Lemma real_mono d d' new s :
  same_tables d d' → dag_nodes_ d' = dag_nodes_ d ++ new →
  real d s → real d' s.
Proof.
  intros Ht Hn (i & Hi & Hs). exists i.
  rewrite (same_tables_taxon _ _ Ht). split; [done |].
  rewrite (subsplits_app _ _ _ Hn). by apply lookup_app_l_Some.
Qed.

Lemma CreateAndInsertNode_spec s d d' :
  store_ok d → CreateAndInsertNode s d = Some d' →
  (s ∉ subsplits d)
  ∧ dag_nodes_ d' = dag_nodes_ d ++ [Node.New (length (dag_nodes_ d)) s]
  ∧ store_ok d' ∧ same_tables d d'.
Proof.
  intros [Hid Hidx] Hc. unfold CreateAndInsertNode in Hc.
  destruct (SafeInsert _ _ _) as [m|] eqn:Hins; simplify_eq/=.
  apply SafeInsert_Some in Hins as [Hnone ->].
  assert (Hfresh : s ∉ subsplits d).
  { intros Hin. apply list_elem_of_lookup in Hin as [i Hi].
    apply Hidx in Hi. congruence. }
  assert (Hlen : length (subsplits d) = length (dag_nodes_ d)).
  { unfold subsplits. by rewrite length_fmap. }
  split_and!; [done | done | | by destruct d].
  split; simpl.
  - intros i n Hi. apply lookup_app_Some in Hi as [Hi|[Hge Hi]]; [by apply Hid |].
    apply list_lookup_singleton_Some in Hi as [Hi <-]. simpl. lia.
  - intros s' i. unfold subsplits. simpl. rewrite fmap_app. simpl.
    fold (subsplits d). split.
    + intros Hl. destruct (decide (s = s')) as [<-|Hne].
      * rewrite lookup_insert_eq in Hl. simplify_eq.
        rewrite lookup_app_r by lia. by rewrite Hlen, Nat.sub_diag.
      * rewrite lookup_insert_ne in Hl by done. apply Hidx in Hl.
        by apply lookup_app_l_Some.
    + intros Hl. apply lookup_app_Some in Hl as [Hl|[Hge Hl]].
      * rewrite lookup_insert_ne; [by apply Hidx |].
        intros <-. apply Hfresh. by eapply list_elem_of_lookup_2.
      * apply list_lookup_singleton_Some in Hl as [Hl <-].
        assert (i = length (dag_nodes_ d)) as -> by lia.
        apply lookup_insert_eq.
Qed.

Lemma real_decide d s : real d s ∨ ¬ real d s.
Proof.
  destruct (decide (s ∈ drop (taxon_count_ d) (subsplits d))) as [H|H].
  - left. apply list_elem_of_lookup in H as [i Hi].
    rewrite lookup_drop in Hi. exists (taxon_count_ d + i). split; [lia | done].
  - right. intros (i & Hi & Hs). apply H. apply list_elem_of_lookup.
    exists (i - taxon_count_ d). rewrite lookup_drop.
    by replace (taxon_count_ d + (i - taxon_count_ d)) with i by lia.
Qed.

Lemma child_of_rank d rank p c :
  tables_ranked d rank → child_of d p c → rank c < rank p.
Proof.
  intros [Hrot Hr] [H|H]; [by apply Hr |].
  rewrite <- (Hrot p). by apply Hr.
Qed.

Section DepthFirstCreation.
Variable rank : Bitset → nat.

Lemma BuildNodes_visit_loop fuel s d0 vis0 cs st st' :
  dfs_spec rank fuel →
  tables_ranked d0 rank →
  (∀ a, pending d0 vis0 a → rank s < rank a) →
  (∀ c, c ∈ cs → child_of d0 s c) →
  dfs_loop_inv s d0 vis0 st →
  foldM (BuildNodes_visit (BuildNodesDepthFirst fuel)) cs st = Some st' →
  dfs_loop_inv s d0 vis0 st'
  ∧ (∀ c, real st.1 c → real st'.1 c)
  ∧ ∀ c, c ∈ cs → real st'.1 c.
Proof.
  intros IH Hrk Hpend Hcs Hinv Hf.
  pose (Inv := λ (pre : list Bitset) (st1 : GPDAG * gset Bitset),
          dfs_loop_inv s d0 vis0 st1
          ∧ (∀ c, real st.1 c → real st1.1 c)
          ∧ ∀ c, c ∈ pre → real st1.1 c).
  apply (foldM_ind_prefix Inv) in Hf; [exact Hf | |].
  { split_and!; [done | done |]. intros c Hc. by apply elem_of_nil in Hc. }
  clear Hf st'. intros pre x post [d1 v1] [d2 v2] Ecs (Hl & Hmono & Hpre) Hstep.
  unfold Inv; clear Inv.
  assert (Hx : child_of d0 s x) by (apply Hcs; rewrite Ecs; set_solver).
  destruct Hl as (Hi1 & Ht1 & Hsub1 & [new1 Hn1] & Hp1). simpl in *.
  unfold BuildNodes_visit in Hstep. simpl in Hstep.
  destruct (decide (x ∈ v1)) as [Hvis|Hvis].
  - simplify_eq. split_and!; [by unfold dfs_loop_inv; eauto 8 | done |].
    intros c Hc. apply elem_of_app in Hc as [Hc|Hc]; [by apply Hpre |].
    apply list_elem_of_singleton in Hc as ->.
    destruct (real_decide d2 x) as [|Hnr]; [done | exfalso].
    pose proof (child_of_rank _ _ _ _ Hrk Hx) as Hlt.
    destruct (Hp1 x) as [->|Hp]; [by split | lia |].
    specialize (Hpend x Hp). lia.
  - apply IH in Hstep; cycle 1.
    + by eapply same_tables_ranked.
    + done.
    + right. exists s. split; [set_solver |].
      by apply (same_tables_child_of _ _ _ _ Ht1).
    + intros a Ha. pose proof (child_of_rank _ _ _ _ Hrk Hx) as Hlt.
      destruct (Hp1 a Ha) as [->|Hp]; [done |].
      specialize (Hpend a Hp). lia.
    + destruct Hstep as (Hi2 & Ht2 & Hsub2 & Hx2 & [new2 Hn2] & Hp2).
      assert (Hm : ∀ c, real d1 c → real d2 c).
      { intros c. by eapply real_mono. }
      split_and!.
      * split_and!; simpl; [done | by eapply same_tables_trans | set_solver | |].
        -- exists (new1 ++ new2 ++ [Node.New (length (dag_nodes_ d1 ++ new2)) x]).
           rewrite Hn2, Hn1. by rewrite <- !app_assoc.
        -- intros a Ha. by apply Hp1, Hp2.
      * intros c Hc. by apply Hm, Hmono.
      * intros c Hc. apply elem_of_app in Hc as [Hc|Hc]; [by apply Hm, Hpre |].
        apply list_elem_of_singleton in Hc as ->.
        destruct Hi2 as (_ & HT2 & _).
        exists (length (dag_nodes_ d1 ++ new2)).
        rewrite (same_tables_taxon _ _ Ht2).
        destruct Hi1 as (_ & HT1 & _). split.
        -- rewrite length_app. lia.
        -- unfold subsplits. rewrite Hn2, app_assoc, fmap_app.
           rewrite lookup_app_r by (by rewrite length_fmap).
           by rewrite length_fmap, Nat.sub_diag.
Qed.

Lemma GetChildrenSubsplits_table_child d s cs c :
  GetChildrenSubsplits d s false = Some cs → table_child d s c → c ∈ cs.
Proof. intros H (cs' & H' & Hc). congruence. Qed.

Lemma BuildNodesDepthFirst_spec fuel : dfs_spec rank fuel.
Proof.
  induction fuel as [|fuel IH]; [done |].
  intros s d vis d' vis' Hrk Hinv Horigin Hpend Hrun. simpl in Hrun.
  destruct (GetChildrenSubsplits d s false) as [cs1|] eqn:Hcs1;
    simpl in Hrun; [|done].
  destruct (foldM _ cs1 _) as [st1|] eqn:Hl1; simpl in Hrun; [|done].
  destruct (GetChildrenSubsplits st1.1 _ false) as [cs2|] eqn:Hcs2;
    simpl in Hrun; [|done].
  destruct (foldM _ cs2 _) as [st2|] eqn:Hl2; simpl in Hrun; [|done].
  destruct (CreateAndInsertNode s st2.1) as [d2|] eqn:Hcr;
    simpl in Hrun; [|done].
  simplify_eq.
  assert (H0 : dfs_loop_inv s d vis (d, {[s]} ∪ vis)).
  { destruct Hinv as (Hst & HT & Hreal & Hpost & Horig).
    split_and!; simpl.
    - split_and!; [done | done | set_solver | done |].
      intros a Ha. apply elem_of_union in Ha as [Ha|Ha].
      + apply elem_of_singleton in Ha as ->.
        destruct Horigin as [|(p & ? & ?)]; [by left |].
        right. exists p. split; [set_solver | done].
      + destruct (Horig a Ha) as [|(p & ? & ?)]; [by left |].
        right. exists p. split; [set_solver | done].
    - apply same_tables_refl.
    - done.
    - exists []. by rewrite app_nil_r.
    - intros a [Ha Hnr]. apply elem_of_union in Ha as [Ha|Ha].
      + left. by apply elem_of_singleton in Ha.
      + by right. }
  eapply (BuildNodes_visit_loop _ s d vis cs1) in Hl1
    as (H1 & Hm1 & Hr1); [| done | done | done | | done]; cycle 1.
  { intros c Hc. left. by exists cs1. }
  assert (Ht1 : same_tables d st1.1) by apply H1.
  rewrite (same_tables_children _ _ _ _ Ht1) in Hcs2.
  eapply (BuildNodes_visit_loop _ s d vis cs2) in Hl2
    as (H2 & Hm2 & Hr2); [| done | done | done | | done]; cycle 1.
  { intros c Hc. right. by exists cs2. }
  destruct st2 as [d3 v3]. simpl in *.
  destruct H2 as (Hi3 & Ht3 & Hsub3 & [new3 Hn3] & Hp3). simpl in *.
  destruct Hi3 as (Hst3 & HT3 & Hreal3 & Hpost3 & Horig3).
  apply CreateAndInsertNode_spec in Hcr as (Hfresh & Hn' & Hst' & Ht'); [|done].
  assert (HT' : taxon_count_ d' = taxon_count_ d3)
    by (by apply same_tables_taxon).
  assert (Hm' : ∀ c, real d3 c → real d' c) by (intros c; by eapply real_mono).
  assert (Hs' : subsplits d' !! length (dag_nodes_ d3) = Some s).
  { unfold subsplits. rewrite Hn', fmap_app.
    rewrite lookup_app_r by (by rewrite length_fmap).
    by rewrite length_fmap, Nat.sub_diag. }
  assert (Hlook : ∀ i x, subsplits d' !! i = Some x →
            (i < length (dag_nodes_ d3) ∧ subsplits d3 !! i = Some x)
            ∨ (i = length (dag_nodes_ d3) ∧ x = s)).
  { intros i x Hx. erewrite (subsplits_app d3 d') in Hx by done. simpl in Hx.
    apply lookup_app_Some in Hx as [Hx|[Hge Hx]].
    - left. split; [|done]. apply lookup_lt_Some in Hx.
      unfold subsplits in Hx. by rewrite length_fmap in Hx.
    - right. apply list_lookup_singleton_Some in Hx as [Hx <-].
      unfold subsplits in *. rewrite length_fmap in *. split; [lia | done]. }
  split_and!.
  - split_and!.
    + done.
    + rewrite HT', Hn', length_app. lia.
    + intros a (i & Hi & Ha). rewrite HT' in Hi.
      destruct (Hlook i a Ha) as [[_ Hold]|[_ ->]].
      * apply Hreal3. by exists i.
      * set_solver.
    + intros i x c Hi Hx Hc. rewrite HT' in Hi |- *.
      apply (same_tables_child_of _ _ _ _ Ht') in Hc.
      destruct (Hlook i x Hx) as [[Hlt Hold]|[-> ->]].
      * destruct (Hpost3 i x c Hi Hold Hc) as (j & Hj & HTj & Hjc).
        exists j. split_and!; [done | done |].
        erewrite (subsplits_app d3 d') by done. by apply lookup_app_l_Some.
      * apply (same_tables_child_of _ _ _ _ Ht3) in Hc.
        assert (Hrc : real d3 c).
        { destruct Hc as [Hc|Hc].
          - apply Hm2, Hr1. by eapply GetChildrenSubsplits_table_child.
          - apply Hr2. by eapply GetChildrenSubsplits_table_child. }
        destruct Hrc as (j & HTj & Hjc). exists j. split_and!; [|done|].
        -- apply lookup_lt_Some in Hjc. unfold subsplits in Hjc.
           by rewrite length_fmap in Hjc.
        -- erewrite (subsplits_app d3 d') by done. by apply lookup_app_l_Some.
    + intros a Ha. destruct (Horig3 a Ha) as [Hr|(p & Hp & Hc)].
      * left. by apply (same_tables_root _ _ _ Ht').
      * right. exists p. split; [done |].
        by apply (same_tables_child_of _ _ _ _ Ht').
  - by eapply same_tables_trans.
  - set_solver.
  - set_solver.
  - exists new3. rewrite Hn', Hn3. by rewrite <- app_assoc.
  - intros a [Ha Hnr].
    destruct (Hp3 a) as [->|Hp]; [| |done].
    + split; [done |]. intros Hr. by apply Hnr, Hm'.
    + exfalso. apply Hnr. exists (length (dag_nodes_ d3)).
      split; [lia | done].
Qed.

End DepthFirstCreation.

Lemma seq_split_length (n : nat) (pre post : list nat) (x : nat) :
  seq 0 n = pre ++ x :: post → x = length pre.
Proof.
  intros E. assert (H : seq 0 n !! length pre = Some x).
  { rewrite E. by rewrite lookup_app_r, Nat.sub_diag by lia. }
  apply lookup_seq in H. lia.
Qed.

Lemma store_ok_empty d :
  dag_nodes_ d = [] → subsplit_to_index_ d = ∅ → store_ok d.
Proof.
  intros Hn Hi. split.
  - intros i n. by rewrite Hn.
  - intros s i. unfold subsplits. by rewrite Hn, Hi, lookup_empty.
Qed.

Lemma BuildNodes_fakes d d' :
  dag_nodes_ d = [] → subsplit_to_index_ d = ∅ →
  foldM BuildNodes_fake (seq 0 (taxon_count_ d)) d = Some d' →
  store_ok d' ∧ same_tables d d'
  ∧ dag_nodes_ d'
    = (λ i, Node.New i (fake_subsplit (taxon_count_ d) i))
      <$> seq 0 (taxon_count_ d).
Proof.
  intros Hn Hi Hf.
  pose (Inv := λ (pre : list nat) (d1 : GPDAG),
          store_ok d1 ∧ same_tables d d1
          ∧ dag_nodes_ d1
            = (λ i, Node.New i (fake_subsplit (taxon_count_ d) i)) <$> pre).
  apply (foldM_ind_prefix Inv) in Hf; [exact Hf | |].
  { split_and!; [by apply store_ok_empty | apply same_tables_refl | done]. }
  clear Hf. intros pre x post d1 d2 E (Hst & Ht & Hnodes) Hs.
  unfold BuildNodes_fake in Hs. rewrite (same_tables_taxon _ _ Ht) in Hs.
  apply CreateAndInsertNode_spec in Hs as (_ & Hn2 & Hst2 & Ht2); [|done].
  split_and!; [done | by eapply same_tables_trans |].
  rewrite Hn2, Hnodes, fmap_app, length_fmap. simpl.
  by rewrite (seq_split_length _ _ _ _ E).
Qed.

Lemma CreateAndInsertNode_fresh s d d' :
  all_fresh d → CreateAndInsertNode s d = Some d' → all_fresh d'.
Proof.
  intros Hfr Hc. unfold CreateAndInsertNode in Hc.
  destruct (SafeInsert _ _ _) as [m|]; simplify_eq/=.
  intros i n Hi. simpl in Hi.
  apply lookup_app_Some in Hi as [Hi|[Hge Hi]]; [by apply Hfr |].
  apply list_lookup_singleton_Some in Hi as [Hi <-]. simpl.
  f_equal. lia.
Qed.

Lemma BuildNodesDepthFirst_fresh fuel s st st' :
  all_fresh st.1 → BuildNodesDepthFirst fuel s st = Some st' →
  all_fresh st'.1.
Proof.
  revert s st st'. induction fuel as [|fuel IH]; [done |].
  intros s st st' Hfr Hrun. simpl in Hrun.
  assert (Hloop : ∀ cs st1 st2, all_fresh st1.1 →
            foldM (BuildNodes_visit (BuildNodesDepthFirst fuel)) cs st1
            = Some st2 → all_fresh st2.1).
  { intros cs st1 st2 H1.
    apply (foldM_ind (λ st, all_fresh st.1)); [done |].
    intros x s1 s2 _ Hs1. unfold BuildNodes_visit.
    destruct (decide _); [by intros [= <-] | by apply IH]. }
  destruct (GetChildrenSubsplits _ s false) as [cs1|]; simpl in Hrun; [|done].
  destruct (foldM _ cs1 _) as [st1|] eqn:Hl1; simpl in Hrun; [|done].
  destruct (GetChildrenSubsplits st1.1 _ false) as [cs2|];
    simpl in Hrun; [|done].
  destruct (foldM _ cs2 _) as [st2|] eqn:Hl2; simpl in Hrun; [|done].
  destruct (CreateAndInsertNode s st2.1) as [d2|] eqn:Hcr;
    simpl in Hrun; [|done].
  simplify_eq. simpl. eapply CreateAndInsertNode_fresh; [|done].
  eapply (Hloop cs2 st1 st2); [|exact Hl2].
  eapply (Hloop cs1 _ st1); [|exact Hl1]. exact Hfr.
Qed.

Lemma store_ok_unique d i j s :
  store_ok d → subsplits d !! i = Some s → subsplits d !! j = Some s → i = j.
Proof. intros [_ H] Hi Hj. apply H in Hi, Hj. congruence. Qed.

Lemma root_index_lookup d r i :
  store_ok d → subsplits d !! i = Some (r +b ~b r) → root_index d r = i.
Proof. intros [_ H] Hi. apply H in Hi. unfold root_index. by rewrite Hi. Qed.

Lemma BuildNodes_roots rank fuel df st' :
  tables_ranked df rank → dfs_inv df ∅ →
  foldM (λ st rootsplit,
           BuildNodesDepthFirst fuel (rootsplit +b ~b rootsplit) st)
        (rootsplits_ df) (df, ∅) = Some st' →
  roots_loop_inv df (rootsplits_ df) st'.
Proof.
  intros Hrk Hinv Hf.
  apply (foldM_ind_prefix (roots_loop_inv df)) in Hf; [exact Hf | |].
  { split_and!; simpl.
    - done.
    - apply same_tables_refl.
    - intros a [Ha _]. set_solver.
    - exists []. by rewrite app_nil_r.
    - intros r Hr. by apply elem_of_nil in Hr.
    - intros k1 k2 r1 r2 i1 i2 _ H. by rewrite lookup_nil in H. }
  clear Hf st'. intros pre x post [d1 v1] [d2 v2] E
    (Hi1 & Ht1 & Hnp1 & [new1 Hn1] & Hroots1 & Hord1) Hstep. simpl in *.
  apply (BuildNodesDepthFirst_spec rank) in Hstep; cycle 1.
  { by eapply same_tables_ranked. }
  { done. }
  { left. apply (same_tables_root _ _ _ Ht1). exists x.
    split; [rewrite E; set_solver | done]. }
  { intros a Ha. by destruct (Hnp1 a). }
  destruct Hstep as (Hi2 & Ht2 & Hsub2 & Hx2 & [new2 Hn2] & Hp2).
  assert (Hext : ∀ i s, subsplits d1 !! i = Some s → subsplits d2 !! i = Some s).
  { intros i s Hs. erewrite (subsplits_app d1 d2) by done.
    by apply lookup_app_l_Some. }
  assert (Hxpos : subsplits d2 !! length (dag_nodes_ d1 ++ new2)
                  = Some (x +b ~b x)).
  { unfold subsplits. rewrite Hn2, app_assoc, fmap_app.
    rewrite lookup_app_r by (by rewrite length_fmap).
    by rewrite length_fmap, Nat.sub_diag. }
  assert (HT1 : taxon_count_ df ≤ length (dag_nodes_ d1)).
  { rewrite <- (same_tables_taxon _ _ Ht1). apply Hi1. }
  split_and!; simpl.
  - done.
  - by eapply same_tables_trans.
  - intros a Ha. by apply (Hnp1 a), Hp2.
  - exists (new1 ++ new2 ++ [Node.New (length (dag_nodes_ d1 ++ new2))
                              (x +b ~b x)]).
    rewrite Hn2, Hn1. by rewrite <- !app_assoc.
  - intros r Hr. apply elem_of_app in Hr as [Hr|Hr].
    + destruct (Hroots1 r Hr) as (i & Hi & Hs). exists i. eauto.
    + apply list_elem_of_singleton in Hr as ->.
      exists (length (dag_nodes_ d1 ++ new2)). split; [|done].
      rewrite length_app. lia.
  - intros k1 k2 r1 r2 i1 i2 Hk Hr1 Hr2 Hs1 Hs2.
    assert (Hst2 : store_ok d2) by apply Hi2.
    assert (Hk1 : pre !! k1 = Some r1).
    { apply lookup_app_Some in Hr1 as [Hr1|[Hge Hr1]]; [done |].
      apply lookup_lt_Some in Hr2. rewrite length_app in Hr2. simpl in Hr2.
      lia. }
    destruct (Hroots1 r1) as (j1 & Hj1 & Hsj1);
      [by eapply list_elem_of_lookup_2 |].
    assert (i1 = j1) as ->
      by (eapply store_ok_unique; [exact Hst2 | done | by apply Hext]).
    apply lookup_app_Some in Hr2 as [Hr2|[Hge Hr2]].
    + destruct (Hroots1 r2) as (j2 & Hj2 & Hsj2);
        [by eapply list_elem_of_lookup_2 |].
      assert (i2 = j2) as ->
        by (eapply store_ok_unique; [exact Hst2 | done | by apply Hext]).
      by eapply Hord1.
    + apply list_lookup_singleton_Some in Hr2 as [_ <-].
      assert (i2 = length (dag_nodes_ d1 ++ new2)) as ->
        by (by eapply store_ok_unique).
      apply lookup_lt_Some in Hsj1. unfold subsplits in Hsj1.
      rewrite length_fmap in Hsj1. rewrite length_app. lia.
Qed.

Lemma BuildNodes_spec rank fuel d0 d1 :
  dag_nodes_ d0 = [] → subsplit_to_index_ d0 = ∅ → tables_ranked d0 rank →
  BuildNodes fuel d0 = Some d1 →
  same_tables d0 d1 ∧ nodes_built d1 ∧ all_fresh d1.
Proof.
  intros Hn0 Hi0 Hrk Hb. unfold BuildNodes in Hb.
  destruct (foldM BuildNodes_fake _ d0) as [df|] eqn:Hfk; simpl in Hb; [|done].
  destruct (foldM _ (rootsplits_ df) _) as [st|] eqn:Hl; simpl in Hb; [|done].
  simplify_eq.
  apply BuildNodes_fakes in Hfk as (Hstf & Htf & Hnf); [|done..].
  assert (HTf : taxon_count_ df = taxon_count_ d0)
    by (by apply same_tables_taxon).
  assert (Hlenf : length (dag_nodes_ df) = taxon_count_ df).
  { by rewrite Hnf, length_fmap, length_seq. }
  assert (Hinv : dfs_inv df ∅).
  { split_and!; [done | lia | | |].
    - intros s (i & Hi & Hs). apply lookup_lt_Some in Hs.
      unfold subsplits in Hs. rewrite length_fmap in Hs. lia.
    - intros i s c Hi Hs. apply lookup_lt_Some in Hs.
      unfold subsplits in Hs. rewrite length_fmap in Hs. lia.
    - intros s Hs. set_solver. }
  assert (Hfresh : all_fresh st.1).
  { revert Hl. apply (foldM_ind (λ st, all_fresh st.1)); simpl.
    - intros i n. rewrite Hnf, list_lookup_fmap.
      intros Hi. apply fmap_Some in Hi as (j & Hj & ->).
      apply lookup_seq in Hj as [-> _]. done.
    - intros x s1 s2 _ H1 H2. by eapply BuildNodesDepthFirst_fresh. }
  apply (BuildNodes_roots rank) in Hl;
    [| by eapply same_tables_ranked | done].
  destruct st as [d1 v1]. simpl in *.
  destruct Hl as (Hi1 & Ht1 & Hnp & [new Hn1] & Hroots & Hord). simpl in *.
  destruct Hi1 as (Hst1 & HT1 & Hreal & Hpost & Horig).
  assert (HT : taxon_count_ d1 = taxon_count_ df)
    by (by apply same_tables_taxon).
  assert (Hrs : rootsplits_ d1 = rootsplits_ df)
    by (by apply same_tables_rootsplits).
  split_and!; [by eapply same_tables_trans | | done].
  split_and!.
  - done.
  - split; [done |]. intros i Hi. unfold subsplits.
    rewrite Hn1, fmap_app, lookup_app_l
      by (rewrite length_fmap; lia).
    rewrite Hnf, <- list_fmap_compose, list_lookup_fmap.
    rewrite lookup_seq_lt by lia. simpl. by rewrite HT, HTf.
  - intros r Hr. rewrite Hrs in Hr.
    destruct (Hroots r Hr) as (i & Hi & Hs).
    rewrite (root_index_lookup _ _ _ Hst1 Hs). split; [by apply Hst1 | lia].
  - intros k1 k2 r1 r2 Hk Hr1 Hr2. rewrite Hrs in Hr1, Hr2.
    destruct (Hroots r1) as (i1 & Hi1 & Hs1);
      [by eapply list_elem_of_lookup_2 |].
    destruct (Hroots r2) as (i2 & Hi2 & Hs2);
      [by eapply list_elem_of_lookup_2 |].
    rewrite (root_index_lookup _ _ _ Hst1 Hs1).
    rewrite (root_index_lookup _ _ _ Hst1 Hs2).
    by eapply Hord.
  - done.
  - intros i s Hi Hs.
    destruct (Horig s) as [|(p & Hp & Hc)]; [apply Hreal; by exists i | by left |].
    right. destruct (real_decide d1 p) as [(k & Hk & Hpk)|Hnr].
    + by exists k, p.
    + by destruct (Hnp p).
Qed.

(** ** BuildEdges *)

Lemma Leafward_AddLeafward rot' rot c n :
  Node.Leafward rot' (AddLeafward rot c n)
  = Node.Leafward rot' n ++ (if decide (rot' = rot) then [c] else []).
Proof. destruct rot, rot'; simpl; by rewrite ?app_nil_r. Qed.

Lemma Leafward_AddRootward rot' rot p n :
  Node.Leafward rot' (AddRootward rot p n) = Node.Leafward rot' n.
Proof. by destruct rot, rot'. Qed.

Lemma Rootward_AddRootward rot' rot p n :
  Node.Rootward rot' (AddRootward rot p n)
  = Node.Rootward rot' n ++ (if decide (rot' = rot) then [p] else []).
Proof. destruct rot, rot'; simpl; by rewrite ?app_nil_r. Qed.

Lemma Rootward_AddLeafward rot' rot c n :
  Node.Rootward rot' (AddLeafward rot c n) = Node.Rootward rot' n.
Proof. by destruct rot, rot'. Qed.

Lemma add_edge_lookup rot p c nodes i :
  add_edge rot p c nodes !! i
  = (λ n, (if decide (i = c) then AddRootward rot p else id)
            ((if decide (i = p) then AddLeafward rot c else id) n))
    <$> nodes !! i.
Proof.
  unfold add_edge. rewrite !list_lookup_alter.
  repeat case_decide; subst; try congruence; by destruct (nodes !! _).
Qed.

(** The lists of a node after [add_edge], in terms of those before. *)
Lemma add_edge_inv rot p c nodes i n' :
  add_edge rot p c nodes !! i = Some n' →
  ∃ n, nodes !! i = Some n ∧ id_ n' = id_ n ∧ subsplit_ n' = subsplit_ n
       ∧ (∀ rot',
            Node.Leafward rot' n'
            = Node.Leafward rot' n
              ++ (if decide (i = p ∧ rot' = rot) then [c] else []))
       ∧ (∀ rot',
            Node.Rootward rot' n'
            = Node.Rootward rot' n
              ++ (if decide (i = c ∧ rot' = rot) then [p] else [])).
Proof.
  rewrite add_edge_lookup. intros H.
  apply fmap_Some in H as (n & Hn & ->). exists n. split; [done |].
  destruct (decide (i = c)) as [Hc|Hc], (decide (i = p)) as [Hp|Hp]; subst;
    simpl; (split_and!; [by destruct rot | by destruct rot | |]); intros rot';
    rewrite ?Leafward_AddRootward, ?Leafward_AddLeafward,
      ?Rootward_AddRootward, ?Rootward_AddLeafward;
    repeat case_decide; try done; try (by rewrite app_nil_r);
    try (exfalso; naive_solver).
Qed.

Lemma add_edge_Some rot p c nodes i n :
  nodes !! i = Some n → ∃ n', add_edge rot p c nodes !! i = Some n'.
Proof. rewrite add_edge_lookup. intros ->. simpl. eauto. Qed.

Lemma grows_refl nodes : grows nodes nodes.
Proof. split; [done |]. intros i n Hn. exists n. naive_solver. Qed.

Lemma grows_trans n1 n2 n3 : grows n1 n2 → grows n2 n3 → grows n1 n3.
Proof.
  intros [L1 G1] [L2 G2]. split; [congruence |]. intros i n Hn.
  destruct (G1 i n Hn) as (n' & Hn' & Hid' & Hs' & Hl').
  destruct (G2 i n' Hn') as (n'' & Hn'' & Hid'' & Hs'' & Hl'').
  exists n''. split_and!; [done | congruence | congruence |].
  intros rot. destruct (Hl' rot), (Hl'' rot). split; set_solver.
Qed.

Lemma grows_add_edge rot p c nodes : grows nodes (add_edge rot p c nodes).
Proof.
  split; [unfold add_edge; by rewrite !length_alter |].
  intros i n Hn. destruct (add_edge_Some rot p c _ _ _ Hn) as [n' Hn'].
  exists n'. split; [done |].
  apply add_edge_inv in Hn' as (n0 & Hn0 & Hid & Hs & Hl & Hr).
  simplify_eq. split_and!; [done | done |].
  intros rot'. rewrite Hl, Hr. split; set_solver.
Qed.

Lemma grows_lookup_inv nodes nodes' i n' :
  grows nodes nodes' → nodes' !! i = Some n' → ∃ n, nodes !! i = Some n.
Proof.
  intros [L _] H. apply lookup_lt_Some in H. rewrite L in H.
  by apply lookup_lt_is_Some_2 in H.
Qed.

Lemma grows_subsplits nodes nodes' :
  grows nodes nodes' → subsplit_ <$> nodes' = subsplit_ <$> nodes.
Proof.
  intros [L G]. apply list_eq. intros i. rewrite !list_lookup_fmap.
  destruct (nodes !! i) as [n|] eqn:Hn.
  - destruct (G i n Hn) as (n' & -> & _ & Hs & _). simpl. by rewrite Hs.
  - apply lookup_ge_None in Hn. rewrite <- L in Hn.
    apply lookup_ge_None in Hn. by rewrite Hn.
Qed.

Lemma grows_ids nodes nodes' :
  grows nodes nodes' →
  (∀ i n, nodes !! i = Some n → id_ n = i) →
  ∀ i n, nodes' !! i = Some n → id_ n = i.
Proof.
  intros Hg Hid i n' Hn'.
  destruct (grows_lookup_inv _ _ _ _ Hg Hn') as [n Hn].
  destruct Hg as [_ G]. destruct (G i n Hn) as (n'' & ? & Hid' & _).
  simplify_eq. rewrite Hid'. by apply Hid.
Qed.

Lemma ConnectNodes_child_eq d idx rot node nodes x nodes' :
  (∀ i n, nodes !! i = Some n → id_ n = i) → id_ node = idx →
  ConnectNodes_child d idx rot node nodes x = Some nodes' →
  ∃ c cn, subsplit_to_index_ d !! x = Some c ∧ nodes !! c = Some cn
          ∧ nodes' = add_edge rot idx c nodes.
Proof.
  intros Hid Hnode H. unfold ConnectNodes_child in H.
  destruct (subsplit_to_index_ d !! x) as [c|] eqn:Hc; simpl in H; [|done].
  destruct (nodes !! c) as [cn|] eqn:Hcn; simpl in H; [|done].
  exists c, cn. split_and!; [done | done |].
  unfold Node.Id in H. rewrite (Hid c cn Hcn), Hnode in H.
  destruct rot; by simplify_eq.
Qed.

Lemma GetBitsetRot_subsplit n n' rot :
  subsplit_ n' = subsplit_ n → Node.GetBitsetRot n' rot = Node.GetBitsetRot n rot.
Proof. unfold Node.GetBitsetRot. by intros ->. Qed.

Lemma edges_complete_grows d nodes nodes' p rot :
  grows nodes nodes' → edges_complete_at d nodes p rot →
  edges_complete_at d nodes' p rot.
Proof.
  intros Hg Hc n' s Hn' He.
  destruct (grows_lookup_inv _ _ _ _ Hg Hn') as [n Hn].
  destruct Hg as [_ G]. destruct (G p n Hn) as (n'' & ? & _ & Hs & Hl).
  simplify_eq. rewrite (GetBitsetRot_subsplit _ _ _ Hs) in He.
  destruct (Hc n s Hn He) as (c & Hc1 & Hc2). exists c. split; [done |].
  by apply (Hl rot).
Qed.

(** One edge more keeps the edge invariants. *)
Lemma add_edge_sound d rot p c nodes n cn :
  taxon_count_ d ≤ p → nodes !! p = Some n → nodes !! c = Some cn →
  edge_child d (Node.GetBitsetRot n rot) (subsplit_ cn) →
  edges_sound d nodes → edges_sound d (add_edge rot p c nodes).
Proof.
  intros HT Hn Hcn He Hs p' n' rot' c' Hn' Hc'.
  pose proof (grows_add_edge rot p c nodes) as [_ G].
  apply add_edge_inv in Hn' as (n0 & Hn0 & _ & Hs0 & Hl & _).
  rewrite Hl in Hc'. apply elem_of_app in Hc' as [Hc'|Hc'].
  - destruct (Hs p' n0 rot' c' Hn0 Hc') as (HT' & cn' & Hcn' & Hp' & He').
    split; [done |].
    destruct (G c' cn' Hcn') as (cn2 & Hcn2 & _ & Hs2 & Hl2).
    exists cn2. split_and!; [done | by apply (Hl2 rot') |].
    by rewrite (GetBitsetRot_subsplit _ _ _ Hs0), Hs2.
  - case_decide as Hd; [|by apply elem_of_nil in Hc'].
    destruct Hd as [-> ->]. apply list_elem_of_singleton in Hc' as ->.
    simplify_eq. split; [done |].
    destruct (add_edge_Some rot p c _ _ _ Hcn) as [cn2 Hcn2].
    exists cn2. split; [done |].
    apply add_edge_inv in Hcn2 as (cn0 & Hcn0 & _ & Hs2 & _ & Hr2).
    simplify_eq. split.
    + rewrite Hr2. apply elem_of_app. right.
      rewrite decide_True by done. by apply list_elem_of_singleton.
    + by rewrite (GetBitsetRot_subsplit _ _ _ Hs0), Hs2.
Qed.

Lemma add_edge_twinned rot p c nodes n :
  nodes !! p = Some n →
  edges_twinned nodes → edges_twinned (add_edge rot p c nodes).
Proof.
  intros Hn Ht c' cn' rot' p' Hcn' Hp'.
  pose proof (grows_add_edge rot p c nodes) as [_ G].
  apply add_edge_inv in Hcn' as (cn0 & Hcn0 & _ & _ & _ & Hr).
  rewrite Hr in Hp'. apply elem_of_app in Hp' as [Hp'|Hp'].
  - destruct (Ht c' cn0 rot' p' Hcn0 Hp') as (n1 & Hn1 & Hc1).
    destruct (G p' n1 Hn1) as (n2 & Hn2 & _ & _ & Hl2).
    exists n2. split; [done |]. by apply (Hl2 rot').
  - case_decide as Hd; [|by apply elem_of_nil in Hp'].
    destruct Hd as [-> ->]. apply list_elem_of_singleton in Hp' as ->.
    destruct (add_edge_Some rot p c _ _ _ Hn) as [n2 Hn2].
    exists n2. split; [done |].
    apply add_edge_inv in Hn2 as (n0 & Hn0 & _ & _ & Hl & _).
    rewrite Hl. apply elem_of_app. right.
    rewrite decide_True by done. by apply list_elem_of_singleton.
Qed.

Lemma ConnectNodes_spec d p rot d' :
  store_ok d → taxon_count_ d ≤ p →
  edges_sound d (dag_nodes_ d) → edges_twinned (dag_nodes_ d) →
  ConnectNodes p rot d = Some d' →
  d' = with_nodes (dag_nodes_ d') d
  ∧ grows (dag_nodes_ d) (dag_nodes_ d')
  ∧ edges_sound d (dag_nodes_ d') ∧ edges_twinned (dag_nodes_ d')
  ∧ edges_complete_at d (dag_nodes_ d') p rot.
Proof.
  intros [Hid Hidx] HT Hs Ht Hc. unfold ConnectNodes in Hc.
  destruct (dag_nodes_ d !! p) as [node|] eqn:Hnode; simpl in Hc; [|done].
  destruct (GetChildrenSubsplits d _ true) as [cs|] eqn:Hcs;
    simpl in Hc; [|done].
  destruct (foldM _ cs _) as [nodes'|] eqn:Hf; simpl in Hc; [|done].
  simplify_eq. simpl. split; [done |].
  pose (Inv := λ (pre : list Bitset) (nodes1 : list GPDAGNode),
          grows (dag_nodes_ d) nodes1
          ∧ edges_sound d nodes1 ∧ edges_twinned nodes1
          ∧ ∀ s, s ∈ pre →
              ∃ c n1, subsplit_to_index_ d !! s = Some c
                      ∧ nodes1 !! p = Some n1 ∧ c ∈ Node.Leafward rot n1).
  assert (HI : Inv cs nodes').
  { revert Hf. apply (foldM_ind_prefix Inv).
    { split_and!; [apply grows_refl | done | done |].
      intros s Hs'. by apply elem_of_nil in Hs'. }
    intros pre x post nodes1 nodes2 E (Hg1 & Hs1 & Ht1 & Hpre1) Hstep.
    apply ConnectNodes_child_eq in Hstep as (c & cn & Hxc & Hcn & ->);
      [| by eapply grows_ids | by apply Hid].
    destruct (proj2 Hg1 p node Hnode) as (n1 & Hn1 & _ & Hsn1 & _).
    assert (Hscn : subsplit_ cn = x).
    { apply Hidx in Hxc. unfold subsplits in Hxc.
      rewrite <- (grows_subsplits _ _ Hg1), list_lookup_fmap, Hcn in Hxc.
      by simplify_eq/=. }
    pose proof (grows_add_edge rot p c nodes1) as Hg2.
    split_and!.
    - by eapply grows_trans.
    - eapply add_edge_sound; [done | done | done | | done].
      rewrite (GetBitsetRot_subsplit _ _ _ Hsn1), Hscn.
      exists cs. split; [done |]. rewrite E. set_solver.
    - by eapply add_edge_twinned.
    - intros s Hs'. apply elem_of_app in Hs' as [Hs'|Hs'].
      + destruct (Hpre1 s Hs') as (c' & n' & Hc' & Hn' & Hin').
        destruct (proj2 Hg2 p n' Hn') as (n2 & Hn2 & _ & _ & Hl2).
        exists c', n2. split_and!; [done | done |]. by apply (Hl2 rot).
      + apply list_elem_of_singleton in Hs' as ->.
        destruct (add_edge_Some rot p c _ _ _ Hn1) as [n2 Hn2].
        exists c, n2. split_and!; [done | done |].
        apply add_edge_inv in Hn2 as (n0 & Hn0 & _ & _ & Hl & _).
        rewrite Hl. apply elem_of_app. right.
        rewrite decide_True by done. by apply list_elem_of_singleton. }
  destruct HI as (Hg & Hs' & Ht' & Hall). split_and!; [done..|].
  intros n s Hn (cs' & Hcs' & Hin).
  destruct (proj2 Hg p node Hnode) as (n1 & Hn1 & _ & Hsn1 & _).
  simplify_eq. rewrite (GetBitsetRot_subsplit _ _ _ Hsn1) in Hcs'.
  simplify_eq. destruct (Hall s Hin) as (c & n2 & Hc & Hn2 & Hin2).
  simplify_eq. eauto.
Qed.

Lemma store_ok_grows d nodes :
  store_ok d → grows (dag_nodes_ d) nodes → store_ok (with_nodes nodes d).
Proof.
  intros [Hid Hidx] Hg. split; simpl.
  - by eapply grows_ids.
  - intros s i. unfold subsplits. simpl. rewrite (grows_subsplits _ _ Hg).
    apply Hidx.
Qed.

(** The facts about the nodes only read ids, subsplits and tables. *)
Lemma nodes_built_grows d nodes :
  nodes_built d → grows (dag_nodes_ d) nodes →
  nodes_built (with_nodes nodes d).
Proof.
  intros (Hst & [Hlen Hfk] & Hri & Hro & Hpo & Hde) Hg.
  assert (Hsub : subsplits (with_nodes nodes d) = subsplits d).
  { unfold subsplits. simpl. by apply grows_subsplits. }
  split_and!.
  - by apply store_ok_grows.
  - split; simpl; [by rewrite (proj1 Hg) | by rewrite Hsub].
  - done.
  - done.
  - unfold post_ordered. rewrite Hsub. exact Hpo.
  - unfold all_descend. rewrite Hsub. exact Hde.
Qed.

Lemma with_nodes_edges_sound ns d nodes :
  edges_sound (with_nodes ns d) nodes ↔ edges_sound d nodes.
Proof. done. Qed.

Lemma with_nodes_edges_complete ns d nodes p rot :
  edges_complete_at (with_nodes ns d) nodes p rot
  ↔ edges_complete_at d nodes p rot.
Proof. done. Qed.

Lemma with_nodes_with_nodes ns ns' d :
  with_nodes ns' (with_nodes ns d) = with_nodes ns' d.
Proof. done. Qed.

Lemma BuildEdges_spec d d' :
  nodes_built d → all_fresh d → BuildEdges d = Some d' →
  d' = with_nodes (dag_nodes_ d') d
  ∧ grows (dag_nodes_ d) (dag_nodes_ d')
  ∧ nodes_built d' ∧ edges_built d'.
Proof.
  intros Hnb Hfr Hb. unfold BuildEdges in Hb.
  pose (Inv := λ (pre : list nat) (d1 : GPDAG),
          d1 = with_nodes (dag_nodes_ d1) d
          ∧ grows (dag_nodes_ d) (dag_nodes_ d1)
          ∧ edges_sound d (dag_nodes_ d1) ∧ edges_twinned (dag_nodes_ d1)
          ∧ ∀ p rot, p ∈ pre → edges_complete_at d (dag_nodes_ d1) p rot).
  assert (HI : Inv (seq (taxon_count_ d)
                      (length (dag_nodes_ d) - taxon_count_ d)) d').
  { revert Hb. apply (foldM_ind_prefix Inv).
    { split_and!.
      - by destruct d.
      - apply grows_refl.
      - intros p n rot c Hn Hc. rewrite (Hfr p n Hn) in Hc.
        destruct rot; by apply elem_of_nil in Hc.
      - intros c cn rot p Hcn Hp. rewrite (Hfr c cn Hcn) in Hp.
        destruct rot; by apply elem_of_nil in Hp.
      - intros p rot Hp. by apply elem_of_nil in Hp. }
    intros pre x post d1 d3 E (E1 & Hg1 & Hs1 & Ht1 & Hc1) Hstep.
    unfold Inv; clear Inv.
    assert (HxT : taxon_count_ d ≤ x).
    { assert (Hx : x ∈ seq (taxon_count_ d)
                       (length (dag_nodes_ d) - taxon_count_ d))
        by (rewrite E; set_solver).
      apply elem_of_seq in Hx. lia. }
    assert (Hst1 : store_ok d1).
    { rewrite E1. apply store_ok_grows; [apply Hnb | done]. }
    assert (HT1 : taxon_count_ d1 = taxon_count_ d) by (by rewrite E1).
    assert (Hs1' : edges_sound d1 (dag_nodes_ d1)).
    { rewrite E1 at 1.
      by apply (proj2 (with_nodes_edges_sound (dag_nodes_ d1) d _)). }
    destruct (ConnectNodes x false d1) as [d2|] eqn:Hcf;
      simpl in Hstep; [|done].
    apply ConnectNodes_spec in Hcf as (E2 & Hg2 & Hs2 & Ht2 & Hc2);
      [| done | lia | done | done].
    assert (Hst2 : store_ok d2).
    { rewrite E2. by apply store_ok_grows. }
    assert (HT2 : taxon_count_ d2 = taxon_count_ d) by (by rewrite E2).
    assert (Hs2' : edges_sound d2 (dag_nodes_ d2)).
    { rewrite E2 at 1.
      by apply (proj2 (with_nodes_edges_sound (dag_nodes_ d2) d1 _)). }
    apply ConnectNodes_spec in Hstep as (E3 & Hg3 & Hs3 & Ht3 & Hc3);
      [| done | lia | done | done].
    assert (Hg13 : grows (dag_nodes_ d1) (dag_nodes_ d3))
      by (by eapply grows_trans).
    assert (E21 : d2 = with_nodes (dag_nodes_ d2) d).
    { rewrite E2, E1. by destruct d. }
    split_and!.
    - rewrite E3, E21. by destruct d.
    - by eapply grows_trans.
    - apply (proj1 (with_nodes_edges_sound (dag_nodes_ d2) d _)).
      by rewrite <- E21.
    - done.
    - intros p rot Hp. apply elem_of_app in Hp as [Hp|Hp].
      + eapply edges_complete_grows; [exact Hg13 |]. by apply Hc1.
      + apply list_elem_of_singleton in Hp as ->. destruct rot.
        * apply (proj1 (with_nodes_edges_complete (dag_nodes_ d2) d _ _ _)).
          by rewrite <- E21.
        * eapply edges_complete_grows; [exact Hg3 |].
          apply (proj1 (with_nodes_edges_complete (dag_nodes_ d1) d _ _ _)).
          by rewrite <- E1. }
  destruct HI as (E & Hg & Hs & Ht & Hc).
  split_and!; [done | done | rewrite E; by apply nodes_built_grows |].
  rewrite E. split_and!; simpl; [done | done |].
  intros p rot Hp.
  destruct (decide (p < length (dag_nodes_ d))) as [Hlt|Hge].
  - apply Hc. apply elem_of_seq. lia.
  - intros n s Hn. apply lookup_lt_Some in Hn. rewrite (proj1 Hg) in Hn. lia.
Qed.

(** ** BuildPCSPIndexer *)

Section Numbering.
Context {K : Type} `{Countable K}.
Implicit Types (m : gmap K nat) (keys : list K).

Lemma numbered_empty : numbered (∅ : gmap K nat) [].
Proof. intros k i. by rewrite lookup_empty, lookup_nil. Qed.

Lemma numbered_insert m m' keys k :
  numbered m keys → SafeInsert m k (length keys) = Some m' →
  numbered m' (keys ++ [k]).
Proof.
  intros Hn Hi. apply SafeInsert_Some in Hi as [Hnone ->].
  intros k' i. split.
  - intros Hl. destruct (decide (k = k')) as [<-|Hne].
    + rewrite lookup_insert_eq in Hl. simplify_eq.
      by rewrite lookup_app_r, Nat.sub_diag by lia.
    + rewrite lookup_insert_ne in Hl by done.
      apply lookup_app_l_Some. by apply Hn.
  - intros Hl. apply lookup_app_Some in Hl as [Hl|[Hge Hl]].
    + rewrite lookup_insert_ne; [by apply Hn |].
      intros <-. apply Hn in Hl. congruence.
    + apply list_lookup_singleton_Some in Hl as [Hl <-].
      assert (i = length keys) as -> by lia. apply lookup_insert_eq.
Qed.

Lemma numbered_extend m m' keys new k i :
  numbered m keys → numbered m' (keys ++ new) →
  m !! k = Some i → m' !! k = Some i.
Proof. intros Hn Hn' Hk. apply Hn'. apply lookup_app_l_Some. by apply Hn. Qed.

Lemma numbered_inj m keys k1 k2 i :
  numbered m keys → m !! k1 = Some i → m !! k2 = Some i → k1 = k2.
Proof. intros Hn H1 H2. apply Hn in H1, H2. congruence. Qed.

Lemma numbered_range m keys i :
  numbered m keys → i < length keys ↔ ∃ k, m !! k = Some i.
Proof.
  intros Hn. split.
  - intros Hi. apply lookup_lt_is_Some_2 in Hi as [k Hk].
    exists k. by apply Hn.
  - intros [k Hk]. apply Hn in Hk. by apply lookup_lt_Some in Hk.
Qed.

Lemma numbered_NoDup m keys : numbered m keys → NoDup keys.
Proof.
  intros Hn. apply NoDup_alt. intros i j k Hi Hj.
  apply Hn in Hi, Hj. congruence.
Qed.

End Numbering.

(** The keys of one side, given the child nodes. *)
Lemma node_keys_cns d rot n cns :
  Forall2 (λ c cn, dag_nodes_ d !! c = Some cn) (Node.Leafward rot n) cns →
  node_keys d rot n = (λ cn, Node.GetBitsetRot n rot +b subsplit_ cn) <$> cns.
Proof.
  unfold node_keys. generalize (Node.GetBitsetRot n rot) as parent.
  generalize (Node.Leafward rot n) as l. intros l parent.
  induction 1 as [|c cn cs cns' Hc _ IH]; simpl; [done |].
  rewrite Hc. simpl. f_equal. exact IH.
Qed.

Lemma BuildPCSPIndexer_children d parent children ks indexer idx
    indexer' idx' :
  numbered indexer ks → idx = length ks →
  foldM (BuildPCSPIndexer_child d parent) children (indexer, idx)
  = Some (indexer', idx') →
  ∃ cns, Forall2 (λ c cn, dag_nodes_ d !! c = Some cn) children cns
         ∧ numbered indexer'
             (ks ++ ((λ cn, parent +b subsplit_ cn) <$> cns))
         ∧ idx' = length ks + length children.
Proof.
  intros Hn -> Hf.
  pose (Inv := λ (pre : list nat) (st : gmap Bitset nat * nat),
          ∃ cns, Forall2 (λ c cn, dag_nodes_ d !! c = Some cn) pre cns
                 ∧ numbered st.1
                     (ks ++ ((λ cn, parent +b subsplit_ cn) <$> cns))
                 ∧ st.2 = length ks + length pre).
  apply (foldM_ind_prefix Inv) in Hf; [exact Hf | |].
  { exists []. simpl. rewrite app_nil_r. split_and!; [constructor | done | lia]. }
  clear Hf. intros pre x post [m i] [m2 i2] _ (cns & Hcns & Hnum & Hi) Hs.
  simpl in *. unfold BuildPCSPIndexer_child in Hs.
  destruct (dag_nodes_ d !! x) as [cn|] eqn:Hx; simpl in Hs; [|done].
  destruct (SafeInsert m _ i) as [m3|] eqn:Hins; simplify_eq/=.
  pose proof Hcns as Hlen. apply Forall2_length in Hlen.
  exists (cns ++ [cn]). split_and!.
  - apply Forall2_app; [done |]. by repeat constructor.
  - rewrite fmap_app, app_assoc. simpl.
    eapply numbered_insert; [done |].
    rewrite length_app, length_fmap, <- Hlen.
    exact Hins.
  - rewrite length_app. simpl. lia.
Qed.

Lemma Forall2_lookup_nodes d (children : list nat) (cns : list GPDAGNode)
    j c cn :
  Forall2 (λ c cn, dag_nodes_ d !! c = Some cn) children cns →
  children !! j = Some c → dag_nodes_ d !! c = Some cn → cns !! j = Some cn.
Proof.
  intros HF Hj Hc. destruct (Forall2_lookup_l _ _ _ _ _ HF Hj) as (cn' & ? & ?).
  congruence.
Qed.

(** One side of one node. *)
Lemma BuildPCSPIndexer_side_spec d sides n rot indexer ranges idx
    indexer' ranges' idx' :
  let ks := root_keys d ++ side_keys d sides in
  numbered indexer ks → idx = length ks →
  ranges_of_sides d sides indexer ranges →
  BuildPCSPIndexer_side d (Node.GetBitsetRot n rot) (Node.Leafward rot n)
    (indexer, ranges, idx) = Some (indexer', ranges', idx') →
  let ks' := root_keys d ++ side_keys d (sides ++ [(n, rot)]) in
  numbered indexer' ks' ∧ idx' = length ks'
  ∧ ranges_of_sides d (sides ++ [(n, rot)]) indexer' ranges'
  ∧ Forall (λ c, is_Some (dag_nodes_ d !! c)) (Node.Leafward rot n).
Proof.
  intros ks Hnum Hidx [Hr1 Hr2] Hside ks'.
  assert (Eks' : ks' = ks ++ node_keys d rot n).
  { unfold ks', ks, side_keys. rewrite flat_map_app. simpl.
    by rewrite app_nil_r, app_assoc. }
  unfold BuildPCSPIndexer_side in Hside.
  destruct (decide (0 < length (Node.Leafward rot n))) as [Hpos|Hzero].
  - destruct (SafeInsert ranges _ _) as [ranges1|] eqn:Hins;
      simpl in Hside; [|done].
    apply SafeInsert_Some in Hins as [Hnone ->].
    destruct (foldM _ _ _) as [[indexer1 idx1]|] eqn:Hf; simplify_eq/=.
    eapply BuildPCSPIndexer_children in Hf as (cns & Hcns & Hnum' & ->);
      [| done | done].
    rewrite <- (node_keys_cns _ _ _ _ Hcns) in Hnum'.
    pose proof Hcns as Hlen. apply Forall2_length in Hlen.
    rewrite Eks'. split_and!.
    + done.
    + rewrite length_app, (node_keys_cns _ _ _ _ Hcns), length_fmap. lia.
    + split.
      * intros n0 rot0 Hin Hne. apply elem_of_app in Hin as [Hin|Hin].
        -- destruct (Hr1 n0 rot0 Hin Hne) as (a & Ha & Hj).
           exists a. split.
           ++ rewrite lookup_insert_ne; [done |]. intros E.
              rewrite <- E in Ha. congruence.
           ++ intros j c cn Hc Hcn.
              eapply numbered_extend; [exact Hnum | exact Hnum' | eauto].
        -- apply list_elem_of_singleton in Hin. simplify_eq.
           exists (length ks). split; [by rewrite lookup_insert_eq |].
           intros j c cn Hc Hcn. apply Hnum'.
           rewrite lookup_app_r by lia.
           replace (length ks + j - length ks) with j by lia.
           rewrite (node_keys_cns _ _ _ _ Hcns), list_lookup_fmap.
           by rewrite (Forall2_lookup_nodes _ _ _ _ _ _ Hcns Hc Hcn).
      * intros s a b Hs.
        destruct (decide (s = Node.GetBitsetRot n rot)) as [->|Hne].
        -- rewrite lookup_insert_eq in Hs. simplify_eq.
           exists n, rot. split_and!; [set_solver | done | | done].
           intros E. rewrite E in Hpos. simpl in Hpos. lia.
        -- rewrite lookup_insert_ne in Hs by done.
           destruct (Hr2 s a b Hs) as (n0 & rot0 & Hin & ? & ? & ?).
           exists n0, rot0. split_and!; [set_solver | done..].
    + apply Forall_forall. intros c Hc.
      apply list_elem_of_lookup in Hc as [j Hj].
      destruct (Forall2_lookup_l _ _ _ _ _ Hcns Hj) as (cn & _ & ->). eauto.
  - simplify_eq.
    assert (E : Node.Leafward rot n = []).
    { destruct (Node.Leafward rot n); [done | simpl in Hzero; lia]. }
    assert (Ek : node_keys d rot n = []) by (unfold node_keys; by rewrite E).
    rewrite Eks', Ek, app_nil_r. split_and!; [done | done | | by rewrite E].
    split.
    + intros n0 rot0 Hin Hne. apply elem_of_app in Hin as [Hin|Hin].
      * by apply Hr1.
      * apply list_elem_of_singleton in Hin. by simplify_eq.
    + intros s a b Hs.
      destruct (Hr2 s a b Hs) as (n0 & rot0 & Hin & ? & ? & ?).
      exists n0, rot0. split_and!; [set_solver | done..].
Qed.

Lemma BuildPCSPIndexer_node_spec d sides n indexer ranges idx
    indexer' ranges' idx' :
  let ks := root_keys d ++ side_keys d sides in
  numbered indexer ks → idx = length ks →
  ranges_of_sides d sides indexer ranges →
  BuildPCSPIndexer_node d (indexer, ranges, idx) n
  = Some (indexer', ranges', idx') →
  let ks' := root_keys d ++ side_keys d (sides ++ sides_of [n]) in
  numbered indexer' ks' ∧ idx' = length ks'
  ∧ ranges_of_sides d (sides ++ sides_of [n]) indexer' ranges'
  ∧ ∀ rot, Forall (λ c, is_Some (dag_nodes_ d !! c)) (Node.Leafward rot n).
Proof.
  intros ks Hnum Hidx Hr Hnode ks'. unfold BuildPCSPIndexer_node in Hnode.
  destruct (BuildPCSPIndexer_side d (Node.GetBitset n) _ _)
    as [[[indexer1 ranges1] idx1]|] eqn:Hs1; simpl in Hnode; [|done].
  apply (BuildPCSPIndexer_side_spec d sides n false) in Hs1
    as (Hnum1 & Hidx1 & Hr1 & Hf1); [| done..].
  apply (BuildPCSPIndexer_side_spec d (sides ++ [(n, false)]) n true)
    in Hnode as (Hnum2 & Hidx2 & Hr2 & Hf2); [| done..].
  unfold ks', sides_of. simpl. rewrite <- app_assoc in Hnum2, Hidx2, Hr2.
  split_and!; [done..|]. by intros [].
Qed.

Lemma elem_of_sides_of ns n rot : (n, rot) ∈ sides_of ns ↔ n ∈ ns.
Proof.
  unfold sides_of. rewrite list_elem_of_In, in_flat_map. split.
  - intros (x & Hx & Hin). apply list_elem_of_In.
    simpl in Hin. destruct Hin as [?|[?|[]]]; by simplify_eq.
  - intros Hn. exists n. split; [by apply list_elem_of_In |].
    simpl. destruct rot; eauto.
Qed.

Lemma side_keys_sides_of d ns :
  side_keys d (sides_of ns)
  = flat_map (λ n, node_keys d false n ++ node_keys d true n) ns.
Proof.
  unfold side_keys, sides_of. induction ns as [|n ns IH]; simpl; [done |].
  rewrite IH. by rewrite <- app_assoc.
Qed.

Lemma ranges_of_sides_of d ns indexer ranges :
  ranges_of_sides d (sides_of ns) indexer ranges → ranges_of d ns indexer ranges.
Proof.
  intros [H1 H2]. split.
  - intros n rot Hn. apply H1. by apply elem_of_sides_of.
  - intros s a b Hs. destruct (H2 s a b Hs) as (n & rot & Hin & ?).
    exists n, rot. split; [by apply elem_of_sides_of in Hin | done].
Qed.

Lemma BuildPCSPIndexer_roots roots indexer idx :
  foldM BuildPCSPIndexer_root roots (∅, 0) = Some (indexer, idx) →
  numbered indexer ((λ r, r +b ~b r) <$> roots) ∧ idx = length roots.
Proof.
  intros Hf.
  pose (Inv := λ (pre : list Bitset) (st : gmap Bitset nat * nat),
          numbered st.1 ((λ r, r +b ~b r) <$> pre) ∧ st.2 = length pre).
  apply (foldM_ind_prefix Inv) in Hf; [exact Hf | |].
  { split; [apply numbered_empty | done]. }
  intros pre x post [m i] [m2 i2] _ [Hn Hi] Hs. simpl in *.
  unfold BuildPCSPIndexer_root in Hs.
  destruct (SafeInsert m _ i) as [m3|] eqn:Hins; simplify_eq/=.
  split; simpl.
  - rewrite fmap_app. simpl. eapply numbered_insert; [done |].
    by rewrite length_fmap.
  - rewrite length_app. simpl. lia.
Qed.

Lemma BuildPCSPIndexer_spec d d' :
  gpcsp_indexer_ d = ∅ → subsplit_to_range_ d = ∅ →
  BuildPCSPIndexer d = Some d' →
  d' = with_indexer (gpcsp_indexer_ d') (subsplit_to_range_ d') d
  ∧ indexer_built d'.
Proof.
  intros Hi0 Hr0 Hb. unfold BuildPCSPIndexer in Hb. rewrite Hi0, Hr0 in Hb.
  destruct (foldM BuildPCSPIndexer_root _ _) as [[indexer0 idx0]|] eqn:Hroots;
    simpl in Hb; [|done].
  apply BuildPCSPIndexer_roots in Hroots as [Hnum0 ->].
  unfold IterateOverRealNodes in Hb.
  destruct (decide (taxon_count_ d < length (dag_nodes_ d))) as [HTN|];
    [|done].
  destruct (foldM _ (drop _ _) _) as [[[indexer1 ranges1] idx1]|] eqn:Hnodes;
    simplify_eq/=.
  split; [done |].
  pose (Inv := λ (pre : list GPDAGNode)
                 (st : gmap Bitset nat * gmap Bitset (nat * nat) * nat),
          numbered st.1.1 (root_keys d ++ side_keys d (sides_of pre))
          ∧ st.2 = length (root_keys d ++ side_keys d (sides_of pre))
          ∧ ranges_of_sides d (sides_of pre) st.1.1 st.1.2
          ∧ ∀ n rot, n ∈ pre →
              Forall (λ c, is_Some (dag_nodes_ d !! c)) (Node.Leafward rot n)).
  apply (foldM_ind_prefix Inv) in Hnodes; cycle 1.
  { unfold Inv, root_keys; simpl. rewrite app_nil_r, length_fmap.
    split_and!; [done | done | | intros n rot Hn; by apply elem_of_nil in Hn].
    split.
    - intros n rot Hn. by apply elem_of_nil in Hn.
    - intros s a b Hs. by rewrite lookup_empty in Hs. }
  { intros pre x post [[m r] i] [[m2 r2] i2] _ (Hn & Hi & Hr & Hfa) Hs.
    simpl in *.
    apply (BuildPCSPIndexer_node_spec d (sides_of pre)) in Hs
      as (Hn2 & Hi2 & Hr2 & Hfa2); [| done..].
    unfold Inv; simpl.
    assert (E : sides_of (pre ++ [x]) = sides_of pre ++ sides_of [x]).
    { unfold sides_of. by rewrite flat_map_app. }
    rewrite E. split_and!; [done..|].
    intros n rot Hin. apply elem_of_app in Hin as [Hin|Hin]; [by apply Hfa |].
    apply list_elem_of_singleton in Hin as ->. apply Hfa2. }
  destruct Hnodes as (Hn & _ & Hr & Hfa). simpl in *.
  split_and!; simpl.
  - unfold indexer_keys, edge_keys. simpl.
    by rewrite <- side_keys_sides_of.
  - by apply ranges_of_sides_of.
  - done.
  - intros p n rot c Hp HT Hc.
    assert (Hin : n ∈ drop (taxon_count_ d) (dag_nodes_ d)).
    { apply list_elem_of_lookup. exists (p - taxon_count_ d).
      rewrite lookup_drop. by replace (taxon_count_ d + (p - taxon_count_ d))
        with p by lia. }
    specialize (Hfa n rot Hin). rewrite Forall_forall in Hfa. by apply Hfa.
Qed.

(** ** The constructor as a whole *)

Lemma CreateAndInsertNode_frame s d d' :
  CreateAndInsertNode s d = Some d' → same_tables d d'.
Proof.
  unfold CreateAndInsertNode. intros H.
  destruct (SafeInsert _ _ _); simplify_eq/=. by destruct d.
Qed.

Lemma BuildNodesDepthFirst_frame fuel s st st' :
  BuildNodesDepthFirst fuel s st = Some st' → same_tables st.1 st'.1.
Proof.
  revert s st st'. induction fuel as [|fuel IH]; [done |].
  intros s st st' Hrun. simpl in Hrun.
  assert (Hloop : ∀ cs st1 st2,
            foldM (BuildNodes_visit (BuildNodesDepthFirst fuel)) cs st1
            = Some st2 → same_tables st1.1 st2.1).
  { intros cs st1 st2.
    apply (foldM_ind (λ st, same_tables st1.1 st.1)); [apply same_tables_refl |].
    intros x s1 s2 _ Hs1. unfold BuildNodes_visit.
    destruct (decide _); [by intros [= <-] |].
    intros Hr. eapply same_tables_trans; [done | by eapply IH]. }
  destruct (GetChildrenSubsplits _ s false) as [cs1|]; simpl in Hrun; [|done].
  destruct (foldM _ cs1 _) as [st1|] eqn:Hl1; simpl in Hrun; [|done].
  destruct (GetChildrenSubsplits st1.1 _ false) as [cs2|];
    simpl in Hrun; [|done].
  destruct (foldM _ cs2 _) as [st2|] eqn:Hl2; simpl in Hrun; [|done].
  destruct (CreateAndInsertNode s st2.1) as [d2|] eqn:Hcr;
    simpl in Hrun; [|done].
  simplify_eq. simpl.
  apply Hloop in Hl1, Hl2. apply CreateAndInsertNode_frame in Hcr.
  simpl in Hl1. eauto using same_tables_trans.
Qed.

Lemma BuildNodes_frame fuel d d' :
  BuildNodes fuel d = Some d' → same_tables d d'.
Proof.
  unfold BuildNodes. intros Hb.
  destruct (foldM BuildNodes_fake _ d) as [df|] eqn:Hfk; simpl in Hb; [|done].
  destruct (foldM _ (rootsplits_ df) _) as [st|] eqn:Hl; simpl in Hb; [|done].
  simplify_eq.
  assert (H1 : same_tables d df).
  { revert Hfk. apply (foldM_ind (same_tables d)); [apply same_tables_refl |].
    intros x d1 d2 _ H1 H2. eapply same_tables_trans; [done |].
    by eapply CreateAndInsertNode_frame. }
  eapply same_tables_trans; [done |].
  revert Hl. apply (foldM_ind (λ st, same_tables df st.1));
    [apply same_tables_refl |].
  intros x s1 s2 _ Hs1 Hs2. eapply same_tables_trans; [done |].
  by eapply BuildNodesDepthFirst_frame.
Qed.

Lemma ConnectNodes_frame p rot d d' :
  ConnectNodes p rot d = Some d' → d' = with_nodes (dag_nodes_ d') d.
Proof.
  unfold ConnectNodes. intros H.
  destruct (dag_nodes_ d !! p); simpl in H; [|done].
  destruct (GetChildrenSubsplits _ _ _); simpl in H; [|done].
  destruct (foldM _ _ _); by simplify_eq/=.
Qed.

Lemma BuildEdges_frame d d' :
  BuildEdges d = Some d' → d' = with_nodes (dag_nodes_ d') d.
Proof.
  unfold BuildEdges.
  apply (foldM_ind (λ d1, d1 = with_nodes (dag_nodes_ d1) d));
    [by destruct d |].
  intros x d1 d3 _ E1 Hs.
  destruct (ConnectNodes x false d1) as [d2|] eqn:H2; simpl in Hs; [|done].
  apply ConnectNodes_frame in H2, Hs. rewrite Hs, H2, E1. by destruct d.
Qed.

Lemma with_indexer_nodes_built m r d :
  nodes_built (with_indexer m r d) ↔ nodes_built d.
Proof. done. Qed.

Lemma with_indexer_edges_built m r d :
  edges_built (with_indexer m r d) ↔ edges_built d.
Proof. done. Qed.

Section Constructor.
Variable ChildSubsplit : Bitset → Bitset → Bitset.

(** The indexer of any DAG the constructor returns. *)
Lemma GPDAG_of_indexer fuel tc d :
  GPDAG_of ChildSubsplit fuel tc = Some d → indexer_built d.
Proof.
  unfold GPDAG_of. intros H.
  destruct (ProcessTrees _ tc _) as [d0|] eqn:H0; simpl in H; [|done].
  destruct (BuildNodes fuel d0) as [d1|] eqn:H1; simpl in H; [|done].
  destruct (BuildEdges d1) as [d2|] eqn:H2; simpl in H; [|done].
  apply ProcessTrees_spec in H0 as (_ & _ & _ & _ & Hi0 & Hr0 & _).
  apply BuildNodes_frame in H1. apply BuildEdges_frame in H2.
  apply BuildPCSPIndexer_spec in H as [_ H]; [done | |].
  - rewrite H2, H1. by simpl.
  - rewrite H2, H1. by simpl.
Qed.

(** Everything at once, for a ranked and sized harvest. *)
Lemma GPDAG_of_built fuel tc rank d :
  harvest_ranked ChildSubsplit tc rank → harvest_sized ChildSubsplit tc →
  GPDAG_of ChildSubsplit fuel tc = Some d →
  dag_built d ∧ tables_ranked d rank ∧ tables_sized d
  ∧ taxon_count_ d = TaxonCount tc
  ∧ rootsplits_ d = (RootsplitCounterOf tc).*1.
Proof.
  intros Hrk Hsz H. pose proof (GPDAG_of_indexer _ _ _ H) as Hib.
  unfold GPDAG_of in H.
  destruct (ProcessTrees _ tc _) as [d0|] eqn:H0; simpl in H; [|done].
  destruct (BuildNodes fuel d0) as [d1|] eqn:H1; simpl in H; [|done].
  destruct (BuildEdges d1) as [d2|] eqn:H2; simpl in H; [|done].
  destruct (ProcessTrees_tables _ _ _ _ H0 Hrk Hsz) as [Hrk0 Hsz0].
  apply ProcessTrees_spec in H0 as (HT0 & Hrs0 & Hn0 & Hx0 & Hi0 & Hr0 & _).
  apply (BuildNodes_spec rank) in H1 as (Ht1 & Hnb1 & Hfr1); [| done..].
  apply BuildEdges_spec in H2 as (E2 & Hg2 & Hnb2 & Heb2); [| done..].
  assert (Ht2 : same_tables d0 d2).
  { eapply same_tables_trans; [done |]. rewrite E2. by destruct d1. }
  apply BuildPCSPIndexer_spec in H as [E3 _]; cycle 1.
  { rewrite Ht2. by simpl. }
  { rewrite Ht2. by simpl. }
  split_and!.
  - split_and!; [| | done].
    + rewrite E3. by apply with_indexer_nodes_built.
    + rewrite E3. by apply with_indexer_edges_built.
  - rewrite E3. change (tables_ranked d2 rank). by eapply same_tables_ranked.
  - rewrite E3. change (tables_sized d2). by eapply same_tables_sized.
  - rewrite E3. simpl. by rewrite (same_tables_taxon _ _ Ht2).
  - rewrite E3. simpl. by rewrite (same_tables_rootsplits _ _ Ht2).
Qed.

End Constructor.

(** ** Post-order ids *)

Lemma ones_from_nil i b :
  Bitset.ones_from i b = [] → b = replicate (length b) false.
Proof.
  revert i. induction b as [|x b IH]; intros i H; simpl in *; [done |].
  destruct x; simpl in H; [done |]. f_equal. by eapply IH.
Qed.

Lemma ones_from_singleton i j b :
  Bitset.ones_from i b = [j] →
  ∃ t, j = i + t ∧ t < length b
       ∧ b = <[t := true]> (replicate (length b) false).
Proof.
  revert i. induction b as [|x b IH]; intros i H; simpl in *; [done |].
  destruct x; simpl in H.
  - simplify_eq. exists 0. split_and!; [lia | lia |].
    simpl. f_equal. by eapply ones_from_nil.
  - destruct (IH _ H) as (t & -> & Ht & Hb). exists (S t).
    split_and!; [lia | lia |]. simpl. by f_equal.
Qed.

Lemma SingletonOption_Some b t :
  Bitset.SingletonOption b = Some t →
  t < length b ∧ b = Bitset.set t (Bitset.zero (length b)).
Proof.
  unfold Bitset.SingletonOption. intros H.
  destruct (Bitset.ones_from 0 b) as [|j [|]] eqn:E; simplify_eq.
  apply ones_from_singleton in E as (t' & -> & ? & ?). done.
Qed.

Lemma RotateSubsplit_length s :
  length (Bitset.RotateSubsplit s) = length s.
Proof.
  unfold Bitset.RotateSubsplit, Bitset.concat, Bitset.SplitChunk.
  rewrite length_app, length_drop, length_take.
  pose proof (Nat.Div0.div_le_upper_bound (length s) 2 (length s)). lia.
Qed.

Lemma root_subsplit_length r : length (r +b ~b r) = 2 * length r.
Proof.
  unfold Bitset.concat, Bitset.complement.
  rewrite length_app, length_fmap. lia.
Qed.

(** The synthetic child of a two-chunk subsplit is a fake subsplit. *)
Lemma fake_child_is_fake T s :
  length s = 2 * T →
  is_Some (Bitset.SingletonOption (Bitset.SplitChunk 1 s)) →
  ∃ t, t < T
       ∧ Bitset.zero (length s / 2) +b Bitset.SplitChunk 1 s
         = fake_subsplit T t.
Proof.
  intros Hlen [t Ht]. apply SingletonOption_Some in Ht as [Hlt Hb].
  assert (Hhalf : length s / 2 = T).
  { rewrite Hlen, Nat.mul_comm. by apply Nat.div_mul. }
  assert (Hc : length (Bitset.SplitChunk 1 s) = T).
  { unfold Bitset.SplitChunk. rewrite length_drop. lia. }
  exists t. rewrite Hc in *. split; [done |].
  unfold fake_subsplit. by rewrite Hhalf, Hb at 1.
Qed.

Section PostOrder.
Variable d : GPDAG.
Hypothesis Hbuilt : dag_built d.
Hypothesis Hsized : tables_sized d.

Lemma built_store : store_ok d.
Proof. apply Hbuilt. Qed.

Lemma built_ids i n : dag_nodes_ d !! i = Some n → id_ n = i.
Proof. apply Hbuilt. Qed.

Lemma built_subsplit i n :
  dag_nodes_ d !! i = Some n → subsplits d !! i = Some (subsplit_ n).
Proof. intros H. unfold subsplits. by rewrite list_lookup_fmap, H. Qed.

Lemma built_taxon_le : taxon_count_ d ≤ length (dag_nodes_ d).
Proof. apply Hbuilt. Qed.

(** A non-fake node has a subsplit of two chunks of taxon-count bits. *)
Lemma real_length i s :
  taxon_count_ d ≤ i → subsplits d !! i = Some s →
  length s = 2 * taxon_count_ d.
Proof.
  intros Hi Hs.
  destruct Hbuilt as ((_ & _ & _ & _ & _ & Hde) & _).
  destruct Hsized as [Hr Hc].
  destruct (Hde i s Hi Hs) as [(r & Hin & ->)|(k & p & _ & _ & [H|H])].
  - rewrite root_subsplit_length, (Hr r Hin). lia.
  - by eapply Hc.
  - by eapply Hc.
Qed.

Lemma edge_child_cases s c :
  edge_child d s c →
  table_child d s c
  ∨ (is_Some (Bitset.SingletonOption (Bitset.SplitChunk 1 s))
     ∧ c = Bitset.zero (length s / 2) +b Bitset.SplitChunk 1 s).
Proof.
  intros (cs & Hcs & Hc). unfold GetChildrenSubsplits in Hcs.
  destruct (parent_to_range_ d !! s) as [[a b]|] eqn:Hs.
  - left. exists cs. split; [|done]. unfold GetChildrenSubsplits.
    by rewrite Hs.
  - right. simpl in Hcs.
    destruct (Bitset.Any _); simpl in Hcs;
      [|simplify_eq; by apply elem_of_nil in Hc].
    case_bool_decide as Hd; simpl in Hcs;
      [|simplify_eq; by apply elem_of_nil in Hc].
    simplify_eq. apply list_elem_of_singleton in Hc. done.
Qed.

Lemma table_child_edge_child s c : table_child d s c → edge_child d s c.
Proof.
  intros (cs & Hcs & Hc). exists cs. split; [|done].
  unfold GetChildrenSubsplits in *.
  destruct (parent_to_range_ d !! s) as [[a b]|]; [done |].
  simpl in Hcs. simplify_eq. by apply elem_of_nil in Hc.
Qed.

Lemma child_of_GetBitsetRot n rot c :
  table_child d (Node.GetBitsetRot n rot) c → child_of d (subsplit_ n) c.
Proof. destruct rot; [by right | by left]. Qed.

(** Leafward edges go from a non-fake node to a node of smaller id. *)
Lemma leafward_decreasing p n rot c :
  dag_nodes_ d !! p = Some n → c ∈ Node.Leafward rot n →
  taxon_count_ d ≤ p ∧ c < p.
Proof.
  intros Hn Hc.
  destruct Hbuilt as ((Hst & [_ Hfk] & _ & _ & Hpo & _) & (Hs & _) & _).
  destruct (Hs p n rot c Hn Hc) as (HT & cn & Hcn & _ & He).
  split; [done |].
  pose proof (built_subsplit _ _ Hn) as Hsn.
  pose proof (built_subsplit _ _ Hcn) as Hscn.
  apply edge_child_cases in He as [Ht|[Hsing Ec]].
  - apply child_of_GetBitsetRot in Ht.
    destruct (Hpo p _ _ HT Hsn Ht) as (j & Hj & _ & Hjc).
    by rewrite (store_ok_unique _ _ _ _ Hst Hscn Hjc).
  - assert (Hlen : length (Node.GetBitsetRot n rot) = 2 * taxon_count_ d).
    { unfold Node.GetBitsetRot. destruct rot;
        rewrite ?RotateSubsplit_length; by eapply real_length. }
    destruct (fake_child_is_fake _ _ Hlen Hsing) as (t & Ht & Ef).
    rewrite Ec, Ef in Hscn.
    rewrite (store_ok_unique _ _ _ _ Hst Hscn (Hfk t Ht)). lia.
Qed.

Lemma leafward_edge_decreasing p c :
  leafward_edge d p c → taxon_count_ d ≤ p ∧ c < p.
Proof.
  intros (n & Hn & [Hc|Hc]).
  - by apply (leafward_decreasing p n false c).
  - by apply (leafward_decreasing p n true c).
Qed.

Lemma reachable_decreasing p c :
  reachable (leafward_edge d) p c → c < p.
Proof.
  induction 1 as [a b H|a b c H _ IH].
  - by apply leafward_edge_decreasing in H as [_ ?].
  - apply leafward_edge_decreasing in H as [_ ?]. lia.
Qed.

(** The nodes below the taxon count are the fake leaves, and no others. *)
Lemma fake_ids i n :
  dag_nodes_ d !! i = Some n →
  i < taxon_count_ d
  ↔ ∃ t, t < taxon_count_ d
         ∧ subsplit_ n = fake_subsplit (taxon_count_ d) t.
Proof.
  intros Hn. destruct Hbuilt as ((Hst & [_ Hfk] & _) & _).
  pose proof (built_subsplit _ _ Hn) as Hsn. split.
  - intros Hi. exists i. split; [done |]. specialize (Hfk i Hi). congruence.
  - intros (t & Ht & E). rewrite E in Hsn.
    by rewrite (store_ok_unique _ _ _ _ Hst Hsn (Hfk t Ht)).
Qed.

End PostOrder.

(** ** The examples are ranked and sized *)

Lemma popcount_app a b : popcount (a ++ b) = popcount a + popcount b.
Proof. unfold popcount. by rewrite filter_app, length_app. Qed.

Lemma popcount_rotate s : popcount (Bitset.RotateSubsplit s) = popcount s.
Proof.
  unfold Bitset.RotateSubsplit, Bitset.concat, Bitset.SplitChunk.
  rewrite popcount_app, Nat.add_comm, <- popcount_app.
  by rewrite take_drop.
Qed.

Ltac list_cases :=
  repeat match goal with
    | H : _ ∈ [] |- _ => by apply elem_of_nil in H
    | H : _ ∈ _ :: _ |- _ => apply elem_of_cons in H as [H|H]
    end.

Lemma one_tree_harvest :
  harvest_ranked Examples.ChildSubsplit Examples.one_tree popcount
  ∧ harvest_sized Examples.ChildSubsplit Examples.one_tree.
Proof.
  split; split; try apply popcount_rotate.
  - intros parent cc child H1 H2. simpl in H1. list_cases. simplify_eq.
    simpl in H2. list_cases. simplify_eq. vm_compute. lia.
  - intros r H. simpl in H. list_cases. by simplify_eq.
  - intros parent cc child H1 H2. simpl in H1. list_cases. simplify_eq.
    simpl in H2. list_cases. by simplify_eq.
Qed.

Lemma two_trees_harvest :
  harvest_ranked Examples.ChildSubsplit Examples.two_trees popcount
  ∧ harvest_sized Examples.ChildSubsplit Examples.two_trees.
Proof.
  split; split; try apply popcount_rotate.
  - intros parent cc child H1 H2. simpl in H1. list_cases; simplify_eq;
      simpl in H2; list_cases; simplify_eq; vm_compute; lia.
  - intros r H. simpl in H. list_cases; by simplify_eq.
  - intros parent cc child H1 H2. simpl in H1. list_cases; simplify_eq;
      simpl in H2; list_cases; by simplify_eq.
Qed.

Lemma shared_root_harvest :
  harvest_ranked Examples.ChildSubsplit Examples.shared_root popcount
  ∧ harvest_sized Examples.ChildSubsplit Examples.shared_root.
Proof.
  split; split; try apply popcount_rotate.
  - intros parent cc child H1 H2. simpl in H1. list_cases; simplify_eq;
      simpl in H2; list_cases; simplify_eq; vm_compute; lia.
  - intros r H. simpl in H. list_cases; by simplify_eq.
  - intros parent cc child H1 H2. simpl in H1. list_cases; simplify_eq;
      simpl in H2; list_cases; by simplify_eq.
Qed.

Lemma dag_of_one_tree :
  GPDAG_of Examples.ChildSubsplit 16 Examples.one_tree
  = Some (Examples.dag_of Examples.one_tree).
Proof. by vm_compute. Qed.

Lemma dag_of_two_trees :
  GPDAG_of Examples.ChildSubsplit 16 Examples.two_trees
  = Some (Examples.dag_of Examples.two_trees).
Proof. by vm_compute. Qed.

Lemma dag_of_shared_root :
  GPDAG_of Examples.ChildSubsplit 16 Examples.shared_root
  = Some (Examples.dag_of Examples.shared_root).
Proof. by vm_compute. Qed.

(** ** The PCSP indexer *)

Lemma elem_of_node_keys d rot n k :
  k ∈ node_keys d rot n ↔
  ∃ c cn, c ∈ Node.Leafward rot n ∧ dag_nodes_ d !! c = Some cn
          ∧ k = Node.GetBitsetRot n rot +b subsplit_ cn.
Proof.
  unfold node_keys. rewrite list_elem_of_omap. split.
  - intros (c & Hc & Hk). apply fmap_Some in Hk as (cn & Hcn & ->). eauto.
  - intros (c & cn & Hc & Hcn & ->). exists c. split; [done |].
    by rewrite Hcn.
Qed.

Lemma elem_of_edge_keys d k : k ∈ edge_keys d ↔ is_edge_key d k.
Proof.
  unfold edge_keys, is_edge_key.
  rewrite list_elem_of_In, in_flat_map. split.
  - intros (n & Hn & Hk). apply list_elem_of_In in Hn, Hk.
    apply list_elem_of_lookup in Hn as [i Hi]. rewrite lookup_drop in Hi.
    apply elem_of_app in Hk as [Hk|Hk];
      apply elem_of_node_keys in Hk as (c & cn & ? & ? & ?);
      exists (taxon_count_ d + i), n; [exists false | exists true];
      exists c, cn; split_and!; (done || lia).
  - intros (p & n & rot & c & cn & Hp & Hn & Hc & Hcn & ->). exists n. split.
    + apply list_elem_of_In, list_elem_of_lookup. exists (p - taxon_count_ d).
      rewrite lookup_drop.
      by replace (taxon_count_ d + (p - taxon_count_ d)) with p by lia.
    + apply list_elem_of_In, elem_of_app.
      destruct rot; [right | left]; apply elem_of_node_keys; eauto.
Qed.

Lemma numbered_size {K : Type} `{Countable K} (m : gmap K nat)
    (keys : list K) :
  numbered m keys → size m = length keys.
Proof.
  intros Hn. rewrite <- size_dom.
  assert (E : dom m = list_to_set keys).
  { apply set_eq. intros k. rewrite elem_of_dom, elem_of_list_to_set.
    rewrite list_elem_of_lookup. unfold is_Some.
    by setoid_rewrite (Hn k). }
  rewrite E. apply size_list_to_set. by eapply numbered_NoDup.
Qed.




(** ** Post-order *)

(** C3: a non-fake node has an id above the ids of all nodes reachable
    from it along leafward edges, and the fake leaves are the nodes with
    ids 0 to T-1, the leaf of taxon t at id t. *)
Theorem post_order_ids (ChildSubsplit : Bitset → Bitset → Bitset)
    (fuel : nat) (tc : RootedTreeCollection) (rank : Bitset → nat)
    (d : GPDAG)
    (Hranked : harvest_ranked ChildSubsplit tc rank)
    (Hsized : harvest_sized ChildSubsplit tc)
    (Hd : GPDAG_of ChildSubsplit fuel tc = Some d) :
  (∀ p n c, dag_nodes_ d !! p = Some n → TaxonCount tc ≤ id_ n →
     reachable (leafward_edge d) (id_ n) c → c < id_ n)
  ∧ (∀ t, t < TaxonCount tc →
       ∃ n, dag_nodes_ d !! t = Some n ∧ id_ n = t
            ∧ subsplit_ n = fake_subsplit (TaxonCount tc) t)
  ∧ (∀ p n t, dag_nodes_ d !! p = Some n → t < TaxonCount tc →
       subsplit_ n = fake_subsplit (TaxonCount tc) t → id_ n < TaxonCount tc).
Proof.
  destruct (GPDAG_of_built _ _ _ _ _ Hranked Hsized Hd)
    as (Hb & Hrk & Hsz & HT & _).
  rewrite <- HT. split_and!.
  - intros p n c Hn _ Hr. by eapply reachable_decreasing.
  - intros t Ht. destruct Hb as ((Hst & [Hlen Hfk] & _) & _).
    specialize (Hfk t Ht). unfold subsplits in Hfk.
    rewrite list_lookup_fmap in Hfk.
    apply fmap_Some in Hfk as (n & Hn & E). exists n.
    split_and!; [done | by apply Hst | done].
  - intros p n t Hn Ht E. rewrite (built_ids _ Hb _ _ Hn).
    apply (fake_ids _ Hb _ _ Hn). eauto.
Qed.

Lemma post_order_ids_witness :
  let d := Examples.dag_of Examples.one_tree in
  harvest_ranked Examples.ChildSubsplit Examples.one_tree popcount
  ∧ harvest_sized Examples.ChildSubsplit Examples.one_tree
  ∧ GPDAG_of Examples.ChildSubsplit 16 Examples.one_tree = Some d
  ∧ ∀ p n c, dag_nodes_ d !! p = Some n → 3 ≤ id_ n →
      reachable (leafward_edge d) (id_ n) c → c < id_ n.
Proof.
  intros d.
  split_and!; [apply one_tree_harvest | apply one_tree_harvest
               | exact dag_of_one_tree |].
  exact (proj1 (post_order_ids Examples.ChildSubsplit 16 Examples.one_tree
                  popcount d (proj1 one_tree_harvest)
                  (proj2 one_tree_harvest) dag_of_one_tree)).
Defined.

(** ** Traversal orders *)

Lemma RootwardDepthFirst_DepthFirst fuel nodes id st :
  RootwardDepthFirst fuel nodes id st
  = DepthFirst Node.GetRootwardSorted Node.GetRootwardRotated fuel nodes id st.
Proof.
  revert id st. induction fuel as [|fuel IH]; intros id st; simpl; [done |].
  destruct (SafeInsertSet _ _); simpl; [|done].
  destruct (nodes !! id); simpl; [|done].
  erewrite foldM_ext; [|intros x s1 _; unfold DepthFirst_visit; by rewrite IH].
  destruct (foldM _ _ _); simpl; [|done].
  erewrite foldM_ext; [|intros x s1 _; unfold DepthFirst_visit; by rewrite IH].
  done.
Qed.

Lemma LeafwardDepthFirst_DepthFirst fuel nodes id st :
  LeafwardDepthFirst fuel nodes id st
  = DepthFirst Node.GetLeafwardSorted Node.GetLeafwardRotated fuel nodes id st.
Proof.
  revert id st. induction fuel as [|fuel IH]; intros id st; simpl; [done |].
  destruct (SafeInsertSet _ _); simpl; [|done].
  destruct (nodes !! id); simpl; [|done].
  erewrite foldM_ext; [|intros x s1 _; unfold DepthFirst_visit; by rewrite IH].
  destruct (foldM _ _ _); simpl; [|done].
  erewrite foldM_ext; [|intros x s1 _; unfold DepthFirst_visit; by rewrite IH].
  done.
Qed.

Section DepthFirstOrder.
Variables (adj1 adj2 : GPDAGNode → list nat) (nodes : list GPDAGNode).
Variables (mu : nat → nat) (Q : nat → Prop).
Hypothesis Hadj : ∀ x n y, nodes !! x = Some n → y ∈ adj1 n ++ adj2 n →
  mu y < mu x ∧ is_Some (nodes !! y) ∧ Q y.

Local Abbreviation inv := (order_inv adj1 adj2 nodes).
Local Abbreviation post := (order_post adj1 adj2 nodes mu Q).
Local Abbreviation loop_inv := (order_loop_inv adj1 adj2 nodes mu Q).
Local Abbreviation DepthFirst_ok := (DepthFirst_ok adj1 adj2 nodes mu Q).

Lemma DepthFirst_loop fuel id n st0 cs st :
  DepthFirst_ok fuel → mu id ≤ fuel →
  nodes !! id = Some n → (∀ c, c ∈ cs → c ∈ adj1 n ++ adj2 n) →
  (∀ a, a ∈ st0.2 → a ∉ st0.1 → mu id < mu a) →
  loop_inv id st0 st →
  ∃ st', foldM (DepthFirst_visit (DepthFirst adj1 adj2 fuel nodes)) cs st
         = Some st'
         ∧ loop_inv id st0 st'
         ∧ (∀ c, c ∈ st.1 → c ∈ st'.1) ∧ ∀ c, c ∈ cs → c ∈ st'.1.
Proof.
  intros IH Hfuel Hn Hcs Hpend. revert st.
  induction cs as [|c cs IHcs]; intros st Hl; simpl.
  { exists st. split_and!; [done | done | done |].
    intros c Hc. by apply elem_of_nil in Hc. }
  destruct (Hadj id n c Hn) as (Hmu & Hsome & HQ); [apply Hcs; set_solver |].
  destruct Hl as (Hi & Hsub & [new Hnew] & Hvis & Hord & Hp).
  assert (Hstep : ∃ st1, DepthFirst_visit (DepthFirst adj1 adj2 fuel nodes) st c
                         = Some st1
                         ∧ loop_inv id st0 st1
                         ∧ (∀ x, x ∈ st.1 → x ∈ st1.1) ∧ c ∈ st1.1).
  { unfold DepthFirst_visit. destruct (decide (c ∈ st.2)) as [Hc|Hc].
    - exists st. split_and!; [done | by unfold order_loop_inv; eauto 10 | done |].
      destruct (decide (c ∈ st.1)) as [|Hnot]; [done | exfalso].
      destruct (Hp c Hc Hnot) as [->|[H1 H2]]; [lia |].
      specialize (Hpend c H1 H2). lia.
    - destruct (IH c st) as (st1 & Hrun & Hpost);
        [lia | done | done | done | |].
      { intros a Ha Hna. destruct (Hp a Ha Hna) as [->|[H1 H2]]; [done |].
        specialize (Hpend a H1 H2). lia. }
      destruct Hpost as (Hi1 & Hsub1 & [new1 Hnew1] & Hvis1 & Hord1 & Hp1).
      exists st1. split_and!; [done | | |].
      + split_and!.
        * done.
        * set_solver.
        * exists (new ++ new1 ++ [c]). rewrite Hnew1, Hnew.
          by rewrite <- !app_assoc.
        * intros x Hx. destruct (Hvis1 x Hx) as [H|[->|[H1 H2]]].
          -- by apply Hvis.
          -- right. right. split; [done | lia].
          -- right. right. split; [done | lia].
        * intros x Hx. destruct (Hord1 x Hx) as [H|H]; [by apply Hord |].
          right. split; [set_solver |]. intros ->. set_solver.
        * intros a Ha Hna. destruct (Hp1 a Ha Hna) as [H1 H2]. by apply Hp.
      + intros x Hx. rewrite Hnew1. set_solver.
      + rewrite Hnew1. set_solver. }
  destruct Hstep as (st1 & -> & Hl1 & Hmono1 & Hc1). simpl.
  destruct (IHcs (λ x Hx, Hcs x ltac:(set_solver)) st1 Hl1)
    as (st' & Hrun & Hl' & Hmono' & Hall').
  exists st'. split_and!; [done | done | by eauto |].
  intros x Hx. apply elem_of_cons in Hx as [->|Hx]; [by apply Hmono' | by apply Hall'].
Qed.

Lemma DepthFirst_spec fuel : DepthFirst_ok fuel.
Proof.
  induction fuel as [|fuel IH]; [intros id st H; lia |].
  intros id [order vis] Hfuel [n Hn] Hid (Hi1 & Hi2 & Hi3) Hpend. simpl in *.
  unfold SafeInsertSet. rewrite decide_False by done. simpl. rewrite Hn. simpl.
  assert (H0 : loop_inv id (order, vis) (order, {[id]} ∪ vis)).
  { split_and!; simpl.
    - split_and!; simpl; [set_solver | done | done].
    - done.
    - exists []. by rewrite app_nil_r.
    - intros x Hx. set_solver.
    - intros x Hx. by left.
    - intros a Ha Hna. set_solver. }
  destruct (DepthFirst_loop fuel id n (order, vis) (adj1 n) _ IH
              ltac:(lia) Hn ltac:(set_solver) Hpend H0)
    as (st1 & -> & Hl1 & Hm1 & Ha1). simpl.
  destruct (DepthFirst_loop fuel id n (order, vis) (adj2 n) _ IH
              ltac:(lia) Hn ltac:(set_solver) Hpend Hl1)
    as ([order2 vis2] & -> & Hl2 & Hm2 & Ha2). simpl.
  eexists. split; [done |].
  destruct Hl2 as ((Hv2 & Hnd2 & Hb2) & Hsub2 & [new2 Hnew2] & Hvis2 & Hord2
                   & Hp2). simpl in *.
  assert (Hnotin : id ∉ order2).
  { intros Hin. destruct (Hord2 id Hin) as [H|[_ H]]; [|done].
    apply Hid. by apply Hi1. }
  split_and!; simpl.
  - split_and!; simpl.
    + intros x Hx. apply elem_of_app in Hx as [Hx|Hx]; [by apply Hv2 |].
      apply list_elem_of_singleton in Hx as ->. set_solver.
    + apply NoDup_app. split_and!; [done | | apply NoDup_singleton].
      intros x Hx Hx'. apply list_elem_of_singleton in Hx' as ->. done.
    + intros j x nx y Hj Hx Hy.
      apply lookup_app_Some in Hj as [Hj|[Hge Hj]].
      * destruct (Hb2 j x nx y Hj Hx Hy) as (i & Hi & Hyi).
        exists i. split; [done |]. by apply lookup_app_l_Some.
      * apply list_lookup_singleton_Some in Hj as [Hj <-].
        assert (nx = n) as -> by congruence.
        assert (Hyin : y ∈ order2).
        { apply elem_of_app in Hy as [Hy|Hy]; [by apply Hm2, Ha1 | by apply Ha2]. }
        apply list_elem_of_lookup in Hyin as [i Hyi]. exists i. split.
        -- apply lookup_lt_Some in Hyi. lia.
        -- by apply lookup_app_l_Some.
  - set_solver.
  - exists new2. rewrite Hnew2. by rewrite <- app_assoc.
  - done.
  - intros x Hx. apply elem_of_app in Hx as [Hx|Hx].
    + destruct (Hord2 x Hx) as [H|[H _]]; eauto.
    + apply list_elem_of_singleton in Hx as ->. eauto.
  - intros a Ha Hna. destruct (Hp2 a Ha) as [->|H]; [set_solver | | done].
    exfalso. apply Hna. set_solver.
Qed.

End DepthFirstOrder.

(** ** What the generators rely on *)

Section Built.
Variable d : GPDAG.
Hypothesis Hbuilt : dag_built d.
Hypothesis Hsized : tables_sized d.

Lemma Leafward_app n c :
  c ∈ Node.GetLeafwardSorted n ++ Node.GetLeafwardRotated n ↔
  ∃ rot, c ∈ Node.Leafward rot n.
Proof.
  rewrite elem_of_app. split.
  - intros [H|H]; [by exists false | by exists true].
  - intros [[] H]; [by right | by left].
Qed.

Lemma Rootward_app n c :
  c ∈ Node.GetRootwardSorted n ++ Node.GetRootwardRotated n ↔
  ∃ rot, c ∈ Node.Rootward rot n.
Proof.
  rewrite elem_of_app. split.
  - intros [H|H]; [by exists false | by exists true].
  - intros [[] H]; [by right | by left].
Qed.

(** A leafward entry: the child exists, lies below, and its PCSP is
    indexed. *)
Lemma built_leafward p n rot c :
  dag_nodes_ d !! p = Some n → c ∈ Node.Leafward rot n →
  taxon_count_ d ≤ p ∧ c < p
  ∧ ∃ cn, dag_nodes_ d !! c = Some cn ∧ p ∈ Node.Rootward rot cn
          ∧ is_Some (gpcsp_indexer_ d
                       !! (Node.GetBitsetRot n rot +b subsplit_ cn)).
Proof.
  intros Hn Hc.
  destruct (leafward_decreasing d Hbuilt Hsized p n rot c Hn Hc)
    as [HT Hlt].
  destruct Hbuilt as (_ & (Hs & _) & (Hnum & _)).
  destruct (Hs p n rot c Hn Hc) as (_ & cn & Hcn & Hp & _).
  split_and!; [done | done |]. exists cn. split_and!; [done | done |].
  assert (Hk : Node.GetBitsetRot n rot +b subsplit_ cn ∈ indexer_keys d).
  { apply elem_of_app. right. apply elem_of_edge_keys.
    exists p, n, rot, c, cn. done. }
  apply list_elem_of_lookup in Hk as [i Hi]. exists i. by apply Hnum.
Qed.

(** A rootward entry is the twin of a leafward one. *)
Lemma built_rootward c cn rot p :
  dag_nodes_ d !! c = Some cn → p ∈ Node.Rootward rot cn →
  taxon_count_ d ≤ p ∧ c < p
  ∧ ∃ n, dag_nodes_ d !! p = Some n ∧ c ∈ Node.Leafward rot n
         ∧ is_Some (gpcsp_indexer_ d
                      !! (Node.GetBitsetRot n rot +b subsplit_ cn)).
Proof.
  intros Hcn Hp.
  destruct Hbuilt as (_ & (_ & Ht & _) & _).
  destruct (Ht c cn rot p Hcn Hp) as (n & Hn & Hc).
  destruct (built_leafward p n rot c Hn Hc) as (HT & Hlt & cn' & Hcn' & _ & Hk).
  simplify_eq. split_and!; [done | done |]. eauto.
Qed.

Lemma built_root r :
  r ∈ rootsplits_ d →
  subsplit_to_index_ d !! (r +b ~b r) = Some (root_index d r)
  ∧ taxon_count_ d ≤ root_index d r
  ∧ is_Some (dag_nodes_ d !! root_index d r).
Proof.
  intros Hr. destruct Hbuilt as ((Hst & _ & Hri & _) & _).
  destruct (Hri r Hr) as [Hidx HT]. split_and!; [done | done |].
  apply Hst in Hidx. unfold subsplits in Hidx.
  rewrite list_lookup_fmap in Hidx.
  destruct (dag_nodes_ d !! root_index d r); [eauto | done].
Qed.

Lemma built_roots_ordered k1 k2 r1 r2 :
  k1 < k2 → rootsplits_ d !! k1 = Some r1 → rootsplits_ d !! k2 = Some r2 →
  root_index d r1 < root_index d r2.
Proof. destruct Hbuilt as ((_ & _ & _ & Hro & _) & _). apply Hro. Qed.

(** Every non-fake node is a root node or has a leafward edge into it. *)
Lemma built_descend i n :
  dag_nodes_ d !! i = Some n → taxon_count_ d ≤ i →
  is_root_subsplit d (subsplit_ n)
  ∨ ∃ p pn rot, dag_nodes_ d !! p = Some pn ∧ i ∈ Node.Leafward rot pn.
Proof.
  intros Hn Hi. pose proof (built_subsplit d i n Hn) as Hs.
  destruct Hbuilt as ((Hst & _ & _ & _ & _ & Hde) & (_ & _ & Hco) & _).
  destruct (Hde i _ Hi Hs) as [Hr|(k & p & Hk & Hp & Hc)]; [by left |].
  right. unfold subsplits in Hp. rewrite list_lookup_fmap in Hp.
  apply fmap_Some in Hp as (pn & Hpn & ->).
  assert (∃ rot, table_child d (Node.GetBitsetRot pn rot) (subsplit_ n))
    as [rot Ht].
  { destruct Hc as [H|H]; [by exists false | by exists true]. }
  apply (table_child_edge_child d) in Ht.
  destruct (Hco k rot Hk pn _ Hpn Ht) as (c & Hc1 & Hc2).
  apply Hst in Hc1. rewrite (store_ok_unique _ _ _ _ Hst Hs Hc1).
  by exists k, pn, rot.
Qed.

End Built.

(** ** The upward traversal *)

Section Traversals.
Variable d : GPDAG.
Hypothesis Hbuilt : dag_built d.
Hypothesis Hsized : tables_sized d.

Local Abbreviation nodes := (dag_nodes_ d).
Local Abbreviation up := (λ x, length (dag_nodes_ d) - 1 - x).

Lemma rootward_adj x n y :
  nodes !! x = Some n →
  y ∈ Node.GetRootwardSorted n ++ Node.GetRootwardRotated n →
  up y < up x ∧ is_Some (nodes !! y) ∧ taxon_count_ d ≤ y.
Proof.
  intros Hn Hy. apply Rootward_app in Hy as [rot Hy].
  destruct (built_rootward d Hbuilt Hsized x n rot y Hn Hy)
    as (HT & Hlt & pn & Hpn & _).
  pose proof (lookup_lt_Some _ _ _ Hpn). split_and!; [lia | eauto | done].
Qed.

Lemma leafward_adj x n y :
  nodes !! x = Some n →
  y ∈ Node.GetLeafwardSorted n ++ Node.GetLeafwardRotated n →
  y < x ∧ is_Some (nodes !! y) ∧ True.
Proof.
  intros Hn Hy. apply Leafward_app in Hy as [rot Hy].
  destruct (built_leafward d Hbuilt Hsized x n rot y Hn Hy)
    as (HT & Hlt & cn & Hcn & _).
  split_and!; [lia | eauto | done].
Qed.

(** The loop of [LeafwardPassTraversal] over the leaves. *)
Lemma LeafwardPassTraversal_loop fuel :
  length nodes ≤ fuel →
  ∃ st, foldM (λ st leaf_idx, RootwardDepthFirst fuel nodes leaf_idx st)
          (seq 0 (taxon_count_ d)) ([], ∅) = Some st
        ∧ order_inv Node.GetRootwardSorted Node.GetRootwardRotated nodes st.
Proof.
  intros Hfuel.
  pose (Inv := λ (k : nat) (st : list nat * gset nat),
          order_inv Node.GetRootwardSorted Node.GetRootwardRotated nodes st
          ∧ (∀ a, a ∈ st.2 → a ∈ st.1)
          ∧ ∀ x, x ∈ st.2 → x < k ∨ taxon_count_ d ≤ x).
  assert (G : ∀ n k st, k + n = taxon_count_ d → Inv k st →
            ∃ st', foldM (λ st leaf_idx,
                            RootwardDepthFirst fuel nodes leaf_idx st)
                     (seq k n) st = Some st' ∧ Inv (k + n) st').
  { induction n as [|n IH]; intros k st Hk Hi; simpl.
    { exists st. by rewrite Nat.add_0_r. }
    destruct Hi as (Hinv & Hnp & Hvis).
    pose proof (built_taxon_le d Hbuilt) as HTN.
    rewrite RootwardDepthFirst_DepthFirst.
    destruct (DepthFirst_spec _ _ nodes up (λ y, taxon_count_ d ≤ y)
                rootward_adj fuel k st) as (st1 & -> & Hpost).
    - lia.
    - apply lookup_lt_is_Some_2. lia.
    - intros Hin. destruct (Hvis k Hin); lia.
    - done.
    - intros a Ha Hna. by destruct Hna; apply Hnp.
    - simpl. destruct Hpost as (Hi1 & Hsub1 & _ & Hvis1 & _ & Hp1).
      destruct (IH (S k) st1) as (st' & Hrun & Hi'); [lia | |].
      + split_and!; [done | |].
        * intros a Ha. destruct (decide (a ∈ st1.1)) as [|Hna]; [done |].
          destruct (Hp1 a Ha Hna) as [H1 H2]. by destruct H2; apply Hnp.
        * intros x Hx. destruct (Hvis1 x Hx) as [H|[->|[H _]]].
          -- destruct (Hvis x H); [left; lia | by right].
          -- left. lia.
          -- by right.
      + exists st'. split; [done |]. by replace (k + S n) with (S k + n) by lia. }
  destruct (G (taxon_count_ d) 0 ([], ∅)) as (st & Hrun & Hi & _); [lia | |].
  - split_and!; simpl.
    + split_and!; simpl; [set_solver | apply NoDup_nil_2 |].
      intros j x n y Hj. by rewrite lookup_nil in Hj.
    + set_solver.
    + set_solver.
  - eauto.
Qed.

(** In an order with the invariant, everything reachable through the
    adjacency comes earlier. *)
Lemma order_inv_reachable adj1 adj2 (edge : nat → nat → Prop)
    (st : list nat * gset nat) :
  order_inv adj1 adj2 nodes st →
  (∀ a b, edge a b → ∃ n, nodes !! a = Some n ∧ b ∈ adj1 n ++ adj2 n) →
  ∀ a b i j, reachable edge a b →
    st.1 !! i = Some a → st.1 !! j = Some b → j < i.
Proof.
  intros (_ & Hnd & Hb) Hedge a b i j Hr. revert i j.
  induction Hr as [a b He|a b c He _ IH]; intros i j Hi Hj.
  - destruct (Hedge a b He) as (n & Hn & Hin).
    destruct (Hb i a n b Hi Hn Hin) as (j' & Hlt & Hj').
    by rewrite (NoDup_lookup _ _ _ _ Hnd Hj Hj').
  - destruct (Hedge a b He) as (n & Hn & Hin).
    destruct (Hb i a n b Hi Hn Hin) as (jb & Hlt & Hjb).
    specialize (IH jb j Hjb Hj). lia.
Qed.

End Traversals.

(** ** What the upward traversal holds *)

Lemma reachable_impl (e1 e2 : nat → nat → Prop) a b :
  (∀ x y, e1 x y → e2 x y) → reachable e1 a b → reachable e2 a b.
Proof.
  intros He. induction 1 as [a b H|a b c H _ IH].
  - by apply reachable_step, He.
  - eapply reachable_more; [by apply He | done].
Qed.

Lemma reachable_snoc (edge : nat → nat → Prop) a b c :
  reachable edge a b → edge b c → reachable edge a c.
Proof.
  induction 1 as [a b H|a b c' H _ IH]; intros Hc.
  - eapply reachable_more; [done | by apply reachable_step].
  - eapply reachable_more; [done | by apply IH].
Qed.

(** A completed traversal call appends its start node, and before it only
    nodes reachable from the start through the adjacency. *)
Lemma DepthFirst_trace adj1 adj2 nodes fuel id st st' :
  DepthFirst adj1 adj2 fuel nodes id st = Some st' →
  ∃ new, st'.1 = st.1 ++ new ++ [id]
    ∧ ∀ x, x ∈ new →
        reachable (λ a b, ∃ n, nodes !! a = Some n ∧ b ∈ adj1 n ++ adj2 n)
          id x.
Proof.
  set (edge := λ a b, ∃ n, nodes !! a = Some n ∧ b ∈ adj1 n ++ adj2 n).
  revert id st st'. induction fuel as [|fuel IH]; intros id st st' H; [done |].
  simpl in H.
  destruct (SafeInsertSet st.2 id) as [vis|]; simpl in H; [|done].
  destruct (nodes !! id) as [n|] eqn:Hn; simpl in H; [|done].
  assert (L : ∀ cs s s', (∀ c, c ∈ cs → edge id c) →
            foldM (DepthFirst_visit (DepthFirst adj1 adj2 fuel nodes)) cs s
            = Some s' →
            ∃ new, s'.1 = s.1 ++ new ∧ ∀ x, x ∈ new → reachable edge id x).
  { induction cs as [|c cs IHcs]; intros s s' Hcs Hrun; simpl in Hrun.
    { injection Hrun as <-. exists []. rewrite app_nil_r. split; [done |].
      intros x Hx. by apply elem_of_nil in Hx. }
    destruct (DepthFirst_visit _ s c) as [s1|] eqn:Hv; simpl in Hrun; [|done].
    destruct (IHcs s1 s' (λ x Hx, Hcs x ltac:(set_solver)) Hrun)
      as (new2 & E2 & H2).
    assert (Hc : edge id c) by (apply Hcs; set_solver).
    unfold DepthFirst_visit in Hv.
    destruct (decide (c ∈ s.2)).
    - injection Hv as <-. by exists new2.
    - destruct (IH c s s1 Hv) as (new1 & E1 & H1).
      exists ((new1 ++ [c]) ++ new2). split.
      + rewrite E2, E1. by rewrite <- !app_assoc.
      + intros x Hx. apply elem_of_app in Hx as [Hx|Hx]; [|by apply H2].
        apply elem_of_app in Hx as [Hx|Hx].
        * eapply reachable_more; [exact Hc | by apply H1].
        * apply list_elem_of_singleton in Hx as ->. by apply reachable_step. }
  destruct (foldM _ (adj1 n) _) as [st1|] eqn:R1; simpl in H; [|done].
  destruct (foldM _ (adj2 n) st1) as [st2|] eqn:R2; simpl in H; [|done].
  injection H as <-. simpl.
  destruct (L _ _ _ (λ c Hc, ex_intro _ n (conj Hn
              (proj2 (elem_of_app _ _ _) (or_introl Hc)))) R1)
    as (new1 & E1 & H1).
  destruct (L _ _ _ (λ c Hc, ex_intro _ n (conj Hn
              (proj2 (elem_of_app _ _ _) (or_intror Hc)))) R2)
    as (new2 & E2 & H2).
  exists (new1 ++ new2). split.
  - rewrite E2, E1. simpl. by rewrite <- !app_assoc.
  - intros x Hx. apply elem_of_app in Hx as [Hx|Hx]; [by apply H1 | by apply H2].
Qed.

(** The loop of [LeafwardPassTraversal]: the order it returns holds every
    start it was given, and beyond what it began with only the starts and
    nodes reachable from them. *)
Lemma LeafwardPassTraversal_trace nodes fuel leaves st st' :
  foldM (λ st leaf_idx, RootwardDepthFirst fuel nodes leaf_idx st) leaves st
  = Some st' →
  (∀ x, x ∈ st.1 → x ∈ st'.1) ∧ (∀ l, l ∈ leaves → l ∈ st'.1)
  ∧ ∀ x, x ∈ st'.1 →
      x ∈ st.1 ∨ x ∈ leaves
      ∨ ∃ l, l ∈ leaves
             ∧ reachable (λ a b, ∃ n, nodes !! a = Some n
                            ∧ b ∈ Node.GetRootwardSorted n
                                  ++ Node.GetRootwardRotated n) l x.
Proof.
  revert st. induction leaves as [|l leaves IH]; intros st Hrun; simpl in Hrun.
  { injection Hrun as <-. split_and!; [done | | by left].
    intros l Hl. by apply elem_of_nil in Hl. }
  destruct (RootwardDepthFirst fuel nodes l st) as [st1|] eqn:H1;
    simpl in Hrun; [|done].
  rewrite RootwardDepthFirst_DepthFirst in H1.
  apply DepthFirst_trace in H1 as (new & E & Hnew).
  destruct (IH st1 Hrun) as (Hmono & Hin & Hsrc).
  split_and!.
  - intros x Hx. apply Hmono. rewrite E. set_solver.
  - intros x Hx. apply elem_of_cons in Hx as [->|Hx]; [|by apply Hin].
    apply Hmono. rewrite E. set_solver.
  - intros x Hx. destruct (Hsrc x Hx) as [H|[H|(l' & Hl' & Hr)]].
    + rewrite E in H. apply elem_of_app in H as [H|H]; [by left |].
      apply elem_of_app in H as [H|H].
      * right. right. exists l. split; [set_solver | by apply Hnew].
      * apply list_elem_of_singleton in H as ->. right. left. set_solver.
    + right. left. set_solver.
    + right. right. exists l'. split; [set_solver | done].
Qed.

(** In an order with the invariant, whatever is reachable from a member
    through the adjacency is a member too, at an earlier position. *)
Lemma order_inv_closed adj1 adj2 nodes (edge : nat → nat → Prop)
    (st : list nat * gset nat) :
  order_inv adj1 adj2 nodes st →
  (∀ a b, edge a b → ∃ n, nodes !! a = Some n ∧ b ∈ adj1 n ++ adj2 n) →
  ∀ a b i, reachable edge a b → st.1 !! i = Some a →
    ∃ j, j < i ∧ st.1 !! j = Some b.
Proof.
  intros (_ & _ & Hb) Hedge a b i Hr. revert i.
  induction Hr as [a b He|a b c He _ IH]; intros i Hi.
  - destruct (Hedge a b He) as (n & Hn & Hin). by apply (Hb i a n b).
  - destruct (Hedge a b He) as (n & Hn & Hin).
    destruct (Hb i a n b Hi Hn Hin) as (jb & Hlt & Hjb).
    destruct (IH jb Hjb) as (j & Hj & Hc). exists j. split; [lia | done].
Qed.

(** When every non-fake node has a leafward edge, every non-fake node is
    an ancestor of a fake leaf. *)
Lemma leaf_below (d : GPDAG) :
  dag_built d → tables_sized d →
  (∀ i n, taxon_count_ d ≤ i → dag_nodes_ d !! i = Some n →
     Node.GetLeafwardSorted n ++ Node.GetLeafwardRotated n ≠ []) →
  ∀ x, taxon_count_ d ≤ x → x < length (dag_nodes_ d) →
    ∃ l, l < taxon_count_ d ∧ reachable (rootward_edge d) l x.
Proof.
  intros Hb Hsz Hkids x. induction x as [x IH] using lt_wf_ind.
  intros HT Hx. destruct (lookup_lt_is_Some_2 _ _ Hx) as [n Hn].
  destruct (Node.GetLeafwardSorted n ++ Node.GetLeafwardRotated n)
    as [|c cs] eqn:E; [by destruct (Hkids x n HT Hn) |].
  assert (Hc : c ∈ Node.GetLeafwardSorted n ++ Node.GetLeafwardRotated n)
    by (rewrite E; set_solver).
  apply Leafward_app in Hc as [rot Hc].
  destruct (built_leafward d Hb Hsz x n rot c Hn Hc)
    as (_ & Hlt & cn & Hcn & Hup & _).
  assert (He : rootward_edge d c x).
  { exists cn. split; [done |]. destruct rot; [by right | by left]. }
  destruct (decide (c < taxon_count_ d)) as [Hfake|Hreal].
  - exists c. split; [done | by apply reachable_step].
  - destruct (IH c Hlt ltac:(lia) ltac:(lia)) as (l & Hl & Hr).
    exists l. split; [done | by eapply reachable_snoc].
Qed.

(** C8, as stated, fails on the DAG of the single topology ((0,1),2): the
    upward order is 4, 3, 0, 1, 2, so the root node 4 comes before node 3,
    which is reachable from it along a leafward edge. *)
Lemma upward_order_roots_first :
  let d := Examples.dag_of Examples.one_tree in
  ∃ order, LeafwardPassTraversal 16 d = Some order
           ∧ order !! 0 = Some 4 ∧ order !! 1 = Some 3
           ∧ reachable (leafward_edge d) 4 3.
Proof.
  eexists. split_and!; [by vm_compute | done | done |].
  apply reachable_step. eexists. split; [by vm_compute |].
  left. apply list_elem_of_In. vm_compute. tauto.
Qed.

(** C8, amended: the upward traversal order, [LeafwardPassTraversal],
    completes without repetition; it holds every leaf and, with each node
    it holds, every node reachable from that node along rootward edges (its
    ancestors), each at an earlier position; it holds nothing but the
    leaves and their ancestors, and so every node of the DAG when every
    non-fake node has a leafward edge.  It is the dependency order for
    propagating information toward the leaves. *)
Theorem LeafwardPassTraversal_ancestors_first
    (ChildSubsplit : Bitset → Bitset → Bitset) (fuel fuel' : nat)
    (tc : RootedTreeCollection) (rank : Bitset → nat) (d : GPDAG)
    (Hranked : harvest_ranked ChildSubsplit tc rank)
    (Hsized : harvest_sized ChildSubsplit tc)
    (Hd : GPDAG_of ChildSubsplit fuel tc = Some d)
    (Hfuel : NodeCount d ≤ fuel') :
  ∃ order, LeafwardPassTraversal fuel' d = Some order
    ∧ NoDup order
    ∧ (∀ l, l < taxon_count_ d → l ∈ order)
    ∧ (∀ a b i, order !! i = Some a → reachable (rootward_edge d) a b →
         ∃ j, j < i ∧ order !! j = Some b)
    ∧ (∀ x, x ∈ order →
         x < taxon_count_ d
         ∨ ∃ l, l < taxon_count_ d ∧ reachable (rootward_edge d) l x)
    ∧ ((∀ i n, taxon_count_ d ≤ i → dag_nodes_ d !! i = Some n →
          Node.GetLeafwardSorted n ++ Node.GetLeafwardRotated n ≠ []) →
       ∀ x, x < NodeCount d → x ∈ order)
    ∧ ∀ a b i j, reachable (rootward_edge d) a b →
        order !! i = Some a → order !! j = Some b → j < i.
Proof.
  destruct (GPDAG_of_built _ _ _ _ _ Hranked Hsized Hd)
    as (Hb & _ & Hsz & _).
  destruct (LeafwardPassTraversal_loop d Hb Hsz fuel' Hfuel) as (st & Hrun & Hi).
  destruct (LeafwardPassTraversal_trace _ _ _ _ _ Hrun)
    as (_ & Hleaves & Hsrc).
  assert (Hedge : ∀ a b, rootward_edge d a b →
            ∃ n, dag_nodes_ d !! a = Some n
                 ∧ b ∈ Node.GetRootwardSorted n ++ Node.GetRootwardRotated n).
  { intros a b (n & Hn & Hin). exists n. split; [done |].
    by apply elem_of_app. }
  pose proof (order_inv_closed _ _ _ _ _ Hi Hedge) as Hclosed.
  exists st.1. unfold LeafwardPassTraversal. rewrite Hrun. simpl.
  refine (conj eq_refl (conj (proj1 (proj2 Hi)) (conj _ (conj _ (conj _
            (conj _ _)))))).
  - intros l Hl. apply Hleaves, elem_of_seq. lia.
  - intros a b i Ha Hr. by apply (Hclosed a b i).
  - intros x Hx. destruct (Hsrc x Hx) as [H|[H|(l & Hl & Hr)]].
    + by apply elem_of_nil in H.
    + left. apply elem_of_seq in H. lia.
    + right. exists l. split; [apply elem_of_seq in Hl; lia |].
      eapply reachable_impl; [|exact Hr].
      intros a b (n & Hn & Hin). exists n. split; [done |].
      by apply elem_of_app in Hin.
  - intros Hkids x Hx.
    destruct (decide (x < taxon_count_ d)) as [Hfake|Hreal].
    { apply Hleaves, elem_of_seq. lia. }
    destruct (leaf_below d Hb Hsz Hkids x ltac:(lia) Hx) as (l & Hl & Hr).
    assert (Hin : l ∈ st.1) by (apply Hleaves, elem_of_seq; lia).
    apply list_elem_of_lookup in Hin as [i Hli].
    destruct (Hclosed l x i Hr Hli) as (j & _ & Hj).
    by eapply list_elem_of_lookup_2.
  - eapply order_inv_reachable; [exact Hi | exact Hedge].
Qed.

Lemma LeafwardPassTraversal_ancestors_first_witness :
  let d := Examples.dag_of Examples.one_tree in
  harvest_ranked Examples.ChildSubsplit Examples.one_tree popcount
  ∧ harvest_sized Examples.ChildSubsplit Examples.one_tree
  ∧ GPDAG_of Examples.ChildSubsplit 16 Examples.one_tree = Some d
  ∧ NodeCount d ≤ 5
  ∧ (∀ i n, taxon_count_ d ≤ i → dag_nodes_ d !! i = Some n →
       Node.GetLeafwardSorted n ++ Node.GetLeafwardRotated n ≠ [])
  ∧ ∃ order, LeafwardPassTraversal 5 d = Some order
      ∧ NoDup order
      ∧ (∀ l, l < taxon_count_ d → l ∈ order)
      ∧ (∀ a b i, order !! i = Some a → reachable (rootward_edge d) a b →
           ∃ j, j < i ∧ order !! j = Some b)
      ∧ (∀ x, x ∈ order →
           x < taxon_count_ d
           ∨ ∃ l, l < taxon_count_ d ∧ reachable (rootward_edge d) l x)
      ∧ (∀ x, x < NodeCount d → x ∈ order)
      ∧ ∀ a b i j, reachable (rootward_edge d) a b →
          order !! i = Some a → order !! j = Some b → j < i.
Proof.
  intros d.
  assert (Hn : NodeCount d ≤ 5) by (vm_compute; lia).
  assert (Hkids : ∀ i n, taxon_count_ d ≤ i → dag_nodes_ d !! i = Some n →
            Node.GetLeafwardSorted n ++ Node.GetLeafwardRotated n ≠ []).
  { intros i n Hi Hi'. vm_compute in Hi. vm_compute in Hi'.
    do 5 (destruct i as [|i]; [try lia; by simplify_eq |]). done. }
  split_and!; [apply one_tree_harvest | apply one_tree_harvest
               | exact dag_of_one_tree | exact Hn | exact Hkids |].
  destruct (LeafwardPassTraversal_ancestors_first Examples.ChildSubsplit 16 5
              Examples.one_tree popcount d (proj1 one_tree_harvest)
              (proj2 one_tree_harvest) dag_of_one_tree Hn)
    as (order & H1 & H2 & H3 & H4 & H5 & H6 & H7).
  exists order.
  exact (conj H1 (conj H2 (conj H3 (conj H4 (conj H5
           (conj (H6 Hkids) H7)))))).
Defined.

(** ** Emitters *)


Lemma emits_emitted f delta : emits f delta → emitted f = delta.
Proof. intros H. unfold emitted. by rewrite (H []). Qed.

Lemma emits_bind f g d1 d2 :
  emits f d1 → emits g d2 → emits (λ ops, f ops ≫= g) (d1 ++ d2).
Proof. intros Hf Hg ops. rewrite Hf. simpl. by rewrite Hg, app_assoc. Qed.

Lemma emits_foldM {A : Type}
    (f : GPOperationVector → A → option GPOperationVector)
    (g : A → GPOperationVector) (l : list A) :
  (∀ x, x ∈ l → emits (λ ops, f ops x) (g x)) →
  emits (foldM f l) (flat_map g l).
Proof. intros H ops. apply foldM_emit. intros ops' x Hx. by apply H. Qed.

Lemma emits_push_Zero d kind i :
  is_Some (kind_offset kind) →
  emits (push_Zero d kind i) [Zero (plv d kind i)].
Proof. intros Hk ops. unfold push_Zero. by plv_simpl. Qed.

Lemma emits_push_Multiply d a b c i :
  is_Some (kind_offset a) → is_Some (kind_offset b) →
  is_Some (kind_offset c) →
  emits (push_Multiply d a b c i)
    [Multiply (plv d a i) (plv d b i) (plv d c i)].
Proof. intros Ha Hb Hc ops. unfold push_Multiply. by plv_simpl. Qed.

Lemma plv_P d i : plv d P i = N.of_nat i.
Proof. reflexivity. Qed.

Lemma quiet_app a b : quiet a → quiet b → quiet (a ++ b).
Proof. unfold quiet. intros. by apply Forall_app. Qed.

Lemma quiet_flat_map {A : Type} (g : A → GPOperationVector) (l : list A) :
  (∀ x, x ∈ l → quiet (g x)) → quiet (flat_map g l).
Proof.
  induction l as [|x l IH]; intros H; simpl; [constructor |].
  apply quiet_app; [apply H; set_solver | apply IH; intros; apply H; set_solver].
Qed.

Lemma quiet_no_IML ops : quiet ops → Forall (λ op, is_IML op = false) ops.
Proof. intros H. eapply Forall_impl; [exact H |]. by intros op [_ ?]. Qed.

Lemma occurrences_app x a b :
  occurrences x (a ++ b) = occurrences x a + occurrences x b.
Proof. unfold occurrences. by rewrite filter_app, length_app. Qed.

Lemma occurrences_nil x : occurrences x [] = 0.
Proof. done. Qed.

Lemma occurrences_singleton x y :
  occurrences x [y] = if decide (y = x) then 1 else 0.
Proof.
  unfold occurrences. rewrite filter_cons. by case_decide.
Qed.

Lemma occurrences_quiet a ops : quiet ops → occurrences (Zero a) ops = 0.
Proof.
  unfold occurrences, quiet. induction 1 as [|op ops [Hz _] _ IH]; [done |].
  rewrite filter_cons. case_decide as E; [by subst |]. exact IH.
Qed.

Lemma occurs_in_app w pre ops post :
  occurs_in w ops → occurs_in w (pre ++ ops ++ post).
Proof.
  intros (a & b & ->). exists (pre ++ a), (b ++ post).
  by rewrite <- !app_assoc.
Qed.

Lemma occurs_in_app_r w ops post : occurs_in w ops → occurs_in w (ops ++ post).
Proof. intros H. by apply (occurs_in_app w [] ops post). Qed.

Lemma occurs_in_app_l w pre ops : occurs_in w ops → occurs_in w (pre ++ ops).
Proof.
  intros H. apply (occurs_in_app w pre ops []) in H. by rewrite app_nil_r in H.
Qed.

Lemma last_or_snoc x l y : last_or x (l ++ [y]) = y.
Proof. unfold last_or. by rewrite last_snoc. Qed.

Lemma last_or_app_snoc x l y l' :
  last_or x (l ++ [y] ++ l') = last_or y l'.
Proof.
  unfold last_or. destruct l' as [|z l'] using rev_ind.
  - by rewrite app_nil_r, last_snoc.
  - by rewrite !app_assoc, !last_snoc.
Qed.

(** ** Composing the guarantees of scheduler calls *)

Lemma quiet_silent d ops : quiet ops → silent d ops.
Proof.
  intros H. split; [intros m _; by apply occurrences_quiet |].
  by apply quiet_no_IML.
Qed.

Lemma silent_app d a b : silent d a → silent d b → silent d (a ++ b).
Proof.
  intros [H1 H2] [H3 H4]. split.
  - intros m Hm. rewrite occurrences_app, H1, H3; done.
  - by apply Forall_app.
Qed.

Lemma silent_nil d : silent d [].
Proof. split; [done | constructor]. Qed.

Section SchedPost.
Variables (IsLeaf : GPDAGNode → bool).
Variables (U : nat → nat → bool → GPOperationVector).
Variables (E : Bitset → GPOperationVector) (d : GPDAG).

Local Abbreviation post := (sched_post IsLeaf U E d).

Lemma sched_post_refl b v : post b v v [].
Proof.
  split_and!; [done | by left | done | | done | constructor].
  intros m _. rewrite decide_False; [done |]. naive_solver.
Qed.

Lemma sched_post_weaken b b' v v' L : b ≤ b' → post b v v' L → post b' v v' L.
Proof.
  intros Hb (H1 & H2 & H3 & H4 & H5 & H6). split_and!; try done.
  intros x Hx. destruct (H2 x Hx); [by left | right; lia].
Qed.

Lemma sched_post_trans b v v1 v2 L1 L2 :
  post b v v1 L1 → post b v1 v2 L2 → post b v v2 (L1 ++ L2).
Proof.
  intros (A1 & A2 & A3 & A4 & A5 & A6) (B1 & B2 & B3 & B4 & B5 & B6).
  split_and!.
  - set_solver.
  - intros x Hx. destruct (B2 x Hx) as [H|H]; [by apply A2 | by right].
  - intros x nd rot c Hx Hnx Hnd Hleaf Hc.
    destruct (decide (x ∈ v1)) as [Hx1|Hx1].
    + apply B1. by eapply A3.
    + by eapply B3.
  - intros m Hm. rewrite occurrences_app, A4, B4 by done.
    repeat case_decide; try done; exfalso; set_solver.
  - intros m nd rot Hm Hnm Hnd Hleaf.
    destruct (decide (m ∈ v1)) as [Hm1|Hm1].
    + apply occurs_in_app_r. by apply A5.
    + apply occurs_in_app_l. by apply B5.
  - by apply Forall_app.
Qed.

Lemma sched_post_silent_r b v v' L q :
  post b v v' L → silent d q → post b v v' (L ++ q).
Proof.
  intros (A1 & A2 & A3 & A4 & A5 & A6) [S1 S2]. split_and!; try done.
  - intros m Hm. rewrite occurrences_app, A4, S1 by done. lia.
  - intros m nd rot Hm Hnm Hnd Hleaf. apply occurs_in_app_r. by apply A5.
  - by apply Forall_app.
Qed.

Lemma sched_post_silent_l b v v' L q :
  post b v v' L → silent d q → post b v v' (q ++ L).
Proof.
  intros (A1 & A2 & A3 & A4 & A5 & A6) [S1 S2]. split_and!; try done.
  - intros m Hm. rewrite occurrences_app, A4, S1 by done. lia.
  - intros m nd rot Hm Hnm Hnd Hleaf. apply occurs_in_app_l. by apply A5.
  - by apply Forall_app.
Qed.

(** The guarantee for a call on the inner node [n], from the guarantee of
    its child loops and what [n] itself contributes. *)
Lemma sched_post_node n nd vis v2 H mid Tl :
  dag_nodes_ d !! n = Some nd → IsLeaf nd = false → n ∉ vis →
  post n ({[n]} ∪ vis) v2 mid →
  (∀ rot c, c ∈ Node.Leafward rot nd → c ∈ v2) →
  (∀ m, m < length (dag_nodes_ d) →
     occurrences (Zero (plv d P_HAT m)) H = if decide (m = n) then 1 else 0) →
  Forall (λ op, is_IML op = false) H →
  silent d Tl →
  (∀ rot, occurs_in (window U E d n nd rot) (H ++ mid ++ Tl)) →
  post (S n) vis v2 (H ++ mid ++ Tl).
Proof.
  intros Hnd Hleaf Hn (A1 & A2 & A3 & A4 & A5 & A6) Hch HH HHi [T1 T2] Hw.
  split_and!.
  - set_solver.
  - intros x Hx. destruct (A2 x Hx) as [H'|H']; [|right; lia].
    apply elem_of_union in H' as [H'|H']; [|by left].
    apply elem_of_singleton in H' as ->. right. lia.
  - intros x nx rot c Hx Hnx Hndx Hlx Hc.
    destruct (decide (x = n)) as [->|Hne].
    + simplify_eq. by eapply Hch.
    + eapply A3; [done | set_solver | done..].
  - intros m Hm. rewrite !occurrences_app, HH, A4, T1 by done.
    assert (inner IsLeaf d n = true) by (unfold inner; by rewrite Hnd, Hleaf).
    repeat case_decide; try done; exfalso; subst; set_solver.
  - intros m nm rot Hm Hnm Hndm Hlm.
    destruct (decide (m = n)) as [->|Hne].
    + simplify_eq. apply Hw.
    + apply occurs_in_app_l, occurs_in_app_r.
      apply A5; [done | set_solver | done..].
  - by rewrite !Forall_app.
Qed.

Lemma sched_post_leaf n nd vis L :
  dag_nodes_ d !! n = Some nd → IsLeaf nd = true → silent d L →
  post (S n) vis ({[n]} ∪ vis) L.
Proof.
  intros Hnd Hleaf [S1 S2]. split_and!.
  - set_solver.
  - intros x Hx. apply elem_of_union in Hx as [Hx|Hx]; [|by left].
    apply elem_of_singleton in Hx as ->. right. lia.
  - intros x nx rot c Hx Hnx Hndx Hlx.
    assert (x = n) as -> by set_solver. congruence.
  - intros m Hm. rewrite S1 by done. rewrite decide_False; [done |].
    intros (H1 & H2 & H3). assert (m = n) as -> by set_solver.
    unfold inner in H3. by rewrite Hnd, Hleaf in H3.
  - intros m nm rot Hm Hnm Hndm Hlm.
    assert (m = n) as -> by set_solver. congruence.
  - done.
Qed.

End SchedPost.

(** ** What the pieces of a scheduler emit *)

Lemma plv_inj d k1 k2 i1 i2 :
  (6 * N.of_nat (length (dag_nodes_ d)) ≤ size_t_modulus)%N →
  is_Some (kind_offset k1) → is_Some (kind_offset k2) →
  i1 < length (dag_nodes_ d) → i2 < length (dag_nodes_ d) →
  plv d k1 i1 = plv d k2 i2 → k1 = k2 ∧ i1 = i2.
Proof.
  intros Hfit H1 H2 Hi1 Hi2 E.
  pose proof (GetPLVIndex_plv d k1 i1 H1) as E1.
  pose proof (GetPLVIndex_plv d k2 i2 H2) as E2.
  rewrite <- E in E2. unfold GetPLVIndex, GetPLVIndex_of in E1, E2.
  destruct (GetPLVIndexStatic_inj (N.of_nat (length (dag_nodes_ d))) k1 k2
              (N.of_nat i1) (N.of_nat i2) _ Hfit ltac:(lia) ltac:(lia) E1 E2)
    as [-> Hi].
  split; [done | lia].
Qed.

Opaque GetPLVIndex plv.

Section SchedEmit.
Variable d : GPDAG.
Hypothesis Hbuilt : dag_built d.
Hypothesis Hsized : tables_sized d.
Hypothesis Hfit : (6 * N.of_nat (length (dag_nodes_ d)) ≤ size_t_modulus)%N.

Lemma occurrences_mark_ne k n m :
  is_Some (kind_offset k) → k ≠ P_HAT →
  n < length (dag_nodes_ d) → m < length (dag_nodes_ d) →
  occurrences (Zero (plv d P_HAT m)) [Zero (plv d k n)] = 0.
Proof.
  intros Hk Hne Hn Hm. rewrite occurrences_singleton.
  rewrite decide_False; [done |]. intros [= E].
  by destruct (plv_inj d k P_HAT n m Hfit Hk ltac:(simpl; eauto) Hn Hm E).
Qed.

Lemma occurrences_mark_eq n m :
  n < length (dag_nodes_ d) → m < length (dag_nodes_ d) →
  occurrences (Zero (plv d P_HAT m)) [Zero (plv d P_HAT n)]
  = if decide (m = n) then 1 else 0.
Proof.
  intros Hn Hm. rewrite occurrences_singleton.
  destruct (decide (m = n)) as [->|Hne]; [by rewrite decide_True |].
  rewrite decide_False; [done |]. intros [= E].
  destruct (plv_inj d P_HAT P_HAT n m Hfit ltac:(simpl; eauto)
              ltac:(simpl; eauto) Hn Hm E). by subst.
Qed.

Lemma UpdateRHat_emits n nd rot :
  dag_nodes_ d !! n = Some nd →
  ∃ delta, emits (UpdateRHat d n rot) delta ∧ quiet delta.
Proof.
  intros Hnd. unfold UpdateRHat.
  pose (g := λ p : nat,
          match dag_nodes_ d !! p with
          | Some pn =>
              match gpcsp_indexer_ d
                    !! (Node.GetBitsetRot pn rot +b subsplit_ nd) with
              | Some i =>
                  [EvolvePLVWeightedBySBNParameter (plv d R_HAT n) i
                     (plv d (if rot then R_TILDE else R) p)]
              | None => []
              end
          | None => []
          end).
  exists (flat_map g (Node.Rootward rot nd)). split.
  - intros ops. rewrite Hnd. simpl.
    replace (if rot then Node.GetRootwardRotated nd
             else Node.GetRootwardSorted nd)
      with (Node.Rootward rot nd) by (by destruct rot).
    apply foldM_emit. intros ops' p Hp.
    destruct (built_rootward d Hbuilt Hsized n nd rot p Hnd Hp)
      as (_ & _ & pn & Hpn & _ & [i Hi]).
    unfold g. rewrite Hpn. simpl.
    replace (if rot then Bitset.RotateSubsplit (Node.GetBitset pn)
             else Node.GetBitset pn)
      with (Node.GetBitsetRot pn rot) by (by destruct rot).
    unfold Node.GetBitset. rewrite Hi. simpl.
    rewrite (GetPLVIndex_plv d R_HAT) by (simpl; eauto). simpl.
    rewrite (GetPLVIndex_plv d (if rot then R_TILDE else R))
      by (destruct rot; simpl; eauto).
    done.
  - apply quiet_flat_map. intros p _. unfold g.
    destruct (dag_nodes_ d !! p); [|constructor].
    destruct (gpcsp_indexer_ d !! _); repeat constructor.
Qed.

Lemma Schedule_rhat_emits IsRoot n nd :
  dag_nodes_ d !! n = Some nd →
  ∃ delta, emits (Schedule_rhat IsRoot d nd n) delta ∧ silent d delta.
Proof.
  intros Hnd. pose proof (lookup_lt_Some _ _ _ Hnd) as Hn.
  unfold Schedule_rhat. destruct (negb (IsRoot nd)).
  - destruct (UpdateRHat_emits n nd false Hnd) as (d1 & He1 & Hq1).
    destruct (UpdateRHat_emits n nd true Hnd) as (d2 & He2 & Hq2).
    exists ([Zero (plv d R_HAT n)]
            ++ (d1 ++ d2
                ++ [Multiply (plv d R n) (plv d R_HAT n) (plv d P_HAT_TILDE n);
                    Multiply (plv d R_TILDE n) (plv d R_HAT n)
                      (plv d P_HAT n)])).
    split.
    + intros ops.
      rewrite (emits_push_Zero d R_HAT n) by (simpl; eauto). simpl.
      rewrite He1. simpl. rewrite He2. simpl.
      rewrite (emits_push_Multiply d R R_HAT P_HAT_TILDE n)
        by (simpl; eauto). simpl.
      rewrite (emits_push_Multiply d R_TILDE R_HAT P_HAT n)
        by (simpl; eauto).
      f_equal. by rewrite <- !app_assoc.
    + apply silent_app.
      * split; [|by repeat constructor].
        intros m Hm. apply occurrences_mark_ne; (done || simpl; eauto).
      * apply quiet_silent.
        repeat (apply quiet_app; [done |]). repeat constructor.
  - exists []. split; [|apply silent_nil].
    intros ops. by rewrite app_nil_r.
Qed.

Lemma OptimizeBranchLengthUpdatePHat_emits n nd rot c :
  dag_nodes_ d !! n = Some nd → c ∈ Node.Leafward rot nd →
  ∃ delta, emits (OptimizeBranchLengthUpdatePHat d n c rot) delta
           ∧ quiet delta ∧ delta ≠ [].
Proof.
  intros Hnd Hc.
  destruct (built_leafward d Hbuilt Hsized n nd rot c Hnd Hc)
    as (_ & _ & cn & Hcn & _ & [i Hi]).
  eexists. split_and!.
  - intros ops. unfold OptimizeBranchLengthUpdatePHat.
    rewrite Hnd, Hcn. simpl.
    replace (if rot then Bitset.RotateSubsplit (Node.GetBitset nd)
             else Node.GetBitset nd)
      with (Node.GetBitsetRot nd rot) by (by destruct rot).
    unfold Node.GetBitset. rewrite Hi. simpl.
    rewrite (GetPLVIndex_plv d P) by (simpl; eauto). simpl.
    rewrite (GetPLVIndex_plv d (if rot then R_TILDE else R))
      by (destruct rot; simpl; eauto). simpl.
    rewrite (GetPLVIndex_plv d (if rot then P_HAT_TILDE else P_HAT))
      by (destruct rot; simpl; eauto). simpl.
    reflexivity.
  - repeat constructor.
  - done.
Qed.

Lemma UpdatePHatComputeLikelihood_emits n nd rot c :
  dag_nodes_ d !! n = Some nd → c ∈ Node.Leafward rot nd →
  ∃ delta, emits (UpdatePHatComputeLikelihood d n c rot) delta
           ∧ quiet delta ∧ delta ≠ [].
Proof.
  intros Hnd Hc.
  destruct (built_leafward d Hbuilt Hsized n nd rot c Hnd Hc)
    as (_ & _ & cn & Hcn & _ & [i Hi]).
  eexists. split_and!.
  - intros ops. unfold UpdatePHatComputeLikelihood.
    rewrite Hnd, Hcn. simpl.
    replace (if rot then Bitset.RotateSubsplit (Node.GetBitset nd)
             else Node.GetBitset nd)
      with (Node.GetBitsetRot nd rot) by (by destruct rot).
    unfold Node.GetBitset. rewrite Hi. simpl.
    rewrite (GetPLVIndex_plv d (if rot then P_HAT_TILDE else P_HAT))
      by (destruct rot; simpl; eauto). simpl.
    rewrite (GetPLVIndex_plv d P) by (simpl; eauto). simpl.
    rewrite (GetPLVIndex_plv d (if rot then R_TILDE else R))
      by (destruct rot; simpl; eauto). simpl.
    rewrite (GetPLVIndex_plv d P) by (simpl; eauto). simpl.
    reflexivity.
  - repeat constructor.
  - done.
Qed.

Lemma OptimizeSBNParameters_app s ops :
  OptimizeSBNParameters d s ops = ops ++ OptimizeSBNParameters d s [].
Proof.
  unfold OptimizeSBNParameters.
  destruct (subsplit_to_range_ d !! s) as [[a b]|]; simpl;
    [|by rewrite app_nil_r].
  destruct (1 <? _)%N; [done | by rewrite app_nil_r].
Qed.

Lemma OptimizeSBNParameters_quiet s : quiet (OptimizeSBNParameters d s []).
Proof.
  unfold OptimizeSBNParameters.
  destruct (subsplit_to_range_ d !! s) as [[a b]|]; simpl; [|constructor].
  destruct (1 <? _)%N; repeat constructor.
Qed.

End SchedEmit.

(** ** The scheduler, generically *)

Section Scheduler.
Variable d : GPDAG.
Hypothesis Hbuilt : dag_built d.
Hypothesis Hsized : tables_sized d.
Hypothesis Hfit : (6 * N.of_nat (length (dag_nodes_ d)) ≤ size_t_modulus)%N.
Variables IsRoot IsLeaf : GPDAGNode → bool.
Variable update :
  nat → nat → bool → GPOperationVector → option GPOperationVector.
Variable extra : Bitset → GPOperationVector → GPOperationVector.
Hypothesis Hupd : ∀ n nd rot c,
  dag_nodes_ d !! n = Some nd → c ∈ Node.Leafward rot nd →
  ∃ delta, emits (update n c rot) delta ∧ quiet delta ∧ delta ≠ [].
Hypothesis Hext : ∀ s ops, extra s ops = ops ++ extra s [].
Hypothesis Hextq : ∀ s, quiet (extra s []).

Local Abbreviation U := (λ n c rot, emitted (update n c rot)).
Local Abbreviation E := (λ s, extra s []).
Local Abbreviation post := (sched_post IsLeaf U E d).
Local Abbreviation gen := (Schedule_gen IsRoot IsLeaf update extra).
Local Abbreviation ok := (sched_ok IsRoot IsLeaf update extra d).

Lemma update_emitted n nd rot c :
  dag_nodes_ d !! n = Some nd → c ∈ Node.Leafward rot nd →
  emits (update n c rot) (U n c rot) ∧ quiet (U n c rot)
  ∧ ∃ front u, U n c rot = front ++ [u].
Proof.
  intros Hnd Hc. destruct (Hupd n nd rot c Hnd Hc) as (delta & He & Hq & Hne).
  rewrite (emits_emitted _ _ He). split_and!; [done | done |].
  destruct delta as [|x delta] using rev_ind; [done | eauto].
Qed.

Lemma Schedule_loop fuel n nd rot cs :
  ok fuel → n ≤ fuel → dag_nodes_ d !! n = Some nd →
  (∀ c, c ∈ cs → c ∈ Node.Leafward rot nd) →
  ∀ v ops,
  ∃ v' L,
    foldM (Schedule_child (gen fuel d) (λ c, update n c rot)) cs (v, ops)
    = Some (v', ops ++ L)
    ∧ post n v v' L
    ∧ (∀ c, c ∈ cs → c ∈ v')
    ∧ ∀ x, ∃ front,
        x :: L = front ++ [last_or x (flat_map (λ c, U n c rot) cs)].
Proof.
  intros IH Hfuel Hnd. induction cs as [|c cs IHcs]; intros Hcs v ops.
  { exists v, []. simpl. rewrite app_nil_r.
    refine (conj _ (conj _ (conj _ _)));
      [done | apply sched_post_refl | set_solver |].
    intros x. by exists []. }
  assert (Hc : c ∈ Node.Leafward rot nd) by (apply Hcs; set_solver).
  destruct (built_leafward d Hbuilt Hsized n nd rot c Hnd Hc)
    as (_ & Hlt & cn & Hcn & _).
  destruct (update_emitted n nd rot c Hnd Hc) as (He & Hq & front_u & u & EU).
  assert (Hstep : ∃ v1 L1,
            Schedule_child (gen fuel d) (λ c, update n c rot) (v, ops) c
            = Some (v1, ops ++ L1 ++ U n c rot)
            ∧ post n v v1 (L1 ++ U n c rot) ∧ c ∈ v1).
  { unfold Schedule_child. simpl.
    destruct (decide (c ∈ v)) as [Hv|Hv]; simpl.
    - exists v, []. rewrite He. simpl.
      refine (conj _ (conj _ _)); [done | | done].
      apply (sched_post_silent_r IsLeaf U E d n v v []);
        [apply sched_post_refl | by apply quiet_silent].
    - destruct (IH c v ops) as (v1 & delta & -> & Hin & Hp);
        [lia | by eapply lookup_lt_Some | done |].
      simpl. rewrite He. simpl. exists v1, delta.
      refine (conj _ (conj _ _)); [by rewrite app_assoc | | done].
      apply sched_post_silent_r; [|by apply quiet_silent].
      eapply sched_post_weaken; [|done]. lia. }
  destruct Hstep as (v1 & L1 & Hrun1 & Hp1 & Hc1).
  destruct (IHcs ltac:(intros; apply Hcs; set_solver) v1
              (ops ++ L1 ++ U n c rot)) as (v' & L & Hrun & Hp & Hall & Hlast).
  exists v', ((L1 ++ U n c rot) ++ L). simpl. rewrite Hrun1. simpl.
  refine (conj _ (conj _ (conj _ _))).
  - rewrite Hrun. by rewrite <- !app_assoc.
  - by eapply sched_post_trans.
  - intros x Hx. apply elem_of_cons in Hx as [->|Hx]; [|by apply Hall].
    destruct Hp as (Hsub & _). set_solver.
  - intros x. destruct (Hlast u) as [front Hf].
    exists ((x :: L1 ++ front_u) ++ front).
    change (flat_map (λ c, U n c rot) (c :: cs))
      with (U n c rot ++ flat_map (λ c, U n c rot) cs).
    rewrite EU, <- (app_assoc front_u [u]), last_or_app_snoc.
    rewrite <- (app_assoc _ front), <- Hf. simpl.
    by rewrite <- !app_assoc.
Qed.

Lemma Schedule_gen_spec fuel : ok fuel.
Proof.
  induction fuel as [|fuel IH]; [intros n vis ops H; lia |].
  intros n vis ops Hfuel Hn Hvis. simpl.
  destruct (lookup_lt_is_Some_2 _ _ Hn) as [nd Hnd]. rewrite Hnd. simpl.
  destruct (Schedule_rhat_emits d Hbuilt Hsized Hfit IsRoot n nd Hnd)
    as (dr & Her & Hsr).
  rewrite Her. simpl.
  destruct (IsLeaf nd) eqn:Hleaf.
  { exists ({[n]} ∪ vis), dr.
    refine (conj _ (conj _ _)); [done | set_solver |].
    by eapply sched_post_leaf. }
  rewrite (emits_push_Zero d P_HAT n) by (simpl; eauto). simpl.
  destruct (Schedule_loop fuel n nd false (Node.GetLeafwardSorted nd) IH
              ltac:(lia) Hnd ltac:(done) ({[n]} ∪ vis)
              ((ops ++ dr) ++ [Zero (plv d P_HAT n)]))
    as (v1 & L1 & -> & Hp1 & Hall1 & Hlast1). simpl.
  rewrite Hext.
  rewrite (emits_push_Multiply d R_TILDE R_HAT P_HAT n) by (simpl; eauto).
  simpl.
  rewrite (emits_push_Zero d P_HAT_TILDE n) by (simpl; eauto). simpl.
  match goal with |- context [foldM _ _ (v1, ?o)] =>
    destruct (Schedule_loop fuel n nd true (Node.GetLeafwardRotated nd) IH
                ltac:(lia) Hnd ltac:(done) v1 o)
      as (v2 & L2 & -> & Hp2 & Hall2 & Hlast2)
  end. simpl.
  rewrite Hext.
  rewrite (emits_push_Multiply d R R_HAT P_HAT_TILDE n) by (simpl; eauto).
  simpl.
  rewrite (emits_push_Multiply d P P_HAT P_HAT_TILDE n) by (simpl; eauto).
  simpl.
  set (Es := extra (Node.GetBitset nd) []).
  set (Er := extra (Bitset.RotateSubsplit (Node.GetBitset nd)) []).
  set (mRT := Multiply (plv d R_TILDE n) (plv d R_HAT n) (plv d P_HAT n)).
  set (mR := Multiply (plv d R n) (plv d R_HAT n) (plv d P_HAT_TILDE n)).
  set (mP := Multiply (plv d P n) (plv d P_HAT n) (plv d P_HAT_TILDE n)).
  set (zPH := Zero (plv d P_HAT n)).
  set (zPHT := Zero (plv d P_HAT_TILDE n)).
  pose (H := dr ++ [zPH]).
  pose (mid := L1 ++ (Es ++ [mRT; zPHT]) ++ L2).
  pose (Tl := Er ++ [mR; mP]).
  assert (Hmidq : silent d (Es ++ [mRT; zPHT])).
  { apply silent_app; [apply quiet_silent, Hextq |].
    split; [|by repeat constructor].
    intros m Hm. change [mRT; zPHT] with ([mRT] ++ [zPHT]).
    rewrite occurrences_app. unfold mRT, zPHT.
    rewrite (occurrences_mark_ne d Hfit P_HAT_TILDE n m)
      by (done || simpl; eauto).
    rewrite occurrences_quiet; [done | by repeat constructor]. }
  exists v2, (H ++ mid ++ Tl). refine (conj _ (conj _ _)).
  - f_equal. f_equal. unfold H, mid, Tl. by rewrite <- !app_assoc.
  - destruct Hp1 as (S1 & _), Hp2 as (S2 & _). set_solver.
  - apply (sched_post_node IsLeaf U E d n nd); try done.
    + unfold mid. eapply sched_post_trans; [done |].
      by apply sched_post_silent_l.
    + intros rot c Hc. destruct rot; [by apply Hall2 |].
      destruct Hp2 as (S2 & _). apply S2. by apply Hall1.
    + intros m Hm. unfold H. rewrite occurrences_app.
      rewrite (proj1 Hsr m Hm). unfold zPH.
      by rewrite occurrences_mark_eq.
    + unfold H. apply Forall_app. split; [apply Hsr | by repeat constructor].
    + unfold Tl. apply quiet_silent. apply quiet_app; [apply Hextq |].
      repeat constructor.
    + intros rot. destruct rot.
      * destruct (Hlast2 zPHT) as [front Hf].
        exists (H ++ L1 ++ Es ++ [mRT] ++ front), [mP].
        unfold window, loop_last, H, mid, Tl.
        change [mRT; zPHT] with ([mRT] ++ [zPHT]).
        change [mR; mP] with ([mR] ++ [mP]).
        change (zPHT :: L2) with ([zPHT] ++ L2) in Hf.
        rewrite <- !app_assoc. do 5 f_equal.
        rewrite (app_assoc [zPHT]), Hf, <- app_assoc. reflexivity.
      * destruct (Hlast1 zPH) as [front Hf].
        exists (dr ++ front), ([zPHT] ++ L2 ++ Tl).
        unfold window, loop_last, H, mid, Tl.
        change [mRT; zPHT] with ([mRT] ++ [zPHT]).
        change [mR; mP] with ([mR] ++ [mP]).
        change (zPH :: L1) with ([zPH] ++ L1) in Hf.
        rewrite <- !app_assoc. f_equal.
        rewrite (app_assoc [zPH]), Hf, <- app_assoc. reflexivity.
Qed.

End Scheduler.

(** ** The two schedulers as instances *)

Lemma Schedule_child_ext rec rec' update st c :
  (∀ st, rec c st = rec' c st) →
  Schedule_child rec update st c = Schedule_child rec' update st c.
Proof. intros H. unfold Schedule_child. by rewrite H. Qed.

Lemma ScheduleBranchLengthOptimization_gen IsRoot IsLeaf fuel d n st :
  ScheduleBranchLengthOptimization IsRoot IsLeaf fuel d n st
  = Schedule_gen IsRoot IsLeaf (OptimizeBranchLengthUpdatePHat d)
      (λ _ ops, ops) fuel d n st.
Proof.
  revert n st. induction fuel as [|fuel IH]; intros n st; [done |].
  cbn [ScheduleBranchLengthOptimization Schedule_gen].
  destruct (dag_nodes_ d !! n) as [nd|]; [|done]. cbn [mbind option_bind].
  destruct (Schedule_rhat IsRoot d nd n st.2) as [o1|]; [|done].
  cbn [mbind option_bind]. destruct (IsLeaf nd); [done |].
  destruct (push_Zero d P_HAT n o1) as [o2|]; [|done].
  cbn [mbind option_bind].
  rewrite (foldM_ext _ (Schedule_child
             (Schedule_gen IsRoot IsLeaf (OptimizeBranchLengthUpdatePHat d)
                (λ _ ops, ops) fuel d)
             (λ c, OptimizeBranchLengthUpdatePHat d n c false)))
    by (intros; by apply Schedule_child_ext).
  destruct (foldM _ (Node.GetLeafwardSorted nd) _) as [st1|]; [|done].
  cbn [mbind option_bind].
  destruct (push_Multiply d R_TILDE R_HAT P_HAT n st1.2) as [o3|]; [|done].
  cbn [mbind option_bind].
  destruct (push_Zero d P_HAT_TILDE n o3) as [o4|]; [|done].
  cbn [mbind option_bind].
  rewrite (foldM_ext _ (Schedule_child
             (Schedule_gen IsRoot IsLeaf (OptimizeBranchLengthUpdatePHat d)
                (λ _ ops, ops) fuel d)
             (λ c, OptimizeBranchLengthUpdatePHat d n c true)))
    by (intros; by apply Schedule_child_ext).
  done.
Qed.

Lemma ScheduleSBNParametersOptimization_gen IsRoot IsLeaf fuel d n st :
  ScheduleSBNParametersOptimization IsRoot IsLeaf fuel d n st
  = Schedule_gen IsRoot IsLeaf (UpdatePHatComputeLikelihood d)
      (OptimizeSBNParameters d) fuel d n st.
Proof.
  revert n st. induction fuel as [|fuel IH]; intros n st; [done |].
  cbn [ScheduleSBNParametersOptimization Schedule_gen].
  destruct (dag_nodes_ d !! n) as [nd|]; [|done]. cbn [mbind option_bind].
  destruct (Schedule_rhat IsRoot d nd n st.2) as [o1|]; [|done].
  cbn [mbind option_bind]. destruct (IsLeaf nd); [done |].
  destruct (push_Zero d P_HAT n o1) as [o2|]; [|done].
  cbn [mbind option_bind].
  rewrite (foldM_ext _ (Schedule_child
             (Schedule_gen IsRoot IsLeaf (UpdatePHatComputeLikelihood d)
                (OptimizeSBNParameters d) fuel d)
             (λ c, UpdatePHatComputeLikelihood d n c false)))
    by (intros; by apply Schedule_child_ext).
  destruct (foldM _ (Node.GetLeafwardSorted nd) _) as [st1|]; [|done].
  cbn [mbind option_bind].
  destruct (push_Multiply d R_TILDE R_HAT P_HAT n _) as [o3|]; [|done].
  cbn [mbind option_bind].
  destruct (push_Zero d P_HAT_TILDE n o3) as [o4|]; [|done].
  cbn [mbind option_bind].
  rewrite (foldM_ext _ (Schedule_child
             (Schedule_gen IsRoot IsLeaf (UpdatePHatComputeLikelihood d)
                (OptimizeSBNParameters d) fuel d)
             (λ c, UpdatePHatComputeLikelihood d n c true)))
    by (intros; by apply Schedule_child_ext).
  done.
Qed.

(** ** The loop over the rootsplits *)

Lemma IML_of_app a b : IML_of (a ++ b) = IML_of a ++ IML_of b.
Proof. unfold IML_of. by rewrite filter_app. Qed.

Lemma IML_of_none ops :
  Forall (λ op, is_IML op = false) ops → IML_of ops = [].
Proof.
  unfold IML_of. induction 1 as [|x l Hx _ IH]; [done |].
  rewrite filter_cons_False by (by rewrite Hx). done.
Qed.

Lemma foldM_imap {A St : Type} (f : St → A → option St) (l : list A)
    (k : nat) (s : St) :
  foldM (λ s (e : nat * A), f s e.2) (imap (λ i x, (k + i, x)) l) s
  = foldM f l s.
Proof.
  revert k s. induction l as [|x l IH]; intros k s; [done |].
  rewrite imap_cons. simpl. destruct (f s x) as [s'|]; [simpl | done].
  rewrite <- (IH (S k) s'). f_equal. apply imap_ext. intros i y _. simpl.
  f_equal. lia.
Qed.

Lemma top_post_step IsLeaf U E d imls vis ops b vis' pass tl :
  top_post IsLeaf U E d imls vis ops →
  sched_post IsLeaf U E d b vis vis' pass →
  (∀ m, m < length (dag_nodes_ d) →
     occurrences (Zero (plv d P_HAT m)) tl = 0) →
  top_post IsLeaf U E d (imls ++ IML_of tl) vis' (ops ++ pass ++ tl).
Proof.
  intros (A3 & A4 & A5 & A6) (B1 & B2 & B3 & B4 & B5 & B6) Htl.
  split_and!.
  - intros x nd rot c Hx Hnd Hleaf Hc.
    destruct (decide (x ∈ vis)) as [Hxv|Hxv].
    + apply B1. by eapply A3.
    + by eapply B3.
  - intros m Hm. rewrite !occurrences_app, A4, B4, Htl by done.
    repeat case_decide; try done; exfalso; set_solver.
  - intros m nd rot Hm Hnd Hleaf.
    destruct (decide (m ∈ vis)) as [Hmv|Hmv].
    + apply occurs_in_app_r. by apply A5.
    + apply occurs_in_app_l, occurs_in_app_r. by apply B5.
  - rewrite !IML_of_app, A6, (IML_of_none pass) by done. done.
Qed.

(** A completed scheduler call on an inner node ends with the [Multiply]
    that rebuilds its [P] buffer. *)
Lemma Schedule_gen_last IsRoot IsLeaf update extra fuel d n nd st st' :
  Schedule_gen IsRoot IsLeaf update extra fuel d n st = Some st' →
  dag_nodes_ d !! n = Some nd → IsLeaf nd = false →
  ∃ o, st'.2 = o ++ [Multiply (plv d P n) (plv d P_HAT n)
                       (plv d P_HAT_TILDE n)].
Proof.
  destruct fuel as [|fuel]; [done |]. intros H Hnd Hleaf.
  cbn [Schedule_gen] in H. rewrite Hnd in H. cbn [mbind option_bind] in H.
  destruct (Schedule_rhat _ _ _ _ _) as [o1|]; [|done].
  cbn [mbind option_bind] in H. rewrite Hleaf in H.
  destruct (push_Zero d P_HAT n o1) as [o2|]; [|done].
  cbn [mbind option_bind] in H.
  destruct (foldM _ (Node.GetLeafwardSorted nd) _) as [st1|]; [|done].
  cbn [mbind option_bind] in H.
  destruct (push_Multiply d R_TILDE R_HAT P_HAT n _) as [o3|]; [|done].
  cbn [mbind option_bind] in H.
  destruct (push_Zero d P_HAT_TILDE n o3) as [o4|]; [|done].
  cbn [mbind option_bind] in H.
  destruct (foldM _ (Node.GetLeafwardRotated nd) _) as [st2|]; [|done].
  cbn [mbind option_bind] in H.
  destruct (push_Multiply d R R_HAT P_HAT_TILDE n _) as [o5|]; [|done].
  cbn [mbind option_bind] in H.
  rewrite (emits_push_Multiply d P P_HAT P_HAT_TILDE n) in H
    by (simpl; eauto).
  simplify_eq/=. eauto.
Qed.

Section TopLevel.
Variable d : GPDAG.
Hypothesis Hbuilt : dag_built d.
Hypothesis Hsized : tables_sized d.
Hypothesis Hfit : (6 * N.of_nat (length (dag_nodes_ d)) ≤ size_t_modulus)%N.
Variables IsRoot IsLeaf : GPDAGNode → bool.
Variable update :
  nat → nat → bool → GPOperationVector → option GPOperationVector.
Variable extra : Bitset → GPOperationVector → GPOperationVector.
Variable tail : nat → nat → GPOperationVector.
Hypothesis Hupd : ∀ n nd rot c,
  dag_nodes_ d !! n = Some nd → c ∈ Node.Leafward rot nd →
  ∃ delta, emits (update n c rot) delta ∧ quiet delta ∧ delta ≠ [].
Hypothesis Hext : ∀ s ops, extra s ops = ops ++ extra s [].
Hypothesis Hextq : ∀ s, quiet (extra s []).
Hypothesis Htail : ∀ i x m, m < length (dag_nodes_ d) →
  occurrences (Zero (plv d P_HAT m)) (tail i x) = 0.

Local Abbreviation U := (λ n c rot, emitted (update n c rot)).
Local Abbreviation E := (λ s, extra s []).
Local Abbreviation top := (top_post IsLeaf U E d).
Local Abbreviation root := (Schedule_root IsRoot IsLeaf update extra tail).

Lemma Schedule_root_loop fuel :
  length (dag_nodes_ d) ≤ fuel →
  ∃ vis ops,
    foldM (root fuel d) (indexed_rootsplits d) (∅, []) = Some (vis, ops)
    ∧ top (tails_IML tail d (indexed_rootsplits d)) vis ops
    ∧ (∀ r, r ∈ rootsplits_ d → root_index d r ∈ vis)
    ∧ ∀ i r nd, rootsplits_ d !! i = Some r →
        dag_nodes_ d !! root_index d r = Some nd → IsLeaf nd = false →
        occurs_in
          ([Multiply (plv d P (root_index d r))
              (plv d P_HAT (root_index d r))
              (plv d P_HAT_TILDE (root_index d r))]
           ++ tail i (root_index d r)) ops.
Proof.
  intros Hfuel.
  pose (Inv := λ (pre : list Bitset) (st : gset nat * GPOperationVector),
          top (tails_IML tail d (imap (λ i r, (i, r)) pre)) st.1 st.2
          ∧ (∀ x, x ∈ st.1 →
               ∃ k' r', k' < length pre ∧ rootsplits_ d !! k' = Some r'
                        ∧ x ≤ root_index d r')
          ∧ (∀ r, r ∈ pre → root_index d r ∈ st.1)
          ∧ ∀ i r nd, pre !! i = Some r →
              dag_nodes_ d !! root_index d r = Some nd →
              IsLeaf nd = false →
              occurs_in
                ([Multiply (plv d P (root_index d r))
                    (plv d P_HAT (root_index d r))
                    (plv d P_HAT_TILDE (root_index d r))]
                 ++ tail i (root_index d r)) st.2).
  assert (G : ∀ post pre st, rootsplits_ d = pre ++ post → Inv pre st →
            ∃ st', foldM (root fuel d)
                     (imap (λ i r, (length pre + i, r)) post) st = Some st'
                   ∧ Inv (rootsplits_ d) st').
  { induction post as [|r post IH]; intros pre st Eq Hi.
    { exists st. split; [done |]. by rewrite Eq, app_nil_r. }
    destruct st as [vis ops]. destruct Hi as (Htop & Hvis & Hroots & Hadj).
    assert (Hr : rootsplits_ d !! length pre = Some r).
    { rewrite Eq. by rewrite lookup_app_r, Nat.sub_diag by lia. }
    destruct (built_root d Hbuilt r) as (Hidx & HT & Hsome).
    { by eapply list_elem_of_lookup_2. }
    simpl in Htop, Hvis, Hroots, Hadj.
    rewrite imap_cons. cbn [foldM].
    change (root fuel d (vis, ops) (length pre + 0, r))
      with (subsplit_to_index_ d !! (r +b ~b r) ≫= λ root_idx,
            Schedule_gen IsRoot IsLeaf update extra fuel d root_idx (vis, ops)
            ≫= λ st0, Some (st0.1, st0.2 ++ tail (length pre + 0) root_idx)).
    rewrite Hidx. cbn [mbind option_bind].
    destruct (Schedule_gen_spec d Hbuilt Hsized Hfit IsRoot IsLeaf update
                extra Hupd Hext Hextq fuel (root_index d r) vis ops)
      as (vis' & delta & Hgen & Hin & Hpost); [| | | rewrite Hgen].
    - apply lookup_lt_is_Some_1 in Hsome. lia.
    - by apply lookup_lt_is_Some_1.
    - intros Hv. destruct (Hvis _ Hv) as (k' & r' & Hk' & Hr' & Hle).
      pose proof (built_roots_ordered d Hbuilt k' (length pre) r' r Hk'
                    Hr' Hr). lia.
    - cbn [mbind option_bind fst snd].
      destruct (IH (pre ++ [r])
                  (vis', (ops ++ delta)
                         ++ tail (length pre + 0) (root_index d r)))
        as (st' & Hrun & Hi').
      + by rewrite <- app_assoc.
      + split_and!; cbn [fst snd].
        * rewrite imap_app. unfold tails_IML. rewrite flat_map_app.
          simpl. rewrite app_nil_r, Nat.add_0_r, <- app_assoc.
          eapply top_post_step; [exact Htop | exact Hpost | apply Htail].
        * intros x Hx. rewrite length_app. simpl.
          destruct Hpost as (_ & Hb & _).
          destruct (Hb x Hx) as [H|H].
          -- destruct (Hvis x H) as (k' & r' & ? & ? & ?).
             exists k', r'. split_and!; (done || lia).
          -- exists (length pre), r. split_and!; (done || lia).
        * intros r' Hr'. apply elem_of_app in Hr' as [Hr'|Hr'].
          -- destruct Hpost as (Hsub & _). apply Hsub. by apply Hroots.
          -- apply list_elem_of_singleton in Hr' as ->. done.
        * intros i r' nd Hi Hnd Hleaf.
          destruct (decide (i < length pre)) as [Hlt|Hge].
          -- rewrite lookup_app_l in Hi by done.
             rewrite <- app_assoc. apply occurs_in_app_r. by eapply Hadj.
          -- rewrite lookup_app_r in Hi by lia.
             destruct (i - length pre) as [|k] eqn:Ek; [|done].
             simplify_eq/=. assert (i = length pre) as -> by lia.
             destruct (Schedule_gen_last _ _ _ _ _ _ _ _ _ _ Hgen Hnd Hleaf)
               as [o Ho]. simpl in Ho. rewrite Ho, Nat.add_0_r.
             exists o, []. by rewrite app_nil_r, <- app_assoc.
      + exists st'. split; [|done]. rewrite <- Hrun. f_equal.
        apply imap_ext. intros i y _. simpl. f_equal.
        rewrite length_app. simpl. lia. }
  destruct (G (rootsplits_ d) [] (∅, [])) as ([vis ops] & Hrun & Hi).
  - done.
  - split_and!; cbn [fst snd].
    + split_and!; [set_solver | | set_solver | done].
      intros m _. rewrite decide_False by set_solver. done.
    + set_solver.
    + set_solver.
    + intros i r nd Hi. by rewrite lookup_nil in Hi.
  - exists vis, ops. destruct Hi as (Htop & _ & Hroots & Hadj).
    split_and!; [exact Hrun | exact Htop | exact Hroots | exact Hadj].
Qed.

(** With the non-fake nodes scheduled as inner nodes, the loop reaches
    all of them. *)
Lemma top_post_covers imls vis ops :
  (∀ i n, dag_nodes_ d !! i = Some n → taxon_count_ d ≤ i →
     IsLeaf n = false) →
  top imls vis ops →
  (∀ r, r ∈ rootsplits_ d → root_index d r ∈ vis) →
  ∀ x, taxon_count_ d ≤ x < length (dag_nodes_ d) → x ∈ vis.
Proof.
  intros Hleaf (Hclosed & _) Hroots.
  assert (G : ∀ k x, length (dag_nodes_ d) - x ≤ k →
            taxon_count_ d ≤ x < length (dag_nodes_ d) → x ∈ vis).
  { induction k as [|k IH]; intros x Hk Hx; [lia |].
    destruct (lookup_lt_is_Some_2 (dag_nodes_ d) x) as [n Hn]; [lia |].
    destruct (built_descend d Hbuilt x n Hn) as [Hroot|Hchild]; [lia | |].
    - destruct Hroot as (r & Hr & Eq).
      assert (root_index d r = x) as <-; [|by apply Hroots].
      apply (root_index_lookup d r x (built_store d Hbuilt)).
      rewrite <- Eq. by apply built_subsplit.
    - destruct Hchild as (p & pn & rot & Hpn & Hin).
      destruct (built_leafward d Hbuilt Hsized p pn rot x Hpn Hin)
        as (HT & Hlt & _).
      pose proof (lookup_lt_Some _ _ _ Hpn) as Hp.
      apply (Hclosed p pn rot x); [apply IH; lia | done | | done].
      by eapply Hleaf. }
  intros x Hx. by apply (G (length (dag_nodes_ d) - x)).
Qed.

End TopLevel.

(** * Further properties of the construction *)

(** X1: in a constructed DAG every node sits at the position of its id,
    [subsplit_to_index_] sends the subsplit of each node to that id, and
    every entry of [subsplit_to_index_] is the subsplit of the node it
    names: the map is the inverse of the node vector. *)
Theorem subsplit_to_index_inverse (ChildSubsplit : Bitset → Bitset → Bitset)
    (fuel : nat) (tc : RootedTreeCollection) (rank : Bitset → nat)
    (d : GPDAG)
    (Hranked : harvest_ranked ChildSubsplit tc rank)
    (Hsized : harvest_sized ChildSubsplit tc)
    (Hd : GPDAG_of ChildSubsplit fuel tc = Some d) :
  (∀ i n, dag_nodes_ d !! i = Some n →
     Node.Id n = i ∧ subsplit_to_index_ d !! Node.GetBitset n = Some i)
  ∧ (∀ s i, subsplit_to_index_ d !! s = Some i →
       ∃ n, dag_nodes_ d !! i = Some n ∧ Node.GetBitset n = s)
  ∧ (∀ i j n m, dag_nodes_ d !! i = Some n → dag_nodes_ d !! j = Some m →
       Node.GetBitset n = Node.GetBitset m → i = j).
Proof.
  destruct (GPDAG_of_built _ _ _ _ _ Hranked Hsized Hd) as (Hb & _).
  pose proof (built_store d Hb) as [Hid Hinv]. split_and!.
  - intros i n Hn. split; [by apply Hid |]. apply Hinv.
    by apply built_subsplit.
  - intros s i Hs. apply Hinv in Hs. unfold subsplits in Hs.
    rewrite list_lookup_fmap in Hs.
    apply fmap_Some in Hs as (n & Hn & ->). eauto.
  - intros i j n m Hn Hm E.
    apply (store_ok_unique d i j (subsplit_ n)); [done | |].
    + by apply built_subsplit.
    + unfold Node.GetBitset in E. rewrite E. by apply built_subsplit.
Qed.

Lemma subsplit_to_index_inverse_witness :
  let d := Examples.dag_of Examples.one_tree in
  harvest_ranked Examples.ChildSubsplit Examples.one_tree popcount
  ∧ harvest_sized Examples.ChildSubsplit Examples.one_tree
  ∧ GPDAG_of Examples.ChildSubsplit 16 Examples.one_tree = Some d
  ∧ ∀ s i, subsplit_to_index_ d !! s = Some i →
      ∃ n, dag_nodes_ d !! i = Some n ∧ Node.GetBitset n = s.
Proof.
  intros d.
  split_and!; [apply one_tree_harvest | apply one_tree_harvest
               | exact dag_of_one_tree |].
  exact (proj1 (proj2 (subsplit_to_index_inverse Examples.ChildSubsplit 16
                         Examples.one_tree popcount d
                         (proj1 one_tree_harvest) (proj2 one_tree_harvest)
                         dag_of_one_tree))).
Defined.

(** X2: the edges of a constructed DAG are recorded on both ends: [c] is
    in the leafward list of a side of node [p] exactly when [p] is in the
    rootward list of the same side of node [c]; and both ends of an edge
    are nodes of the DAG. *)
Theorem edges_recorded_on_both_ends
    (ChildSubsplit : Bitset → Bitset → Bitset)
    (fuel : nat) (tc : RootedTreeCollection) (rank : Bitset → nat)
    (d : GPDAG)
    (Hranked : harvest_ranked ChildSubsplit tc rank)
    (Hsized : harvest_sized ChildSubsplit tc)
    (Hd : GPDAG_of ChildSubsplit fuel tc = Some d) :
  (∀ p c n cn rot, dag_nodes_ d !! p = Some n → dag_nodes_ d !! c = Some cn →
     c ∈ Node.Leafward rot n ↔ p ∈ Node.Rootward rot cn)
  ∧ (∀ p n rot c, dag_nodes_ d !! p = Some n → c ∈ Node.Leafward rot n →
       is_Some (dag_nodes_ d !! c))
  ∧ (∀ c cn rot p, dag_nodes_ d !! c = Some cn → p ∈ Node.Rootward rot cn →
       is_Some (dag_nodes_ d !! p)).
Proof.
  destruct (GPDAG_of_built _ _ _ _ _ Hranked Hsized Hd)
    as (Hb & _ & Hsz & _).
  split_and!.
  - intros p c n cn rot Hn Hcn. split.
    + intros Hc.
      destruct (built_leafward d Hb Hsz p n rot c Hn Hc)
        as (_ & _ & cn' & Hcn' & Hp & _). by simplify_eq.
    + intros Hp.
      destruct (built_rootward d Hb Hsz c cn rot p Hcn Hp)
        as (_ & _ & n' & Hn' & Hc & _). by simplify_eq.
  - intros p n rot c Hn Hc.
    destruct (built_leafward d Hb Hsz p n rot c Hn Hc)
      as (_ & _ & cn & Hcn & _). eauto.
  - intros c cn rot p Hcn Hp.
    destruct (built_rootward d Hb Hsz c cn rot p Hcn Hp)
      as (_ & _ & n & Hn & _). eauto.
Qed.

Lemma edges_recorded_on_both_ends_witness :
  let d := Examples.dag_of Examples.one_tree in
  harvest_ranked Examples.ChildSubsplit Examples.one_tree popcount
  ∧ harvest_sized Examples.ChildSubsplit Examples.one_tree
  ∧ GPDAG_of Examples.ChildSubsplit 16 Examples.one_tree = Some d
  ∧ ∀ p n rot c, dag_nodes_ d !! p = Some n → c ∈ Node.Leafward rot n →
      is_Some (dag_nodes_ d !! c).
Proof.
  intros d.
  split_and!; [apply one_tree_harvest | apply one_tree_harvest
               | exact dag_of_one_tree |].
  exact (proj1 (proj2 (edges_recorded_on_both_ends Examples.ChildSubsplit 16
                         Examples.one_tree popcount d
                         (proj1 one_tree_harvest) (proj2 one_tree_harvest)
                         dag_of_one_tree))).
Defined.

(** X3: in a constructed DAG the fake leaves (ids below the taxon count)
    have no leafward edges, and a node never has a rootward edge to a fake
    leaf: every parent is a non-fake node with a larger id. *)
Theorem fake_leaves_are_leaves (ChildSubsplit : Bitset → Bitset → Bitset)
    (fuel : nat) (tc : RootedTreeCollection) (rank : Bitset → nat)
    (d : GPDAG)
    (Hranked : harvest_ranked ChildSubsplit tc rank)
    (Hsized : harvest_sized ChildSubsplit tc)
    (Hd : GPDAG_of ChildSubsplit fuel tc = Some d) :
  (∀ i n, dag_nodes_ d !! i = Some n → i < TaxonCount tc →
     Node.GetLeafwardSorted n = [] ∧ Node.GetLeafwardRotated n = [])
  ∧ (∀ c cn rot p, dag_nodes_ d !! c = Some cn → p ∈ Node.Rootward rot cn →
       TaxonCount tc ≤ p ∧ c < p).
Proof.
  destruct (GPDAG_of_built _ _ _ _ _ Hranked Hsized Hd)
    as (Hb & _ & Hsz & HT & _).
  rewrite <- HT. split.
  - intros i n Hn Hi.
    assert (H : ∀ rot, Node.Leafward rot n = []).
    { intros rot. destruct (Node.Leafward rot n) as [|c l] eqn:E; [done |].
      destruct (leafward_decreasing d Hb Hsz i n rot c Hn) as [? _];
        [rewrite E; set_solver | lia]. }
    split; [apply (H false) | apply (H true)].
  - intros c cn rot p Hcn Hp.
    destruct (built_rootward d Hb Hsz c cn rot p Hcn Hp) as (? & ? & _).
    done.
Qed.

Lemma fake_leaves_are_leaves_witness :
  let d := Examples.dag_of Examples.one_tree in
  harvest_ranked Examples.ChildSubsplit Examples.one_tree popcount
  ∧ harvest_sized Examples.ChildSubsplit Examples.one_tree
  ∧ GPDAG_of Examples.ChildSubsplit 16 Examples.one_tree = Some d
  ∧ ∀ i n, dag_nodes_ d !! i = Some n → i < 3 →
      Node.GetLeafwardSorted n = [] ∧ Node.GetLeafwardRotated n = [].
Proof.
  intros d.
  split_and!; [apply one_tree_harvest | apply one_tree_harvest
               | exact dag_of_one_tree |].
  exact (proj1 (fake_leaves_are_leaves Examples.ChildSubsplit 16
                  Examples.one_tree popcount d
                  (proj1 one_tree_harvest) (proj2 one_tree_harvest)
                  dag_of_one_tree)).
Defined.

(** ** Further properties of the PCSP indexer *)

Lemma elem_of_drop_lookup {A : Type} (l : list A) (k : nat) (x : A) :
  x ∈ drop k l ↔ ∃ i, k ≤ i ∧ l !! i = Some x.
Proof.
  rewrite list_elem_of_lookup. split.
  - intros [i Hi]. rewrite lookup_drop in Hi. exists (k + i). split; [lia | done].
  - intros (i & Hk & Hi). exists (i - k). rewrite lookup_drop.
    by replace (k + (i - k)) with i by lia.
Qed.

(** X4: [BuildPCSPIndexer] gives the root subsplit of the rootsplit at
    position [i] of [rootsplits_] the index [i]; the indices below the
    number of rootsplits belong to root subsplits only, and the PCSP of
    every leafward edge has an index at or above that number. *)
Theorem rootsplits_indexed_first (ChildSubsplit : Bitset → Bitset → Bitset)
    (fuel : nat) (tc : RootedTreeCollection) (d : GPDAG)
    (Hd : GPDAG_of ChildSubsplit fuel tc = Some d) :
  (∀ i r, rootsplits_ d !! i = Some r →
     gpcsp_indexer_ d !! (r +b ~b r) = Some i)
  ∧ (∀ k j, gpcsp_indexer_ d !! k = Some j → j < length (rootsplits_ d) →
       ∃ r, rootsplits_ d !! j = Some r ∧ k = r +b ~b r)
  ∧ (∀ k j, is_edge_key d k → gpcsp_indexer_ d !! k = Some j →
       length (rootsplits_ d) ≤ j).
Proof.
  apply GPDAG_of_indexer in Hd as (Hn & _).
  assert (Hlen : length (root_keys d) = length (rootsplits_ d))
    by (unfold root_keys; by rewrite length_fmap).
  split_and!.
  - intros i r Hr. apply Hn. unfold indexer_keys.
    rewrite lookup_app_l by (rewrite Hlen; by eapply lookup_lt_Some).
    unfold root_keys. by rewrite list_lookup_fmap, Hr.
  - intros k j Hk Hj. apply Hn in Hk. unfold indexer_keys in Hk.
    rewrite lookup_app_l in Hk by lia. unfold root_keys in Hk.
    rewrite list_lookup_fmap in Hk.
    apply fmap_Some in Hk as (r & Hr & ->). eauto.
  - intros k j Hk Hj. apply elem_of_edge_keys in Hk.
    apply list_elem_of_lookup in Hk as [i Hi].
    assert (Hk : gpcsp_indexer_ d !! k = Some (length (root_keys d) + i)).
    { apply Hn. unfold indexer_keys.
      rewrite lookup_app_r by lia.
      by replace (length (root_keys d) + i - length (root_keys d)) with i
        by lia. }
    rewrite Hk in Hj. simplify_eq. lia.
Qed.

Lemma rootsplits_indexed_first_witness :
  let d := Examples.dag_of Examples.two_trees in
  GPDAG_of Examples.ChildSubsplit 16 Examples.two_trees = Some d
  ∧ ∀ i r, rootsplits_ d !! i = Some r →
      gpcsp_indexer_ d !! (r +b ~b r) = Some i.
Proof.
  intros d. split; [exact dag_of_two_trees |].
  exact (proj1 (rootsplits_indexed_first Examples.ChildSubsplit 16
                  Examples.two_trees d dag_of_two_trees)).
Defined.

(** X5: [BuildPCSPIndexer] records for each side of a non-fake node that
    has children the range [(a, a + k)] of its [k] children, and the PCSP
    of the child at position [j] of that side has index [a + j]; every
    range in [subsplit_to_range_] is the range of such a side. *)
Theorem subsplit_to_range_blocks (ChildSubsplit : Bitset → Bitset → Bitset)
    (fuel : nat) (tc : RootedTreeCollection) (d : GPDAG)
    (Hd : GPDAG_of ChildSubsplit fuel tc = Some d) :
  (∀ p n rot, taxon_count_ d ≤ p → dag_nodes_ d !! p = Some n →
     Node.Leafward rot n ≠ [] →
     ∃ a, subsplit_to_range_ d !! Node.GetBitsetRot n rot
          = Some (a, a + length (Node.Leafward rot n))
          ∧ ∀ j c cn, Node.Leafward rot n !! j = Some c →
              dag_nodes_ d !! c = Some cn →
              gpcsp_indexer_ d
                !! (Node.GetBitsetRot n rot +b Node.GetBitset cn)
              = Some (a + j))
  ∧ (∀ s a b, subsplit_to_range_ d !! s = Some (a, b) →
       ∃ p n rot, taxon_count_ d ≤ p ∧ dag_nodes_ d !! p = Some n
                  ∧ s = Node.GetBitsetRot n rot
                  ∧ Node.Leafward rot n ≠ []
                  ∧ b = a + length (Node.Leafward rot n)).
Proof.
  apply GPDAG_of_indexer in Hd as (_ & [Hr1 Hr2] & _). split.
  - intros p n rot Hp Hn Hne. apply Hr1; [|done].
    apply elem_of_drop_lookup. eauto.
  - intros s a b Hs. destruct (Hr2 s a b Hs) as (n & rot & Hn & ? & ? & ?).
    apply elem_of_drop_lookup in Hn as (p & ? & ?). eauto 10.
Qed.

Lemma subsplit_to_range_blocks_witness :
  let d := Examples.dag_of Examples.shared_root in
  GPDAG_of Examples.ChildSubsplit 16 Examples.shared_root = Some d
  ∧ ∀ s a b, subsplit_to_range_ d !! s = Some (a, b) →
      ∃ p n rot, taxon_count_ d ≤ p ∧ dag_nodes_ d !! p = Some n
                 ∧ s = Node.GetBitsetRot n rot
                 ∧ Node.Leafward rot n ≠ []
                 ∧ b = a + length (Node.Leafward rot n).
Proof.
  intros d. split; [exact dag_of_shared_root |].
  exact (proj2 (subsplit_to_range_blocks Examples.ChildSubsplit 16
                  Examples.shared_root d dag_of_shared_root)).
Defined.

(** ** Construction from an empty collection *)

(** X6: the constructor is fatal on a collection without rootsplits:
    [BuildNodes] then creates the fake leaves only, and the assertion of
    [IterateOverRealNodes] (there must be a node besides the fake leaves)
    fails in [BuildPCSPIndexer]. *)
Theorem GPDAG_of_no_rootsplits (ChildSubsplit : Bitset → Bitset → Bitset)
    (fuel : nat) (tc : RootedTreeCollection)
    (Hempty : RootsplitCounterOf tc = []) :
  GPDAG_of ChildSubsplit fuel tc = None.
Proof.
  unfold GPDAG_of.
  destruct (ProcessTrees ChildSubsplit tc empty_dag) as [d1|] eqn:E1;
    [simpl | done].
  destruct (ProcessTrees_spec _ _ _ E1) as (HT & Hrs & Hn & Hi & _).
  rewrite Hempty in Hrs. simpl in Hrs.
  unfold BuildNodes.
  destruct (foldM BuildNodes_fake _ d1) as [df|] eqn:Ef; [simpl | done].
  destruct (BuildNodes_fakes _ _ Hn Hi Ef) as (_ & Hsame & Hnodes).
  rewrite (same_tables_rootsplits _ _ Hsame), Hrs. simpl.
  assert (Hlen : length (dag_nodes_ df) = taxon_count_ df).
  { rewrite Hnodes, length_fmap, length_seq.
    by rewrite (same_tables_taxon _ _ Hsame). }
  unfold BuildEdges. rewrite Hlen, Nat.sub_diag. simpl.
  unfold BuildPCSPIndexer.
  rewrite (same_tables_rootsplits _ _ Hsame), Hrs. simpl.
  unfold IterateOverRealNodes. rewrite Hlen.
  by rewrite decide_False by lia.
Qed.

Lemma GPDAG_of_no_rootsplits_witness :
  RootsplitCounterOf (MkRootedTreeCollection 3 [] []) = []
  ∧ GPDAG_of Examples.ChildSubsplit 16 (MkRootedTreeCollection 3 [] [])
    = None.
Proof.
  split; [reflexivity |].
  exact (GPDAG_of_no_rootsplits Examples.ChildSubsplit 16
           (MkRootedTreeCollection 3 [] []) eq_refl).
Defined.

(** ** The harvested tables *)

Section Tables.
Variable ChildSubsplit : Bitset → Bitset → Bitset.

(** The later steps of the constructor leave what [ProcessTrees] wrote
    alone. *)
Lemma GPDAG_of_frame fuel tc d :
  GPDAG_of ChildSubsplit fuel tc = Some d →
  ∃ d0, ProcessTrees ChildSubsplit tc empty_dag = Some d0
        ∧ parent_to_range_ d = parent_to_range_ d0
        ∧ index_to_child_ d = index_to_child_ d0
        ∧ rootsplit_and_pcsp_count_ d = rootsplit_and_pcsp_count_ d0
        ∧ taxon_count_ d = taxon_count_ d0
        ∧ rootsplits_ d = rootsplits_ d0.
Proof.
  unfold GPDAG_of. intros H.
  destruct (ProcessTrees _ tc _) as [d0|] eqn:H0; simpl in H; [|done].
  destruct (BuildNodes fuel d0) as [d1|] eqn:H1; simpl in H; [|done].
  destruct (BuildEdges d1) as [d2|] eqn:H2; simpl in H; [|done].
  exists d0. split; [done |].
  pose proof (ProcessTrees_spec _ _ _ H0) as (_ & _ & _ & _ & Hi0 & Hr0 & _).
  apply BuildNodes_frame in H1. apply BuildEdges_frame in H2.
  apply BuildPCSPIndexer_spec in H as [E3 _]; cycle 1.
  { rewrite H2, H1. by simpl. }
  { rewrite H2, H1. by simpl. }
  rewrite E3, H2, H1. by simpl.
Qed.

Lemma ProcessTrees_children_exact parent cc itc index itc' index' :
  (∀ k, index ≤ k → itc !! k = None) →
  foldM (ProcessTrees_children ChildSubsplit parent) cc (itc, index)
  = Some (itc', index') →
  index' = index + length cc
  ∧ (∀ k, index' ≤ k → itc' !! k = None)
  ∧ (∀ k, k < index → itc' !! k = itc !! k)
  ∧ ∀ j child, cc !! j = Some child →
      itc' !! (index + j) = Some (ChildSubsplit parent child.1).
Proof.
  intros Hfree Hf.
  pose (Inv := λ (pre : list (Bitset * nat)) (st : gmap nat Bitset * nat),
          st.2 = index + length pre
          ∧ (∀ k, st.2 ≤ k → st.1 !! k = None)
          ∧ (∀ k, k < index → st.1 !! k = itc !! k)
          ∧ ∀ j child, pre !! j = Some child →
              st.1 !! (index + j) = Some (ChildSubsplit parent child.1)).
  apply (foldM_ind_prefix Inv) in Hf; [exact Hf | |].
  - unfold Inv; simpl. split_and!; [lia | done | done |].
    intros j child Hj. by rewrite lookup_nil in Hj.
  - clear Hf. intros pre x post [m i] [m2 i2] _ (E & Hn & Hold & Hnew) Hs.
    unfold ProcessTrees_children in Hs. simpl in *.
    destruct (SafeInsert m i _) as [m3|] eqn:Hins; simplify_eq/=.
    apply SafeInsert_Some in Hins as [_ ->].
    unfold Inv; simpl. rewrite length_app; simpl. split_and!.
    + lia.
    + intros k Hk. rewrite lookup_insert_ne by lia. apply Hn. lia.
    + intros k Hk. rewrite lookup_insert_ne by lia. by apply Hold.
    + intros j child Hj.
      destruct (decide (j = length pre)) as [->|Hne].
      * rewrite lookup_insert_eq.
        rewrite lookup_app_r, Nat.sub_diag in Hj by lia. by simplify_eq/=.
      * assert (j < length pre).
        { apply lookup_lt_Some in Hj. rewrite length_app in Hj.
          simpl in Hj. lia. }
        rewrite lookup_insert_ne by lia. apply Hnew.
        by rewrite lookup_app_l in Hj.
Qed.

Lemma ProcessTrees_exact tc d :
  ProcessTrees ChildSubsplit tc empty_dag = Some d →
  rootsplit_and_pcsp_count_ d
  = length (RootsplitCounterOf tc)
    + sum_list_with (λ e, length e.2) (PCSSCounterOf tc)
  ∧ (∀ parent cc, (parent, cc) ∈ PCSSCounterOf tc →
       ∃ a, parent_to_range_ d !! parent = Some (a, a + length cc)
            ∧ length (RootsplitCounterOf tc) ≤ a
            ∧ a + length cc ≤ rootsplit_and_pcsp_count_ d
            ∧ ∀ j child, cc !! j = Some child →
                index_to_child_ d !! (a + j)
                = Some (ChildSubsplit parent child.1))
  ∧ (∀ s, is_Some (parent_to_range_ d !! s) → s ∈ (PCSSCounterOf tc).*1).
Proof.
  unfold ProcessTrees. rewrite ProcessTrees_rootsplits. simpl.
  destruct (foldM _ _ _) as [[ptr [itc index]]|] eqn:Hf; simpl; [|done].
  intros [= <-]. simpl.
  set (R := length (RootsplitCounterOf tc)) in *.
  pose (Inv := λ (pre : list (Bitset * list (Bitset * nat)))
                 (st : gmap Bitset (nat * nat) * (gmap nat Bitset * nat)),
          st.2.2 = R + sum_list_with (λ e, length e.2) pre
          ∧ (∀ k, st.2.2 ≤ k → st.2.1 !! k = None)
          ∧ (∀ parent cc, (parent, cc) ∈ pre →
               ∃ a, st.1 !! parent = Some (a, a + length cc)
                    ∧ R ≤ a ∧ a + length cc ≤ st.2.2
                    ∧ ∀ j child, cc !! j = Some child →
                        st.2.1 !! (a + j)
                        = Some (ChildSubsplit parent child.1))
          ∧ (∀ s, is_Some (st.1 !! s) → s ∈ pre.*1)).
  apply (foldM_ind_prefix Inv) in Hf.
  - destruct Hf as (E & _ & Hp & Hs). simpl in *. split_and!; [done | | done].
    intros parent cc Hin. destruct (Hp parent cc Hin) as (a & ? & ? & ? & ?).
    exists a. split_and!; (done || lia).
  - unfold Inv, empty_dag; simpl. split_and!.
    + lia.
    + intros k _. apply lookup_empty.
    + intros parent cc Hin. by apply elem_of_nil in Hin.
    + intros s [x Hx]. by rewrite lookup_empty in Hx.
  - clear Hf. intros pre [parent cc] post [p1 [i1 n1]] [p2 [i2 n2]] _
      (E & Hfree & Hp & Hs) Hstep.
    unfold ProcessTrees_parent in Hstep. simpl in *.
    destruct (SafeInsert p1 parent _) as [p3|] eqn:Hins; simplify_eq/=.
    apply SafeInsert_Some in Hins as [Hnone ->].
    destruct (foldM _ cc _) as [[i3 n3]|] eqn:Hc; simplify_eq/=.
    apply ProcessTrees_children_exact in Hc
      as (-> & Hfree' & Hold & Hnew); [|done].
    unfold Inv; simpl. rewrite sum_list_with_app; simpl. split_and!.
    + lia.
    + done.
    + intros parent' cc' Hin. apply elem_of_app in Hin as [Hin|Hin].
      * destruct (Hp parent' cc' Hin) as (a & Ha & HR & Hle & Hch).
        assert (parent' ≠ parent) by (intros ->; congruence).
        exists a. rewrite lookup_insert_ne by done.
        split_and!; [done | done | lia |].
        intros j child Hj. rewrite Hold; [by apply Hch |].
        apply lookup_lt_Some in Hj. lia.
      * apply list_elem_of_singleton in Hin. simplify_eq.
        exists (R + sum_list_with (λ e, length e.2) pre).
        rewrite lookup_insert_eq. split_and!; [done | lia | lia | done].
    + intros s Hsome. rewrite fmap_app. apply elem_of_app.
      destruct (decide (s = parent)) as [->|Hne].
      * right. simpl. by apply list_elem_of_singleton.
      * left. rewrite lookup_insert_ne in Hsome by done. by apply Hs.
Qed.

Lemma mapM_seq_lookup {A : Type} (m : gmap nat A) (a : nat) (l : list A) :
  (∀ j x, l !! j = Some x → m !! (a + j) = Some x) →
  mapM (λ idx, m !! idx) (seq a (length l)) = Some l.
Proof.
  intros H. apply mapM_Some. apply Forall2_same_length_lookup_2.
  - by rewrite length_seq.
  - intros j idx x Hidx Hx. apply lookup_seq in Hidx as [-> _].
    by apply H.
Qed.

End Tables.

(** X7: the children tables written by [ProcessTrees] read back through
    [GetChildrenSubsplits]: for a harvested parent the answer is the
    sequence of the child subsplits of its counter, in the order of the
    counter, with or without fake subsplits; a subsplit that is no
    harvested parent has no children unless fake ones are asked for. *)
Theorem GetChildrenSubsplits_harvest
    (ChildSubsplit : Bitset → Bitset → Bitset)
    (fuel : nat) (tc : RootedTreeCollection) (d : GPDAG)
    (Hd : GPDAG_of ChildSubsplit fuel tc = Some d) :
  (∀ parent cc b, (parent, cc) ∈ PCSSCounterOf tc →
     GetChildrenSubsplits d parent b
     = Some (ChildSubsplit parent <$> cc.*1))
  ∧ (∀ s, s ∉ (PCSSCounterOf tc).*1 →
       GetChildrenSubsplits d s false = Some []).
Proof.
  destruct (GPDAG_of_frame _ _ _ _ Hd) as (d0 & H0 & Hp & Hi & _).
  destruct (ProcessTrees_exact _ _ _ H0) as (_ & Hin & Hout).
  split.
  - intros parent cc b Hcc. unfold GetChildrenSubsplits.
    destruct (Hin parent cc Hcc) as (a & Ha & _ & _ & Hch).
    rewrite Hp, Ha, Hi.
    replace (a + length cc - a) with (length (ChildSubsplit parent <$> cc.*1))
      by (rewrite !length_fmap; lia).
    apply mapM_seq_lookup. intros j x Hj.
    rewrite !list_lookup_fmap in Hj.
    destruct (cc !! j) as [child|] eqn:Hcj; simplify_eq/=.
    by apply Hch.
  - intros s Hs. unfold GetChildrenSubsplits. rewrite Hp.
    destruct (parent_to_range_ d0 !! s) as [[a b]|] eqn:E; [|done].
    exfalso. apply Hs, Hout. eauto.
Qed.

Lemma GetChildrenSubsplits_harvest_witness :
  let d := Examples.dag_of Examples.shared_root in
  GPDAG_of Examples.ChildSubsplit 16 Examples.shared_root = Some d
  ∧ ∀ parent cc b, (parent, cc) ∈ PCSSCounterOf Examples.shared_root →
      GetChildrenSubsplits d parent b
      = Some (Examples.ChildSubsplit parent <$> cc.*1).
Proof.
  intros d. split; [exact dag_of_shared_root |].
  exact (proj1 (GetChildrenSubsplits_harvest Examples.ChildSubsplit 16
                  Examples.shared_root d dag_of_shared_root)).
Defined.

(** X8: [ProcessTrees] counts one parameter per rootsplit and one per
    harvested (parent, child) pair: in a constructed DAG
    [RootsplitAndPCSPCount] is the number of rootsplits plus the sizes of
    all child counters, and the range of every harvested parent lies
    between the number of rootsplits and that count. *)
Theorem RootsplitAndPCSPCount_harvest
    (ChildSubsplit : Bitset → Bitset → Bitset)
    (fuel : nat) (tc : RootedTreeCollection) (d : GPDAG)
    (Hd : GPDAG_of ChildSubsplit fuel tc = Some d) :
  RootsplitAndPCSPCount d
  = length (RootsplitCounterOf tc)
    + sum_list_with (λ e, length e.2) (PCSSCounterOf tc)
  ∧ ∀ parent cc, (parent, cc) ∈ PCSSCounterOf tc →
      ∃ a, parent_to_range_ d !! parent = Some (a, a + length cc)
           ∧ length (RootsplitCounterOf tc) ≤ a
           ∧ a + length cc ≤ RootsplitAndPCSPCount d.
Proof.
  destruct (GPDAG_of_frame _ _ _ _ Hd) as (d0 & H0 & Hp & Hi & Hc & _).
  destruct (ProcessTrees_exact _ _ _ H0) as (Hcount & Hin & _).
  unfold RootsplitAndPCSPCount. rewrite Hc, Hp. split; [done |].
  intros parent cc Hcc. destruct (Hin parent cc Hcc) as (a & ? & ? & ? & _).
  eauto.
Qed.

Lemma RootsplitAndPCSPCount_harvest_witness :
  let d := Examples.dag_of Examples.shared_root in
  GPDAG_of Examples.ChildSubsplit 16 Examples.shared_root = Some d
  ∧ RootsplitAndPCSPCount d = 1 + 4.
Proof.
  intros d. split; [exact dag_of_shared_root |].
  exact (proj1 (RootsplitAndPCSPCount_harvest Examples.ChildSubsplit 16
                  Examples.shared_root d dag_of_shared_root)).
Defined.

(** ** The rootward traversal *)

Section RootwardTraversal.
Variable d : GPDAG.
Hypothesis Hbuilt : dag_built d.
Hypothesis Hsized : tables_sized d.

Local Abbreviation nodes := (dag_nodes_ d).
Local Abbreviation LS := Node.GetLeafwardSorted.
Local Abbreviation LR := Node.GetLeafwardRotated.

(** The loop of [RootwardPassTraversal] over the rootsplits: no root has
    been visited when its turn comes, since everything visited so far is
    at or below an earlier root. *)
Lemma RootwardPassTraversal_loop fuel :
  length nodes ≤ fuel →
  ∃ st, foldM (λ st rootsplit,
                 root_idx ← subsplit_to_index_ d
                              !! (rootsplit +b ~b rootsplit);
                 LeafwardDepthFirst fuel nodes root_idx st)
          (rootsplits_ d) ([], ∅) = Some st
        ∧ order_inv LS LR nodes st
        ∧ ∀ r, r ∈ rootsplits_ d → root_index d r ∈ st.1.
Proof.
  intros Hfuel.
  pose (Inv := λ (k : nat) (st : list nat * gset nat),
          order_inv LS LR nodes st
          ∧ (∀ a, a ∈ st.2 → a ∈ st.1)
          ∧ ∀ x, x ∈ st.2 →
              ∃ k' r', k' < k ∧ rootsplits_ d !! k' = Some r'
                       ∧ x ≤ root_index d r').
  assert (G : ∀ post pre st, rootsplits_ d = pre ++ post →
            Inv (length pre) st →
            ∃ st', foldM (λ st rootsplit,
                            root_idx ← subsplit_to_index_ d
                                         !! (rootsplit +b ~b rootsplit);
                            LeafwardDepthFirst fuel nodes root_idx st)
                     post st = Some st'
                   ∧ order_inv LS LR nodes st'
                   ∧ (∀ x, x ∈ st.1 → x ∈ st'.1)
                   ∧ ∀ r, r ∈ post → root_index d r ∈ st'.1).
  { induction post as [|r post IH]; intros pre st E Hi; simpl.
    { exists st. split_and!; [done | apply Hi | done |].
      intros r Hr. by apply elem_of_nil in Hr. }
    destruct Hi as (Hinv & Hnp & Hvis).
    assert (Hr : rootsplits_ d !! length pre = Some r).
    { rewrite E. by rewrite lookup_app_r, Nat.sub_diag by lia. }
    destruct (built_root d Hbuilt r) as (Hidx & HT & Hsome).
    { by eapply list_elem_of_lookup_2. }
    rewrite Hidx. simpl. rewrite LeafwardDepthFirst_DepthFirst.
    destruct (DepthFirst_spec _ _ nodes (λ x, x) (λ _, True)
                (leafward_adj d Hbuilt Hsized) fuel (root_index d r) st)
      as (st1 & -> & Hpost).
    - apply lookup_lt_is_Some_1 in Hsome. lia.
    - done.
    - intros Hin. destruct (Hvis _ Hin) as (k' & r' & Hk' & Hr' & Hle).
      pose proof (built_roots_ordered d Hbuilt k' (length pre) r' r Hk'
                    Hr' Hr). lia.
    - done.
    - intros a Ha Hna. by destruct Hna; apply Hnp.
    - simpl.
      destruct Hpost as (Hi1 & Hsub1 & (new & Enew) & Hvis1 & _ & Hp1).
      destruct (IH (pre ++ [r]) st1) as (st' & Hrun & Hi' & Hmono & Hroots).
      + by rewrite <- app_assoc.
      + rewrite length_app. simpl. split_and!; [done | |].
        * intros a Ha. destruct (decide (a ∈ st1.1)) as [|Hna]; [done |].
          destruct (Hp1 a Ha Hna) as [H1 H2]. by destruct H2; apply Hnp.
        * intros x Hx. destruct (Hvis1 x Hx) as [H|[->|[_ H]]].
          -- destruct (Hvis x H) as (k' & r' & ? & ? & ?).
             exists k', r'. split_and!; (done || lia).
          -- exists (length pre), r. split_and!; (done || lia).
          -- exists (length pre), r. split_and!; (done || lia).
      + exists st'. split_and!; [done | done | |].
        * intros x Hx. apply Hmono. rewrite Enew. set_solver.
        * intros r' Hr'. apply elem_of_cons in Hr' as [->|Hr'];
            [|by apply Hroots].
          apply Hmono. rewrite Enew. set_solver. }
  destruct (G (rootsplits_ d) [] ([], ∅)) as (st & Hrun & Hi & _ & Hroots).
  - done.
  - split_and!; simpl.
    + split_and!; simpl; [set_solver | apply NoDup_nil_2 |].
      intros j x n y Hj. by rewrite lookup_nil in Hj.
    + set_solver.
    + set_solver.
  - eauto.
Qed.


End RootwardTraversal.



(** ** The generators over the rootsplits *)

Lemma IML_of_nil_Forall ops :
  IML_of ops = [] → Forall (λ op, is_IML op = false) ops.
Proof.
  unfold IML_of. induction ops as [|x l IH]; intros H; [constructor |].
  destruct (is_IML x) eqn:Hx.
  - by rewrite filter_cons_True in H.
  - rewrite filter_cons_False in H by (by rewrite Hx). constructor; auto.
Qed.

Lemma flat_map_singleton_imap {A B : Type} (g : nat → A → B) (l : list A) :
  flat_map (λ e : nat * A, [g e.1 e.2]) (imap (λ i r, (i, r)) l)
  = imap g l.
Proof.
  assert (G : ∀ k, flat_map (λ e : nat * A, [g e.1 e.2])
                     (imap (λ i r, (k + i, r)) l)
                   = imap (λ i, g (k + i)) l).
  { induction l as [|x l IH]; intros k; [done |].
    rewrite !imap_cons. simpl. f_equal.
    rewrite <- (imap_ext (λ i, g (S k + i))), <- IH.
    - f_equal. apply imap_ext. intros i y _. simpl. f_equal. lia.
    - intros i y _. simpl. f_equal. lia. }
  apply (G 0).
Qed.

Lemma BranchLengthOptimization_roots IsRoot IsLeaf fuel d :
  BranchLengthOptimization IsRoot IsLeaf fuel d
  = foldM (Schedule_root IsRoot IsLeaf (OptimizeBranchLengthUpdatePHat d)
             (λ _ ops, ops) (λ _ _, []) fuel d)
      (indexed_rootsplits d) (∅, [])
    ≫= λ st, Some st.2.
Proof.
  unfold BranchLengthOptimization.
  rewrite <- (foldM_imap _ (rootsplits_ d) 0).
  change (imap (λ i x, (0 + i, x)) (rootsplits_ d))
    with (indexed_rootsplits d).
  f_equal. apply foldM_ext. intros e [v o] _. unfold Schedule_root.
  destruct (subsplit_to_index_ d !! _) as [x|]; [simpl | done].
  rewrite ScheduleBranchLengthOptimization_gen.
  destruct (Schedule_gen _ _ _ _ _ _ _ _) as [[v' o']|]; [simpl | done].
  by rewrite app_nil_r.
Qed.

Lemma SBNParameterOptimization_roots IsRoot IsLeaf fuel d :
  SBNParameterOptimization IsRoot IsLeaf fuel d
  = foldM (Schedule_root IsRoot IsLeaf (UpdatePHatComputeLikelihood d)
             (OptimizeSBNParameters d)
             (λ i x, [IncrementMarginalLikelihood (plv d R_HAT x) i
                        (plv d P x)])
             fuel d)
      (indexed_rootsplits d) (∅, [])
    ≫= λ st,
         Some (st.2 ++ [UpdateSBNProbabilities 0 (length (rootsplits_ d))]).
Proof.
  unfold SBNParameterOptimization. f_equal.
  apply foldM_ext. intros [i r] [v o] _.
  unfold Schedule_root, SBNParameterOptimization_step. cbn [fst snd].
  destruct (subsplit_to_index_ d !! _) as [x|]; [simpl | done].
  rewrite ScheduleSBNParametersOptimization_gen.
  destruct (Schedule_gen _ _ _ _ _ _ _ _) as [[v' o']|]; [simpl | done].
  by rewrite !GetPLVIndex_plv by (simpl; eauto).
Qed.

Lemma MarginalLikelihood_emits d :
  (∀ r, r ∈ rootsplits_ d →
     subsplit_to_index_ d !! (r +b ~b r) = Some (root_index d r)) →
  MarginalLikelihood d
  = Some (imap (λ i r, IncrementMarginalLikelihood
                         (plv d R_HAT (root_index d r)) i
                         (plv d P (root_index d r)))
            (rootsplits_ d)).
Proof.
  intros Hroots. unfold MarginalLikelihood.
  rewrite <- (flat_map_singleton_imap
                (λ i r, IncrementMarginalLikelihood
                          (plv d R_HAT (root_index d r)) i
                          (plv d P (root_index d r)))).
  change (imap (λ i r, (i, r)) (rootsplits_ d)) with (indexed_rootsplits d).
  apply (foldM_emit _ _ _ []). intros ops [i r] Hin.
  unfold indexed_rootsplits in Hin.
  apply elem_of_lookup_imap in Hin as (i' & r' & [= -> ->] & Hr).
  unfold MarginalLikelihood_step.
  rewrite (Hroots r') by (by eapply list_elem_of_lookup_2). simpl.
  by rewrite !GetPLVIndex_plv by (simpl; eauto).
Qed.

Lemma occurrences_IML_tail d i x m :
  occurrences (Zero (plv d P_HAT m))
    [IncrementMarginalLikelihood (plv d R_HAT x) i (plv d P x)] = 0.
Proof. unfold occurrences. by rewrite filter_cons_False. Qed.

(** The non-fake nodes of the examples have children on one side at
    least. *)
Lemma one_tree_inner i n :
  dag_nodes_ (Examples.dag_of Examples.one_tree) !! i = Some n →
  3 ≤ i → Examples.IsLeaf n = false.
Proof.
  intros Hn Hi. vm_compute in Hn.
  do 5 (destruct i as [|i]; [try lia; by simplify_eq |]). done.
Qed.

Lemma two_trees_inner i n :
  dag_nodes_ (Examples.dag_of Examples.two_trees) !! i = Some n →
  3 ≤ i → Examples.IsLeaf n = false.
Proof.
  intros Hn Hi. vm_compute in Hn.
  do 7 (destruct i as [|i]; [try lia; by simplify_eq |]). done.
Qed.

Lemma shared_root_inner i n :
  dag_nodes_ (Examples.dag_of Examples.shared_root) !! i = Some n →
  4 ≤ i → Examples.IsLeaf n = false.
Proof.
  intros Hn Hi. vm_compute in Hn.
  do 9 (destruct i as [|i]; [try lia; by simplify_eq |]). done.
Qed.

(** X10: with fuel for every node, [BranchLengthOptimization] on a
    constructed DAG whose non-fake nodes are not leaves completes, zeroes
    the [P_HAT] buffer of every non-fake node exactly once (so each of them
    is scheduled once, however many parents it has), leaves the [P_HAT]
    buffers of leaves alone, and emits no
    [IncrementMarginalLikelihood]. *)
Theorem BranchLengthOptimization_visits_once
    (ChildSubsplit : Bitset → Bitset → Bitset)
    (IsRoot IsLeaf : GPDAGNode → bool) (fuel fuel' : nat)
    (tc : RootedTreeCollection) (rank : Bitset → nat) (d : GPDAG)
    (Hranked : harvest_ranked ChildSubsplit tc rank)
    (Hsized : harvest_sized ChildSubsplit tc)
    (Hd : GPDAG_of ChildSubsplit fuel tc = Some d)
    (Hfit : (6 * N.of_nat (NodeCount d) ≤ size_t_modulus)%N)
    (Hinner : ∀ i n, dag_nodes_ d !! i = Some n → TaxonCount tc ≤ i →
                IsLeaf n = false)
    (Hfuel : NodeCount d ≤ fuel') :
  ∃ ops, BranchLengthOptimization IsRoot IsLeaf fuel' d = Some ops
    ∧ (∀ m, TaxonCount tc ≤ m < NodeCount d →
         occurrences (Zero (plv d P_HAT m)) ops = 1)
    ∧ (∀ m n, dag_nodes_ d !! m = Some n → IsLeaf n = true →
         occurrences (Zero (plv d P_HAT m)) ops = 0)
    ∧ Forall (λ op, is_IML op = false) ops.
Proof.
  destruct (GPDAG_of_built _ _ _ _ _ Hranked Hsized Hd)
    as (Hb & _ & Hsz & HT & _).
  rewrite <- HT in *. unfold NodeCount in *.
  destruct (Schedule_root_loop d Hb Hsz Hfit IsRoot IsLeaf
              (OptimizeBranchLengthUpdatePHat d) (λ _ ops, ops) (λ _ _, [])
              (OptimizeBranchLengthUpdatePHat_emits d Hb Hsz)
              ltac:(intros; by rewrite app_nil_r) ltac:(constructor)
              ltac:(done) fuel' Hfuel)
    as (vis & ops & Hrun & Htop & Hroots & _).
  exists ops. rewrite BranchLengthOptimization_roots, Hrun. simpl.
  pose proof (top_post_covers d Hb Hsz Hfit IsLeaf
                (OptimizeBranchLengthUpdatePHat d) (λ _ ops, ops) _ vis ops
                Hinner Htop Hroots) as Hcov.
  destruct Htop as (_ & Hocc & _ & Himl).
  split_and!; [done | | |].
  - intros m Hm. rewrite Hocc by lia. rewrite decide_True; [done |].
    split; [by apply Hcov |]. unfold inner.
    destruct (lookup_lt_is_Some_2 (dag_nodes_ d) m) as [n Hn]; [lia |].
    rewrite Hn. by rewrite (Hinner m n Hn) by lia.
  - intros m n Hn Hleaf. rewrite Hocc by (by eapply lookup_lt_Some).
    rewrite decide_False; [done |]. intros [_ Hi]. unfold inner in Hi.
    by rewrite Hn, Hleaf in Hi.
  - apply IML_of_nil_Forall. rewrite Himl. unfold tails_IML.
    clear. induction (indexed_rootsplits d) as [|e l IH]; [done | exact IH].
Qed.

Lemma BranchLengthOptimization_visits_once_witness :
  let d := Examples.dag_of Examples.two_trees in
  harvest_ranked Examples.ChildSubsplit Examples.two_trees popcount
  ∧ harvest_sized Examples.ChildSubsplit Examples.two_trees
  ∧ GPDAG_of Examples.ChildSubsplit 16 Examples.two_trees = Some d
  ∧ (6 * N.of_nat (NodeCount d) ≤ size_t_modulus)%N
  ∧ (∀ i n, dag_nodes_ d !! i = Some n → 3 ≤ i →
       Examples.IsLeaf n = false)
  ∧ NodeCount d ≤ 7
  ∧ ∃ ops, BranchLengthOptimization Examples.IsRoot Examples.IsLeaf 7 d
           = Some ops
      ∧ (∀ m, 3 ≤ m < NodeCount d →
           occurrences (Zero (plv d P_HAT m)) ops = 1)
      ∧ (∀ m n, dag_nodes_ d !! m = Some n → Examples.IsLeaf n = true →
           occurrences (Zero (plv d P_HAT m)) ops = 0)
      ∧ Forall (λ op, is_IML op = false) ops.
Proof.
  intros d.
  assert (Hfit : (6 * N.of_nat (NodeCount d) ≤ size_t_modulus)%N)
    by (vm_compute; discriminate).
  assert (Hn : NodeCount d ≤ 7) by (vm_compute; lia).
  split_and!; [apply two_trees_harvest | apply two_trees_harvest
               | exact dag_of_two_trees | exact Hfit
               | exact two_trees_inner | exact Hn |].
  exact (BranchLengthOptimization_visits_once Examples.ChildSubsplit
           Examples.IsRoot Examples.IsLeaf 16 7 Examples.two_trees popcount d
           (proj1 two_trees_harvest) (proj2 two_trees_harvest)
           dag_of_two_trees Hfit two_trees_inner Hn).
Defined.

Lemma tails_IML_marginal d entries :
  tails_IML (λ i x, [IncrementMarginalLikelihood (plv d R_HAT x) i
                       (plv d P x)]) d entries
  = flat_map (λ e : nat * Bitset,
                [IncrementMarginalLikelihood
                   (plv d R_HAT (root_index d e.2)) e.1
                   (plv d P (root_index d e.2))]) entries.
Proof. unfold tails_IML. apply flat_map_ext. intros e. reflexivity. Qed.

(** X11: with fuel for every node, [SBNParameterOptimization] on a
    constructed DAG completes; its last operation is the
    [UpdateSBNProbabilities] over the rootsplit parameters [0, R), and the
    [IncrementMarginalLikelihood] operations before it are, in order, one
    per rootsplit, carrying the position of the rootsplit and the [R_HAT]
    and [P] buffers of its root node: the very operations
    [MarginalLikelihood] returns. *)
Theorem SBNParameterOptimization_marginal
    (ChildSubsplit : Bitset → Bitset → Bitset)
    (IsRoot IsLeaf : GPDAGNode → bool) (fuel fuel' : nat)
    (tc : RootedTreeCollection) (rank : Bitset → nat) (d : GPDAG)
    (Hranked : harvest_ranked ChildSubsplit tc rank)
    (Hsized : harvest_sized ChildSubsplit tc)
    (Hd : GPDAG_of ChildSubsplit fuel tc = Some d)
    (Hfit : (6 * N.of_nat (NodeCount d) ≤ size_t_modulus)%N)
    (Hfuel : NodeCount d ≤ fuel') :
  ∃ body,
    SBNParameterOptimization IsRoot IsLeaf fuel' d
    = Some (body ++ [UpdateSBNProbabilities 0 (length (rootsplits_ d))])
    ∧ IML_of body
      = imap (λ i r, IncrementMarginalLikelihood
                       (plv d R_HAT (root_index d r)) i
                       (plv d P (root_index d r)))
          (rootsplits_ d)
    ∧ MarginalLikelihood d = Some (IML_of body).
Proof.
  destruct (GPDAG_of_built _ _ _ _ _ Hranked Hsized Hd)
    as (Hb & _ & Hsz & HT & _).
  unfold NodeCount in *.
  destruct (Schedule_root_loop d Hb Hsz Hfit IsRoot IsLeaf
              (UpdatePHatComputeLikelihood d) (OptimizeSBNParameters d)
              (λ i x, [IncrementMarginalLikelihood (plv d R_HAT x) i
                         (plv d P x)])
              (UpdatePHatComputeLikelihood_emits d Hb Hsz)
              (OptimizeSBNParameters_app d) (OptimizeSBNParameters_quiet d)
              ltac:(intros; apply occurrences_IML_tail) fuel' Hfuel)
    as (vis & body & Hrun & Htop & Hroots & _).
  exists body. rewrite SBNParameterOptimization_roots, Hrun. simpl.
  destruct Htop as (_ & _ & _ & Himl).
  rewrite tails_IML_marginal in Himl. unfold indexed_rootsplits in Himl.
  rewrite (flat_map_singleton_imap
             (λ i r, IncrementMarginalLikelihood
                       (plv d R_HAT (root_index d r)) i
                       (plv d P (root_index d r)))) in Himl.
  split_and!; [done | done |]. rewrite Himl.
  apply MarginalLikelihood_emits. intros r Hr.
  by destruct (built_root d Hb r Hr).
Qed.

Lemma SBNParameterOptimization_marginal_witness :
  let d := Examples.dag_of Examples.two_trees in
  harvest_ranked Examples.ChildSubsplit Examples.two_trees popcount
  ∧ harvest_sized Examples.ChildSubsplit Examples.two_trees
  ∧ GPDAG_of Examples.ChildSubsplit 16 Examples.two_trees = Some d
  ∧ (6 * N.of_nat (NodeCount d) ≤ size_t_modulus)%N
  ∧ NodeCount d ≤ 7
  ∧ ∃ body,
      SBNParameterOptimization Examples.IsRoot Examples.IsLeaf 7 d
      = Some (body ++ [UpdateSBNProbabilities 0 2])
      ∧ IML_of body
        = imap (λ i r, IncrementMarginalLikelihood
                         (plv d R_HAT (root_index d r)) i
                         (plv d P (root_index d r)))
            (rootsplits_ d)
      ∧ MarginalLikelihood d = Some (IML_of body).
Proof.
  intros d.
  assert (Hfit : (6 * N.of_nat (NodeCount d) ≤ size_t_modulus)%N)
    by (vm_compute; discriminate).
  assert (Hn : NodeCount d ≤ 7) by (vm_compute; lia).
  split_and!; [apply two_trees_harvest | apply two_trees_harvest
               | exact dag_of_two_trees | exact Hfit | exact Hn |].
  exact (SBNParameterOptimization_marginal Examples.ChildSubsplit
           Examples.IsRoot Examples.IsLeaf 16 7 Examples.two_trees popcount d
           (proj1 two_trees_harvest) (proj2 two_trees_harvest)
           dag_of_two_trees Hfit Hn).
Defined.

(** X12: with fuel for every node, [SBNParameterOptimization] on a
    constructed DAG whose non-fake nodes are not leaves zeroes the [P_HAT]
    buffer of every non-fake node exactly once, so each of them is
    scheduled once, and never the [P_HAT] buffer of a leaf. *)
Theorem SBNParameterOptimization_visits_once
    (ChildSubsplit : Bitset → Bitset → Bitset)
    (IsRoot IsLeaf : GPDAGNode → bool) (fuel fuel' : nat)
    (tc : RootedTreeCollection) (rank : Bitset → nat) (d : GPDAG)
    (Hranked : harvest_ranked ChildSubsplit tc rank)
    (Hsized : harvest_sized ChildSubsplit tc)
    (Hd : GPDAG_of ChildSubsplit fuel tc = Some d)
    (Hfit : (6 * N.of_nat (NodeCount d) ≤ size_t_modulus)%N)
    (Hinner : ∀ i n, dag_nodes_ d !! i = Some n → TaxonCount tc ≤ i →
                IsLeaf n = false)
    (Hfuel : NodeCount d ≤ fuel') :
  ∃ ops, SBNParameterOptimization IsRoot IsLeaf fuel' d = Some ops
    ∧ (∀ m, TaxonCount tc ≤ m < NodeCount d →
         occurrences (Zero (plv d P_HAT m)) ops = 1)
    ∧ (∀ m n, dag_nodes_ d !! m = Some n → IsLeaf n = true →
         occurrences (Zero (plv d P_HAT m)) ops = 0).
Proof.
  destruct (GPDAG_of_built _ _ _ _ _ Hranked Hsized Hd)
    as (Hb & _ & Hsz & HT & _).
  rewrite <- HT in *. unfold NodeCount in *.
  destruct (Schedule_root_loop d Hb Hsz Hfit IsRoot IsLeaf
              (UpdatePHatComputeLikelihood d) (OptimizeSBNParameters d)
              (λ i x, [IncrementMarginalLikelihood (plv d R_HAT x) i
                         (plv d P x)])
              (UpdatePHatComputeLikelihood_emits d Hb Hsz)
              (OptimizeSBNParameters_app d) (OptimizeSBNParameters_quiet d)
              ltac:(intros; apply occurrences_IML_tail) fuel' Hfuel)
    as (vis & body & Hrun & Htop & Hroots & _).
  eexists. rewrite SBNParameterOptimization_roots, Hrun. simpl.
  pose proof (top_post_covers d Hb Hsz Hfit IsLeaf
                (UpdatePHatComputeLikelihood d) (OptimizeSBNParameters d)
                _ vis body Hinner Htop Hroots) as Hcov.
  destruct Htop as (_ & Hocc & _).
  assert (Hlast : ∀ m, occurrences (Zero (plv d P_HAT m))
                         [UpdateSBNProbabilities 0 (length (rootsplits_ d))]
                       = 0).
  { intros m. unfold occurrences. by rewrite filter_cons_False. }
  split_and!; [done | |].
  - intros m Hm. rewrite occurrences_app, Hlast, Hocc by lia.
    rewrite decide_True; [done |].
    split; [by apply Hcov |]. unfold inner.
    destruct (lookup_lt_is_Some_2 (dag_nodes_ d) m) as [n Hn]; [lia |].
    rewrite Hn. by rewrite (Hinner m n Hn) by lia.
  - intros m n Hn Hleaf.
    rewrite occurrences_app, Hlast, Hocc by (by eapply lookup_lt_Some).
    rewrite decide_False; [done |]. intros [_ Hi]. unfold inner in Hi.
    by rewrite Hn, Hleaf in Hi.
Qed.

Lemma SBNParameterOptimization_visits_once_witness :
  let d := Examples.dag_of Examples.shared_root in
  harvest_ranked Examples.ChildSubsplit Examples.shared_root popcount
  ∧ harvest_sized Examples.ChildSubsplit Examples.shared_root
  ∧ GPDAG_of Examples.ChildSubsplit 16 Examples.shared_root = Some d
  ∧ (6 * N.of_nat (NodeCount d) ≤ size_t_modulus)%N
  ∧ (∀ i n, dag_nodes_ d !! i = Some n → 4 ≤ i →
       Examples.IsLeaf n = false)
  ∧ NodeCount d ≤ 9
  ∧ ∃ ops, SBNParameterOptimization Examples.IsRoot Examples.IsLeaf 9 d
           = Some ops
      ∧ (∀ m, 4 ≤ m < NodeCount d →
           occurrences (Zero (plv d P_HAT m)) ops = 1)
      ∧ (∀ m n, dag_nodes_ d !! m = Some n → Examples.IsLeaf n = true →
           occurrences (Zero (plv d P_HAT m)) ops = 0).
Proof.
  intros d.
  assert (Hfit : (6 * N.of_nat (NodeCount d) ≤ size_t_modulus)%N)
    by (vm_compute; discriminate).
  assert (Hn : NodeCount d ≤ 9) by (vm_compute; lia).
  split_and!; [apply shared_root_harvest | apply shared_root_harvest
               | exact dag_of_shared_root | exact Hfit
               | exact shared_root_inner | exact Hn |].
  exact (SBNParameterOptimization_visits_once Examples.ChildSubsplit
           Examples.IsRoot Examples.IsLeaf 16 9 Examples.shared_root popcount
           d (proj1 shared_root_harvest) (proj2 shared_root_harvest)
           dag_of_shared_root Hfit shared_root_inner Hn).
Defined.

(** ** Where the scheduler of SBN parameters places its updates *)

Lemma size_t_sub_small (a k : nat) :
  (N.of_nat (a + k) < size_t_modulus)%N → size_t_sub (a + k) a = N.of_nat k.
Proof.
  intros H. unfold size_t_sub, wrap.
  rewrite (N.mod_small (N.of_nat a)) by lia.
  replace (N.of_nat (a + k) + (size_t_modulus - N.of_nat a))%N
    with (N.of_nat k + 1 * size_t_modulus)%N by lia.
  rewrite N.Div0.mod_add. apply N.mod_small. lia.
Qed.

Section Window.
Variable d : GPDAG.
Hypothesis Hbuilt : dag_built d.

Lemma UpdatePHatComputeLikelihood_emitted n nd rot c cn i :
  dag_nodes_ d !! n = Some nd → dag_nodes_ d !! c = Some cn →
  gpcsp_indexer_ d !! (Node.GetBitsetRot nd rot +b subsplit_ cn) = Some i →
  emitted (UpdatePHatComputeLikelihood d n c rot)
  = [EvolvePLVWeightedBySBNParameter
       (plv d (if rot then P_HAT_TILDE else P_HAT) n) i (plv d P c);
     Likelihood i (plv d (if rot then R_TILDE else R) n) (plv d P c)].
Proof.
  intros Hnd Hcn Hi. unfold emitted, UpdatePHatComputeLikelihood.
  rewrite Hnd, Hcn. simpl.
  replace (if rot then Bitset.RotateSubsplit (Node.GetBitset nd)
           else Node.GetBitset nd)
    with (Node.GetBitsetRot nd rot) by (by destruct rot).
  unfold Node.GetBitset. rewrite Hi. simpl.
  rewrite (GetPLVIndex_plv d (if rot then P_HAT_TILDE else P_HAT))
    by (destruct rot; simpl; eauto). simpl.
  rewrite (GetPLVIndex_plv d P) by (simpl; eauto). simpl.
  rewrite (GetPLVIndex_plv d (if rot then R_TILDE else R))
    by (destruct rot; simpl; eauto). simpl.
  rewrite (GetPLVIndex_plv d P) by (simpl; eauto). simpl.
  unfold Node.Id.
  by rewrite (built_ids d Hbuilt _ _ Hnd), (built_ids d Hbuilt _ _ Hcn).
Qed.

(** The range of a side with children, the index of its last child, and
    what [OptimizeSBNParameters] emits for it. *)
Lemma side_range p nd rot front c_last :
  (N.of_nat (size (gpcsp_indexer_ d)) < size_t_modulus)%N →
  taxon_count_ d ≤ p → dag_nodes_ d !! p = Some nd →
  Node.Leafward rot nd = front ++ [c_last] →
  ∃ a cn,
    subsplit_to_range_ d !! Node.GetBitsetRot nd rot
    = Some (a, a + S (length front))
    ∧ dag_nodes_ d !! c_last = Some cn
    ∧ gpcsp_indexer_ d !! (Node.GetBitsetRot nd rot +b subsplit_ cn)
      = Some (a + length front)
    ∧ OptimizeSBNParameters d (Node.GetBitsetRot nd rot) []
      = if decide (front = []) then []
        else [UpdateSBNProbabilities a (a + S (length front))].
Proof.
  intros Hparams Hp Hnd Hl.
  destruct Hbuilt as (_ & _ & (Hnum & [Hr _] & _ & Hch)).
  destruct (Hr nd rot) as (a & Ha & Hidx).
  { apply elem_of_drop_lookup. eauto. }
  { rewrite Hl. by destruct front. }
  destruct (Hch p nd rot c_last Hnd Hp) as [cn Hcn].
  { rewrite Hl. set_solver. }
  assert (Hlast : Node.Leafward rot nd !! length front = Some c_last).
  { rewrite Hl. by rewrite lookup_app_r, Nat.sub_diag by lia. }
  specialize (Hidx _ _ _ Hlast Hcn).
  assert (Hlen : length (Node.Leafward rot nd) = S (length front)).
  { rewrite Hl, length_app. simpl. lia. }
  rewrite Hlen in Ha. exists a, cn. split_and!; [done | done | done |].
  assert (Hsize : a + length front < size (gpcsp_indexer_ d)).
  { rewrite (numbered_size _ _ Hnum). eapply numbered_range; eauto. }
  unfold OptimizeSBNParameters. rewrite Ha. simpl.
  rewrite size_t_sub_small by lia.
  destruct front as [|x front]; simpl; [done |].
  destruct (1 <? N.of_nat (S (S (length front))))%N eqn:E; [done |].
  apply N.ltb_ge in E. lia.
Qed.

End Window.

(** X13: in the operations of [SBNParameterOptimization] on a
    constructed DAG whose non-fake nodes are not leaves, the child loop of
    each side (sorted or rotated) of a non-fake node that has children is
    closed as follows: the [Likelihood] of the last child of the side,
    carrying the last index of the side's range, is followed at once by
    [UpdateSBNProbabilities] over that range when the side has two
    children or more, and by nothing when it has one, and then by the
    [Multiply] that rebuilds [R_TILDE] (sorted side) or [R] (rotated
    side). *)
Theorem SBNParameterOptimization_update_after_loop
    (ChildSubsplit : Bitset → Bitset → Bitset)
    (IsRoot IsLeaf : GPDAGNode → bool) (fuel fuel' : nat)
    (tc : RootedTreeCollection) (rank : Bitset → nat) (d : GPDAG)
    (Hranked : harvest_ranked ChildSubsplit tc rank)
    (Hsized : harvest_sized ChildSubsplit tc)
    (Hd : GPDAG_of ChildSubsplit fuel tc = Some d)
    (Hfit : (6 * N.of_nat (NodeCount d) ≤ size_t_modulus)%N)
    (Hparams : (N.of_nat (size (gpcsp_indexer_ d)) < size_t_modulus)%N)
    (Hinner : ∀ i n, dag_nodes_ d !! i = Some n → TaxonCount tc ≤ i →
                IsLeaf n = false)
    (Hfuel : NodeCount d ≤ fuel') :
  ∃ ops, SBNParameterOptimization IsRoot IsLeaf fuel' d = Some ops
    ∧ ∀ m nd rot front c_last,
        TaxonCount tc ≤ m → dag_nodes_ d !! m = Some nd →
        Node.Leafward rot nd = front ++ [c_last] →
        ∃ a, subsplit_to_range_ d !! Node.GetBitsetRot nd rot
             = Some (a, a + S (length front))
             ∧ occurs_in
                 ([Likelihood (a + length front)
                     (plv d (if rot then R_TILDE else R) m)
                     (plv d P c_last)]
                  ++ (if decide (front = []) then []
                      else [UpdateSBNProbabilities a
                              (a + S (length front))])
                  ++ [Multiply (plv d (if rot then R else R_TILDE) m)
                        (plv d R_HAT m)
                        (plv d (if rot then P_HAT_TILDE else P_HAT) m)])
                 ops.
Proof.
  destruct (GPDAG_of_built _ _ _ _ _ Hranked Hsized Hd)
    as (Hb & _ & Hsz & HT & _).
  rewrite <- HT in *. unfold NodeCount in *.
  destruct (Schedule_root_loop d Hb Hsz Hfit IsRoot IsLeaf
              (UpdatePHatComputeLikelihood d) (OptimizeSBNParameters d)
              (λ i x, [IncrementMarginalLikelihood (plv d R_HAT x) i
                         (plv d P x)])
              (UpdatePHatComputeLikelihood_emits d Hb Hsz)
              (OptimizeSBNParameters_app d) (OptimizeSBNParameters_quiet d)
              ltac:(intros; apply occurrences_IML_tail) fuel' Hfuel)
    as (vis & body & Hrun & Htop & Hroots & _).
  eexists. rewrite SBNParameterOptimization_roots, Hrun. simpl.
  split; [done |].
  pose proof (top_post_covers d Hb Hsz Hfit IsLeaf
                (UpdatePHatComputeLikelihood d) (OptimizeSBNParameters d)
                _ vis body Hinner Htop Hroots) as Hcov.
  destruct Htop as (_ & _ & Hwin & _).
  intros m nd rot front c_last Hm Hnd Hl.
  pose proof (lookup_lt_Some _ _ _ Hnd) as HmN.
  destruct (side_range d Hb m nd rot front c_last Hparams Hm Hnd Hl)
    as (a & cn & Ha & Hcn & Hidx & HE).
  exists a. split; [done |]. apply occurs_in_app_r.
  specialize (Hwin m nd rot (Hcov m ltac:(lia)) Hnd (Hinner m nd Hnd Hm)).
  unfold window, loop_last in Hwin. rewrite HE, Hl in Hwin.
  rewrite flat_map_app in Hwin. simpl in Hwin.
  rewrite (UpdatePHatComputeLikelihood_emitted d Hb m nd rot c_last cn _
             Hnd Hcn Hidx) in Hwin.
  rewrite app_nil_r in Hwin.
  change [EvolvePLVWeightedBySBNParameter ?x ?y ?z; ?l]
    with ([EvolvePLVWeightedBySBNParameter x y z] ++ [l]) in Hwin.
  rewrite app_assoc, last_or_snoc in Hwin. exact Hwin.
Qed.

Lemma SBNParameterOptimization_update_after_loop_witness :
  let d := Examples.dag_of Examples.shared_root in
  harvest_ranked Examples.ChildSubsplit Examples.shared_root popcount
  ∧ harvest_sized Examples.ChildSubsplit Examples.shared_root
  ∧ GPDAG_of Examples.ChildSubsplit 16 Examples.shared_root = Some d
  ∧ (6 * N.of_nat (NodeCount d) ≤ size_t_modulus)%N
  ∧ (N.of_nat (size (gpcsp_indexer_ d)) < size_t_modulus)%N
  ∧ (∀ i n, dag_nodes_ d !! i = Some n → 4 ≤ i →
       Examples.IsLeaf n = false)
  ∧ NodeCount d ≤ 9
  ∧ ∃ ops, SBNParameterOptimization Examples.IsRoot Examples.IsLeaf 9 d
           = Some ops
      ∧ ∀ m nd rot front c_last,
          4 ≤ m → dag_nodes_ d !! m = Some nd →
          Node.Leafward rot nd = front ++ [c_last] →
          ∃ a, subsplit_to_range_ d !! Node.GetBitsetRot nd rot
               = Some (a, a + S (length front))
               ∧ occurs_in
                   ([Likelihood (a + length front)
                       (plv d (if rot then R_TILDE else R) m)
                       (plv d P c_last)]
                    ++ (if decide (front = []) then []
                        else [UpdateSBNProbabilities a
                                (a + S (length front))])
                    ++ [Multiply (plv d (if rot then R else R_TILDE) m)
                          (plv d R_HAT m)
                          (plv d (if rot then P_HAT_TILDE else P_HAT) m)])
                   ops.
Proof.
  intros d.
  assert (Hfit : (6 * N.of_nat (NodeCount d) ≤ size_t_modulus)%N)
    by (vm_compute; discriminate).
  assert (Hparams : (N.of_nat (size (gpcsp_indexer_ d)) < size_t_modulus)%N)
    by (vm_compute; reflexivity).
  assert (Hn : NodeCount d ≤ 9) by (vm_compute; lia).
  split_and!; [apply shared_root_harvest | apply shared_root_harvest
               | exact dag_of_shared_root | exact Hfit | exact Hparams
               | exact shared_root_inner | exact Hn |].
  exact (SBNParameterOptimization_update_after_loop Examples.ChildSubsplit
           Examples.IsRoot Examples.IsLeaf 16 9 Examples.shared_root popcount
           d (proj1 shared_root_harvest) (proj2 shared_root_harvest)
           dag_of_shared_root Hfit Hparams shared_root_inner Hn).
Defined.

(** X14: in the operations of [SBNParameterOptimization] on a
    constructed DAG whose non-fake nodes are not leaves, the
    [IncrementMarginalLikelihood] of each rootsplit directly follows the
    [Multiply] that completes the [P] buffer of its root node, the last
    operation of the scheduling of that root: the marginal likelihood of a
    rootsplit is taken as soon as its root is done, before the next
    rootsplit is scheduled. *)
Theorem SBNParameterOptimization_marginal_after_root
    (ChildSubsplit : Bitset → Bitset → Bitset)
    (IsRoot IsLeaf : GPDAGNode → bool) (fuel fuel' : nat)
    (tc : RootedTreeCollection) (rank : Bitset → nat) (d : GPDAG)
    (Hranked : harvest_ranked ChildSubsplit tc rank)
    (Hsized : harvest_sized ChildSubsplit tc)
    (Hd : GPDAG_of ChildSubsplit fuel tc = Some d)
    (Hfit : (6 * N.of_nat (NodeCount d) ≤ size_t_modulus)%N)
    (Hinner : ∀ i n, dag_nodes_ d !! i = Some n → TaxonCount tc ≤ i →
                IsLeaf n = false)
    (Hfuel : NodeCount d ≤ fuel') :
  ∃ ops, SBNParameterOptimization IsRoot IsLeaf fuel' d = Some ops
    ∧ ∀ i r, rootsplits_ d !! i = Some r →
        occurs_in
          [Multiply (plv d P (root_index d r))
             (plv d P_HAT (root_index d r))
             (plv d P_HAT_TILDE (root_index d r));
           IncrementMarginalLikelihood (plv d R_HAT (root_index d r)) i
             (plv d P (root_index d r))]
          ops.
Proof.
  destruct (GPDAG_of_built _ _ _ _ _ Hranked Hsized Hd)
    as (Hb & _ & Hsz & HT & _).
  rewrite <- HT in *. unfold NodeCount in *.
  destruct (Schedule_root_loop d Hb Hsz Hfit IsRoot IsLeaf
              (UpdatePHatComputeLikelihood d) (OptimizeSBNParameters d)
              (λ i x, [IncrementMarginalLikelihood (plv d R_HAT x) i
                         (plv d P x)])
              (UpdatePHatComputeLikelihood_emits d Hb Hsz)
              (OptimizeSBNParameters_app d) (OptimizeSBNParameters_quiet d)
              ltac:(intros; apply occurrences_IML_tail) fuel' Hfuel)
    as (vis & body & Hrun & _ & _ & Hadj).
  eexists. rewrite SBNParameterOptimization_roots, Hrun. simpl.
  split; [done |]. intros i r Hr.
  destruct (built_root d Hb r) as (_ & Hge & [nd Hnd]).
  { by eapply list_elem_of_lookup_2. }
  apply occurs_in_app_r.
  exact (Hadj i r nd Hr Hnd (Hinner _ _ Hnd Hge)).
Qed.

Lemma SBNParameterOptimization_marginal_after_root_witness :
  let d := Examples.dag_of Examples.two_trees in
  harvest_ranked Examples.ChildSubsplit Examples.two_trees popcount
  ∧ harvest_sized Examples.ChildSubsplit Examples.two_trees
  ∧ GPDAG_of Examples.ChildSubsplit 16 Examples.two_trees = Some d
  ∧ (6 * N.of_nat (NodeCount d) ≤ size_t_modulus)%N
  ∧ (∀ i n, dag_nodes_ d !! i = Some n → 3 ≤ i →
       Examples.IsLeaf n = false)
  ∧ NodeCount d ≤ 7
  ∧ ∃ ops, SBNParameterOptimization Examples.IsRoot Examples.IsLeaf 7 d
           = Some ops
      ∧ ∀ i r, rootsplits_ d !! i = Some r →
          occurs_in
            [Multiply (plv d P (root_index d r))
               (plv d P_HAT (root_index d r))
               (plv d P_HAT_TILDE (root_index d r));
             IncrementMarginalLikelihood (plv d R_HAT (root_index d r)) i
               (plv d P (root_index d r))]
            ops.
Proof.
  intros d.
  assert (Hfit : (6 * N.of_nat (NodeCount d) ≤ size_t_modulus)%N)
    by (vm_compute; discriminate).
  assert (Hn : NodeCount d ≤ 7) by (vm_compute; lia).
  split_and!; [apply two_trees_harvest | apply two_trees_harvest
               | exact dag_of_two_trees | exact Hfit
               | exact two_trees_inner | exact Hn |].
  exact (SBNParameterOptimization_marginal_after_root Examples.ChildSubsplit
           Examples.IsRoot Examples.IsLeaf 16 7 Examples.two_trees popcount d
           (proj1 two_trees_harvest) (proj2 two_trees_harvest)
           dag_of_two_trees Hfit two_trees_inner Hn).
Defined.

(** ** ComputeLikelihoods *)

Section Likelihoods.
Variable d : GPDAG.
Hypothesis Hbuilt : dag_built d.
Hypothesis Hsized : tables_sized d.

Lemma ComputeLikelihoods_sorted_emits p n :
  dag_nodes_ d !! p = Some n →
  emits (foldM (ComputeLikelihoods_sorted d n) (Node.GetLeafwardSorted n))
    (side_likelihoods d false n).
Proof.
  intros Hn ops. apply foldM_emit. clear ops. intros ops c Hc.
  destruct (built_leafward d Hbuilt Hsized p n false c Hn Hc)
    as (_ & _ & cn & Hcn & _ & [i Hi]).
  unfold ComputeLikelihoods_sorted. rewrite Hcn. simpl.
  simpl in Hi. unfold Node.GetBitset. rewrite Hi. simpl.
  by rewrite !GetPLVIndex_plv by (simpl; eauto).
Qed.

Lemma ComputeLikelihoods_rotated_emits p n :
  dag_nodes_ d !! p = Some n →
  emits (foldM (ComputeLikelihoods_rotated d n) (Node.GetLeafwardRotated n))
    (side_likelihoods d true n).
Proof.
  intros Hn ops. apply foldM_emit. clear ops. intros ops c Hc.
  destruct (built_leafward d Hbuilt Hsized p n true c Hn Hc)
    as (_ & _ & cn & Hcn & _ & [i Hi]).
  unfold ComputeLikelihoods_rotated. rewrite Hcn. simpl.
  simpl in Hi. unfold Node.GetBitset. rewrite Hi. simpl.
  by rewrite !GetPLVIndex_plv by (simpl; eauto).
Qed.

Lemma side_likelihoods_indices p n rot :
  dag_nodes_ d !! p = Some n →
  Likelihood_index <$> side_likelihoods d rot n
  = (λ k, gpcsp_indexer_ d !! k) <$> node_keys d rot n.
Proof.
  intros Hn. unfold side_likelihoods, node_keys.
  assert (H : ∀ c, c ∈ Node.Leafward rot n →
            ∃ cn i, dag_nodes_ d !! c = Some cn
                    ∧ gpcsp_indexer_ d
                        !! (Node.GetBitsetRot n rot +b subsplit_ cn)
                      = Some i).
  { intros c Hc.
    destruct (built_leafward d Hbuilt Hsized p n rot c Hn Hc)
      as (_ & _ & cn & Hcn & _ & [i Hi]). eauto. }
  induction (Node.Leafward rot n) as [|c l IH]; [done |].
  destruct (H c) as (cn & i & Hcn & Hi); [set_solver |].
  simpl. rewrite Hcn. simpl. rewrite Hi. simpl. f_equal.
  apply IH. intros c' Hc'. apply H. set_solver.
Qed.

Lemma ComputeLikelihoods_nodes :
  ∃ lik,
    IterateOverRealNodes d
      (λ operations node,
         operations ← foldM (ComputeLikelihoods_sorted d node)
                        (Node.GetLeafwardSorted node) operations;
         foldM (ComputeLikelihoods_rotated d node)
           (Node.GetLeafwardRotated node) operations)
      [] = Some lik
    ∧ Likelihood_index <$> lik
      = (λ k, gpcsp_indexer_ d !! k) <$> edge_keys d.
Proof.
  exists (flat_map (λ n, side_likelihoods d false n
                         ++ side_likelihoods d true n)
            (drop (taxon_count_ d) (dag_nodes_ d))).
  split.
  - unfold IterateOverRealNodes.
    destruct Hbuilt as (_ & _ & (_ & _ & HTN & _)).
    rewrite decide_True by done.
    apply (foldM_emit _ _ _ []). intros ops n Hin.
    apply elem_of_drop_lookup in Hin as (p & _ & Hn).
    rewrite (ComputeLikelihoods_sorted_emits p n Hn). simpl.
    rewrite (ComputeLikelihoods_rotated_emits p n Hn).
    by rewrite app_assoc.
  - unfold edge_keys.
    assert (H : ∀ n, n ∈ drop (taxon_count_ d) (dag_nodes_ d) →
              ∃ p, dag_nodes_ d !! p = Some n).
    { intros n Hin. apply elem_of_drop_lookup in Hin as (p & _ & Hn).
      eauto. }
    induction (drop (taxon_count_ d) (dag_nodes_ d)) as [|n l IH];
      [done |].
    destruct (H n) as [p Hn]; [set_solver |].
    simpl. rewrite !fmap_app.
    rewrite !(side_likelihoods_indices p n _ Hn).
    f_equal. apply IH. intros n' Hn'. apply H. set_solver.
Qed.

Lemma edge_keys_indices :
  (λ k, gpcsp_indexer_ d !! k) <$> edge_keys d
  = Some <$> seq (length (rootsplits_ d))
               (size (gpcsp_indexer_ d) - length (rootsplits_ d)).
Proof.
  destruct Hbuilt as (_ & _ & (Hnum & _)).
  assert (Hsize : size (gpcsp_indexer_ d)
                  = length (rootsplits_ d) + length (edge_keys d)).
  { rewrite (numbered_size _ _ Hnum). unfold indexer_keys, root_keys.
    by rewrite length_app, length_fmap. }
  apply list_eq. intros j. rewrite !list_lookup_fmap.
  destruct (edge_keys d !! j) as [k|] eqn:Hk; simpl.
  - pose proof (lookup_lt_Some _ _ _ Hk) as Hj.
    rewrite lookup_seq_lt by lia. simpl. f_equal. apply Hnum.
    unfold indexer_keys, root_keys.
    rewrite lookup_app_r by (rewrite length_fmap; lia).
    rewrite length_fmap.
    by replace (length (rootsplits_ d) + j - length (rootsplits_ d))
      with j by lia.
  - apply lookup_ge_None in Hk. rewrite lookup_seq_ge by lia. done.
Qed.

End Likelihoods.

(** X15: [ComputeLikelihoods] on a constructed DAG completes; its
    operations are one [Likelihood] per leafward edge followed by the
    operations of [MarginalLikelihood], and the PCSP indices of the
    [Likelihood] operations are, in this order, R, R+1, ..., P-1, where R
    is the number of rootsplits and P the size of the PCSP indexer: every
    PCSP parameter gets exactly one [Likelihood], in index order. *)
Theorem ComputeLikelihoods_indices
    (ChildSubsplit : Bitset → Bitset → Bitset) (fuel : nat)
    (tc : RootedTreeCollection) (rank : Bitset → nat) (d : GPDAG)
    (Hranked : harvest_ranked ChildSubsplit tc rank)
    (Hsized : harvest_sized ChildSubsplit tc)
    (Hd : GPDAG_of ChildSubsplit fuel tc = Some d) :
  ∃ lik iml,
    ComputeLikelihoods d = Some (lik ++ iml)
    ∧ MarginalLikelihood d = Some iml
    ∧ Likelihood_index <$> lik
      = Some <$> seq (length (rootsplits_ d))
                   (size (gpcsp_indexer_ d) - length (rootsplits_ d)).
Proof.
  destruct (GPDAG_of_built _ _ _ _ _ Hranked Hsized Hd)
    as (Hb & _ & Hsz & _).
  destruct (ComputeLikelihoods_nodes d Hb Hsz) as (lik & Hrun & Hidx).
  assert (Hml := MarginalLikelihood_emits d
                   (λ r Hr, proj1 (built_root d Hb r Hr))).
  eexists lik, _. unfold ComputeLikelihoods.
  rewrite Hrun. simpl. rewrite Hml. simpl.
  split_and!; [done | done |].
  rewrite Hidx. by apply edge_keys_indices.
Qed.

Lemma ComputeLikelihoods_indices_witness :
  let d := Examples.dag_of Examples.one_tree in
  harvest_ranked Examples.ChildSubsplit Examples.one_tree popcount
  ∧ harvest_sized Examples.ChildSubsplit Examples.one_tree
  ∧ GPDAG_of Examples.ChildSubsplit 16 Examples.one_tree = Some d
  ∧ ∃ lik iml,
      ComputeLikelihoods d = Some (lik ++ iml)
      ∧ MarginalLikelihood d = Some iml
      ∧ Likelihood_index <$> lik = [Some 1; Some 2; Some 3; Some 4].
Proof.
  intros d.
  split_and!; [apply one_tree_harvest | apply one_tree_harvest
               | exact dag_of_one_tree |].
  exact (ComputeLikelihoods_indices Examples.ChildSubsplit 16
           Examples.one_tree popcount d (proj1 one_tree_harvest)
           (proj2 one_tree_harvest) dag_of_one_tree).
Defined.

(** ** The two passes read what they have written *)

Lemma flat_map_split {A B : Type} (g : A → list B) (l : list A)
    (pre post : list B) (e : B) :
  flat_map g l = pre ++ e :: post →
  ∃ l1 x l2 b1 b2,
    l = l1 ++ x :: l2 ∧ g x = b1 ++ e :: b2
    ∧ pre = flat_map g l1 ++ b1 ∧ post = b2 ++ flat_map g l2.
Proof.
  revert pre. induction l as [|x l IH]; intros pre H; simpl in H.
  { by destruct pre. }
  apply app_eq_inv in H as [(k & H1 & H2)|(k & H1 & H2)].
  - destruct k as [|e' k]; simpl in H2.
    + symmetry in H2.
      destruct (IH [] H2) as (l1 & y & l2 & b1 & b2 & -> & Hy & Hp & ->).
      exists (x :: l1), y, l2, b1, b2. simpl.
      rewrite app_nil_r in H1. rewrite <- app_assoc, <- Hp, app_nil_r.
      done.
    + simplify_eq. exists [], x, l, pre, k. done.
  - destruct (IH k H2) as (l1 & y & l2 & b1 & b2 & -> & Hy & -> & ->).
    exists (x :: l1), y, l2, b1, b2. simpl. by rewrite <- app_assoc.
Qed.

(** Whatever a depth-first traversal appends to the order is a node. *)
Lemma DepthFirst_valid adj1 adj2 fuel nodes id st st' :
  DepthFirst adj1 adj2 fuel nodes id st = Some st' →
  (∀ x, x ∈ st.1 → is_Some (nodes !! x)) →
  ∀ x, x ∈ st'.1 → is_Some (nodes !! x).
Proof.
  revert id st st'. induction fuel as [|fuel IH]; intros id st st' H Hv;
    [done |].
  cbn [DepthFirst] in H.
  destruct (SafeInsertSet st.2 id) as [vis|]; [|done].
  cbn [mbind option_bind] in H.
  destruct (nodes !! id) as [n|] eqn:Hn; [|done].
  cbn [mbind option_bind] in H.
  assert (Hloop : ∀ cs s s',
            foldM (DepthFirst_visit (DepthFirst adj1 adj2 fuel nodes)) cs s
            = Some s' →
            (∀ x, x ∈ s.1 → is_Some (nodes !! x)) →
            ∀ x, x ∈ s'.1 → is_Some (nodes !! x)).
  { intros cs s s' Hf Hs. revert Hf.
    apply (foldM_ind (λ s, ∀ x, x ∈ s.1 → is_Some (nodes !! x))); [done |].
    intros c s1 s2 _ H1 Hstep. unfold DepthFirst_visit in Hstep.
    destruct (decide (c ∈ s1.2)); [by simplify_eq |]. by eapply IH. }
  destruct (foldM _ (adj1 n) _) as [s1|] eqn:H1; [|done].
  cbn [mbind option_bind] in H.
  destruct (foldM _ (adj2 n) _) as [s2|] eqn:H2; [|done].
  simplify_eq/=. intros x Hx. apply elem_of_app in Hx as [Hx|Hx].
  - eapply (Hloop _ _ _ H2); [|done].
    eapply (Hloop _ _ _ H1). done.
  - apply list_elem_of_singleton in Hx as ->. eauto.
Qed.

Section Passes.
Variable d : GPDAG.
Hypothesis Hbuilt : dag_built d.
Hypothesis Hsized : tables_sized d.

Lemma LeafwardPassTraversal_valid fuel order :
  LeafwardPassTraversal fuel d = Some order →
  ∀ x, x ∈ order → is_Some (dag_nodes_ d !! x).
Proof.
  unfold LeafwardPassTraversal. intros H.
  destruct (foldM _ _ _) as [st|] eqn:Hf; [|done]. simplify_eq/=.
  revert Hf.
  apply (foldM_ind (λ s, ∀ x, x ∈ s.1 → is_Some (dag_nodes_ d !! x))).
  - intros x Hx. by apply elem_of_nil in Hx.
  - intros c s1 s2 _ H1 Hstep. rewrite RootwardDepthFirst_DepthFirst in Hstep.
    by eapply DepthFirst_valid.
Qed.

Lemma RootwardPassTraversal_valid fuel order :
  RootwardPassTraversal fuel d = Some order →
  ∀ x, x ∈ order → is_Some (dag_nodes_ d !! x).
Proof.
  unfold RootwardPassTraversal. intros H.
  destruct (foldM _ _ _) as [st|] eqn:Hf; [|done]. simplify_eq/=.
  revert Hf.
  apply (foldM_ind (λ s, ∀ x, x ∈ s.1 → is_Some (dag_nodes_ d !! x))).
  - intros x Hx. by apply elem_of_nil in Hx.
  - intros r s1 s2 _ H1 Hstep.
    destruct (subsplit_to_index_ d !! _) as [i|]; [|done]. simpl in Hstep.
    rewrite LeafwardDepthFirst_DepthFirst in Hstep.
    by eapply DepthFirst_valid.
Qed.

Lemma AddLeafwardWeightedSumAccumulateOperations_emits x n :
  dag_nodes_ d !! x = Some n →
  emits (AddLeafwardWeightedSumAccumulateOperations d n)
    (flat_map (LeafwardPass_evolve d false n) (Node.GetRootwardSorted n)
     ++ flat_map (LeafwardPass_evolve d true n) (Node.GetRootwardRotated n)).
Proof.
  intros Hn ops. unfold AddLeafwardWeightedSumAccumulateOperations.
  rewrite (foldM_emit _ (LeafwardPass_evolve d false n)).
  - simpl. rewrite (foldM_emit _ (LeafwardPass_evolve d true n)).
    + by rewrite app_assoc.
    + intros ops' p Hp.
      destruct (built_rootward d Hbuilt Hsized x n true p Hn Hp)
        as (_ & _ & pn & Hpn & _ & [i Hi]).
      unfold LeafwardPass_evolve. rewrite Hpn. simpl.
      simpl in Hi. unfold Node.GetBitset in *. rewrite Hi. simpl.
      by rewrite !GetPLVIndex_plv by (simpl; eauto).
  - intros ops' p Hp.
    destruct (built_rootward d Hbuilt Hsized x n false p Hn Hp)
      as (_ & _ & pn & Hpn & _ & [i Hi]).
    unfold LeafwardPass_evolve. rewrite Hpn. simpl.
    simpl in Hi. unfold Node.GetBitset in *. rewrite Hi. simpl.
    by rewrite !GetPLVIndex_plv by (simpl; eauto).
Qed.

Lemma LeafwardPass_of_emits order :
  (∀ x, x ∈ order → is_Some (dag_nodes_ d !! x)) →
  LeafwardPass_of d order = Some (flat_map (LeafwardPass_block d) order).
Proof.
  intros Hv. unfold LeafwardPass_of. apply (foldM_emit _ _ _ []).
  intros ops x Hx. destruct (Hv x Hx) as [n Hn].
  unfold LeafwardPass_block. rewrite Hn. simpl.
  rewrite (AddLeafwardWeightedSumAccumulateOperations_emits x n Hn). simpl.
  rewrite !GetPLVIndex_plv by (simpl; eauto). simpl.
  by rewrite <- app_assoc.
Qed.

Lemma AddRootwardWeightedSumAccumulateOperations_emits x n rot :
  dag_nodes_ d !! x = Some n →
  emits (AddRootwardWeightedSumAccumulateOperations d n rot)
    (flat_map (RootwardPass_evolve d rot n) (Node.Leafward rot n)).
Proof.
  intros Hn ops. unfold AddRootwardWeightedSumAccumulateOperations.
  replace (if rot then Node.GetLeafwardRotated n
           else Node.GetLeafwardSorted n)
    with (Node.Leafward rot n) by (by destruct rot).
  apply foldM_emit. intros ops' c Hc.
  destruct (built_leafward d Hbuilt Hsized x n rot c Hn Hc)
    as (_ & _ & cn & Hcn & _ & [i Hi]).
  unfold RootwardPass_evolve. rewrite Hcn. simpl.
  unfold Node.GetBitset in *. rewrite Hi. simpl.
  rewrite (GetPLVIndex_plv d (if rot then P_HAT_TILDE else P_HAT))
    by (destruct rot; simpl; eauto). simpl.
  by rewrite !GetPLVIndex_plv by (simpl; eauto).
Qed.

Lemma RootwardPass_of_emits IsLeaf order :
  (∀ x, x ∈ order → is_Some (dag_nodes_ d !! x)) →
  RootwardPass_of IsLeaf d order
  = Some (flat_map (RootwardPass_block IsLeaf d) order).
Proof.
  intros Hv. unfold RootwardPass_of. apply (foldM_emit _ _ _ []).
  intros ops x Hx. destruct (Hv x Hx) as [n Hn].
  unfold RootwardPass_block. rewrite Hn. simpl.
  destruct (IsLeaf n); [by rewrite app_nil_r |].
  rewrite (AddRootwardWeightedSumAccumulateOperations_emits x n false Hn).
  simpl.
  rewrite (AddRootwardWeightedSumAccumulateOperations_emits x n true Hn).
  simpl. rewrite !GetPLVIndex_plv by (simpl; eauto). simpl.
  by rewrite <- !app_assoc.
Qed.

End Passes.

Lemma elem_of_flat_map {A B : Type} (g : A → list B) (l : list A) (y : B) :
  y ∈ flat_map g l ↔ ∃ x, x ∈ l ∧ y ∈ g x.
Proof.
  rewrite list_elem_of_In, in_flat_map. split.
  - intros (x & Hx & Hy). exists x. by rewrite !list_elem_of_In.
  - intros (x & Hx & Hy). exists x. by rewrite <- !list_elem_of_In.
Qed.

(** In an order with the invariant, the neighbours of the node after the
    prefix [l1] are in [l1]. *)
Lemma order_inv_prefix adj1 adj2 nodes l1 x l2 vis n y :
  order_inv adj1 adj2 nodes (l1 ++ x :: l2, vis) →
  nodes !! x = Some n → y ∈ adj1 n ++ adj2 n → y ∈ l1.
Proof.
  intros (_ & _ & Hc) Hn Hy.
  destruct (Hc (length l1) x n y) as (i & Hi & Hl); [| done | done |].
  - simpl. by rewrite lookup_app_r, Nat.sub_diag by lia.
  - simpl in Hl. rewrite lookup_app_l in Hl by done.
    by eapply list_elem_of_lookup_2.
Qed.

(** X16: [LeafwardPass] on a constructed DAG completes, and every
    [EvolvePLVWeightedBySBNParameter] it emits reads a buffer that an
    earlier [Multiply] of the same pass has written: the [R] or [R_TILDE]
    buffer of a parent is rebuilt before any child accumulates it into its
    [R_HAT]. *)
Theorem LeafwardPass_reads_after_writes
    (ChildSubsplit : Bitset → Bitset → Bitset) (fuel fuel' : nat)
    (tc : RootedTreeCollection) (rank : Bitset → nat) (d : GPDAG)
    (Hranked : harvest_ranked ChildSubsplit tc rank)
    (Hsized : harvest_sized ChildSubsplit tc)
    (Hd : GPDAG_of ChildSubsplit fuel tc = Some d)
    (Hfuel : NodeCount d ≤ fuel') :
  ∃ ops, LeafwardPass fuel' d = Some ops
    ∧ ∀ pre post dest idx src,
        ops = pre ++ EvolvePLVWeightedBySBNParameter dest idx src :: post →
        ∃ a b, Multiply src a b ∈ pre.
Proof.
  destruct (GPDAG_of_built _ _ _ _ _ Hranked Hsized Hd)
    as (Hb & _ & Hsz & _).
  destruct (LeafwardPassTraversal_loop d Hb Hsz fuel' Hfuel)
    as ([order vis] & Hrun & Hi).
  assert (Ht : LeafwardPassTraversal fuel' d = Some order).
  { unfold LeafwardPassTraversal. by rewrite Hrun. }
  pose proof (LeafwardPassTraversal_valid d fuel' order Ht) as Hv.
  exists (flat_map (LeafwardPass_block d) order). split.
  { unfold LeafwardPass. rewrite Ht. simpl.
    by apply LeafwardPass_of_emits. }
  intros pre post dest idx src Hops.
  apply flat_map_split in Hops
    as (l1 & x & l2 & b1 & b2 & -> & Hx & -> & _).
  destruct (Hv x) as [n Hn]; [set_solver |].
  assert (He : EvolvePLVWeightedBySBNParameter dest idx src
               ∈ LeafwardPass_block d x) by (rewrite Hx; set_solver).
  unfold LeafwardPass_block in He. rewrite Hn in He.
  apply elem_of_app in He as [He|He]; [|set_solver].
  assert (∃ rot p, p ∈ Node.Rootward rot n
                   ∧ EvolvePLVWeightedBySBNParameter dest idx src
                     ∈ LeafwardPass_evolve d rot n p)
    as (rot & p & Hp & Hep).
  { apply elem_of_app in He as [He|He];
      apply elem_of_flat_map in He as (p & Hp & Hep);
      [exists false, p | exists true, p]; done. }
  destruct (built_rootward d Hb Hsz x n rot p Hn Hp)
    as (_ & _ & pn & Hpn & _).
  unfold LeafwardPass_evolve in Hep. rewrite Hpn in Hep.
  destruct (gpcsp_indexer_ d !! _) as [i|]; [|set_solver].
  apply list_elem_of_singleton in Hep. simplify_eq.
  unfold Node.Id. rewrite (built_ids d Hb _ _ Hpn).
  assert (Hpl : p ∈ l1).
  { eapply (order_inv_prefix _ _ _ l1 x l2 vis n p Hi Hn).
    apply Rootward_app. eauto. }
  exists (plv d R_HAT p), (plv d (if rot then P_HAT else P_HAT_TILDE) p).
  apply elem_of_app. left. apply elem_of_flat_map. exists p.
  split; [done |]. unfold LeafwardPass_block. rewrite Hpn.
  apply elem_of_app. right. destruct rot; set_solver.
Qed.

Lemma LeafwardPass_reads_after_writes_witness :
  let d := Examples.dag_of Examples.two_trees in
  harvest_ranked Examples.ChildSubsplit Examples.two_trees popcount
  ∧ harvest_sized Examples.ChildSubsplit Examples.two_trees
  ∧ GPDAG_of Examples.ChildSubsplit 16 Examples.two_trees = Some d
  ∧ NodeCount d ≤ 7
  ∧ ∃ ops, LeafwardPass 7 d = Some ops
      ∧ ∀ pre post dest idx src,
          ops = pre ++ EvolvePLVWeightedBySBNParameter dest idx src :: post →
          ∃ a b, Multiply src a b ∈ pre.
Proof.
  intros d.
  assert (Hn : NodeCount d ≤ 7) by (vm_compute; lia).
  split_and!; [apply two_trees_harvest | apply two_trees_harvest
               | exact dag_of_two_trees | exact Hn |].
  exact (LeafwardPass_reads_after_writes Examples.ChildSubsplit 16 7
           Examples.two_trees popcount d (proj1 two_trees_harvest)
           (proj2 two_trees_harvest) dag_of_two_trees Hn).
Defined.

(** X17: [RootwardPass] on a constructed DAG completes, and every
    [EvolvePLVWeightedBySBNParameter] it emits reads the [P] buffer of a
    child node that is a leaf, whose [P] buffer holds data, or that an
    earlier [Multiply] of the same pass has written: the [P] buffer of an
    inner node is rebuilt before any parent accumulates it. *)
Theorem RootwardPass_reads_after_writes
    (ChildSubsplit : Bitset → Bitset → Bitset)
    (IsLeaf : GPDAGNode → bool) (fuel fuel' : nat)
    (tc : RootedTreeCollection) (rank : Bitset → nat) (d : GPDAG)
    (Hranked : harvest_ranked ChildSubsplit tc rank)
    (Hsized : harvest_sized ChildSubsplit tc)
    (Hd : GPDAG_of ChildSubsplit fuel tc = Some d)
    (Hfuel : NodeCount d ≤ fuel') :
  ∃ ops, RootwardPass IsLeaf fuel' d = Some ops
    ∧ ∀ pre post dest idx src,
        ops = pre ++ EvolvePLVWeightedBySBNParameter dest idx src :: post →
        ∃ c cn, GetPLVIndex d P c = Some src ∧ dag_nodes_ d !! c = Some cn
                ∧ (IsLeaf cn = true ∨ ∃ a b, Multiply src a b ∈ pre).
Proof.
  destruct (GPDAG_of_built _ _ _ _ _ Hranked Hsized Hd)
    as (Hb & _ & Hsz & _).
  destruct (RootwardPassTraversal_loop d Hb Hsz fuel' Hfuel)
    as ([order vis] & Hrun & Hi & _).
  assert (Ht : RootwardPassTraversal fuel' d = Some order).
  { unfold RootwardPassTraversal. by rewrite Hrun. }
  pose proof (RootwardPassTraversal_valid d fuel' order Ht) as Hv.
  exists (flat_map (RootwardPass_block IsLeaf d) order). split.
  { unfold RootwardPass. rewrite Ht. simpl.
    by apply RootwardPass_of_emits. }
  intros pre post dest idx src Hops.
  apply flat_map_split in Hops
    as (l1 & x & l2 & b1 & b2 & -> & Hx & -> & _).
  destruct (Hv x) as [n Hn]; [set_solver |].
  assert (He : EvolvePLVWeightedBySBNParameter dest idx src
               ∈ RootwardPass_block IsLeaf d x) by (rewrite Hx; set_solver).
  unfold RootwardPass_block in He. rewrite Hn in He.
  destruct (IsLeaf n); [set_solver |].
  apply elem_of_app in He as [He|He]; [|set_solver].
  assert (∃ rot c, c ∈ Node.Leafward rot n
                   ∧ EvolvePLVWeightedBySBNParameter dest idx src
                     ∈ RootwardPass_evolve d rot n c)
    as (rot & c & Hc & Hec).
  { apply elem_of_app in He as [He|He];
      apply elem_of_flat_map in He as (c & Hc & Hec);
      [exists false, c | exists true, c]; done. }
  destruct (built_leafward d Hb Hsz x n rot c Hn Hc)
    as (_ & _ & cn & Hcn & _).
  unfold RootwardPass_evolve in Hec. rewrite Hcn in Hec.
  destruct (gpcsp_indexer_ d !! _) as [i|]; [|set_solver].
  apply list_elem_of_singleton in Hec. simplify_eq.
  exists c, cn. split_and!; [by apply GetPLVIndex_plv; simpl; eauto | done |].
  destruct (IsLeaf cn) eqn:Hleaf; [by left | right].
  assert (Hcl : c ∈ l1).
  { eapply (order_inv_prefix _ _ _ l1 x l2 vis n c Hi Hn).
    apply Leafward_app. eauto. }
  exists (plv d P_HAT c), (plv d P_HAT_TILDE c).
  apply elem_of_app. left. apply elem_of_flat_map. exists c.
  split; [done |]. unfold RootwardPass_block. rewrite Hcn, Hleaf.
  apply elem_of_app. right. rewrite plv_P. set_solver.
Qed.

Lemma RootwardPass_reads_after_writes_witness :
  let d := Examples.dag_of Examples.two_trees in
  harvest_ranked Examples.ChildSubsplit Examples.two_trees popcount
  ∧ harvest_sized Examples.ChildSubsplit Examples.two_trees
  ∧ GPDAG_of Examples.ChildSubsplit 16 Examples.two_trees = Some d
  ∧ NodeCount d ≤ 7
  ∧ ∃ ops, RootwardPass Examples.IsLeaf 7 d = Some ops
      ∧ ∀ pre post dest idx src,
          ops = pre ++ EvolvePLVWeightedBySBNParameter dest idx src :: post →
          ∃ c cn, GetPLVIndex d P c = Some src ∧ dag_nodes_ d !! c = Some cn
                  ∧ (Examples.IsLeaf cn = true
                     ∨ ∃ a b, Multiply src a b ∈ pre).
Proof.
  intros d.
  assert (Hn : NodeCount d ≤ 7) by (vm_compute; lia).
  split_and!; [apply two_trees_harvest | apply two_trees_harvest
               | exact dag_of_two_trees | exact Hn |].
  exact (RootwardPass_reads_after_writes Examples.ChildSubsplit
           Examples.IsLeaf 16 7 Examples.two_trees popcount d
           (proj1 two_trees_harvest) (proj2 two_trees_harvest)
           dag_of_two_trees Hn).
Defined.

(** ** The flat buffer index, once more *)

(** X18: while [6 * N] fits in [size_t], [GetPLVIndexStatic] maps the
    pairs of one of the six buffer kinds and a node id below [N] onto the
    range [0, 6 * N): every index it returns is below [6 * N], and every
    number below [6 * N] is the index of some kind and node. *)
Theorem GetPLVIndexStatic_tiles (node_count : N)
    (Hfit : (6 * node_count ≤ size_t_modulus)%N) :
  (∀ ty i j, (i < node_count)%N →
     GetPLVIndexStatic ty node_count i = Some j → (j < 6 * node_count)%N)
  ∧ (∀ j, (j < 6 * node_count)%N →
       ∃ ty i, (i < node_count)%N
               ∧ GetPLVIndexStatic ty node_count i = Some j).
Proof.
  split.
  - intros ty i j Hi Hj.
    destruct (kind_offset ty) as [off|] eqn:Hoff; [|by destruct ty].
    rewrite (GetPLVIndexStatic_fits _ _ _ _ Hoff Hfit Hi) in Hj.
    destruct ty; simplify_eq/=; lia.
  - intros j Hj.
    assert (Hpos : (0 < node_count)%N) by lia.
    pose proof (N.div_mod j node_count ltac:(lia)) as Hdm.
    pose proof (N.mod_lt j node_count ltac:(lia)) as Hlt.
    assert (Hq : (j / node_count < 6)%N).
    { apply N.Div0.div_lt_upper_bound. lia. }
    set (q := (j / node_count)%N) in *. set (i := (j mod node_count)%N) in *.
    assert (Hcases : q = 0%N ∨ q = 1%N ∨ q = 2%N ∨ q = 3%N ∨ q = 4%N
                     ∨ q = 5%N) by lia.
    destruct Hcases as [E|[E|[E|[E|[E|E]]]]]; rewrite E in Hdm.
    + exists P, i. split; [done |].
      rewrite (GetPLVIndexStatic_fits P 0 _ _ eq_refl Hfit Hlt). f_equal. lia.
    + exists P_HAT, i. split; [done |].
      rewrite (GetPLVIndexStatic_fits P_HAT 1 _ _ eq_refl Hfit Hlt).
      f_equal. lia.
    + exists P_HAT_TILDE, i. split; [done |].
      rewrite (GetPLVIndexStatic_fits P_HAT_TILDE 2 _ _ eq_refl Hfit Hlt).
      f_equal. lia.
    + exists R_HAT, i. split; [done |].
      rewrite (GetPLVIndexStatic_fits R_HAT 3 _ _ eq_refl Hfit Hlt).
      f_equal. lia.
    + exists R, i. split; [done |].
      rewrite (GetPLVIndexStatic_fits R 4 _ _ eq_refl Hfit Hlt). f_equal. lia.
    + exists R_TILDE, i. split; [done |].
      rewrite (GetPLVIndexStatic_fits R_TILDE 5 _ _ eq_refl Hfit Hlt).
      f_equal. lia.
Qed.

Lemma GetPLVIndexStatic_tiles_witness :
  (6 * 5 ≤ size_t_modulus)%N
  ∧ ∀ j, (j < 6 * 5)%N →
      ∃ ty i, (i < 5)%N ∧ GetPLVIndexStatic ty 5 i = Some j.
Proof.
  assert (H : (6 * 5 ≤ size_t_modulus)%N) by (vm_compute; discriminate).
  split; [exact H |].
  exact (proj2 (GetPLVIndexStatic_tiles 5 H)).
Defined.

(** ** The rootsplit index, from the indexer to the operations *)

Lemma SetRhatToStationary_emits d :
  (∀ r, r ∈ rootsplits_ d →
     subsplit_to_index_ d !! (r +b ~b r) = Some (root_index d r)) →
  SetRhatToStationary d
  = Some (imap (λ i r, SetToStationaryDistribution
                         (plv d R_HAT (root_index d r)) (Some i))
            (rootsplits_ d)).
Proof.
  intros Hroots. unfold SetRhatToStationary.
  rewrite <- (flat_map_singleton_imap
                (λ i r, SetToStationaryDistribution
                          (plv d R_HAT (root_index d r)) (Some i))).
  change (imap (λ i r, (i, r)) (rootsplits_ d)) with (indexed_rootsplits d).
  apply (foldM_emit _ _ _ []). intros ops [i r] Hin.
  unfold indexed_rootsplits in Hin.
  apply elem_of_lookup_imap in Hin as (i' & r' & [= -> ->] & Hr).
  unfold SetRhatToStationary_step.
  rewrite (Hroots r') by (by eapply list_elem_of_lookup_2). simpl.
  by rewrite !GetPLVIndex_plv by (simpl; eauto).
Qed.

(** X19: on a constructed DAG [SetRhatToStationary] and
    [MarginalLikelihood] complete with one operation per rootsplit, in the
    order of [rootsplits_]; the operation for the rootsplit at position
    [i] carries the rootsplit index [i] and the [R_HAT] buffer of its root
    node, and [i] is also the index [gpcsp_indexer_] holds for the root
    subsplit of that rootsplit. *)
Theorem rootsplit_index_agreement
    (ChildSubsplit : Bitset → Bitset → Bitset) (fuel : nat)
    (tc : RootedTreeCollection) (rank : Bitset → nat) (d : GPDAG)
    (Hranked : harvest_ranked ChildSubsplit tc rank)
    (Hsized : harvest_sized ChildSubsplit tc)
    (Hd : GPDAG_of ChildSubsplit fuel tc = Some d) :
  SetRhatToStationary d
  = Some (imap (λ i r, SetToStationaryDistribution
                         (plv d R_HAT (root_index d r)) (Some i))
            (rootsplits_ d))
  ∧ MarginalLikelihood d
    = Some (imap (λ i r, IncrementMarginalLikelihood
                           (plv d R_HAT (root_index d r)) i
                           (plv d P (root_index d r)))
              (rootsplits_ d))
  ∧ ∀ i r, rootsplits_ d !! i = Some r →
      gpcsp_indexer_ d !! (r +b ~b r) = Some i
      ∧ subsplit_to_index_ d !! (r +b ~b r) = Some (root_index d r).
Proof.
  destruct (GPDAG_of_built _ _ _ _ _ Hranked Hsized Hd) as (Hb & _).
  assert (Hroots : ∀ r, r ∈ rootsplits_ d →
            subsplit_to_index_ d !! (r +b ~b r) = Some (root_index d r))
    by (intros r Hr; by destruct (built_root d Hb r Hr)).
  split_and!.
  - by apply SetRhatToStationary_emits.
  - by apply MarginalLikelihood_emits.
  - intros i r Hr. split; [|by eapply Hroots, list_elem_of_lookup_2].
    destruct Hb as (_ & _ & (Hn & _)). apply Hn. unfold indexer_keys.
    rewrite lookup_app_l.
    + unfold root_keys. by rewrite list_lookup_fmap, Hr.
    + unfold root_keys. rewrite length_fmap. by eapply lookup_lt_Some.
Qed.

Lemma rootsplit_index_agreement_witness :
  let d := Examples.dag_of Examples.two_trees in
  harvest_ranked Examples.ChildSubsplit Examples.two_trees popcount
  ∧ harvest_sized Examples.ChildSubsplit Examples.two_trees
  ∧ GPDAG_of Examples.ChildSubsplit 16 Examples.two_trees = Some d
  ∧ SetRhatToStationary d
    = Some (imap (λ i r, SetToStationaryDistribution
                           (plv d R_HAT (root_index d r)) (Some i))
              (rootsplits_ d)).
Proof.
  intros d.
  split_and!; [apply two_trees_harvest | apply two_trees_harvest
               | exact dag_of_two_trees |].
  exact (proj1 (rootsplit_index_agreement Examples.ChildSubsplit 16
                  Examples.two_trees popcount d (proj1 two_trees_harvest)
                  (proj2 two_trees_harvest) dag_of_two_trees)).
Defined.

(** ** GeneralizedPCSPCount bounds the indexer *)

Lemma NoDup_incl_length {A : Type} (l k : list A) :
  NoDup l → (∀ x, x ∈ l → x ∈ k) → length l ≤ length k.
Proof. intros Hl Hin. by apply submseteq_length, NoDup_submseteq. Qed.

Lemma length_filter_split {A : Type} (P : A → Prop)
    `{∀ x, Decision (P x)} (l : list A) :
  length l = length (filter P l) + length (filter (λ x, ¬ P x) l).
Proof.
  induction l as [|x l IH]; [done |].
  rewrite !filter_cons. destruct (decide (P x)).
  - rewrite decide_False by tauto. simpl. lia.
  - rewrite decide_True by done. simpl. lia.
Qed.

Lemma GeneralizedPCSPCount_value d :
  taxon_count_ d ≤ length (dag_nodes_ d) →
  GeneralizedPCSPCount d
  = Some (RootsplitAndPCSPCount d + length (fake_parents d)).
Proof.
  intros HT. unfold GeneralizedPCSPCount, fake_parents.
  assert (G : ∀ m a acc, a + m ≤ length (dag_nodes_ d) →
            foldM (λ count taxon_idx,
                     node ← dag_nodes_ d !! taxon_idx;
                     Some (count + length (Node.GetRootwardRotated node)
                           + length (Node.GetRootwardSorted node)))
              (seq a m) acc
            = Some (acc + length (flat_map node_parents
                                    (take m (drop a (dag_nodes_ d)))))).
  { induction m as [|m IH]; intros a acc Ha; simpl.
    { f_equal. lia. }
    destruct (lookup_lt_is_Some_2 (dag_nodes_ d) a) as [n Hn]; [lia |].
    rewrite Hn. simpl. rewrite IH by lia. f_equal.
    rewrite (drop_S _ n a Hn). simpl. rewrite !length_app.
    unfold node_parents at 2. rewrite length_app, !length_fmap. lia. }
  rewrite (G (taxon_count_ d) 0 0) by lia. simpl. by rewrite drop_0.
Qed.

Section Counting.
Variable d : GPDAG.
Hypothesis Hbuilt : dag_built d.
Hypothesis Hsized : tables_sized d.

Lemma elem_of_real_edges p rot c :
  (p, rot, c) ∈ real_edges d ↔
  ∃ n, taxon_count_ d ≤ p ∧ dag_nodes_ d !! p = Some n
       ∧ c ∈ Node.Leafward rot n.
Proof.
  unfold real_edges. rewrite elem_of_flat_map. split.
  - intros (n & Hn & He). apply elem_of_drop_lookup in Hn as (q & Hq & Hn).
    pose proof (built_ids d Hbuilt _ _ Hn) as Hid.
    unfold node_edges, Node.Id in He. rewrite Hid in He.
    apply elem_of_app in He as [He|He];
      apply list_elem_of_fmap in He as (c' & [= -> -> ->] & Hc); eauto.
  - intros (n & Hp & Hn & Hc). exists n. split.
    { apply elem_of_drop_lookup. eauto. }
    unfold node_edges, Node.Id. rewrite (built_ids d Hbuilt _ _ Hn).
    apply elem_of_app. destruct rot; [right | left];
      apply list_elem_of_fmap; eauto.
Qed.

Lemma edge_keys_real_edges : edge_keys d = edge_key d <$> real_edges d.
Proof.
  unfold edge_keys, real_edges.
  assert (H : ∀ n, n ∈ drop (taxon_count_ d) (dag_nodes_ d) →
            ∃ p, dag_nodes_ d !! p = Some n).
  { intros n Hin. apply elem_of_drop_lookup in Hin as (p & _ & Hn). eauto. }
  induction (drop (taxon_count_ d) (dag_nodes_ d)) as [|n l IH]; [done |].
  destruct (H n) as [p Hn]; [set_solver |].
  simpl. rewrite fmap_app. f_equal; [|apply IH; intros; apply H; set_solver].
  pose proof (built_ids d Hbuilt _ _ Hn) as Hid.
  assert (Hside : ∀ rot,
            node_keys d rot n
            = edge_key d <$> ((λ c, (Node.Id n, rot, c))
                              <$> Node.Leafward rot n)).
  { intros rot. unfold node_keys.
    assert (Hch : ∀ c, c ∈ Node.Leafward rot n →
              is_Some (dag_nodes_ d !! c)).
    { intros c Hc.
      destruct (built_leafward d Hbuilt Hsized p n rot c Hn Hc)
        as (_ & _ & cn & Hcn & _). eauto. }
    unfold Node.Id. rewrite Hid.
    induction (Node.Leafward rot n) as [|c cs IHc]; [done |].
    destruct (Hch c) as [cn Hcn]; [set_solver |].
    simpl. rewrite Hcn. simpl. unfold edge_key at 1. simpl.
    rewrite Hn, Hcn. f_equal.
    apply IHc. intros; apply Hch; set_solver. }
  unfold node_edges. rewrite fmap_app. by rewrite !Hside.
Qed.

Lemma real_edges_NoDup : NoDup (edge_key d <$> real_edges d).
Proof.
  rewrite <- edge_keys_real_edges.
  destruct Hbuilt as (_ & _ & (Hnum & _)).
  apply numbered_NoDup in Hnum. unfold indexer_keys in Hnum.
  by apply NoDup_app in Hnum as (_ & _ & ?).
Qed.

Lemma indexer_size :
  size (gpcsp_indexer_ d) = length (rootsplits_ d) + length (real_edges d).
Proof.
  destruct Hbuilt as (_ & _ & (Hnum & _)).
  rewrite (numbered_size _ _ Hnum). unfold indexer_keys, root_keys.
  by rewrite length_app, length_fmap, edge_keys_real_edges, length_fmap.
Qed.

(** An edge into a fake leaf is a rootward entry of that leaf. *)
Lemma fake_edges_bound :
  length (filter (λ e, ¬ taxon_count_ d ≤ e.2) (real_edges d))
  ≤ length (fake_parents d).
Proof.
  rewrite <- (length_fmap flip_edge). apply NoDup_incl_length.
  - apply NoDup_fmap_2_strong.
    + intros [[p1 r1] c1] [[p2 r2] c2] _ _. unfold flip_edge. simpl.
      by intros [= -> -> ->].
    + apply NoDup_filter. eapply NoDup_fmap_1, real_edges_NoDup.
  - intros x Hx. apply list_elem_of_fmap in Hx as ([[p rot] c] & -> & He).
    apply list_elem_of_filter in He as [Hc He]. simpl in Hc.
    apply elem_of_real_edges in He as (n & Hp & Hn & Hin).
    destruct (built_leafward d Hbuilt Hsized p n rot c Hn Hin)
      as (_ & _ & cn & Hcn & Htwin & _).
    unfold fake_parents, flip_edge. simpl. apply elem_of_flat_map.
    exists cn. split.
    + apply elem_of_take. exists c. split; [done | lia].
    + unfold node_parents, Node.Id. rewrite (built_ids d Hbuilt _ _ Hcn).
      apply elem_of_app. destruct rot; [right | left];
        apply list_elem_of_fmap; eauto.
Qed.

End Counting.

Lemma harvested_pcsps_length ChildSubsplit tc :
  length (harvested_pcsps ChildSubsplit tc)
  = sum_list_with (λ e, length e.2) (PCSSCounterOf tc).
Proof.
  unfold harvested_pcsps.
  induction (PCSSCounterOf tc) as [|e l IH]; [done |].
  simpl. by rewrite length_app, !length_fmap, IH.
Qed.

(** An edge into a non-fake node carries a harvested PCSP. *)
Lemma real_edges_bound ChildSubsplit fuel tc rank d :
  harvest_ranked ChildSubsplit tc rank → harvest_sized ChildSubsplit tc →
  GPDAG_of ChildSubsplit fuel tc = Some d →
  length (filter (λ e, taxon_count_ d ≤ e.2) (real_edges d))
  ≤ length (harvested_pcsps ChildSubsplit tc).
Proof.
  intros Hranked Hsized Hd.
  destruct (GPDAG_of_built _ _ _ _ _ Hranked Hsized Hd)
    as (Hb & _ & Hsz & _).
  destruct (GPDAG_of_frame _ _ _ _ Hd) as (d0 & H0 & Hp & Hi & _).
  destruct (ProcessTrees_spec _ _ _ H0) as (_ & _ & _ & _ & _ & _ & Hharvest).
  rewrite <- (length_fmap (edge_key d)). apply NoDup_incl_length.
  - eapply sublist_NoDup; [by apply real_edges_NoDup |].
    apply fmap_sublist, sublist_filter.
  - intros k Hk. apply list_elem_of_fmap in Hk as ([[p rot] c] & -> & He).
    apply list_elem_of_filter in He as [Hc He]. simpl in Hc.
    apply (elem_of_real_edges d Hb) in He as (n & HpT & Hn & Hin).
    pose proof Hb as (_ & (Hsound & _) & _).
    destruct (Hsound p n rot c Hn Hin) as (_ & cn & Hcn & _ & Hchild).
    unfold edge_key. simpl. rewrite Hn, Hcn.
    assert (Hlen : length (Node.GetBitsetRot n rot) = 2 * taxon_count_ d).
    { pose proof (real_length d Hb Hsz p (subsplit_ n) HpT
                    (built_subsplit d _ _ Hn)) as Hl.
      destruct rot; simpl; [by rewrite RotateSubsplit_length | done]. }
    destruct (edge_child_cases d _ _ Hchild) as [Ht|[Hs Hfake]].
    + assert (Ht0 : table_child d0 (Node.GetBitsetRot n rot) (subsplit_ cn)).
      { destruct Ht as (cs & Hcs & Hin'). exists cs. split; [|done].
        unfold GetChildrenSubsplits in *. by rewrite <- Hp, <- Hi. }
      destruct (Hharvest _ _ Ht0) as (cc & child & Hcc & Hch & E).
      unfold harvested_pcsps. apply elem_of_flat_map.
      exists (Node.GetBitsetRot n rot, cc). split; [done |].
      simpl. apply list_elem_of_fmap. exists child. by rewrite E.
    + exfalso.
      destruct (fake_child_is_fake (taxon_count_ d) _ Hlen Hs)
        as (t & Ht & E).
      assert (c < taxon_count_ d); [|lia].
      apply (fake_ids d Hb c cn Hcn). exists t. split; [done |].
      by rewrite Hfake, E.
Qed.

(** The count of [GeneralizedPCSPCount] on a constructed DAG. *)
Lemma GeneralizedPCSPCount_room ChildSubsplit fuel tc rank d :
  harvest_ranked ChildSubsplit tc rank → harvest_sized ChildSubsplit tc →
  GPDAG_of ChildSubsplit fuel tc = Some d →
  ∃ count, GeneralizedPCSPCount d = Some count
    ∧ size (gpcsp_indexer_ d) ≤ count
    ∧ length (rootsplits_ d) ≤ size (gpcsp_indexer_ d).
Proof.
  intros Hranked Hsized Hd.
  destruct (GPDAG_of_built _ _ _ _ _ Hranked Hsized Hd)
    as (Hb & _ & Hsz & _ & Hroots).
  destruct (GPDAG_of_frame _ _ _ _ Hd) as (d0 & H0 & _ & _ & Hc & _).
  destruct (ProcessTrees_exact _ _ _ H0) as (Hcount & _).
  pose proof (real_edges_bound _ _ _ _ _ Hranked Hsized Hd) as Hreal.
  pose proof (fake_edges_bound d Hb Hsz) as Hfake.
  pose proof (indexer_size d Hb Hsz) as Hsize.
  rewrite (length_filter_split (λ e, taxon_count_ d ≤ e.2) (real_edges d))
    in Hsize.
  rewrite harvested_pcsps_length in Hreal.
  assert (HR : length (rootsplits_ d) = length (RootsplitCounterOf tc))
    by (by rewrite Hroots, length_fmap).
  eexists. split; [apply GeneralizedPCSPCount_value, (built_taxon_le d Hb) |].
  unfold RootsplitAndPCSPCount. rewrite Hc, Hcount. lia.
Qed.

(** Every range lies between the rootsplit indices and the size of the
    indexer. *)
Lemma range_in_indexer d s a b :
  indexer_built d → subsplit_to_range_ d !! s = Some (a, b) →
  length (rootsplits_ d) ≤ a ∧ a < b ∧ b ≤ size (gpcsp_indexer_ d).
Proof.
  intros (Hnum & [Hr1 Hr2] & _ & Hch) Hs.
  destruct (Hr2 s a b Hs) as (n & rot & Hn & -> & Hne & ->).
  destruct (Hr1 n rot Hn Hne) as (a' & Ha' & Hj).
  assert (a' = a) as -> by congruence.
  apply elem_of_drop_lookup in Hn as (p & Hp & Hn).
  assert (Hidx : ∀ j c, Node.Leafward rot n !! j = Some c →
            length (rootsplits_ d) ≤ a + j < size (gpcsp_indexer_ d)).
  { intros j c Hc.
    destruct (Hch p n rot c Hn Hp) as [cn Hcn];
      [by eapply list_elem_of_lookup_2 |].
    specialize (Hj j c cn Hc Hcn). split.
    - assert (Hk : Node.GetBitsetRot n rot +b subsplit_ cn ∈ edge_keys d).
      { apply elem_of_edge_keys. exists p, n, rot, c, cn.
        split_and!; [done | done | by eapply list_elem_of_lookup_2
                    | done | done]. }
      apply list_elem_of_lookup in Hk as [i Hi].
      assert (Hk : gpcsp_indexer_ d !! (Node.GetBitsetRot n rot +b subsplit_ cn)
                   = Some (length (root_keys d) + i)).
      { apply Hnum. unfold indexer_keys. rewrite lookup_app_r by lia.
        by replace (length (root_keys d) + i - length (root_keys d)) with i
          by lia. }
      rewrite Hk in Hj. simplify_eq.
      unfold root_keys in Hj. rewrite length_fmap in Hj. lia.
    - rewrite (numbered_size _ _ Hnum).
      apply (numbered_range _ _ (a + j) Hnum). eauto. }
  destruct (Node.Leafward rot n) as [|c l _] eqn:El using rev_ind; [done |].
  pose proof (Hidx 0) as H0. pose proof (Hidx (length l) c) as Hl.
  rewrite lookup_app_r, Nat.sub_diag in Hl by lia.
  specialize (Hl eq_refl). rewrite length_app. simpl.
  destruct l as [|c0 l]; simpl in *.
  - specialize (H0 c eq_refl). lia.
  - specialize (H0 c0 eq_refl). lia.
Qed.

(** The ranges of two sides do not overlap. *)
Lemma ranges_disjoint d s1 s2 a1 b1 a2 b2 i :
  dag_built d → tables_sized d →
  subsplit_to_range_ d !! s1 = Some (a1, b1) →
  subsplit_to_range_ d !! s2 = Some (a2, b2) →
  a1 ≤ i < b1 → a2 ≤ i < b2 → s1 = s2.
Proof.
  intros Hb Hsz H1 H2 Hi1 Hi2.
  pose proof Hb as (_ & _ & (Hnum & [Hr1 Hr2] & _ & Hch)).
  assert (Hside : ∀ s a b, subsplit_to_range_ d !! s = Some (a, b) →
            a ≤ i < b →
            ∃ c, length s = 2 * taxon_count_ d
                 ∧ gpcsp_indexer_ d !! (s +b c) = Some i).
  { intros s a b Hs Hi.
    destruct (Hr2 s a b Hs) as (n & rot & Hn & -> & Hne & ->).
    destruct (Hr1 n rot Hn Hne) as (a' & Ha' & Hj).
    assert (a' = a) as -> by congruence.
    apply elem_of_drop_lookup in Hn as (p & Hp & Hn).
    destruct (lookup_lt_is_Some_2 (Node.Leafward rot n) (i - a)) as [c Hc];
      [lia |].
    destruct (Hch p n rot c Hn Hp) as [cn Hcn];
      [by eapply list_elem_of_lookup_2 |].
    exists (subsplit_ cn). split.
    - pose proof (real_length d Hb Hsz p (subsplit_ n) Hp
                    (built_subsplit d _ _ Hn)) as Hl.
      destruct rot; simpl; [by rewrite RotateSubsplit_length | done].
    - rewrite (Hj _ _ _ Hc Hcn). f_equal. lia. }
  destruct (Hside _ _ _ H1 Hi1) as (c1 & Hl1 & Hk1).
  destruct (Hside _ _ _ H2 Hi2) as (c2 & Hl2 & Hk2).
  pose proof (numbered_inj _ _ _ _ _ Hnum Hk1 Hk2) as E.
  apply app_inj_1 in E as [E _]; [done | lia].
Qed.

(** X20: on a constructed DAG [GeneralizedPCSPCount] completes, and the
    count it returns has room for every parameter: it is at least the
    size of [gpcsp_indexer_], so above every index the indexer holds, at
    or above the end of every range of [subsplit_to_range_], and at least
    the number of rootsplits. *)
Theorem GeneralizedPCSPCount_bounds
    (ChildSubsplit : Bitset → Bitset → Bitset) (fuel : nat)
    (tc : RootedTreeCollection) (rank : Bitset → nat) (d : GPDAG)
    (Hranked : harvest_ranked ChildSubsplit tc rank)
    (Hsized : harvest_sized ChildSubsplit tc)
    (Hd : GPDAG_of ChildSubsplit fuel tc = Some d) :
  ∃ count, GeneralizedPCSPCount d = Some count
    ∧ size (gpcsp_indexer_ d) ≤ count
    ∧ (∀ k i, gpcsp_indexer_ d !! k = Some i → i < count)
    ∧ (∀ s a b, subsplit_to_range_ d !! s = Some (a, b) → b ≤ count)
    ∧ length (rootsplits_ d) ≤ count.
Proof.
  destruct (GeneralizedPCSPCount_room _ _ _ _ _ Hranked Hsized Hd)
    as (count & Hcount & Hle & HR).
  pose proof (GPDAG_of_indexer _ _ _ _ Hd) as Hix.
  exists count. split_and!; [done | done | | | lia].
  - intros k i Hk. destruct Hix as (Hnum & _).
    assert (i < size (gpcsp_indexer_ d)); [|lia].
    rewrite (numbered_size _ _ Hnum).
    apply (numbered_range _ _ i Hnum). by exists k.
  - intros s a b Hs. destruct (range_in_indexer d s a b Hix Hs). lia.
Qed.

Lemma GeneralizedPCSPCount_bounds_witness :
  let d := Examples.dag_of Examples.shared_root in
  harvest_ranked Examples.ChildSubsplit Examples.shared_root popcount
  ∧ harvest_sized Examples.ChildSubsplit Examples.shared_root
  ∧ GPDAG_of Examples.ChildSubsplit 16 Examples.shared_root = Some d
  ∧ ∃ count, GeneralizedPCSPCount d = Some count
      ∧ size (gpcsp_indexer_ d) ≤ count
      ∧ (∀ k i, gpcsp_indexer_ d !! k = Some i → i < count)
      ∧ (∀ s a b, subsplit_to_range_ d !! s = Some (a, b) → b ≤ count)
      ∧ length (rootsplits_ d) ≤ count.
Proof.
  intros d.
  split_and!; [apply shared_root_harvest | apply shared_root_harvest
               | exact dag_of_shared_root |].
  exact (GeneralizedPCSPCount_bounds Examples.ChildSubsplit 16
           Examples.shared_root popcount d (proj1 shared_root_harvest)
           (proj2 shared_root_harvest) dag_of_shared_root).
Defined.

(** ** The uniform parameter vector *)

Lemma size_t_sub_le (a b : nat) :
  a ≤ b → (N.of_nat b < size_t_modulus)%N → size_t_sub b a = N.of_nat (b - a).
Proof.
  intros Hab Hb. replace b with (a + (b - a)) at 1 by lia.
  apply size_t_sub_small. by replace (a + (b - a)) with b by lia.
Qed.

Section Fill.
Context {double : Type} (one_over : N → double).



(** Filling blocks that lie inside the vector and overlap only when they
    are equal: every block holds its own value, the rest is unchanged. *)
Lemma fill_ranges (ranges : list (Bitset * (nat * nat))) (q0 : list double) :
  (∀ e, e ∈ ranges →
     e.2.1 ≤ e.2.2 ≤ length q0 ∧ (N.of_nat e.2.2 < size_t_modulus)%N) →
  (∀ e1 e2 i, e1 ∈ ranges → e2 ∈ ranges →
     in_range i e1 → in_range i e2 → e1.2 = e2.2) →
  ∃ q, foldM (fill_step one_over) ranges q0 = Some q ∧ length q = length q0
    ∧ (∀ i, (∀ e, e ∈ ranges → ¬ in_range i e) → q !! i = q0 !! i)
    ∧ (∀ e i, e ∈ ranges → in_range i e →
         q !! i = Some (one_over (N.of_nat (e.2.2 - e.2.1)))).
Proof.
  induction ranges as [|e l IH] using rev_ind; intros Hin Hdis.
  - exists q0. split_and!; [done | done | done |].
    intros e i He. by apply elem_of_nil in He.
  - destruct IH as (q & Hq & Hlen & Hout & Hval).
    { intros e' He'. apply Hin. set_solver. }
    { intros e1 e2 i H1 H2. apply Hdis; set_solver. }
    destruct (Hin e) as [[Hab Hb] Hfit]; [set_solver |].
    rewrite foldM_snoc, Hq. simpl. unfold fill_step at 1, segment_assign.
    rewrite (size_t_sub_le _ _ Hab Hfit), Nat2N.id.
    rewrite decide_True by lia.
    eexists. split; [done |].
    split_and!.
    + by rewrite length_inserts.
    + intros i Hi.
      assert (Hie : ¬ in_range i e) by (apply Hi; set_solver).
      unfold in_range in Hie.
      destruct (decide (i < e.2.1)).
      * rewrite list_lookup_inserts_lt by done. apply Hout.
        intros e' He'. apply Hi. set_solver.
      * rewrite list_lookup_inserts_ge by (rewrite length_replicate; lia).
        apply Hout. intros e' He'. apply Hi. set_solver.
    + intros e' i He' Hi.
      destruct (decide (in_range i e)) as [Hie|Hie].
      * assert (E : e'.2 = e.2) by (apply (Hdis e' e i); set_solver).
        rewrite E. unfold in_range in Hie.
        rewrite list_lookup_inserts by (rewrite ?length_replicate; lia).
        apply lookup_replicate_2. lia.
      * apply elem_of_app in He' as [He'|He'];
          [|apply list_elem_of_singleton in He'; by subst].
        unfold in_range in Hie.
        destruct (decide (i < e.2.1)).
        -- rewrite list_lookup_inserts_lt by done. by apply Hval.
        -- rewrite list_lookup_inserts_ge by (rewrite length_replicate; lia).
           by apply Hval.
Qed.

(** The result does not depend on the order of the blocks. *)
Lemma fill_ranges_perm (ranges ranges' : list (Bitset * (nat * nat)))
    (q0 : list double) :
  ranges ≡ₚ ranges' →
  (∀ e, e ∈ ranges →
     e.2.1 ≤ e.2.2 ≤ length q0 ∧ (N.of_nat e.2.2 < size_t_modulus)%N) →
  (∀ e1 e2 i, e1 ∈ ranges → e2 ∈ ranges →
     in_range i e1 → in_range i e2 → e1.2 = e2.2) →
  foldM (fill_step one_over) ranges q0 = foldM (fill_step one_over) ranges' q0.
Proof.
  intros Hp Hin Hdis.
  destruct (fill_ranges ranges q0 Hin Hdis) as (q & -> & Hl & Hout & Hval).
  destruct (fill_ranges ranges' q0) as (q' & -> & Hl' & Hout' & Hval').
  { intros e He. apply Hin. by rewrite Hp. }
  { intros e1 e2 i H1 H2. apply Hdis; by rewrite Hp. }
  f_equal. apply list_eq. intros i.
  destruct (decide (Exists (in_range i) ranges)) as [Hex|Hex].
  - apply Exists_exists in Hex as (e & He & Hi).
    rewrite (Hval e i He Hi). symmetry. apply Hval'; [by rewrite <- Hp | done].
  - rewrite Exists_exists in Hex. rewrite Hout, Hout'; [done | |].
    + intros e He Hi. apply Hex. exists e. split; [by rewrite Hp | done].
    + intros e He Hi. apply Hex. eauto.
Qed.
End Fill.

(** X21: on a constructed DAG whose indexer size fits in [size_t],
    [BuildUniformQ] completes (no segment leaves the vector) with a vector
    of [GeneralizedPCSPCount] entries, the same one in whatever order the
    entries of [subsplit_to_range_] are visited. The entries below the
    number [R] of rootsplits are [1. / R]; the entry at the index of the
    PCSP of a leafward edge is [1. / k], [k] the number of children of the
    edge's side of its parent; the entries from the size of the indexer on
    stay [1.]. *)
Theorem BuildUniformQ_uniform {double : Type} (one : double)
    (one_over : N → double)
    (ChildSubsplit : Bitset → Bitset → Bitset) (fuel : nat)
    (tc : RootedTreeCollection) (rank : Bitset → nat) (d : GPDAG)
    (Hranked : harvest_ranked ChildSubsplit tc rank)
    (Hsized : harvest_sized ChildSubsplit tc)
    (Hd : GPDAG_of ChildSubsplit fuel tc = Some d)
    (Hfit : (N.of_nat (size (gpcsp_indexer_ d)) < size_t_modulus)%N) :
  ∃ count q, GeneralizedPCSPCount d = Some count
    ∧ BuildUniformQ one one_over d = Some q
    ∧ (∀ ranges, ranges ≡ₚ map_to_list (subsplit_to_range_ d) →
         BuildUniformQ_in one one_over ranges d = Some q)
    ∧ length q = count
    ∧ (∀ i, i < length (rootsplits_ d) →
         q !! i = Some (one_over (N.of_nat (length (rootsplits_ d)))))
    ∧ (∀ p n rot j c cn, taxon_count_ d ≤ p → dag_nodes_ d !! p = Some n →
         Node.Leafward rot n !! j = Some c → dag_nodes_ d !! c = Some cn →
         ∃ i, gpcsp_indexer_ d
                !! (Node.GetBitsetRot n rot +b Node.GetBitset cn) = Some i
              ∧ q !! i = Some (one_over
                                 (N.of_nat (length (Node.Leafward rot n)))))
    ∧ (∀ i, size (gpcsp_indexer_ d) ≤ i < count → q !! i = Some one).
Proof.
  destruct (GeneralizedPCSPCount_room _ _ _ _ _ Hranked Hsized Hd)
    as (count & Hcount & Hle & HR).
  destruct (GPDAG_of_built _ _ _ _ _ Hranked Hsized Hd)
    as (Hb & _ & Hsz & _).
  pose proof (GPDAG_of_indexer _ _ _ _ Hd) as Hix.
  set (R := length (rootsplits_ d)) in *.
  set (q1 := list_inserts 0 (replicate R (one_over (N.of_nat R)))
               (replicate count one)).
  assert (Hq1 : length q1 = count)
    by (unfold q1; by rewrite length_inserts, length_replicate).
  assert (Hunfold : ∀ ranges, BuildUniformQ_in one one_over ranges d
                              = foldM (fill_step one_over) ranges q1).
  { intros ranges.
    assert (E : segment_assign (replicate count one) 0 (N.of_nat R)
                  (one_over (N.of_nat R)) = Some q1).
    { unfold segment_assign. rewrite Nat2N.id.
      by rewrite decide_True by (rewrite length_replicate; lia). }
    unfold BuildUniformQ_in. rewrite Hcount. simpl. fold R. by rewrite E. }
  set (ranges0 := map_to_list (subsplit_to_range_ d)).
  assert (Hin : ∀ e, e ∈ ranges0 →
            R ≤ e.2.1 ∧ e.2.1 < e.2.2 ∧ e.2.2 ≤ size (gpcsp_indexer_ d)).
  { intros [s [a b]] He. apply elem_of_map_to_list in He.
    exact (range_in_indexer d s a b Hix He). }
  assert (Hdis : ∀ e1 e2 i, e1 ∈ ranges0 → e2 ∈ ranges0 →
            in_range i e1 → in_range i e2 → e1.2 = e2.2).
  { intros [s1 [a1 b1]] [s2 [a2 b2]] i H1 H2 Hi1 Hi2.
    apply elem_of_map_to_list in H1, H2. unfold in_range in *. simpl in *.
    assert (s1 = s2) as -> by (eapply (ranges_disjoint d); eauto).
    congruence. }
  assert (Hin' : ∀ e, e ∈ ranges0 →
            e.2.1 ≤ e.2.2 ≤ length q1 ∧ (N.of_nat e.2.2 < size_t_modulus)%N).
  { intros e He. destruct (Hin e He) as (? & ? & ?). lia. }
  destruct (fill_ranges one_over ranges0 q1 Hin' Hdis)
    as (q & Hq & Hlen & Hout & Hval).
  exists count, q. split_and!; [done | | | lia | | |].
  - unfold BuildUniformQ. by rewrite Hunfold.
  - intros ranges Hp. rewrite Hunfold, <- Hq. symmetry.
    apply fill_ranges_perm; [done | done | done].
  - intros i Hi. rewrite Hout.
    + unfold q1.
      rewrite list_lookup_inserts
        by (rewrite ?length_replicate; lia).
      apply lookup_replicate_2. lia.
    + intros e He Hie. destruct (Hin e He) as (? & _).
      unfold in_range in Hie. lia.
  - intros p n rot j c cn Hp Hn Hc Hcn.
    destruct Hix as (_ & [Hr1 _] & _).
    destruct (Hr1 n rot) as (a & Ha & Hj).
    { apply elem_of_drop_lookup. eauto. }
    { intros E. by rewrite E in Hc. }
    exists (a + j). split; [by apply (Hj j c cn) |].
    rewrite (Hval (Node.GetBitsetRot n rot,
                   (a, a + length (Node.Leafward rot n))) (a + j)).
    + simpl. do 3 f_equal. lia.
    + by apply elem_of_map_to_list.
    + unfold in_range. simpl. apply lookup_lt_Some in Hc. lia.
  - intros i Hi. rewrite Hout.
    + unfold q1.
      rewrite list_lookup_inserts_ge by (rewrite length_replicate; lia).
      apply lookup_replicate_2. lia.
    + intros e He Hie. destruct (Hin e He) as (_ & _ & ?).
      unfold in_range in Hie. lia.
Qed.

Lemma BuildUniformQ_uniform_witness :
  let d := Examples.dag_of Examples.shared_root in
  harvest_ranked Examples.ChildSubsplit Examples.shared_root popcount
  ∧ harvest_sized Examples.ChildSubsplit Examples.shared_root
  ∧ GPDAG_of Examples.ChildSubsplit 16 Examples.shared_root = Some d
  ∧ (N.of_nat (size (gpcsp_indexer_ d)) < size_t_modulus)%N
  ∧ ∃ count q, GeneralizedPCSPCount d = Some count
      ∧ BuildUniformQ 1%Qc (λ n, Qcanon.Qcinv (Qc_of_Z (Z.of_N n))) d = Some q
      ∧ (∀ ranges, ranges ≡ₚ map_to_list (subsplit_to_range_ d) →
           BuildUniformQ_in 1%Qc (λ n, Qcanon.Qcinv (Qc_of_Z (Z.of_N n))) ranges d
           = Some q)
      ∧ length q = count
      ∧ (∀ i, i < length (rootsplits_ d) →
           q !! i = Some (Qcanon.Qcinv (Qc_of_Z (Z.of_N (N.of_nat (length (rootsplits_ d)))))))
      ∧ (∀ p n rot j c cn, taxon_count_ d ≤ p → dag_nodes_ d !! p = Some n →
           Node.Leafward rot n !! j = Some c → dag_nodes_ d !! c = Some cn →
           ∃ i, gpcsp_indexer_ d
                  !! (Node.GetBitsetRot n rot +b Node.GetBitset cn) = Some i
                ∧ q !! i
                  = Some (Qcanon.Qcinv (Qc_of_Z (Z.of_N (N.of_nat
                                    (length (Node.Leafward rot n)))))))
      ∧ (∀ i, size (gpcsp_indexer_ d) ≤ i < count → q !! i = Some 1%Qc).
Proof.
  intros d.
  assert (Hfit : (N.of_nat (size (gpcsp_indexer_ d)) < size_t_modulus)%N)
    by (vm_compute; reflexivity).
  split_and!; [apply shared_root_harvest | apply shared_root_harvest
               | exact dag_of_shared_root | exact Hfit |].
  exact (BuildUniformQ_uniform 1%Qc (λ n, Qcanon.Qcinv (Qc_of_Z (Z.of_N n)))
           Examples.ChildSubsplit 16 Examples.shared_root popcount d
           (proj1 shared_root_harvest) (proj2 shared_root_harvest)
           dag_of_shared_root Hfit).
Defined.

(** ** The symbol coding of beagle.cpp *)

Section Symbols.
Import Stdlib.Strings.Ascii.

Lemma length_list_ascii_of_string (str : string) :
  length (String.list_ascii_of_string str) = String.length str.
Proof. induction str as [|c str IH]; simpl; [done | by rewrite IH]. Qed.

Lemma GetSymbolTable_lookup (c : ascii) (x : Z) :
  beagle.GetSymbolTable !! c = Some x
  ↔ (c, x) ∈ [("A"%char, 0%Z); ("C"%char, 1%Z); ("G"%char, 2%Z);
              ("T"%char, 3%Z); ("a"%char, 0%Z); ("c"%char, 1%Z);
              ("g"%char, 2%Z); ("t"%char, 3%Z); ("-"%char, 4%Z)].
Proof.
  unfold beagle.GetSymbolTable. symmetry. apply elem_of_list_to_map.
  compute_done.
Qed.

Lemma GetSymbolTable_dom (c : ascii) :
  is_Some (beagle.GetSymbolTable !! c)
  ↔ c ∈ String.list_ascii_of_string "ACGTacgt-".
Proof.
  split.
  - intros [x Hx]. apply GetSymbolTable_lookup in Hx.
    repeat (apply elem_of_cons in Hx as [Hx|Hx];
            [injection Hx as -> ->; simpl; set_solver |]).
    by apply elem_of_nil in Hx.
  - simpl. intros Hc.
    repeat (apply elem_of_cons in Hc as [->|Hc];
            [eexists; vm_compute; reflexivity |]).
    by apply elem_of_nil in Hc.
Qed.

(** X22: [SymbolVectorOf] with the table of [GetSymbolTable] returns (does
    not abort) exactly on the strings made of the characters
    [ACGTacgt-]; the vector it returns has one symbol per character of the
    string, every symbol lies between 0 and 4, and the symbol is 4 exactly
    at the positions of the gap character. *)
Theorem SymbolVectorOf_DNA (str : string) :
  (is_Some (beagle.SymbolVectorOf str beagle.GetSymbolTable)
   ↔ ∀ c, c ∈ String.list_ascii_of_string str →
          c ∈ String.list_ascii_of_string "ACGTacgt-")
  ∧ ∀ v, beagle.SymbolVectorOf str beagle.GetSymbolTable = Some v →
      length v = String.length str
      ∧ ∀ i c, String.list_ascii_of_string str !! i = Some c →
          ∃ x, v !! i = Some x ∧ beagle.GetSymbolTable !! c = Some x
               ∧ (0 ≤ x ≤ 4)%Z ∧ (x = 4%Z ↔ c = "-"%char).
Proof.
  unfold beagle.SymbolVectorOf. split.
  - etrans; [apply mapM_is_Some |]. rewrite Forall_forall.
    split; intros H c Hc; apply GetSymbolTable_dom, H, Hc.
  - intros v Hv. apply mapM_Some in Hv.
    split.
    + rewrite <- length_list_ascii_of_string.
      symmetry. by eapply Forall2_length.
    + intros i c Hc.
      destruct (Forall2_lookup_l _ _ _ _ _ Hv Hc) as (x & Hx & Hcx).
      exists x. refine (conj Hx (conj Hcx _)).
      apply GetSymbolTable_lookup in Hcx.
      repeat (apply elem_of_cons in Hcx as [Hcx|Hcx];
              [injection Hcx as -> ->; split; [lia | done] |]).
      by apply elem_of_nil in Hcx.
Qed.

Lemma SymbolVectorOf_DNA_witness :
  beagle.SymbolVectorOf "AC-gt" beagle.GetSymbolTable
  = Some [0; 1; 4; 2; 3]%Z
  ∧ length [0; 1; 4; 2; 3]%Z = String.length "AC-gt"
  ∧ ¬ is_Some (beagle.SymbolVectorOf "ACNT" beagle.GetSymbolTable).
Proof.
  assert (H : beagle.SymbolVectorOf "AC-gt" beagle.GetSymbolTable
              = Some [0; 1; 4; 2; 3]%Z) by (vm_compute; reflexivity).
  split_and!; [exact H | exact (proj1 (proj2 (SymbolVectorOf_DNA "AC-gt") _ H))
              |].
  intros Hs. apply (proj1 (SymbolVectorOf_DNA "ACNT")) with (c := "N"%char)
    in Hs; [|simpl; set_solver].
  simpl in Hs. set_solver.
Defined.
End Symbols.
